(** * Convention index engine of laravel-enhanced: a shallow embedding

    The extension analyses a Laravel project with line- and file-level
    regular expressions.  This development embeds the extractors as Rocq
    functions over [string] (the sources' JavaScript strings, restricted to
    the ASCII range where code units and characters coincide):

    - [JsString]  : the string primitives the sources call;
    - [Regex]     : a backtracking matcher with capture groups, following the
                    priority order of the ECMAScript matcher, with the
                    [match] / global [exec] drivers;
    - [JsMap], [JsObject] : insertion-ordered [Map]s and plain objects;
    - [Routes]    : the route extractor (enhancedRouteInlayProvider);
    - [Schema]    : migrations and models (intelligentCompletionProvider);
    - [Translations] : catalog and usage scanner (translationProvider);
    - [Validation]   : rule registry, diagnostics and quick fixes;
    - [RouteQueries], [RouteList] : the route lookups and the route list;
    - [TranslationQueries], [TranslationActions], [TranslationFiles] :
                    catalog queries, diagnostics, quick fixes and the file
                    a new translation is written to;
    - [Views], [ModelCompletions], [Requests] : views, attribute
                    completions and form requests;
    - [ValidationDiagnostics], [RuleSuggestions], [ValidationCommands] :
                    diagnostics per line, suggestions and the commands on
                    validation rules.

    The embedding comes first, then the vocabulary of the specification with
    the sample projects, then the properties C1 to C10 with their lemmas,
    then the properties X1 to X26 of the code around them.
    A file system is an input: a directory is the list of its entries, a
    file its content, with [None] where the source's read would throw.       *)

From Stdlib Require Import Bool Arith PeanoNat Lia List Ascii String NArith ZArith.
From Stdlib Require Import DecimalString Permutation Sorted RelationClasses.
From Stdlib Require OrderedTypeEx.
Import ListNotations.
Set Warnings "-register-all".
Open Scope string_scope.
Open Scope list_scope.
Open Scope nat_scope.

(* ================================================================== *)
(** ** JavaScript string primitives                                     *)
(* ================================================================== *)

Module JsString.

Definition nl : ascii := "010"%char.
Definition dquote : ascii := "034"%char.
Definition squote : ascii := "039"%char.
Definition bquote : ascii := "096"%char.
Definition bslash : ascii := "092"%char.

Definition str1 (c : ascii) : string := String c EmptyString.

(** [s.includes(sub)] *)
Definition includes (s sub : string) : bool :=
  match index 0 sub s with Some _ => true | None => false end.

(** [s.indexOf(sub)], [None] standing for -1 *)
Definition indexOf (s sub : string) : option nat := index 0 sub s.

Definition drop (n : nat) (s : string) : string :=
  substring n (length s - n) s.

(** [s.endsWith(suf)] *)
Definition endsWith (s suf : string) : bool :=
  (length suf <=? length s) && String.eqb (drop (length s - length suf) s) suf.

(** [s.substring(1)] *)
Definition substring1 (s : string) : string :=
  match s with EmptyString => EmptyString | String _ t => t end.

(** [s.replace(pat, rep)] with a string pattern: only the first occurrence
    is replaced ([rep] without dollar patterns). *)
Definition replace_first (pat rep s : string) : string :=
  match index 0 pat s with
  | None => s
  | Some i => (substring 0 i s ++ rep ++ drop (i + length pat) s)%string
  end.

Definition is_upper (c : ascii) : bool :=
  let n := nat_of_ascii c in (65 <=? n) && (n <=? 90).
Definition is_lower (c : ascii) : bool :=
  let n := nat_of_ascii c in (97 <=? n) && (n <=? 122).
Definition is_digit (c : ascii) : bool :=
  let n := nat_of_ascii c in (48 <=? n) && (n <=? 57).
(** the ASCII members of the [\s] class, which [trim] strips as well *)
Definition is_space (c : ascii) : bool :=
  let n := nat_of_ascii c in ((9 <=? n) && (n <=? 13)) || (n =? 32).
(** [\w] *)
Definition is_word (c : ascii) : bool :=
  is_upper c || is_lower c || is_digit c || Ascii.eqb c "_"%char.

(** [toLowerCase] and [toUpperCase] on text of the ASCII range: the letters
    A to Z and a to z change, one for one, and every other character stays.
    Outside that range JavaScript changes further letters, some into several
    characters; properties of the two functions are stated for ASCII text. *)
Definition lower_char (c : ascii) : ascii :=
  if is_upper c then ascii_of_nat (nat_of_ascii c + 32) else c.
Definition upper_char (c : ascii) : ascii :=
  if is_lower c then ascii_of_nat (nat_of_ascii c - 32) else c.

Fixpoint map_chars (f : ascii -> ascii) (s : string) : string :=
  match s with
  | EmptyString => EmptyString
  | String c t => String (f c) (map_chars f t)
  end.

Definition toLowerCase : string -> string := map_chars lower_char.
Definition toUpperCase : string -> string := map_chars upper_char.

Fixpoint trimStart (s : string) : string :=
  match s with
  | String c t => if is_space c then trimStart t else s
  | EmptyString => EmptyString
  end.

(** [trimEnd]: a character is kept when it is not a space or when something
    is kept after it. *)
Fixpoint trimEnd (s : string) : string :=
  match s with
  | EmptyString => EmptyString
  | String c t =>
      match trimEnd t with
      | EmptyString => if is_space c then EmptyString else str1 c
      | t' => String c t'
      end
  end.

Definition trim (s : string) : string := trimEnd (trimStart s).

(** [s.split(c)] for a one-character separator: never the empty list. *)
Fixpoint split (sep : ascii) (s : string) : list string :=
  match s with
  | EmptyString => [EmptyString]
  | String c t =>
      if Ascii.eqb c sep then EmptyString :: split sep t
      else match split sep t with
           | h :: r => String c h :: r
           | [] => [str1 c]
           end
  end.

(** [s.replace(/[...]/g, '')] for a character class: every member goes. *)
Fixpoint remove_chars (p : ascii -> bool) (s : string) : string :=
  match s with
  | EmptyString => EmptyString
  | String c t => if p c then remove_chars p t else String c (remove_chars p t)
  end.

(** JavaScript truthiness of a string *)
Definition truthy (s : string) : bool :=
  match s with EmptyString => false | _ => true end.

(** a number in a template literal *)
Definition string_of_nat (n : nat) : string :=
  NilEmpty.string_of_uint (Nat.to_uint n).

(** [arr.join(sep)] is [String.concat]; lines of a file are joined by LF. *)
Definition unlines (l : list string) : string := concat (str1 nl) l.

End JsString.

(* ================================================================== *)
(** ** Regular expressions                                              *)
(* ================================================================== *)

(** The sources' regular expressions use literals, character classes,
    sequence, alternation, greedy and lazy repetition, capture groups, one
    positive lookahead and the end anchor.  [run] is a backtracking matcher in
    continuation-passing style: alternatives are tried left to right, a greedy
    star tries one more iteration before leaving, a lazy star leaves first,
    and an iteration that consumes nothing is refused, as in ECMAScript's
    RepeatMatcher. *)

Module Regex.
Import JsString.

Inductive re : Type :=
| Eps
| Chr (c : ascii)
| Cls (p : ascii -> bool)
| Seq (a b : re)
| Alt (a b : re)
| Star (r : re)
| LazyStar (r : re)
| Grp (n : nat) (r : re)
| Ahead (r : re)
| Eos.

Definition caps := list (nat * string).

Definition cont (R : Type) := string -> caps -> option R.

Definition orelse {R : Type} (a b : option R) : option R :=
  match a with Some x => Some x | None => b end.

(** The repetition loops.  [body] matches one iteration and hands the rest to
    its continuation; [fuel] bounds the number of iterations, and since every
    iteration must consume a character, the length of the input plus one is
    never exhausted. *)
Fixpoint star_loop {R : Type} (body : string -> caps -> cont R -> option R)
  (k : cont R) (fuel : nat) (s0 : string) (c0 : caps) {struct fuel} : option R :=
  match fuel with
  | 0 => k s0 c0
  | S f =>
      orelse
        (body s0 c0
           (fun s1 c1 =>
              if length s1 <? length s0 then star_loop body k f s1 c1 else None))
        (k s0 c0)
  end.

Fixpoint lazy_loop {R : Type} (body : string -> caps -> cont R -> option R)
  (k : cont R) (fuel : nat) (s0 : string) (c0 : caps) {struct fuel} : option R :=
  match fuel with
  | 0 => k s0 c0
  | S f =>
      orelse
        (k s0 c0)
        (body s0 c0
           (fun s1 c1 =>
              if length s1 <? length s0 then lazy_loop body k f s1 c1 else None))
  end.

Fixpoint run {R : Type} (r : re) (s : string) (c : caps) (k : cont R)
  {struct r} : option R :=
  match r with
  | Eps => k s c
  | Chr a =>
      match s with
      | String b t => if Ascii.eqb a b then k t c else None
      | EmptyString => None
      end
  | Cls p =>
      match s with
      | String b t => if p b then k t c else None
      | EmptyString => None
      end
  | Seq a b => run a s c (fun s1 c1 => run b s1 c1 k)
  | Alt a b => orelse (run a s c k) (run b s c k)
  | Star r1 =>
      star_loop (fun s0 c0 k0 => run r1 s0 c0 k0) k (S (length s)) s c
  | LazyStar r1 =>
      lazy_loop (fun s0 c0 k0 => run r1 s0 c0 k0) k (S (length s)) s c
  | Grp n r1 =>
      run r1 s c
        (fun s1 c1 => k s1 ((n, substring 0 (length s - length s1) s) :: c1))
  | Ahead r1 =>
      match run r1 s c (fun s1 c1 => Some c1) with
      | Some c1 => k s c1
      | None => None
      end
  | Eos =>
      match s with
      | EmptyString => k s c
      | String _ _ => None
      end
  end.

(** The result of a successful match: [m_index] is [match.index], [m_text]
    is [match[0]], [m_rest] is the input after the match. *)
Record mres : Type := MRes {
  m_index : nat;
  m_text : string;
  m_caps : caps;
  m_rest : string
}.

(** [match[n]]: [None] is [undefined] (the group took no part). *)
Fixpoint lookup (n : nat) (c : caps) : option string :=
  match c with
  | [] => None
  | (m, v) :: t => if n =? m then Some v else lookup n t
  end.

Definition cap (m : mres) (n : nat) : option string := lookup n (m_caps m).

(** [match[n]] where the source uses it as a string *)
Definition capd (m : mres) (n : nat) : string :=
  match cap m n with Some v => v | None => EmptyString end.

(** try to match at the front of [s] *)
Definition at_front (r : re) (i : nat) (s : string) : option mres :=
  run r s [] (fun s1 c1 =>
    Some (MRes i (substring 0 (length s - length s1) s) c1 s1)).

(** leftmost match in [s], which starts at offset [i] of the whole input *)
Fixpoint search (r : re) (i : nat) (s : string) {struct s} : option mres :=
  match at_front r i s with
  | Some m => Some m
  | None =>
      match s with
      | EmptyString => None
      | String _ t => search r (S i) t
      end
  end.

(** [s.match(r)] for a regex without the global flag *)
Definition js_match (r : re) (s : string) : option mres := search r 0 s.

(** [r.test(s)] *)
Definition test (r : re) (s : string) : bool :=
  match js_match r s with Some _ => true | None => false end.

(** The loop [while ((match = r.exec(s)) !== null)] of a global regex: the
    next search starts where the last match ended.  A match of length zero
    would leave [lastIndex] in place and the source's loop would not end; the
    regexes of this program are not nullable ([nullable] below), so the last
    branch is not taken for them and the fuel is never exhausted
    ([exec_loop_step], [exec_loop_fuel], [global_regexes_consume]). *)
Fixpoint exec_loop (fuel : nat) (r : re) (i : nat) (s : string) : list mres :=
  match fuel with
  | 0 => []
  | S f =>
      match search r i s with
      | None => []
      | Some m =>
          if length (m_rest m) <? length s
          then m :: exec_loop f r (m_index m + length (m_text m)) (m_rest m)
          else [m]
      end
  end.

Definition exec_all (r : re) (s : string) : list mres :=
  exec_loop (S (length s)) r 0 s.

(** can [r] match the empty string? (an over-approximation) *)
Fixpoint nullable (r : re) : bool :=
  match r with
  | Eps => true
  | Chr _ => false
  | Cls _ => false
  | Seq a b => nullable a && nullable b
  | Alt a b => nullable a || nullable b
  | Star _ => true
  | LazyStar _ => true
  | Grp _ r1 => nullable r1
  | Ahead _ => true
  | Eos => true
  end.

(** *** Concrete syntax helpers *)

Fixpoint lit (s : string) : re :=
  match s with
  | EmptyString => Eps
  | String c EmptyString => Chr c
  | String c t => Seq (Chr c) (lit t)
  end.

Definition plus (r : re) : re := Seq r (Star r).
Definition opt (r : re) : re := Alt r Eps.

Fixpoint seqs (l : list re) : re :=
  match l with
  | [] => Eps
  | [r] => r
  | r :: t => Seq r (seqs t)
  end.

Fixpoint alts (l : list re) : re :=
  match l with
  | [] => Eps
  | [r] => r
  | r :: t => Alt r (alts t)
  end.

Fixpoint mem_char (c : ascii) (s : string) : bool :=
  match s with
  | EmptyString => false
  | String d t => Ascii.eqb c d || mem_char c t
  end.

(** the three quote characters (single, double, back) *)
Definition is_quote (c : ascii) : bool :=
  Ascii.eqb c squote || Ascii.eqb c dquote || Ascii.eqb c bquote.
(** single or double quote *)
Definition is_quote2 (c : ascii) : bool :=
  Ascii.eqb c squote || Ascii.eqb c dquote.

Definition quote : re := Cls is_quote.
Definition not_quote : re := Cls (fun c => negb (is_quote c)).
Definition ws : re := Star (Cls is_space).          (* \s* *)
Definition ws1 : re := plus (Cls is_space).         (* \s+ *)
Definition word1 : re := plus (Cls is_word).        (* \w+ *)
Definition none_of (s : string) : re := Cls (fun c => negb (mem_char c s)).

End Regex.

(* ================================================================== *)
(** ** Maps and plain objects                                           *)
(* ================================================================== *)

(** A JavaScript [Map] with string keys: iteration follows the order in which
    the keys were first inserted, and [set] on a present key keeps its place. *)

Module JsMap.

Definition t (V : Type) : Type := list (string * V).

Definition empty {V : Type} : t V := [].

Fixpoint get {V : Type} (k : string) (m : t V) : option V :=
  match m with
  | [] => None
  | (k1, v) :: r => if String.eqb k k1 then Some v else get k r
  end.

Definition has {V : Type} (k : string) (m : t V) : bool :=
  match get k m with Some _ => true | None => false end.

Fixpoint set {V : Type} (k : string) (v : V) (m : t V) : t V :=
  match m with
  | [] => [(k, v)]
  | (k1, v1) :: r =>
      if String.eqb k k1 then (k1, v) :: r else (k1, v1) :: set k v r
  end.

Definition keys {V : Type} (m : t V) : list string := map fst m.
Definition values {V : Type} (m : t V) : list V := map snd m.

(** [if (!m.has(k)) m.set(k, []); m.get(k).push(x)] *)
Definition push_at {V : Type} (k : string) (x : V) (m : t (list V)) : t (list V) :=
  match get k m with
  | Some l => set k (l ++ [x]) m
  | None => set k [x] m
  end.

End JsMap.

(** A plain object used as a dictionary.  Reading a key that is not an own
    property reaches [Object.prototype]; property enumeration lists the array
    indices first, in ascending order, then the other keys in creation order;
    assigning a string to [__proto__] creates no property. *)

Module JsObject.

Definition proto_names : list string :=
  [ "constructor"; "__defineGetter__"; "__defineSetter__"; "hasOwnProperty";
    "__lookupGetter__"; "__lookupSetter__"; "isPrototypeOf";
    "propertyIsEnumerable"; "toString"; "valueOf"; "__proto__";
    "toLocaleString" ].

Definition in_proto (k : string) : bool := existsb (String.eqb k) proto_names.

(** the result of [obj[k]] on an object literal whose own values are strings *)
Inductive value : Type :=
| Own (v : string)         (* an own property *)
| Inherited (k : string)   (* [Object.prototype[k]]: a function or object *)
| Undefined.

Definition read (own : list (string * string)) (k : string) : value :=
  match JsMap.get k own with
  | Some v => Own v
  | None => if in_proto k then Inherited k else Undefined
  end.

Fixpoint digits_value (s : string) (acc : N) : option N :=
  match s with
  | EmptyString => Some acc
  | String c t =>
      if JsString.is_digit c
      then digits_value t (acc * 10 + N.of_nat (nat_of_ascii c - 48))%N
      else None
  end.

(** array index: a canonical decimal numeral below 2^32 - 1 *)
Definition array_index (k : string) : option N :=
  match k with
  | EmptyString => None
  | String c t =>
      if Ascii.eqb c "0"%char && negb (String.eqb t EmptyString) then None
      else match digits_value k 0%N with
           | Some n => if (n <? 4294967295)%N then Some n else None
           | None => None
           end
  end.

(** An object built by assignments [o[k] = v] with string values: the index
    keys, kept sorted, and the named keys in creation order. *)
Record t : Type := Obj {
  idx : list (N * string * string);
  named : list (string * string)
}.

Definition empty : t := Obj [] [].

Fixpoint insert_idx (n : N) (k v : string) (l : list (N * string * string))
  : list (N * string * string) :=
  match l with
  | [] => [(n, k, v)]
  | (n1, k1, v1) :: r =>
      if (n =? n1)%N then (n1, k1, v) :: r
      else if (n <? n1)%N then (n, k, v) :: l
      else (n1, k1, v1) :: insert_idx n k v r
  end.

(** [o[k] = v] *)
Definition assign (k v : string) (o : t) : t :=
  if String.eqb k "__proto__" then o
  else match array_index k with
       | Some n => Obj (insert_idx n k v (idx o)) (named o)
       | None => Obj (idx o) (JsMap.set k v (named o))
       end.

(** [Object.entries(o)] *)
Definition entries (o : t) : list (string * string) :=
  map (fun e => (snd (fst e), snd e)) (idx o) ++ named o.

End JsObject.

(* ================================================================== *)
(** ** Route extractor (EnhancedRouteInlayProvider)                     *)
(* ================================================================== *)

Module Routes.
Import JsString Regex.

Record RouteInfo : Type := MkRoute {
  method : list string;
  uri : string;
  name : option string;
  action : option string;
  controller : option string;
  controllerMethod : option string;
  middleware : list string;
  filePath : string;
  line : nat;
  column : Z
}.

Definition RouteTable : Type := JsMap.t (list RouteInfo).

(** the provider's three maps *)
Record Provider : Type := MkProvider {
  routes : RouteTable;
  controllerRoutes : RouteTable;
  middlewareMap : JsMap.t (list string)
}.

(** [(get|post|put|patch|delete|options|head|any)] *)
Definition verbs : re :=
  alts [lit "get"; lit "post"; lit "put"; lit "patch"; lit "delete";
        lit "options"; lit "head"; lit "any"].

(** [Route::(verb)\s*\(\s*Q([^Q]+)Q\s*,\s*] with Q a quote character *)
Definition route_head (kinds : re) : list re :=
  [lit "Route::"; Grp 1 kinds; ws; Chr "("; ws;
   quote; Grp 2 (plus not_quote); quote; ws; Chr ","; ws].

(** quoted [controller@method] action *)
Definition re_action_string : re :=
  seqs (route_head verbs ++
        [quote; Grp 3 (plus (Cls (fun c => negb (is_quote c || Ascii.eqb c "@"%char))));
         Chr "@"; Grp 4 (plus not_quote); quote]).

(** [[Controller::class, 'method']] action *)
Definition re_action_array : re :=
  seqs (route_head verbs ++
        [Chr "["; ws; Grp 3 (plus (none_of ":")); lit "::class"; ws; Chr ",";
         ws; quote; Grp 4 (plus not_quote); quote; ws; Chr "]"]).

(** [Route::(resource|apiResource)(..., Controller::class] *)
Definition re_resource : re :=
  seqs (route_head (alts [lit "resource"; lit "apiResource"]) ++
        [Grp 3 (plus (none_of ":")); lit "::class"]).

(** closure action *)
Definition re_closure : re :=
  seqs (route_head verbs ++ [lit "function"]).

(** [->name('...')] *)
Definition re_name : re :=
  seqs [lit "->name"; ws; Chr "("; ws; quote; Grp 1 (plus not_quote); quote;
        ws; Chr ")"].

Definition re_inline_mw : re :=
  seqs [lit "->middleware"; ws; Chr "("; ws; quote; Grp 1 (plus not_quote);
        quote; ws; Chr ")"].

Definition re_inline_mw_array : re :=
  seqs [lit "->middleware"; ws; Chr "("; ws; Chr "[";
        Grp 1 (plus (none_of "]")); Chr "]"].

Definition re_group_mw : re :=
  seqs [lit "'middleware'"; ws; lit "=>"; ws; Chr "[";
        Grp 1 (plus (none_of "]")); Chr "]"].

Definition re_group_prefix : re :=
  seqs [lit "'prefix'"; ws; lit "=>"; ws; Cls is_quote2;
        Grp 1 (plus (Cls (fun c => negb (is_quote2 c)))); Cls is_quote2].

(** [text.split(',').map(m => m.trim().replace(/[quotes]/g, ''))] *)
Definition middleware_names (text : string) : list string :=
  map (fun m => remove_chars is_quote2 (trim m)) (split "," text).

Definition extractInlineMiddleware (line : string) : list string :=
  match js_match re_inline_mw line with
  | Some m => [capd m 1]
  | None =>
      match js_match re_inline_mw_array line with
      | Some m => middleware_names (capd m 1)
      | None => []
      end
  end.

(** [parseRouteGroup]: the middleware array is extended in place, which the
    caller observes; [currentPrefix] is a string parameter, so the assignment
    changes the callee's variable only.  The result pairs the array after the
    call with the final value of that local variable. *)
Definition parseRouteGroup (line : string) (currentMiddleware : list string)
  (currentPrefix : string) : list string * string :=
  let mw :=
    match js_match re_group_mw line with
    | Some m => currentMiddleware ++ middleware_names (capd m 1)
    | None => currentMiddleware
    end in
  let prefix :=
    match js_match re_group_prefix line with
    | Some m => capd m 1
    | None => currentPrefix
    end in
  (mw, prefix).

Definition addRoute (route : RouteInfo) (rt : RouteTable) : RouteTable :=
  JsMap.push_at (filePath route) route rt.

(** [groupPrefix ? `${groupPrefix}/${uri}`.replace('//', '/') : uri] *)
Definition fullUri (groupPrefix declared : string) : string :=
  if truthy groupPrefix
  then replace_first "//" "/" (groupPrefix ++ "/" ++ declared)%string
  else declared.

Definition last_segment (sep : ascii) (s : string) : string :=
  last (split sep s) EmptyString.

(** [controller.split('\\').pop() || controller] *)
Definition shortController (ctl : string) : string :=
  let p := last_segment bslash ctl in
  if truthy p then p else ctl.

Definition columnOf (line : string) : Z :=
  match indexOf line "Route::" with
  | Some i => Z.of_nat i
  | None => (-1)%Z
  end.

Definition resourceMethods : list string :=
  ["GET"; "POST"; "PUT"; "PATCH"; "DELETE"].

Definition abs_diff (a b : nat) : nat := (a - b) + (b - a).

Fixpoint set_last_name (nm : string) (lineNumber : nat) (l : list RouteInfo)
  : list RouteInfo :=
  match l with
  | [] => []
  | [r] =>
      if abs_diff (line r) lineNumber <=? 2
      then [MkRoute (method r) (uri r) (Some nm) (action r) (controller r)
              (controllerMethod r) (middleware r) (filePath r) (line r)
              (column r)]
      else [r]
  | r :: t => r :: set_last_name nm lineNumber t
  end.

Definition routeMiddleware (groupMiddleware : list string) (line : string)
  : list string :=
  groupMiddleware ++ extractInlineMiddleware line.

Definition parseRouteLine (ln : string) (lineNumber : nat) (file : string)
  (groupMiddleware : list string) (groupPrefix : string) (rt : RouteTable)
  : RouteTable :=
  (* Standard routes with controller@method *)
  let rt1 :=
    match js_match re_action_string ln with
    | Some m =>
        addRoute
          (MkRoute [toUpperCase (capd m 1)] (fullUri groupPrefix (capd m 2))
             None (Some (capd m 3 ++ "@" ++ capd m 4)%string)
             (Some (capd m 3)) (Some (capd m 4))
             (routeMiddleware groupMiddleware ln) file lineNumber (columnOf ln))
          rt
    | None => rt
    end in
  (* Routes with [Controller::class, 'method'] *)
  let rt2 :=
    match js_match re_action_array ln with
    | Some m =>
        addRoute
          (MkRoute [toUpperCase (capd m 1)] (fullUri groupPrefix (capd m 2))
             None (Some (capd m 3 ++ "@" ++ capd m 4)%string)
             (Some (shortController (capd m 3))) (Some (capd m 4))
             (routeMiddleware groupMiddleware ln) file lineNumber (columnOf ln))
          rt1
    | None => rt1
    end in
  (* Resource routes *)
  let rt3 :=
    match js_match re_resource ln with
    | Some m =>
        let methods :=
          if String.eqb (capd m 1) "apiResource"
          then ["GET"; "POST"; "PUT"; "PATCH"; "DELETE"]
          else ["GET"; "POST"; "PUT"; "PATCH"; "DELETE"] in
        addRoute
          (MkRoute methods (fullUri groupPrefix (capd m 2) ++ "/{id?}")%string
             None (Some (capd m 3 ++ " (" ++ capd m 1 ++ ")")%string)
             (Some (shortController (capd m 3))) (Some "resource")
             (routeMiddleware groupMiddleware ln) file lineNumber (columnOf ln))
          rt2
    | None => rt2
    end in
  (* Closure routes *)
  let rt4 :=
    match js_match re_closure ln with
    | Some m =>
        addRoute
          (MkRoute [toUpperCase (capd m 1)] (fullUri groupPrefix (capd m 2))
             None (Some "Closure") None None
             (routeMiddleware groupMiddleware ln) file lineNumber (columnOf ln))
          rt3
    | None => rt3
    end in
  (* Named routes *)
  match js_match re_name ln with
  | Some m =>
      match JsMap.get file rt4 with
      | Some l => JsMap.set file (set_last_name (capd m 1) lineNumber l) rt4
      | None => rt4
      end
  | None => rt4
  end.

(** the transient group context of one file's pass *)
Record GroupCtx : Type := MkCtx {
  currentMiddleware : list string;
  currentPrefix : string;
  groupLevel : nat
}.

(** the body of [lines.forEach((line, index) => ...)] *)
Definition stepLine (file : string) (index : nat) (ln : string)
  (st : GroupCtx * RouteTable) : GroupCtx * RouteTable :=
  let (ctx, rt) := st in
  let lineNumber := index + 1 in
  let trimmedLine := trim ln in
  (* Handle route groups *)
  let ctx1 :=
    if includes trimmedLine "Route::group("
    then MkCtx
           (fst (parseRouteGroup ln (currentMiddleware ctx) (currentPrefix ctx)))
           (currentPrefix ctx)
           (S (groupLevel ctx))
    else ctx in
  (* Handle group closing *)
  let ctx2 :=
    if String.eqb trimmedLine "});" && (0 <? groupLevel ctx1)
    then if groupLevel ctx1 - 1 =? 0
         then MkCtx [] EmptyString 0
         else MkCtx (currentMiddleware ctx1) (currentPrefix ctx1)
                (groupLevel ctx1 - 1)
    else ctx1 in
  (ctx2,
   parseRouteLine ln lineNumber file (currentMiddleware ctx2)
     (currentPrefix ctx2) rt).

Fixpoint forEachLine (file : string) (index : nat) (lines : list string)
  (st : GroupCtx * RouteTable) : GroupCtx * RouteTable :=
  match lines with
  | [] => st
  | ln :: rest => forEachLine file (S index) rest (stepLine file index ln st)
  end.

(** [parseRouteFile]: [content] is [None] when [readFileSync] throws, which
    the [catch] turns into a logged error. *)
Definition parseRouteFile (file : string) (content : option string)
  (rt : RouteTable) : RouteTable :=
  match content with
  | None => rt
  | Some text =>
      snd (forEachLine file 0 (split nl text) (MkCtx [] EmptyString 0, rt))
  end.

(** the candidate keys under which a route is indexed *)
Definition controllerKeys (ctl meth : string) : list string :=
  [(ctl ++ "@" ++ meth)%string]
  ++ (if negb (endsWith ctl "Controller")
      then [(ctl ++ "Controller@" ++ meth)%string] else [])
  ++ (if endsWith ctl "Controller"
      then let shortName := replace_first "Controller" EmptyString ctl in
           [(shortName ++ "@" ++ meth)%string;
            (shortName ++ "Controller@" ++ meth)%string]
      else []).

Definition indexRoute (cr : RouteTable) (route : RouteInfo) : RouteTable :=
  match controller route, controllerMethod route with
  | Some ctl, Some meth =>
      if truthy ctl && truthy meth
      then fold_left (fun acc key => JsMap.push_at key route acc)
             (controllerKeys ctl meth) cr
      else cr
  | _, _ => cr
  end.

Definition buildControllerRouteMap (p : Provider) : Provider :=
  MkProvider (routes p)
    (fold_left indexRoute (List.concat (JsMap.values (routes p))) (controllerRoutes p))
    (middlewareMap p).

(** a directory listing: file name and content ([None]: unreadable) *)
Definition Dir : Type := list (string * option string).

Definition path_join (dir file : string) : string := (dir ++ "/" ++ file)%string.

Definition clear (p : Provider) : Provider :=
  MkProvider JsMap.empty JsMap.empty JsMap.empty.

(** [parseAllRoutes]: [routesDir] is [None] when the routes directory does
    not exist. *)
Definition parseAllRoutes (workspaceRoot : string) (routesDir : option Dir)
  (p : Provider) : Provider :=
  let p0 := clear p in
  match routesDir with
  | None => p0
  | Some entries =>
      let routesPath := path_join workspaceRoot "routes" in
      let routeFiles := filter (fun e => endsWith (fst e) ".php") entries in
      let rt :=
        fold_left
          (fun acc e => parseRouteFile (path_join routesPath (fst e)) (snd e) acc)
          routeFiles (routes p0) in
      buildControllerRouteMap (MkProvider rt (controllerRoutes p0) (middlewareMap p0))
  end.

(** [getAllRoutes] *)
Definition getAllRoutes (p : Provider) : list RouteInfo :=
  List.concat (JsMap.values (routes p)).

End Routes.

(* ================================================================== *)
(** ** Schema synthesizer (LaravelIntelligentCompletionProvider)        *)
(* ================================================================== *)

Module Schema.
Import JsString Regex.

(** A field's [type] is declared a string; a lookup in a type table whose key
    is inherited from [Object.prototype] yields that inherited value. *)
Inductive FieldType : Type :=
| TStr (s : string)
| TProto (k : string).

Record ModelField : Type := MkField {
  name : string;
  type : FieldType;
  nullable : bool;
  default : option string
}.

Record RelationshipInfo : Type := MkRel {
  relName : string;
  relType : string;
  relatedModel : string
}.

Record ModelInfo : Type := MkModel {
  modelName : string;
  table : string;
  fields : list ModelField;
  relationships : list RelationshipInfo;
  modelPath : string
}.

(** the provider's model registry and per-table migration columns *)
Record Provider : Type := MkProvider {
  models : JsMap.t ModelInfo;
  migrations : JsMap.t (list ModelField)
}.

(** [typeMapping[key] || 'string'] *)
Definition lookupType (mapping : list (string * string)) (key : string)
  : FieldType :=
  match JsObject.read mapping key with
  | JsObject.Own v => if truthy v then TStr v else TStr "string"
  | JsObject.Inherited k => TProto k
  | JsObject.Undefined => TStr "string"
  end.

Definition castMapping : list (string * string) :=
  [ ("integer", "integer"); ("int", "integer"); ("real", "float");
    ("float", "float"); ("double", "float"); ("decimal", "decimal");
    ("string", "string"); ("boolean", "boolean"); ("bool", "boolean");
    ("object", "object"); ("array", "array"); ("collection", "collection");
    ("date", "date"); ("datetime", "datetime"); ("timestamp", "timestamp") ].

Definition castToType (cast : string) : FieldType := lookupType castMapping cast.

Definition migrationMapping : list (string * string) :=
  [ ("id", "integer"); ("bigIncrements", "integer"); ("increments", "integer");
    ("integer", "integer"); ("bigInteger", "integer");
    ("smallInteger", "integer"); ("tinyInteger", "integer");
    ("unsignedInteger", "integer"); ("unsignedBigInteger", "integer");
    ("string", "string"); ("text", "string"); ("mediumText", "string");
    ("longText", "string"); ("char", "string"); ("boolean", "boolean");
    ("date", "date"); ("dateTime", "datetime"); ("time", "time");
    ("timestamp", "timestamp"); ("timestamps", "timestamp");
    ("decimal", "decimal"); ("double", "float"); ("float", "float");
    ("json", "json"); ("jsonb", "json"); ("binary", "binary");
    ("enum", "string"); ("uuid", "string") ].

Definition migrationTypeToType (migrationColumnType : string) : FieldType :=
  lookupType migrationMapping migrationColumnType.

(** *** Migrations *)

Definition quoted (n : nat) : list re := [quote; Grp n (plus not_quote); quote].

Definition re_schema_create : re :=
  seqs ([lit "Schema::create"; ws; Chr "("; ws] ++ quoted 1).

Definition re_schema_table : re :=
  seqs ([lit "Schema::table"; ws; Chr "("; ws] ++ quoted 1).

(** [$table->type('name', 100)modifiers;] *)
Definition re_column : re :=
  seqs ([lit "$table->"; Grp 1 word1; ws; Chr "("; ws] ++ quoted 2 ++
        [opt (seqs [ws; Chr ","; ws; Grp 3 (plus (Cls is_digit))]);
         ws; Chr ")"; Grp 4 (Star (none_of ";")); Chr ";"]).

(** [$table->timestamps()modifiers;] *)
Definition re_special : re :=
  seqs [lit "$table->"; Grp 1 word1; ws; Chr "("; ws; Chr ")";
        Grp 2 (Star (none_of ";")); Chr ";"].

Definition re_default : re :=
  seqs [lit "default"; ws; Chr "("; ws; opt quote;
        Grp 1 (Star (Cls (fun c => negb (is_quote c || Ascii.eqb c ")"%char))));
        opt quote; ws; Chr ")"].

(** [modifiers?.match(...)?.[1]]; [None] is [undefined] *)
Definition extractDefault (modifiers : option string) : option string :=
  match modifiers with
  | None => None
  | Some ms =>
      match js_match re_default ms with
      | Some m => cap m 1
      | None => None
      end
  end.

Definition has_name (n : string) (f : ModelField) : bool := String.eqb (name f) n.

(** [fields.find(f => f.name === n)] *)
Definition findField (n : string) (fs : list ModelField) : option ModelField :=
  find (has_name n) fs.

(** [fields[fields.findIndex(f => f.name === n)] = field] when the index is
    found, [fields.push(field)] otherwise *)
Fixpoint upsert (field : ModelField) (fs : list ModelField) : list ModelField :=
  match fs with
  | [] => [field]
  | f :: r => if has_name (name field) f then field :: r else f :: upsert field r
  end.

Definition pushIfAbsent (field : ModelField) (fs : list ModelField)
  : list ModelField :=
  match findField (name field) fs with
  | Some _ => fs
  | None => fs ++ [field]
  end.

Definition handleSpecialMigrationMethods (method : string)
  (fs : list ModelField) : list ModelField :=
  if String.eqb method "timestamps" then
    pushIfAbsent (MkField "updated_at" (TStr "timestamp") true None)
      (pushIfAbsent (MkField "created_at" (TStr "timestamp") true None) fs)
  else if String.eqb method "softDeletes" then
    pushIfAbsent (MkField "deleted_at" (TStr "timestamp") true None) fs
  else if String.eqb method "rememberToken" then
    pushIfAbsent (MkField "remember_token" (TStr "string") true None) fs
  else fs.

(** One iteration of the column loop.  The destructuring
    [[, columnType, columnName, length, modifiers] = match] reads groups 1, 2
    and 4 whichever pattern produced the match. *)
Definition columnStep (fs : list ModelField) (m : mres) : list ModelField :=
  let columnType := capd m 1 in
  match cap m 2 with
  | Some columnName =>
      if truthy columnName then
        upsert
          (MkField columnName (migrationTypeToType columnType)
             (match cap m 4 with
              | Some ms => includes ms "nullable()"
              | None => false
              end)
             (extractDefault (cap m 4)))
          fs
      else handleSpecialMigrationMethods columnType fs
  | None => handleSpecialMigrationMethods columnType fs
  end.

Definition columnPatterns : list re := [re_column; re_special].

(** the columns one migration file contributes to its table's list *)
Definition parseColumns (content : string) (fs : list ModelField)
  : list ModelField :=
  fold_left
    (fun acc pattern => fold_left columnStep (exec_all pattern content) acc)
    columnPatterns fs.

(** [createMatch?.[1] || tableMatch?.[1]] *)
Definition migrationTable (content : string) : option string :=
  match js_match re_schema_create content with
  | Some m => Some (capd m 1)
  | None =>
      match js_match re_schema_table content with
      | Some m => Some (capd m 1)
      | None => None
      end
  end.

Definition parseMigrationFile (content : option string)
  (mg : JsMap.t (list ModelField)) : JsMap.t (list ModelField) :=
  match content with
  | None => mg
  | Some text =>
      match migrationTable text with
      | None => mg
      | Some tableName =>
          let fs := match JsMap.get tableName mg with
                    | Some l => l
                    | None => []
                    end in
          JsMap.set tableName (parseColumns text fs) mg
      end
  end.

(** [names.sort()]: insertion sort on the code-unit order, stable *)
Fixpoint insert_sorted {A : Type} (e : string * A) (l : list (string * A))
  : list (string * A) :=
  match l with
  | [] => [e]
  | h :: t =>
      if String.ltb (fst e) (fst h) then e :: l else h :: insert_sorted e t
  end.

Definition sort_by_name {A : Type} (l : list (string * A)) : list (string * A) :=
  fold_left (fun acc e => insert_sorted e acc) l [].

Definition Dir : Type := list (string * option string).

(** [analyzeMigrations]: [None] when the migrations directory is absent *)
Definition analyzeMigrations (migrationsDir : option Dir) (p : Provider)
  : Provider :=
  match migrationsDir with
  | None => MkProvider (models p) JsMap.empty
  | Some entries =>
      let migrationFiles :=
        sort_by_name (filter (fun e => endsWith (fst e) ".php") entries) in
      MkProvider (models p)
        (fold_left (fun mg e => parseMigrationFile (snd e) mg) migrationFiles
           JsMap.empty)
  end.

(** *** Models *)

Definition re_table_prop : re :=
  seqs ([lit "protected"; ws1; lit "$table"; ws; Chr "="; ws] ++ quoted 1).

(** [protected\s+\$prop\s*=\s*\[([\s\S]*?)\]] *)
Definition re_array_prop (prop : string) : re :=
  seqs [lit "protected"; ws1; Chr "$"; lit prop; ws; Chr "="; ws; Chr "[";
        Grp 1 (LazyStar (Cls (fun _ => true))); Chr "]"].

Definition re_quoted : re := seqs (quoted 1).

Definition re_cast_entry : re :=
  seqs (quoted 1 ++ [ws; lit "=>"; ws] ++ quoted 2).

(** [name.replace(/([A-Z])/g, '_$1')] *)
Fixpoint underscoreUpper (s : string) : string :=
  match s with
  | EmptyString => EmptyString
  | String c t =>
      if is_upper c then String "_" (String c (underscoreUpper t))
      else String c (underscoreUpper t)
  end.

(** the table name derived from the model name *)
Definition derivedTableName (modelName : string) : string :=
  (substring1 (toLowerCase (underscoreUpper modelName)) ++ "s")%string.

Definition extractTableName (content modelName : string) : string :=
  match js_match re_table_prop content with
  | Some m => capd m 1
  | None => derivedTableName modelName
  end.

Definition extractArrayValues (arrayContent : string) : list string :=
  map (fun m => capd m 1) (exec_all re_quoted arrayContent).

Definition extractCasts (castsContent : string) : JsObject.t :=
  fold_left (fun o m => JsObject.assign (capd m 1) (capd m 2) o)
    (exec_all re_cast_entry castsContent) JsObject.empty.

Definition relationshipMethods : list string :=
  [ "hasOne"; "hasMany"; "belongsTo"; "belongsToMany"; "hasOneThrough";
    "hasManyThrough"; "morphTo"; "morphOne"; "morphMany"; "morphToMany" ].

Definition re_relationship (method : string) : re :=
  seqs [lit "public"; ws1; lit "function"; ws1; Grp 1 word1; ws; Chr "(";
        Star (none_of ")"); Chr ")"; ws; Chr "{"; Star (none_of "}");
        lit method; ws; Chr "("; ws; Grp 2 (plus (none_of ",)"))].

Definition cleanRelated (raw : string) : string :=
  let r := replace_first "::class" EmptyString (remove_chars is_quote (trim raw)) in
  if includes r (str1 bslash)
  then let p := last (split bslash r) EmptyString in
       if truthy p then p else r
  else r.

Definition extractRelationships (content : string) : list RelationshipInfo :=
  flat_map
    (fun method =>
       map (fun m => MkRel (capd m 1) method (cleanRelated (capd m 2)))
         (exec_all (re_relationship method) content))
    relationshipMethods.

Definition plainField (n : string) : ModelField :=
  MkField n (TStr "string") false None.

(** the [fillable] loop *)
Definition addFillable (fs : list ModelField) (field : string)
  : list ModelField :=
  if truthy field && truthy (trim field)
  then fs ++ [plainField (trim field)]
  else fs.

(** the [hidden] loop *)
Definition addHidden (fs : list ModelField) (field : string)
  : list ModelField :=
  if truthy field && truthy (trim field)
  then pushIfAbsent (plainField (trim field)) fs
  else fs.

(** [existingField.type = t] on the first field called [n] *)
Fixpoint setType (n : string) (t : FieldType) (fs : list ModelField)
  : list ModelField :=
  match fs with
  | [] => []
  | f :: r =>
      if has_name n f then MkField (name f) t (nullable f) (default f) :: r
      else f :: setType n t r
  end.

(** the [casts] loop *)
Definition addCast (fs : list ModelField) (e : string * string)
  : list ModelField :=
  let (field, cast) := e in
  if truthy field && truthy cast then
    match findField field fs with
    | Some _ => setType field (castToType cast) fs
    | None => fs ++ [MkField field (castToType cast) false None]
    end
  else fs.

(** the first field called like [mf] takes its type, nullability and default *)
Fixpoint overrideWith (mf : ModelField) (fs : list ModelField)
  : list ModelField :=
  match fs with
  | [] => []
  | f :: r =>
      if has_name (name mf) f
      then MkField (name f) (type mf) (nullable mf) (default mf) :: r
      else f :: overrideWith mf r
  end.

(** the migration merge loop *)
Definition mergeMigrationField (fs : list ModelField) (mf : ModelField)
  : list ModelField :=
  match findField (name mf) fs with
  | Some _ => overrideWith mf fs
  | None => fs ++ [mf]
  end.

Definition defaultFields : list (string * string) :=
  [("id", "integer"); ("created_at", "datetime"); ("updated_at", "datetime")].

(** the [defaultFields] loop *)
Definition addDefault (fs : list ModelField) (d : string * string)
  : list ModelField :=
  match findField (fst d) fs with
  | Some _ => fs
  | None => fs ++ [MkField (fst d) (TStr (snd d)) false None]
  end.

Definition isModel (content modelName : string) : bool :=
  includes content "extends Model"
  || includes content "extends Authenticatable"
  || includes content "use HasFactory"
  || includes content "use Illuminate\Database\Eloquent\Model"
  || (includes content ("class " ++ modelName)
      && (includes content "$fillable" || includes content "$table")).

(** the fields read from the class body: fillable, hidden, casts *)
Definition classFields (content : string) : list ModelField :=
  let fs1 :=
    match js_match (re_array_prop "fillable") content with
    | Some m => fold_left addFillable (extractArrayValues (capd m 1)) []
    | None => []
    end in
  let fs2 :=
    match js_match (re_array_prop "hidden") content with
    | Some m => fold_left addHidden (extractArrayValues (capd m 1)) fs1
    | None => fs1
    end in
  match js_match (re_array_prop "casts") content with
  | Some m => fold_left addCast (JsObject.entries (extractCasts (capd m 1))) fs2
  | None => fs2
  end.

(** the merge with the migration columns of the model's table *)
Definition mergeMigrations (migrationFields : option (list ModelField))
  (fs : list ModelField) : list ModelField :=
  match migrationFields with
  | Some mfs => fold_left mergeMigrationField mfs fs
  | None => fs
  end.

Definition addDefaults (fs : list ModelField) : list ModelField :=
  fold_left addDefault defaultFields fs.

(** the model [parseModelFile] builds from a readable model file *)
Definition buildModel (mg : JsMap.t (list ModelField))
  (filePath modelName content : string) : ModelInfo :=
  let tbl := extractTableName content modelName in
  MkModel modelName tbl
    (addDefaults (mergeMigrations (JsMap.get tbl mg) (classFields content)))
    (extractRelationships content)
    filePath.

(** [path.basename(file, '.php')] of a plain file name *)
Definition basename_php (fileName : string) : string :=
  if endsWith fileName ".php" && negb (String.eqb fileName ".php")
  then substring 0 (length fileName - 4) fileName
  else fileName.

Definition parseModelFile (filePath fileName : string) (content : option string)
  (p : Provider) : Provider :=
  match content with
  | None => p
  | Some text =>
      let modelName := basename_php fileName in
      if isModel text modelName
      then MkProvider
             (JsMap.set modelName
                (buildModel (migrations p) filePath modelName text) (models p))
             (migrations p)
      else p
  end.

(** a directory tree: [FileE name content] with [content = None] when the
    file cannot be read, [DirE name children] with [children = None] when
    [readdirSync] throws *)
Inductive Entry : Type :=
| FileE (fname : string) (content : option string)
| DirE (dname : string) (children : option (list Entry)).

Definition path_join (dir file : string) : string := (dir ++ "/" ++ file)%string.

Fixpoint scanEntry (dir : string) (e : Entry) (p : Provider) {struct e}
  : Provider :=
  match e with
  | FileE fname content =>
      if endsWith fname ".php" && negb (includes fname "Controller")
      then parseModelFile (path_join dir fname) fname content p
      else p
  | DirE dname children =>
      match children with
      | None => p
      | Some es =>
          (fix scanAll (l : list Entry) (q : Provider) : Provider :=
             match l with
             | [] => q
             | e1 :: r => scanAll r (scanEntry (path_join dir dname) e1 q)
             end) es p
      end
  end.

(** [scanModelDirectory(dir)] with the listing of [dir] *)
Definition scanModelDirectory (dir : string) (listing : option (list Entry))
  (p : Provider) : Provider :=
  match listing with
  | None => p
  | Some es => fold_left (fun q e => scanEntry dir e q) es p
  end.

Fixpoint findChild (n : string) (es : list Entry) : option Entry :=
  match es with
  | [] => None
  | FileE f c :: r => if String.eqb f n then Some (FileE f c) else findChild n r
  | DirE d c :: r => if String.eqb d n then Some (DirE d c) else findChild n r
  end.

(** [analyzeModels]: [appDir] is the listing of the [app] directory, [None]
    when it does not exist; [app/Models] is looked up inside it. *)
Definition analyzeModels (workspaceRoot : string) (appDir : option (list Entry))
  (p : Provider) : Provider :=
  let p0 := MkProvider JsMap.empty (migrations p) in
  let app := path_join workspaceRoot "app" in
  match appDir with
  | None => p0
  | Some es =>
      let p1 :=
        match findChild "Models" es with
        | Some (DirE _ children) =>
            scanModelDirectory (path_join app "Models") children p0
        | Some (FileE _ _) => p0
        | None => p0
        end in
      scanModelDirectory app (Some es) p1
  end.

(** [analyzeProject], models and migrations *)
Definition analyzeProject (workspaceRoot : string) (migrationsDir : option Dir)
  (appDir : option (list Entry)) (p : Provider) : Provider :=
  analyzeModels workspaceRoot appDir (analyzeMigrations migrationsDir p).

End Schema.

(* ================================================================== *)
(** ** Translation catalog and usage scanner (TranslationProvider)      *)
(* ================================================================== *)

Module Translations.
Import JsString Regex.

Record TranslationEntry : Type := MkEntry {
  key : string;
  file : string;
  locale : string;
  value : string;
  line : option nat;
  isUsed : bool
}.

Record TranslationUsage : Type := MkUsage {
  u_key : string;
  u_file : string;
  u_line : nat;
  u_column : nat;
  u_method : string
}.

Record Provider : Type := MkProvider {
  translations : JsMap.t (list TranslationEntry);
  usages : list TranslationUsage
}.

Definition addTranslation (k f loc v : string) (ln : option nat)
  (tr : JsMap.t (list TranslationEntry)) : JsMap.t (list TranslationEntry) :=
  JsMap.push_at k (MkEntry k f loc v ln false) tr.

(** [markTranslationAsUsed] *)
Definition markUsed (t : TranslationEntry) : TranslationEntry :=
  MkEntry (key t) (file t) (locale t) (value t) (line t) true.

Definition markTranslationAsUsed (k : string)
  (tr : JsMap.t (list TranslationEntry)) : JsMap.t (list TranslationEntry) :=
  match JsMap.get k tr with
  | Some l => JsMap.set k (map markUsed l) tr
  | None => tr
  end.

(** [getUnusedTranslations] *)
Definition getUnusedTranslations (p : Provider) : list TranslationEntry :=
  flat_map (fun l => filter (fun t => negb (isUsed t)) l)
    (JsMap.values (translations p)).

(** [getMissingTranslations]: usage keys, first occurrences in order, that
    have no catalog entry *)
Definition getMissingTranslations (p : Provider) : list string :=
  filter (fun k => negb (JsMap.has k (translations p)))
    (fold_left
       (fun acc u => if existsb (String.eqb (u_key u)) acc then acc
                     else acc ++ [u_key u])
       (usages p) []).

(** *** Usage scanning *)

(** [name\s*\(\s*Q([^Q]+)Q] *)
Definition re_call (prefix : list re) (fname : string) : re :=
  seqs (prefix ++ [lit fname; ws; Chr "("; ws; quote; Grp 1 (plus not_quote);
                   quote]).

Definition blade_open : list re := [lit "{{"; ws].

Definition usagePatterns : list (re * string) :=
  [ (re_call [] "trans", "trans");
    (re_call [] "__", "__");
    (re_call [] "trans_choice", "trans_choice");
    (re_call [] "@lang", "@lang");
    (re_call blade_open "trans", "trans");
    (re_call blade_open "__", "__") ].

Fixpoint findLineNumberForMatch (lines : list string) (index : nat)
  (currentIndex i total : nat) : nat :=
  match lines with
  | [] => total
  | l :: r =>
      let currentIndex' := currentIndex + length l + 1 in
      if index <? currentIndex' then i + 1
      else findLineNumberForMatch r index currentIndex' (S i) total
  end.

(** [s.lastIndexOf(LF)], [acc] when there is none *)
Fixpoint lastIndexOfNl (s : string) (i : nat) (acc : option nat) : option nat :=
  match s with
  | EmptyString => acc
  | String c t =>
      lastIndexOfNl t (S i) (if Ascii.eqb c nl then Some i else acc)
  end.

(** [index - beforeMatch.lastIndexOf('\n')], the latter being -1 when absent *)
Definition findColumnForMatch (content : string) (index : nat) : nat :=
  match lastIndexOfNl (substring 0 index content) 0 None with
  | Some j => index - j
  | None => index + 1
  end.

Definition usageStep (filePath content : string) (lines : list string)
  (method : string) (p : Provider) (m : mres) : Provider :=
  let k := capd m 1 in
  MkProvider
    (markTranslationAsUsed k (translations p))
    (usages p ++
       [MkUsage k filePath
          (findLineNumberForMatch lines (m_index m) 0 0 (List.length lines))
          (findColumnForMatch content (m_index m)) method]).

Definition scanFileForUsages (filePath : string) (content : option string)
  (p : Provider) : Provider :=
  match content with
  | None => p
  | Some text =>
      let lines := split nl text in
      fold_left
        (fun q pat =>
           fold_left (usageStep filePath text lines (snd pat))
             (exec_all (fst pat) text) q)
        usagePatterns p
  end.

(** [scanForUsages]: [found] lists, for each of the two glob patterns in
    turn, the files [findFiles] reports with their contents; the callbacks
    are taken in that order, each run to completion. *)
Definition scanForUsages (found : list (list (string * option string)))
  (p : Provider) : Provider :=
  fold_left
    (fun q files =>
       fold_left (fun q1 f => scanFileForUsages (fst f) (snd f) q1) files q)
    found p.

(** *** Catalog loading *)

(** the body of the returned array literal, greedy up to the last [];] *)
Definition re_return_array : re :=
  seqs [lit "return"; ws; Chr "["; Grp 1 (Star (Cls (fun _ => true)));
        lit "];"].

Definition not_quote2 : re := Cls (fun c => negb (is_quote2 c)).

(** a quoted key, [=>], then a quoted string (group 2) or a bracketed array
    (group 3) that is followed by a comma or a closing bracket *)
Definition re_key_value : re :=
  seqs [Cls is_quote2; Grp 1 (plus not_quote2); Cls is_quote2; ws; lit "=>";
        ws;
        Alt (seqs [Cls is_quote2; Grp 2 (LazyStar not_quote2); Cls is_quote2])
            (seqs [Chr "["; Grp 3 (LazyStar (Cls (fun _ => true))); Chr "]";
                   Ahead (seqs [ws; Cls (fun c => mem_char c ",]")])])].

(** [findLineNumber] *)
Fixpoint findLineNumber (lines : list string) (searchText : string) (i : nat)
  : nat :=
  match lines with
  | [] => 1
  | l :: r =>
      if includes l (substring 0 20 searchText) then i + 1
      else findLineNumber r searchText (S i)
  end.

Definition joinKey (prefix k : string) : string :=
  if truthy prefix then (prefix ++ "." ++ k)%string else k.

(** [parsePhpArray]: the nested call receives a capture of the current
    match, hence a shorter string; [fuel] bounds the nesting depth, and any
    fuel above the length of [content] gives the same result
    ([parsePhpArray_fuel]). *)
Fixpoint parsePhpArray (fuel : nat) (content : string) (lines : list string)
  (filePath loc namespace prefix : string)
  (tr : JsMap.t (list TranslationEntry)) {struct fuel}
  : JsMap.t (list TranslationEntry) :=
  match fuel with
  | 0 => tr
  | S f =>
      fold_left
        (fun acc m =>
           let fullKey := joinKey prefix (capd m 1) in
           let translationKey := (namespace ++ "." ++ fullKey)%string in
           match cap m 2 with
           | Some simpleValue =>
               addTranslation translationKey filePath loc simpleValue
                 (Some (findLineNumber lines (m_text m) 0)) acc
           | None =>
               match cap m 3 with
               | Some arrayValue =>
                   parsePhpArray f arrayValue lines filePath loc namespace
                     fullKey acc
               | None => acc
               end
           end)
        (exec_all re_key_value content) tr
  end.

Definition parsePhpTranslationFile (filePath loc fileName : string)
  (content : option string) (tr : JsMap.t (list TranslationEntry))
  : JsMap.t (list TranslationEntry) :=
  match content with
  | None => tr
  | Some text =>
      match js_match re_return_array text with
      | None => tr
      | Some m =>
          parsePhpArray (S (length (capd m 1))) (capd m 1) (split nl text) filePath
            loc (replace_first ".php" EmptyString fileName) EmptyString tr
      end
  end.

(** the value [JSON.parse] returns; an object lists its properties in the
    order [Object.keys] reports them *)
Inductive json : Type :=
| JNull
| JBool (b : bool)
| JNumber
| JString (s : string)
| JArray (l : list json)
| JObject (l : list (string * json)).

Fixpoint chars_from (i : nat) (s : string) : list (string * string) :=
  match s with
  | EmptyString => []
  | String c t => (string_of_nat i, str1 c) :: chars_from (S i) t
  end.

(** the leaves [parseJsonObject] hands to [addTranslation], in order *)
Fixpoint jsonLeaves (obj : json) (prefix : string) {struct obj}
  : list (string * string) :=
  match obj with
  | JObject kvs =>
      (fix go (l : list (string * json)) : list (string * string) :=
         match l with
         | [] => []
         | (k, v) :: r =>
             match v with
             | JString sv => [(joinKey prefix k, sv)]
             | JObject _ => jsonLeaves v (joinKey prefix k)
             | JArray _ => jsonLeaves v (joinKey prefix k)
             | _ => []
             end ++ go r
         end) kvs
  | JArray vs =>
      (fix go (i : nat) (l : list json) : list (string * string) :=
         match l with
         | [] => []
         | v :: r =>
             match v with
             | JString sv => [(joinKey prefix (string_of_nat i), sv)]
             | JObject _ => jsonLeaves v (joinKey prefix (string_of_nat i))
             | JArray _ => jsonLeaves v (joinKey prefix (string_of_nat i))
             | _ => []
             end ++ go (S i) r
         end) 0 vs
  | JString sv => map (fun e => (joinKey prefix (fst e), snd e)) (chars_from 0 sv)
  | _ => []
  end.

Section Loading.

(** [JSON.parse]: [None] when it throws *)
Variable JSON_parse : string -> option json.

Definition parseJsonTranslationFile (filePath loc : string)
  (content : option string) (tr : JsMap.t (list TranslationEntry))
  : JsMap.t (list TranslationEntry) :=
  match content with
  | None => tr
  | Some text =>
      match JSON_parse text with
      | None => tr
      | Some JNull => tr   (* [Object.keys(null)] throws, caught here *)
      | Some obj =>
          fold_left
            (fun acc e => addTranslation (fst e) filePath loc (snd e) None acc)
            (jsonLeaves obj EmptyString) tr
      end
  end.

Definition path_join (dir f : string) : string := (dir ++ "/" ++ f)%string.

(** [scanLocaleDirectory] over the listing of the locale directory *)
Definition scanLocaleDirectory (localePath loc : string)
  (listing : list (string * option string))
  (tr : JsMap.t (list TranslationEntry)) : JsMap.t (list TranslationEntry) :=
  fold_left
    (fun acc e =>
       let filePath := path_join localePath (fst e) in
       if endsWith (fst e) ".php"
       then parsePhpTranslationFile filePath loc (fst e) (snd e) acc
       else if endsWith (fst e) ".json"
       then parseJsonTranslationFile filePath loc (snd e) acc
       else acc)
    (filter (fun e => endsWith (fst e) ".php" || endsWith (fst e) ".json")
       listing)
    tr.

(** an entry of a translation root: a plain file, or a locale directory with
    its listing ([None] when [readdirSync] throws) *)
Inductive Dirent : Type :=
| PlainFile (n : string)
| LocaleDir (n : string) (listing : option (list (string * option string))).

(** The directory walk has no [try]: a failing [readdirSync] ends the whole
    load.  The boolean tells whether the walk ran to its end. *)
Fixpoint scanLocales (basePath : string) (l : list Dirent)
  (tr : JsMap.t (list TranslationEntry))
  : JsMap.t (list TranslationEntry) * bool :=
  match l with
  | [] => (tr, true)
  | PlainFile _ :: r => scanLocales basePath r tr
  | LocaleDir n None :: _ => (tr, false)
  | LocaleDir n (Some listing) :: r =>
      scanLocales basePath r
        (scanLocaleDirectory (path_join basePath n) n listing tr)
  end.

(** a translation root that exists: its entries, [None] when listing throws *)
Definition Root : Type := option (list Dirent).

Definition scanTranslationDirectory (basePath : string) (root : Root)
  (tr : JsMap.t (list TranslationEntry))
  : JsMap.t (list TranslationEntry) * bool :=
  match root with
  | None => (tr, false)
  | Some l => scanLocales basePath l tr
  end.

(** the project files the translation provider reads: the two roots
    ([None]: absent) and what [findFiles] reports for the two glob patterns *)
Record Project : Type := MkProject {
  langRoot : option Root;
  resourcesLangRoot : option Root;
  sourceFiles : list (list (string * option string))
}.

Definition loadTranslations (workspaceRoot : string) (pr : Project)
  (tr : JsMap.t (list TranslationEntry))
  : JsMap.t (list TranslationEntry) * bool :=
  let step (st : JsMap.t (list TranslationEntry) * bool)
           (root : string * option Root) :=
    if snd st
    then match snd root with
         | None => st
         | Some r => scanTranslationDirectory (fst root) r (fst st)
         end
    else st in
  fold_left step
    [ (path_join workspaceRoot "lang", langRoot pr);
      (path_join (path_join workspaceRoot "resources") "lang",
       resourcesLangRoot pr) ]
    (tr, true).

(** [reloadTranslations], the scan callbacks run to completion; when the load
    throws, the scan is not started. *)
Definition reloadTranslations (workspaceRoot : string) (pr : Project)
  (p : Provider) : Provider :=
  let cleared := MkProvider JsMap.empty [] in
  let (tr, ok) := loadTranslations workspaceRoot pr (translations cleared) in
  let loaded := MkProvider tr (usages cleared) in
  if ok then scanForUsages (sourceFiles pr) loaded else loaded.

End Loading.

End Translations.

(* ================================================================== *)
(** ** Validation rule registry, diagnostics and quick fixes            *)
(* ================================================================== *)

Module Validation.
Import JsString Regex.

Record ValidationParameter : Type := MkParam {
  p_name : string;
  p_type : string;
  p_required : bool;
  p_description : string;
  p_examples : option (list string)
}.

Record ValidationRule : Type := MkRule {
  name : string;
  description : string;
  parameters : option (list ValidationParameter);
  examples : list string;
  category : string;
  phpDocUrl : option string
}.

Record DatabaseTable : Type := MkTable {
  t_name : string;
  columns : list string
}.

Record Provider : Type := MkProvider {
  validationRules : list ValidationRule;
  databaseTables : JsMap.t DatabaseTable
}.

Definition tableParams : list ValidationParameter :=
  [ MkParam "table" "string" true "Table name or model" None;
    MkParam "column" "string" false "Column name" None ].

(** [initializeValidationRules] *)
Definition catalog : list ValidationRule :=
  [ MkRule "required"
      "The field under validation must be present in the input data and not empty"
      None ["required"] "Basic"
      (Some "https://laravel.com/docs/validation#rule-required");
    MkRule "nullable" "The field under validation may be null"
      None ["nullable"] "Basic" None;
    MkRule "string" "The field under validation must be a string"
      None ["string"] "String" None;
    MkRule "integer" "The field under validation must be an integer"
      None ["integer"] "Numeric" None;
    MkRule "numeric" "The field under validation must be numeric"
      None ["numeric"] "Numeric" None;
    MkRule "boolean"
      "The field under validation must be able to be cast as a boolean"
      None ["boolean"] "Boolean" None;
    MkRule "email"
      "The field under validation must be formatted as an email address"
      None ["email"; "email:rfc,dns"] "Format" None;
    MkRule "min" "The field under validation must have a minimum value/length"
      (Some [MkParam "value" "integer" true "Minimum value or length" None])
      ["min:3"; "min:8"] "Size" None;
    MkRule "max" "The field under validation must have a maximum value/length"
      (Some [MkParam "value" "integer" true "Maximum value or length" None])
      ["max:255"; "max:100"] "Size" None;
    MkRule "confirmed"
      "The field under validation must have a matching field of {field}_confirmation"
      None ["confirmed"] "Confirmation" None;
    MkRule "unique"
      "The field under validation must not exist within the given database table"
      (Some tableParams) ["unique:users"; "unique:users,email"] "Database" None;
    MkRule "exists"
      "The field under validation must exist in a given database table"
      (Some tableParams) ["exists:users"; "exists:users,id"] "Database" None;
    MkRule "in"
      "The field under validation must be included in the given list of values"
      (Some [MkParam "values" "string" true
               "Comma-separated list of allowed values" None])
      ["in:admin,user,guest"; "in:red,green,blue"] "Options" None;
    MkRule "regex"
      "The field under validation must match the given regular expression"
      (Some [MkParam "pattern" "string" true "Regular expression pattern" None])
      ["regex:/^[A-Za-z0-9]+$/"; "regex:/^\+?[1-9]\d{1,14}$/"] "Pattern" None;
    MkRule "date"
      "The field under validation must be a valid, non-relative date"
      None ["date"] "Date" None;
    MkRule "file"
      "The field under validation must be a successfully uploaded file"
      None ["file"] "File" None;
    MkRule "image"
      "The field under validation must be an image (jpeg, png, bmp, gif, svg, or webp)"
      None ["image"] "File" None ].

(** [getValidationRule] *)
Definition getValidationRule (p : Provider) (n : string) : option ValidationRule :=
  find (fun r => String.eqb (name r) n) (validationRules p).

(** *** Compatibility filtering *)

Definition mutuallyExclusive : list (string * list string) :=
  [ ("required", ["nullable"; "sometimes"]);
    ("nullable", ["required"]);
    ("string", ["numeric"; "integer"; "boolean"; "array"; "file"; "image"]);
    ("numeric", ["string"; "boolean"; "array"; "file"; "image"]);
    ("integer", ["string"; "boolean"; "array"; "file"; "image"; "decimal"]);
    ("boolean", ["string"; "numeric"; "integer"; "array"; "file"; "image"]);
    ("array", ["string"; "numeric"; "integer"; "boolean"; "file"; "image"]);
    ("file", ["string"; "numeric"; "integer"; "boolean"; "array"]);
    ("image", ["string"; "numeric"; "integer"; "boolean"; "array"]) ].

Definition mem (x : string) (l : list string) : bool := existsb (String.eqb x) l.

(** [mutuallyExclusive[k] || []].  A key inherited from [Object.prototype]
    yields a function or object instead of an array, and calling [some] or
    [includes] on it raises a TypeError: [None]. *)
Definition conflictsOf (k : string) : option (list string) :=
  match JsMap.get k mutuallyExclusive with
  | Some l => Some l
  | None => if JsObject.in_proto k then None else Some []
  end.

(** the loop over the rules already applied *)
Fixpoint existingConflict (ruleName : string) (currentRules : list string)
  : option bool :=
  match currentRules with
  | [] => Some true
  | existingRule :: rest =>
      match conflictsOf existingRule with
      | None => None
      | Some existingConflicts =>
          if mem ruleName existingConflicts then Some false
          else existingConflict ruleName rest
      end
  end.

(** [isRuleApplicable]; [None] when a TypeError is raised *)
Definition isRuleApplicable (rule : ValidationRule) (currentRules : list string)
  (fieldName : string) : option bool :=
  match conflictsOf (name rule) with
  | None => None
  | Some conflicts =>
      if existsb (fun conflict => mem conflict currentRules) conflicts
      then Some false
      else existingConflict (name rule) currentRules
  end.

(** [rules.filter(rule => !currentRules.includes(rule.name) &&
    isRuleApplicable(rule, currentRules, fieldName))] *)
Fixpoint availableRules (rules : list ValidationRule) (currentRules : list string)
  (fieldName : string) : option (list ValidationRule) :=
  match rules with
  | [] => Some []
  | rule :: rest =>
      let keep :=
        if negb (mem (name rule) currentRules)
        then isRuleApplicable rule currentRules fieldName
        else Some false in
      match keep with
      | None => None
      | Some b =>
          match availableRules rest currentRules fieldName with
          | None => None
          | Some l => Some (if b then rule :: l else l)
          end
      end
  end.

Definition dot : re :=
  Cls (fun c => negb (Ascii.eqb c nl || Ascii.eqb c "013"%char)).

(** a bracket, then lazily anything up to the end of the text *)
Definition re_array_tail : re := seqs [Chr "["; Grp 1 (LazyStar dot); Eos].

(** a quote, then quote-free text up to the end *)
Definition re_string_tail : re := seqs [quote; Grp 1 (plus not_quote); Eos].

Definition re_field_name : re :=
  seqs [quote; Grp 1 (plus not_quote); quote; ws; lit "=>"].

Definition nonEmpty (s : string) : bool := 0 <? length s.

Definition ruleNameOf (s : string) : string := hd EmptyString (split ":" s).

Definition extractCurrentRules (beforeCursor : string) (isArrayContext : bool)
  : list string :=
  if isArrayContext then
    match js_match re_array_tail beforeCursor with
    | Some m =>
        filter nonEmpty
          (map (fun rule => ruleNameOf (remove_chars is_quote (trim rule)))
             (split "," (capd m 1)))
    | None => []
    end
  else
    match js_match re_string_tail beforeCursor with
    | Some m =>
        filter nonEmpty
          (map (fun rule => ruleNameOf (trim rule)) (split "|" (capd m 1)))
    | None => []
    end.

Definition extractFieldName (beforeCursor : string) : string :=
  match js_match re_field_name beforeCursor with
  | Some m => capd m 1
  | None => EmptyString
  end.

(** [provideValidationRuleCompletions]: one completion item per available
    rule, labelled with the rule's name; [None] when a TypeError escapes. *)
Definition provideValidationRuleCompletions (p : Provider) (beforeCursor : string)
  : option (list ValidationRule) :=
  let isArrayContext :=
    includes beforeCursor "[" && negb (includes beforeCursor "]") in
  let currentRules := extractCurrentRules beforeCursor isArrayContext in
  let fieldName := extractFieldName beforeCursor in
  availableRules (validationRules p) currentRules fieldName.

(** *** Database schema from the migrations *)

Definition quoted (n : nat) : list re := [quote; Grp n (plus not_quote); quote].

Definition re_create : re :=
  seqs ([lit "Schema::create"; ws; Chr "("; ws] ++ quoted 1).

(** [$table->id()], [$table->bigid('name')] *)
Definition re_id_column : re :=
  seqs [lit "$table->"; opt (lit "big"); lit "id"; ws; Chr "("; ws;
        opt (seqs (quoted 1)); ws; Chr ")"].

Definition re_named_column : re :=
  seqs ([lit "$table->"; word1; ws; Chr "("; ws] ++ quoted 1).

Definition re_call0 (fname : string) : re :=
  seqs [lit "$table->"; lit fname; ws; Chr "("; ws; Chr ")"].

Definition idColumn (m : mres) : list string :=
  match cap m 1 with
  | Some c => if truthy c then [c] else ["id"]
  | None => ["id"]
  end.

(** the column names one migration contributes, pattern after pattern *)
Definition schemaColumns (content : string) : list string :=
  flat_map idColumn (exec_all re_id_column content)
  ++ map (fun m => capd m 1) (exec_all re_named_column content)
  ++ flat_map (fun _ => ["created_at"; "updated_at"])
       (exec_all (re_call0 "timestamps") content)
  ++ flat_map (fun _ => ["deleted_at"])
       (exec_all (re_call0 "softDeletes") content).

(** the table a migration creates *)
Definition createdTable (content : string) : option string :=
  match js_match re_create content with
  | Some m => Some (capd m 1)
  | None => None
  end.

Definition parseMigrationForSchema (content : option string)
  (tables : JsMap.t DatabaseTable) : JsMap.t DatabaseTable :=
  match content with
  | None => tables
  | Some text =>
      match createdTable text with
      | None => tables
      | Some tableName =>
          JsMap.set tableName (MkTable tableName (schemaColumns text)) tables
      end
  end.

Definition Dir : Type := list (string * option string).

(** [analyzeDatabaseSchema]: [None] when the migrations directory is absent *)
Definition analyzeDatabaseSchema (migrationsDir : option Dir) (p : Provider)
  : Provider :=
  match migrationsDir with
  | None => MkProvider (validationRules p) JsMap.empty
  | Some entries =>
      let migrationFiles :=
        Schema.sort_by_name (filter (fun e => endsWith (fst e) ".php") entries) in
      MkProvider (validationRules p)
        (fold_left (fun t e => parseMigrationForSchema (snd e) t) migrationFiles
           JsMap.empty)
  end.

(** the provider after its constructor ran *)
Definition construct (migrationsDir : option Dir) : Provider :=
  analyzeDatabaseSchema migrationsDir (MkProvider catalog JsMap.empty).

(** *** Diagnostics (ValidationDiagnosticsProvider) *)

Inductive Severity : Type := Error | Warning.

Record Issue : Type := MkIssue {
  message : string;
  severity : Severity;
  code : string
}.

Definition requiredCount (ps : list ValidationParameter) : nat :=
  List.length (filter p_required ps).

(** [params.length > 0 ? params[0].split(',').length : 0] *)
Definition providedCount (params : list string) : nat :=
  match params with
  | [] => 0
  | p0 :: _ => List.length (split "," p0)
  end.

(** [params[0].split(',')[0]] *)
Definition tableArgument (p0 : string) : string :=
  hd EmptyString (split "," p0).

Definition unknownRule (ruleName : string) : Issue :=
  MkIssue ("Unknown validation rule: " ++ ruleName) Error "unknown-rule".

Definition missingParameters (ruleName : string) (expected provided : nat)
  : Issue :=
  MkIssue ("Rule '" ++ ruleName ++ "' requires " ++ string_of_nat expected
           ++ " parameter(s), got " ++ string_of_nat provided)
    Error "missing-parameters".

Definition tableNotFound (tableName : string) : Issue :=
  MkIssue ("Table '" ++ tableName ++ "' not found in database schema")
    Warning "table-not-found".

(** [validateRule(rule, document, lineIndex)] *)
Definition validateRule (p : Provider) (rule : string) : list Issue :=
  match split ":" rule with
  | [] => []
  | ruleName :: params =>
      match getValidationRule p ruleName with
      | None => [unknownRule ruleName]
      | Some ruleDefinition =>
          let issues1 :=
            match parameters ruleDefinition with
            | Some ps =>
                if providedCount params <? requiredCount ps
                then [missingParameters ruleName (requiredCount ps)
                        (providedCount params)]
                else []
            | None => []
            end in
          let issues2 :=
            if String.eqb ruleName "exists" || String.eqb ruleName "unique"
            then match params with
                 | p0 :: _ =>
                     if negb (JsMap.has (tableArgument p0) (databaseTables p))
                     then [tableNotFound (tableArgument p0)]
                     else []
                 | [] => []
                 end
            else [] in
          issues1 ++ issues2
      end
  end.

(** *** Quick fixes (ValidationCodeActionProvider) *)

(** the replacement patterns of [String.prototype.replace] that a regex
    without groups honours: [$$], [$&], the text before and after *)
Fixpoint expand (rep matched before after : string) : string :=
  match rep with
  | String "$" (String c t as rest) =>
      if Ascii.eqb c "$"%char then String "$" (expand t matched before after)
      else if Ascii.eqb c "&"%char then matched ++ expand t matched before after
      else if Ascii.eqb c bquote then before ++ expand t matched before after
      else if Ascii.eqb c squote then after ++ expand t matched before after
      else String "$" (expand rest matched before after)
  | String c t => String c (expand t matched before after)
  | EmptyString => EmptyString
  end.

(** [exists:] followed by characters other than comma and parenthesis *)
Definition re_exists_arg : re := seqs [lit "exists:"; plus (none_of ",)")].

(** [text.replace(re, rep)] for a regex without the global flag *)
Definition replace_re (r : re) (rep text : string) : string :=
  match js_match r text with
  | None => text
  | Some m =>
      let before := substring 0 (m_index m) text in
      (before ++ expand rep (m_text m) before (m_rest m) ++ m_rest m)%string
  end.

Record CodeAction : Type := MkAction {
  title : string;
  newText : string
}.

(** [createTableNotFoundActions]; [currentText] is the text under the
    diagnostic's range *)
Definition createTableNotFoundActions (p : Provider) (currentText : string)
  : list CodeAction :=
  map (fun tableName =>
         MkAction ("Use table '" ++ tableName ++ "'")
           (replace_re re_exists_arg ("exists:" ++ tableName) currentText))
    (firstn 5 (JsMap.keys (databaseTables p))).

End Validation.

(* ================================================================== *)
(** ** Sets of strings                                                  *)
(* ================================================================== *)

(** A JavaScript [Set] of strings: [Array.from] lists the members in the
    order in which they were first added. *)

Module JsSet.

Definition t : Type := list string.

Definition has (x : string) (s : t) : bool := existsb (String.eqb x) s.

(** [s.add(x)] *)
Definition add (s : t) (x : string) : t := if has x s then s else s ++ [x].

End JsSet.

(* ================================================================== *)
(** ** Route queries (EnhancedRouteInlayProvider, public methods)       *)
(* ================================================================== *)

Module RouteQueries.
Import JsString Regex Routes.

(** [arr.includes(x)] on an array of strings *)
Definition includes_str (x : string) (l : list string) : bool :=
  existsb (String.eqb x) l.

(** the keys [getRoutesForController] tries, in order *)
Definition possibleKeys (controllerName methodName : string) : list string :=
  [ (controllerName ++ "@" ++ methodName)%string;
    (replace_first "Controller" EmptyString controllerName ++ "@"
     ++ methodName)%string;
    (replace_first "Controller" EmptyString controllerName ++ "Controller@"
     ++ methodName)%string ]
  ++ (if negb (endsWith controllerName "Controller")
      then [(controllerName ++ "Controller@" ++ methodName)%string]
      else []).

(** the loop [for (const key of possibleKeys)]: the first key that holds a
    non-empty array decides *)
Fixpoint firstRoutes (keys : list string) (cr : RouteTable) : list RouteInfo :=
  match keys with
  | [] => []
  | key :: rest =>
      match JsMap.get key cr with
      | Some (r :: l) => r :: l
      | _ => firstRoutes rest cr
      end
  end.

Definition getRoutesForController (p : Provider)
  (controllerName methodName : string) : list RouteInfo :=
  firstRoutes (possibleKeys controllerName methodName) (controllerRoutes p).

Definition getRoutesByMethod (p : Provider) (method : string) : list RouteInfo :=
  filter (fun route => includes_str (toUpperCase method) (Routes.method route))
    (getAllRoutes p).

(** [opt && opt.toLowerCase().includes(q)] on an optional string *)
Definition optIncludes (o : option string) (lowerQuery : string) : bool :=
  match o with
  | Some s => truthy s && includes (toLowerCase s) lowerQuery
  | None => false
  end.

Definition searchRoutes (p : Provider) (query : string) : list RouteInfo :=
  let lowerQuery := toLowerCase query in
  filter
    (fun route =>
       includes (toLowerCase (uri route)) lowerQuery
       || optIncludes (name route) lowerQuery
       || optIncludes (action route) lowerQuery)
    (getAllRoutes p).

(** [isRouteMethod] of the controller code lens *)
Definition skipMethods : list string :=
  [ "__construct"; "__destruct"; "__call"; "__callStatic";
    "__get"; "__set"; "__isset"; "__unset"; "__sleep";
    "__wakeup"; "__toString"; "__invoke"; "__set_state";
    "__clone"; "__debugInfo" ].

Definition isRouteMethod (methodName : string) : bool :=
  negb (includes_str methodName skipMethods).

End RouteQueries.

(* ================================================================== *)
(** ** Route list (RouteProvider)                                       *)
(* ================================================================== *)

Module RouteList.
Import JsString Regex.

Record RouteInfo : Type := MkRoute {
  method : string;
  uri : string;
  filePath : string;
  line : nat
}.

(** [Route::(get|post|put|patch|delete|any|match|resource)\s*\(\s*Q([^Q]+)Q] *)
Definition re_route : re :=
  seqs [lit "Route::";
        Grp 1 (alts [lit "get"; lit "post"; lit "put"; lit "patch";
                     lit "delete"; lit "any"; lit "match"; lit "resource"]);
        ws; Chr "("; ws; quote; Grp 2 (plus not_quote); quote].

(** [content.substring(0, index).split(LF).length] *)
Definition lineOf (content : string) (index : nat) : nat :=
  List.length (split nl (substring 0 index content)).

Definition routeOf (filePath content : string) (m : mres) : RouteInfo :=
  MkRoute (capd m 1) (capd m 2) filePath (lineOf content (m_index m)).

(** the loop over the matches: [this.routes.set(uri, {...})] *)
Definition parseRouteFile (filePath content : string)
  (routes : JsMap.t RouteInfo) : JsMap.t RouteInfo :=
  fold_left
    (fun acc m => JsMap.set (capd m 2) (routeOf filePath content m) acc)
    (exec_all re_route content) routes.

(** what [existsSync] and [readFileSync] find at a path *)
Inductive File : Type :=
| Absent
| Unreadable
| Content (text : string).

Definition path_join (dir file : string) : string := (dir ++ "/" ++ file)%string.

(** [parseRoutes] over [web.php] and [api.php]; [readFileSync] is not
    guarded, so an unreadable file ends the constructor with an exception:
    [None].  [routesDir] tells whether the routes directory exists. *)
Definition parseRoutes (workspaceRoot : string) (routesDir : bool)
  (web api : File) : option (JsMap.t RouteInfo) :=
  if routesDir then
    let routesPath := path_join workspaceRoot "routes" in
    let step (acc : option (JsMap.t RouteInfo)) (f : string * File) :=
      match acc with
      | None => None
      | Some routes =>
          match snd f with
          | Absent => Some routes
          | Unreadable => None
          | Content text =>
              Some (parseRouteFile (path_join routesPath (fst f)) text routes)
          end
      end in
    fold_left step [("web.php", web); ("api.php", api)] (Some JsMap.empty)
  else Some JsMap.empty.

(** [getRoutes] *)
Definition getRoutes (routes : JsMap.t RouteInfo) : list RouteInfo :=
  JsMap.values routes.

End RouteList.

(* ================================================================== *)
(** ** Translation queries and diagnostics                              *)
(* ================================================================== *)

Module TranslationQueries.
Import JsString Regex Translations.

(** [getTranslation(key, locale)]; [locale] is [None] when the argument is
    omitted *)
Definition getTranslation (p : Provider) (key : string) (locale : option string)
  : option TranslationEntry :=
  match JsMap.get key (translations p) with
  | None => None
  | Some l =>
      match locale with
      | Some loc =>
          if truthy loc
          then find (fun t => String.eqb (Translations.locale t) loc) l
          else hd_error l
      | None => hd_error l
      end
  end.

(** [getTranslationUsages] *)
Definition getTranslationUsages (p : Provider) (key : string)
  : list TranslationUsage :=
  filter (fun usage => String.eqb (u_key usage) key) (usages p).

(** [getLocales] *)
Definition getLocales (p : Provider) : list string :=
  fold_left
    (fun acc l => fold_left (fun acc1 t => JsSet.add acc1 (locale t)) l acc)
    (JsMap.values (translations p)) [].

(** *** TranslationDiagnosticsProvider *)

(** a [vscode.Position]: zero-based line and character *)
Record Position : Type := MkPos {
  p_line : nat;
  p_character : nat
}.

Definition getPositionFromIndex (text : string) (index : nat) : Position :=
  let lines := split nl (substring 0 index text) in
  MkPos (List.length lines - 1) (length (last lines EmptyString)).

Record Call : Type := MkCall {
  c_key : string;
  c_method : string;
  c_start : Position;
  c_end : Position;
  c_match : string
}.

Definition callOf (text method : string) (m : mres) : Call :=
  MkCall (capd m 1) method
    (getPositionFromIndex text (m_index m))
    (getPositionFromIndex text (m_index m + length (m_text m)))
    (m_text m).

(** [findTranslationCalls]: the patterns are those of the usage scan *)
Definition findTranslationCalls (text : string) : list Call :=
  flat_map
    (fun pat => map (callOf text (snd pat)) (exec_all (fst pat) text))
    usagePatterns.

Inductive Severity : Type := Warning | Information.

Record Diagnostic : Type := MkDiagnostic {
  d_start : Position;
  d_end : Position;
  d_message : string;
  d_severity : Severity;
  d_code : string;
  d_source : string
}.

(** the locales of a key's entries: [get(key)?.map(t => t.locale) || []] *)
Definition translationLocales (p : Provider) (key : string) : list string :=
  match JsMap.get key (translations p) with
  | Some l => map locale l
  | None => []
  end.

Definition missingLocales (p : Provider) (key : string) : list string :=
  filter (fun loc => negb (existsb (String.eqb loc) (translationLocales p key)))
    (getLocales p).

(** the body of [translationCalls.forEach] in [updateDiagnostics] *)
Definition diagnoseCall (p : Provider) (call : Call) : list Diagnostic :=
  match getTranslation p (c_key call) None with
  | None =>
      [MkDiagnostic (c_start call) (c_end call)
         ("Translation key '" ++ c_key call ++ "' not found")
         Warning "missing-translation" "Laravel Translations"]
  | Some _ =>
      let missing := missingLocales p (c_key call) in
      if 0 <? List.length missing
      then [MkDiagnostic (c_start call) (c_end call)
              ("Translation '" ++ c_key call ++ "' missing in locales: "
               ++ concat ", " missing)
              Information "incomplete-translation" "Laravel Translations"]
      else []
  end.

(** [updateDiagnostics]: the diagnostics set for a document *)
Definition updateDiagnostics (p : Provider) (text : string) : list Diagnostic :=
  flat_map (diagnoseCall p) (findTranslationCalls text).

End TranslationQueries.

(* ================================================================== *)
(** ** Views and attribute completions                                  *)
(* ================================================================== *)

Module Views.
Import JsString Regex.

Record ViewInfo : Type := MkView {
  v_name : string;
  v_path : string;
  v_variables : list string;
  v_extends : option string;
  v_sections : list string
}.

(** [@extends\s*\(\s*Q([^Q]+)Q\s*\)] *)
Definition re_extends : re :=
  seqs ([lit "@extends"; ws; Chr "("; ws] ++ Schema.quoted 1 ++ [ws; Chr ")"]).

(** [@section\s*\(\s*Q([^Q]+)Q] *)
Definition re_section : re :=
  seqs ([lit "@section"; ws; Chr "("; ws] ++ Schema.quoted 1).

Definition is_alpha_ (c : ascii) : bool :=
  is_lower c || is_upper c || Ascii.eqb c "_"%char.
Definition is_alnum_ (c : ascii) : bool :=
  is_lower c || is_upper c || is_digit c || Ascii.eqb c "_"%char.

(** two braces, an optional bang, spaces, a dollar, an identifier (group 1) *)
Definition re_variable : re :=
  seqs [lit "{{"; opt (Chr "!"); ws; Chr "$";
        Grp 1 (Seq (Cls is_alpha_) (Star (Cls is_alnum_)))].

(** the view [parseViewFile] registers for a readable file *)
Definition buildView (filePath viewName content : string) : ViewInfo :=
  MkView viewName filePath
    (fold_left (fun acc m => JsSet.add acc (capd m 1))
       (exec_all re_variable content) [])
    (match js_match re_extends content with
     | Some m => Some (capd m 1)
     | None => None
     end)
    (map (fun m => capd m 1) (exec_all re_section content)).

(** [parseViewFile]: [None] when [readFileSync] throws, which is caught *)
Definition parseViewFile (filePath viewName : string) (content : option string)
  (views : JsMap.t ViewInfo) : JsMap.t ViewInfo :=
  match content with
  | None => views
  | Some text => JsMap.set viewName (buildView filePath viewName text) views
  end.

(** [prefix ? `${prefix}.${name}` : name] *)
Definition dotted (prefix n : string) : string :=
  if truthy prefix then (prefix ++ "." ++ n)%string else n.

(** [scanViewDirectory]: [readdirSync] is not guarded here, so a directory
    that cannot be listed ends the whole scan with an exception.  The result
    pairs the map as the scan left it with a flag telling whether the scan
    ran to its end. *)
Fixpoint scanViewEntry (dir prefix : string) (e : Schema.Entry)
  (views : JsMap.t ViewInfo) {struct e} : JsMap.t ViewInfo * bool :=
  match e with
  | Schema.FileE fname content =>
      if endsWith fname ".blade.php"
      then (parseViewFile (Schema.path_join dir fname)
              (dotted prefix (replace_first ".blade.php" EmptyString fname))
              content views, true)
      else (views, true)
  | Schema.DirE dname children =>
      match children with
      | None => (views, false)
      | Some es =>
          (fix scanAll (l : list Schema.Entry) (q : JsMap.t ViewInfo)
             : JsMap.t ViewInfo * bool :=
             match l with
             | [] => (q, true)
             | e1 :: r =>
                 let (q1, ok) :=
                   scanViewEntry (Schema.path_join dir dname)
                     (dotted prefix dname) e1 q in
                 if ok then scanAll r q1 else (q1, false)
             end) es views
      end
  end.

Fixpoint scanViewEntries (dir prefix : string) (l : list Schema.Entry)
  (views : JsMap.t ViewInfo) : JsMap.t ViewInfo * bool :=
  match l with
  | [] => (views, true)
  | e :: r =>
      let (q, ok) := scanViewEntry dir prefix e views in
      if ok then scanViewEntries dir prefix r q else (q, false)
  end.

(** [analyzeViews]: [viewsDir] is [None] when [resources/views] does not
    exist, [Some None] when it cannot be listed *)
Definition analyzeViews (workspaceRoot : string)
  (viewsDir : option (option (list Schema.Entry)))
  : JsMap.t ViewInfo * bool :=
  match viewsDir with
  | None => (JsMap.empty, true)
  | Some None => (JsMap.empty, false)
  | Some (Some es) =>
      scanViewEntries
        (Schema.path_join (Schema.path_join workspaceRoot "resources") "views")
        EmptyString es JsMap.empty
  end.

End Views.

Module ModelCompletions.
Import JsString Schema.

Inductive Kind : Type := Field | Value | Event | Reference.

Record CompletionItem : Type := MkItem {
  label : string;
  kind : Kind;
  detail : string;
  documentation : string;
  insertText : string
}.

Section Rendering.

(** the text a template literal gives for a value inherited from
    [Object.prototype] (a field type found under such a key) *)
Variable render_inherited : string -> string.
(** the arrow of a relationship's detail line, outside the ASCII range *)
Variable arrow : string.

Definition typeText (t : FieldType) : string :=
  match t with
  | TStr s => s
  | TProto k => render_inherited k
  end.

(** the [switch (field.type)] *)
Definition fieldKind (t : FieldType) : Kind :=
  match t with
  | TStr s =>
      if String.eqb s "integer" then Value
      else if String.eqb s "boolean" then Value
      else if String.eqb s "datetime" || String.eqb s "date"
              || String.eqb s "timestamp" then Event
      else Field
  | TProto _ => Field
  end.

Definition nl2 : string := (str1 nl ++ str1 nl)%string.

(** a field carries no comment: no code of the provider sets one *)
Definition fieldItem (field : ModelField) : CompletionItem :=
  MkItem (name field) (fieldKind (type field))
    (typeText (type field) ++ (if nullable field then " | null" else EmptyString))
    ("**Type:** " ++ typeText (type field) ++ nl2
     ++ "**Nullable:** " ++ (if nullable field then "Yes" else "No") ++ nl2
     ++ (match default field with
         | Some d => if truthy d then "**Default:** " ++ d ++ nl2 else EmptyString
         | None => EmptyString
         end)
     ++ EmptyString)
    ("'" ++ name field ++ "'").

Definition relationItem (rel : RelationshipInfo) : CompletionItem :=
  MkItem (relName rel) Reference
    (relType rel ++ " " ++ arrow ++ " " ++ relatedModel rel)
    ("**Relationship:** " ++ relType rel ++ nl2
     ++ "**Related Model:** " ++ relatedModel rel)
    ("'" ++ relName rel ++ "'").

(** [!prefix || s.startsWith(prefix)] *)
Definition offered (pre s : string) : bool := negb (truthy pre) || prefix pre s.

Definition getModelAttributeCompletions (p : Provider)
  (modelName pre : string) : list CompletionItem :=
  match JsMap.get modelName (models p) with
  | None => []
  | Some model =>
      map fieldItem (filter (fun f => offered pre (name f)) (fields model))
      ++ map relationItem
           (filter (fun r => offered pre (relName r)) (relationships model))
  end.

End Rendering.

End ModelCompletions.

(* ================================================================== *)
(** ** Form requests (LaravelRequestCompletionProvider)                 *)
(* ================================================================== *)

Module Requests.
Import JsString Regex.

Record RequestRule : Type := MkRequestRule {
  field : string;
  rules : list string
}.

Record RequestInfo : Type := MkRequest {
  r_name : string;
  r_fields : list RequestRule;
  r_filePath : string
}.

Definition any : re := Cls (fun _ => true).

(** [public\s+function\s+rules\s*\(\s*\)\s*{(any*?)return\s*\[(any*?)\];] *)
Definition re_rules_method : re :=
  seqs [lit "public"; ws1; lit "function"; ws1; lit "rules"; ws; Chr "("; ws;
        Chr ")"; ws; Chr "{"; Grp 1 (LazyStar any); lit "return"; ws; Chr "[";
        Grp 2 (LazyStar any); lit "];"].

(** ['field' => 'rules'] *)
Definition re_rule : re :=
  seqs (Schema.quoted 1 ++ [ws; lit "=>"; ws] ++ Schema.quoted 2).

(** ['field' => [ ... ]] *)
Definition re_array_rule : re :=
  seqs (Schema.quoted 1
        ++ [ws; lit "=>"; ws; Chr "["; Grp 2 (LazyStar any); Chr "]"]).

Definition extractArrayRules (arrayContent : string) : list string :=
  map (fun m => capd m 1) (exec_all Schema.re_quoted arrayContent).

Definition parseValidationRules (rulesContent : string) : list RequestRule :=
  map (fun m => MkRequestRule (capd m 1) (map trim (split "|" (capd m 2))))
    (exec_all re_rule rulesContent)
  ++ map (fun m => MkRequestRule (capd m 1) (extractArrayRules (capd m 2)))
       (exec_all re_array_rule rulesContent).

(** [parseRequestFile]; [content] is [None] when the read throws *)
Definition parseRequestFile (filePath fileName : string) (content : option string)
  (requests : JsMap.t RequestInfo) : JsMap.t RequestInfo :=
  match content with
  | None => requests
  | Some text =>
      let requestName := Schema.basename_php fileName in
      if negb (includes text "extends FormRequest") then requests
      else
        JsMap.set requestName
          (MkRequest requestName
             (match js_match re_rules_method text with
              | Some m => parseValidationRules (capd m 2)
              | None => []
              end)
             filePath)
          requests
  end.

(** [function\s+\w+\s*\([^)]*(\w+Request)\s+\$\w+] *)
Definition re_signature : re :=
  seqs [lit "function"; ws1; word1; ws; Chr "("; Star (none_of ")");
        Grp 1 (Seq word1 (lit "Request")); ws1; Chr "$"; word1].

Definition declaresFunction (line : string) : bool :=
  includes line "public function" || includes line "private function"
  || includes line "protected function".

(** the outcome of a function that can end with a TypeError *)
Inductive Outcome (A : Type) : Type :=
| Returns (a : A)
| Throws.
Arguments Returns {A} a.
Arguments Throws {A}.

(** [inferRequestTypeFromMethod]: the loop from line [i] down to line 0.
    [lines[i]] is [undefined] beyond the last line, and calling [match] on it
    is a TypeError. *)
Fixpoint inferRequestTypeFromMethod (lines : list string) (i : nat)
  : Outcome (option string) :=
  match nth_error lines i with
  | None => Throws
  | Some line =>
      match js_match re_signature line with
      | Some m => Returns (Some (capd m 1))
      | None =>
          if declaresFunction line then Returns None
          else match i with
               | 0 => Returns None
               | S j => inferRequestTypeFromMethod lines j
               end
      end
  end.

Inductive Kind : Type := Field | Snippet.

Record CompletionItem : Type := MkItem {
  label : string;
  kind : Kind;
  detail : string;
  documentation : string;
  insertText : string;
  isSnippet : bool;
  command : option string;
  sortText : option string
}.

Section Labels.

(** the pictograph that opens the label of the add-all item, outside the
    ASCII range *)
Variable wrench : string.

Definition fieldItem (f : RequestRule) : CompletionItem :=
  MkItem ("'" ++ field f ++ "'")%string Field (concat " | " (rules f))
    ("**Field:** " ++ field f ++ str1 nl ++ str1 nl
     ++ "**Validation Rules:**" ++ str1 nl
     ++ concat (str1 nl) (map (fun rule => "- " ++ rule) (rules f)))%string
    ("'" ++ field f ++ "' => ")%string false
    (Some "editor.action.triggerSuggest") None.

(** the snippet of the add-all item: the dollar of the template is escaped
    in the source, so every line ends with the same literal text *)
Definition snippetText (fields : list RequestRule) : string :=
  concat ("," ++ str1 nl ++ "    ")%string
    (map (fun f => "'" ++ field f ++ "' => ${index + 1}")%string fields).

Definition addAllItem (requestType : string) (fields : list RequestRule)
  : CompletionItem :=
  let n := string_of_nat (List.length fields) in
  MkItem (wrench ++ " Add ALL Request Fields (" ++ n ++ " fields)")%string Snippet
    ("Insert all " ++ n ++ " fields from " ++ requestType)%string
    ("**Fields to be added:**" ++ str1 nl
     ++ concat (str1 nl) (map (fun f => "- " ++ field f) fields))%string
    (snippetText fields) true None (Some "0").

Definition getRequestFieldCompletions (requests : JsMap.t RequestInfo)
  (requestType : string) : list CompletionItem :=
  match JsMap.get requestType requests with
  | None => []
  | Some request =>
      (if 0 <? List.length (r_fields request)
       then [addAllItem requestType (r_fields request)] else [])
      ++ map fieldItem (r_fields request)
  end.

(** [(\w+)::create\s*\(\s*\[\s*$] and its three companions *)
Definition re_create_open : re :=
  seqs [Grp 1 word1; lit "::create"; ws; Chr "("; ws; Chr "["; ws; Eos].
Definition re_call_open (fname : string) : re :=
  seqs [Chr "$"; word1; lit "->"; lit fname; ws; Chr "("; ws; Chr "["; ws; Eos].
Definition re_new_open : re :=
  seqs [lit "new"; ws1; word1; ws; Chr "("; ws; Chr "["; ws; Eos].

Definition contextPatterns : list re :=
  [re_create_open; re_call_open "update"; re_call_open "fill"; re_new_open].

(** the loop over the patterns: the first pattern that matches with an
    inferred request type returns *)
Fixpoint completionLoop (requests : JsMap.t RequestInfo) (patterns : list re)
  (beforeCursor : string) (lines : list string) (line : nat)
  : Outcome (list CompletionItem) :=
  match patterns with
  | [] => Returns []
  | pattern :: rest =>
      if test pattern beforeCursor then
        match inferRequestTypeFromMethod lines line with
        | Throws => Throws
        | Returns (Some requestType) =>
            if truthy requestType
            then Returns (getRequestFieldCompletions requests requestType)
            else completionLoop requests rest beforeCursor lines line
        | Returns None => completionLoop requests rest beforeCursor lines line
        end
      else completionLoop requests rest beforeCursor lines line
  end.

(** [provideRequestFieldCompletion]; the document is given by its lines and
    the position by its line *)
Definition provideRequestFieldCompletion (requests : JsMap.t RequestInfo)
  (beforeCursor : string) (lines : list string) (line : nat)
  : Outcome (list CompletionItem) :=
  completionLoop requests contextPatterns beforeCursor lines line.

End Labels.

End Requests.

(* ================================================================== *)
(** ** Validation diagnostics per line (ValidationDiagnosticsProvider)  *)
(* ================================================================== *)

Module ValidationDiagnostics.
Import JsString Regex Validation.

(** [/Q([^Q]+)Q/], Q one of the three quotes *)
Definition re_quoted : re := seqs (quoted 1).

(** a rule and the columns of its range *)
Record RuleAt : Type := MkRuleAt {
  rule : string;
  r_start : Z;
  r_end : Z
}.

(** [isValidationRule] *)
Definition isValidationRule (p : Provider) (rule : string) : bool :=
  mem (ruleNameOf rule) (map name (validationRules p)).

(** [line.indexOf(s)] as a number *)
Definition indexOfZ (line s : string) : Z :=
  match indexOf line s with
  | Some i => Z.of_nat i
  | None => (-1)%Z
  end.

(** the loop [rulesList.forEach] of the pipe branch *)
Fixpoint pipeSpans (rulesList : list string) (currentPos : Z) : list RuleAt :=
  match rulesList with
  | [] => []
  | rule :: rest =>
      MkRuleAt (trim rule) currentPos (currentPos + Z.of_nat (length rule))
      :: pipeSpans rest (currentPos + Z.of_nat (length rule) + 1)
  end.

Definition pipeRules (line : string) : list RuleAt :=
  match js_match re_quoted line with
  | Some m =>
      if includes (capd m 1) "|"
      then pipeSpans (split "|" (capd m 1)) (indexOfZ line (capd m 1))
      else []
  | None => []
  end.

(** the loop over [line.matchAll] *)
Definition arrayRules (p : Provider) (line : string) : list RuleAt :=
  flat_map
    (fun m =>
       if isValidationRule p (capd m 1)
       then [MkRuleAt (capd m 1) (Z.of_nat (m_index m))
               (Z.of_nat (m_index m + length (m_text m)))]
       else [])
    (exec_all re_quoted line).

Definition extractValidationRulesFromLine (p : Provider) (line : string)
  : list RuleAt :=
  pipeRules line ++ arrayRules p line.

Record Diagnostic : Type := MkDiagnostic {
  d_line : nat;
  d_start : Z;
  d_end : Z;
  d_message : string;
  d_severity : Severity;
  d_source : string;
  d_code : string
}.

(** the body of [lines.forEach] in [updateDiagnostics] *)
Definition lineDiagnostics (p : Provider) (lineIndex : nat) (line : string)
  : list Diagnostic :=
  flat_map
    (fun ra =>
       map (fun issue =>
              MkDiagnostic lineIndex (r_start ra) (r_end ra) (message issue)
                (severity issue) "Laravel Validation" (code issue))
         (validateRule p (rule ra)))
    (extractValidationRulesFromLine p line).

Fixpoint forEachLine (p : Provider) (lineIndex : nat) (lines : list string)
  : list Diagnostic :=
  match lines with
  | [] => []
  | line :: rest =>
      lineDiagnostics p lineIndex line ++ forEachLine p (S lineIndex) rest
  end.

(** [updateDiagnostics]: the diagnostics set for the document *)
Definition updateDiagnostics (p : Provider) (text : string) : list Diagnostic :=
  forEachLine p 0 (split nl text).

End ValidationDiagnostics.

(* ================================================================== *)
(** ** Suggestions for unknown rules (ValidationCodeActionProvider)     *)
(* ================================================================== *)

Module RuleSuggestions.
Import JsString Regex Validation.

(** the matrix of [levenshteinDistance]: [b.length + 1] rows of
    [a.length + 1] cells, filled with [null], which counts as 0 in a sum *)
Definition Matrix : Type := list (list nat).

Definition cell (m : Matrix) (j i : nat) : nat := nth i (nth j m []) 0.

(** [arr[n] = v] for an index inside the array; the loops below never leave
    the matrix *)
Fixpoint set_nth {A : Type} (n : nat) (v : A) (l : list A) : list A :=
  match l, n with
  | [], _ => []
  | _ :: t, 0 => v :: t
  | h :: t, S k => h :: set_nth k v t
  end.

(** [matrix[j][i] = v] *)
Definition assign (m : Matrix) (j i v : nat) : Matrix :=
  set_nth j (set_nth i v (nth j m [])) m.

(** [a[i] === b[j]] *)
Definition same_char (x y : option ascii) : bool :=
  match x, y with
  | Some c, Some d => Ascii.eqb c d
  | None, None => true
  | _, _ => false
  end.

Definition cellStep (a b : string) (j : nat) (m : Matrix) (i : nat) : Matrix :=
  let indicator := if same_char (get (i - 1) a) (get (j - 1) b) then 0 else 1 in
  assign m j i
    (Nat.min (Nat.min (cell m j (i - 1) + 1) (cell m (j - 1) i + 1))
       (cell m (j - 1) (i - 1) + indicator)).

Definition rowStep (a b : string) (m : Matrix) (j : nat) : Matrix :=
  fold_left (cellStep a b j) (seq 1 (length a)) m.

Definition initial (a b : string) : Matrix :=
  let m0 := repeat (repeat 0 (S (length a))) (S (length b)) in
  let m1 := fold_left (fun m i => assign m 0 i i) (seq 0 (S (length a))) m0 in
  fold_left (fun m j => assign m j 0 j) (seq 0 (S (length b))) m1.

Definition levenshteinDistance (a b : string) : nat :=
  cell (fold_left (rowStep a b) (seq 1 (length b)) (initial a b))
    (length b) (length a).

(** [calculateSimilarity] returns the quotient of two small integers; the
    pair holds its numerator and denominator *)
Definition calculateSimilarity (a b : string) : nat * nat :=
  let longer := if length b <? length a then a else b in
  let shorter := if length b <? length a then b else a in
  if length longer =? 0 then (1, 1)
  else (length longer - levenshteinDistance longer shorter, length longer).

(** [q > 0.6]: the quotient of integers below 2^50 is above the double 0.6
    exactly when it is above three fifths *)
Definition above_0_6 (q : nat * nat) : bool := 3 * snd q <? 5 * fst q.

(** [/Unknown validation rule: (\w+)/] *)
Definition re_unknown : re := seqs [lit "Unknown validation rule: "; Grp 1 word1].

(** [createUnknownRuleActions]: [message] is the diagnostic's message; each
    action replaces the diagnostic's range by [newText] *)
Definition createUnknownRuleActions (p : Provider) (message : string)
  : list CodeAction :=
  match js_match re_unknown message with
  | Some m =>
      map (fun suggestion =>
             MkAction ("Replace with '" ++ name suggestion ++ "'")%string
               (name suggestion))
        (firstn 3
           (filter
              (fun rule => above_0_6 (calculateSimilarity (name rule) (capd m 1)))
              (validationRules p)))
  | None => []
  end.

End RuleSuggestions.

(* ================================================================== *)
(** ** Commands on validation rules (ValidationCommands)                *)
(* ================================================================== *)

Module ValidationCommands.
Import JsString Regex Validation.

(** the dot of a regex: any character but a line terminator *)
Definition is_dot (c : ascii) : bool :=
  negb (Ascii.eqb c nl || Ascii.eqb c "013"%char).

(** [s.replace(/_(.)/g, (_, char) => char.toUpperCase())] *)
Fixpoint upperAfterUnderscore (s : string) : string :=
  match s with
  | EmptyString => EmptyString
  | String a rest =>
      if Ascii.eqb a "_"%char then
        match rest with
        | String c t =>
            if is_dot c then String (upper_char c) (upperAfterUnderscore t)
            else String a (upperAfterUnderscore rest)
        | EmptyString => str1 a
        end
      else String a (upperAfterUnderscore rest)
  end.

(** [s.replace(/^(.)/, char => char.toUpperCase())] *)
Definition upperFirst (s : string) : string :=
  match s with
  | String c t => if is_dot c then String (upper_char c) t else s
  | EmptyString => EmptyString
  end.

(** [s.replace(/s$/, '')] *)
Definition dropFinalS (s : string) : string :=
  if endsWith s "s" then substring 0 (length s - 1) s else s.

Definition toPascalCase (str : string) : string :=
  dropFinalS (upperFirst (upperAfterUnderscore str)).

(** [modelNameToTableName] of the completion provider *)
Definition modelNameToTableName (modelName : string) : string :=
  (substring1 (toLowerCase (Schema.underscoreUpper modelName)) ++ "s")%string.

(** the rules [generateValidationRulesFromTable] gives a column *)
Definition ruleSetFor (column : string) : list string :=
  if String.eqb column "email" then ["required"; "string"; "email"; "max:255"]
  else if includes column "password" then ["required"; "string"; "min:8"]
  else if endsWith column "_id"
  then ["required"; "integer";
        ("exists:" ++ replace_first "_id" "s" column ++ ",id")%string]
  else if includes column "phone"
  then ["required"; "string"; "regex:/^\+?[1-9]\d{1,14}$/"]
  else if includes column "url" || includes column "website"
  then ["required"; "string"; "url"]
  else if includes column "date" || endsWith column "_at"
  then ["required"; "date"]
  else if includes column "name" || includes column "title"
  then ["required"; "string"; "max:255"]
  else ["required"; "string"; "max:255"].

Definition ruleLine (column : string) : string :=
  ("            '" ++ column ++ "' => '" ++ concat "|" (ruleSetFor column)
   ++ "',")%string.

Definition generateValidationRulesFromTable (table : DatabaseTable) : string :=
  unlines
    [ "<?php";
      EmptyString;
      "namespace App\Http\Requests;";
      EmptyString;
      "use Illuminate\Foundation\Http\FormRequest;";
      EmptyString;
      ("class " ++ toPascalCase (t_name table)
       ++ "Request extends FormRequest")%string;
      "{";
      "    public function authorize()";
      "    {";
      "        return true;";
      "    }";
      EmptyString;
      "    public function rules()";
      "    {";
      "        return [";
      unlines (map ruleLine (columns table));
      "        ];";
      "    }";
      "}" ].

(** *** Sorting the rules of a line *)

Definition rulePriority : list (string * nat) :=
  [ ("required", 1); ("required_if", 1); ("required_unless", 1);
    ("required_with", 1); ("required_without", 1);
    ("nullable", 2); ("sometimes", 2);
    ("string", 3); ("integer", 3); ("numeric", 3); ("boolean", 3);
    ("array", 3); ("file", 3); ("image", 3);
    ("min", 4); ("max", 4); ("size", 4); ("between", 4);
    ("email", 5); ("url", 5); ("regex", 5);
    ("unique", 6); ("exists", 6);
    ("confirmed", 7) ].

(** [rulePriority[rule.split(':')[0]] || 99].  For a name inherited from
    [Object.prototype] the lookup yields a function, the comparator's
    difference is NaN and the order the engine produces is not determined by
    the language: [None]. *)
Definition priorityOf (rule : string) : option nat :=
  match JsMap.get (ruleNameOf rule) rulePriority with
  | Some n => Some n
  | None => if JsObject.in_proto (ruleNameOf rule) then None else Some 99
  end.

Definition priority (rule : string) : nat :=
  match priorityOf rule with Some n => n | None => 99 end.

(** [Array.prototype.sort] is stable: an element goes behind those that do
    not compare greater *)
Fixpoint insertRule (x : string) (l : list string) : list string :=
  match l with
  | [] => [x]
  | y :: r =>
      if priority y <=? priority x then y :: insertRule x r else x :: l
  end.

Definition sortRules (rules : list string) : list string :=
  fold_left (fun acc x => insertRule x acc) rules [].

(** [\[([^\]]+)\]] *)
Definition re_array : re :=
  seqs [Chr "["; Grp 1 (plus (none_of "]")); Chr "]"].

Inductive SortResult : Type :=
| NoEdit                                       (* the command returns *)
| Replace (start stop : Z) (newRulesText : string)
| EngineDefined.                               (* see [priorityOf] *)

Definition determined (rules : list string) : bool :=
  forallb (fun r => match priorityOf r with Some _ => true | None => false end)
    rules.

Definition indexOfZ (line s : string) : Z :=
  match indexOf line s with
  | Some i => Z.of_nat i
  | None => (-1)%Z
  end.

(** [sortValidationRules]: the edit applied to the line *)
Definition sortValidationRules (lineText : string) : SortResult :=
  if includes lineText "[" then
    match js_match re_array lineText with
    | Some m =>
        let rules :=
          map (fun rule => remove_chars is_quote2 (trim rule))
            (split "," (capd m 1)) in
        if determined rules then
          Replace (indexOfZ lineText (m_text m))
            (indexOfZ lineText (m_text m) + Z.of_nat (length (m_text m)))
            ("[" ++ concat ", " (map (fun rule => "'" ++ rule ++ "'")
                                   (sortRules rules)) ++ "]")%string
        else EngineDefined
    | None => NoEdit
    end
  else
    match js_match ValidationDiagnostics.re_quoted lineText with
    | Some m =>
        let rules := split "|" (capd m 1) in
        if determined rules then
          Replace (indexOfZ lineText (m_text m))
            (indexOfZ lineText (m_text m) + Z.of_nat (length (m_text m)))
            ("'" ++ concat "|" (sortRules rules) ++ "'")%string
        else EngineDefined
    | None => NoEdit
    end.

(** [convertValidationFormat]: the range replaced and the array text *)
Definition convertValidationFormat (lineText : string) : option (Z * Z * string) :=
  match js_match ValidationDiagnostics.re_quoted lineText with
  | None => None
  | Some m =>
      let rules :=
        map (fun rule => "'" ++ trim rule ++ "'")%string (split "|" (capd m 1)) in
      Some (indexOfZ lineText (m_text m),
            (indexOfZ lineText (m_text m) + Z.of_nat (length (m_text m)))%Z,
            ("[" ++ concat ", " rules ++ "]")%string)
  end.

End ValidationCommands.

(* ================================================================== *)
(** ** Quick fixes for translations (TranslationCodeActionProvider)     *)
(* ================================================================== *)

Module TranslationActions.
Import JsString Regex Translations TranslationQueries.

(** ['([^']+)'] *)
Definition re_single_quoted : re :=
  seqs [Chr "'"; Grp 1 (plus (none_of "'")); Chr "'"].

Definition extractKeyFromDiagnostic (message : string) : string :=
  match js_match re_single_quoted message with
  | Some m => capd m 1
  | None => EmptyString
  end.

Record Command : Type := MkCommand {
  command : string;
  c_title : string;
  arguments : list string
}.

Record CodeAction : Type := MkAction {
  title : string;
  a_command : Command
}.

Definition createAddTranslationAction (diagnostic : Diagnostic) : CodeAction :=
  MkAction "Add translation key to default locale"
    (MkCommand "laravel.addTranslationKey" "Add Translation Key"
       [extractKeyFromDiagnostic (d_message diagnostic); "en"; EmptyString]).

Definition createAddAllLocalesAction (diagnostic : Diagnostic) : CodeAction :=
  MkAction "Add translation key to all locales"
    (MkCommand "laravel.addTranslationKeyAllLocales"
       "Add Translation Key to All Locales"
       [extractKeyFromDiagnostic (d_message diagnostic)]).

Definition createCompleteTranslationAction (diagnostic : Diagnostic)
  : CodeAction :=
  MkAction "Complete translation for missing locales"
    (MkCommand "laravel.completeTranslation" "Complete Translation"
       [extractKeyFromDiagnostic (d_message diagnostic)]).

(** [provideCodeActions] over the diagnostics of the context *)
Definition provideCodeActions (diagnostics : list Diagnostic) : list CodeAction :=
  flat_map
    (fun diagnostic =>
       if String.eqb (d_source diagnostic) "Laravel Translations" then
         (if String.eqb (d_code diagnostic) "missing-translation"
          then [createAddTranslationAction diagnostic;
                createAddAllLocalesAction diagnostic]
          else [])
         ++ (if String.eqb (d_code diagnostic) "incomplete-translation"
             then [createCompleteTranslationAction diagnostic]
             else [])
       else [])
    diagnostics.

End TranslationActions.

(* ================================================================== *)
(** ** Writing a translation (EnhancedTranslationCommands)              *)
(* ================================================================== *)

Module TranslationFiles.
Import JsString Regex Translations.

(** [(return\s*\[)([\s\S]*?)(\];)] *)
Definition re_return_parts : re :=
  seqs [Grp 1 (seqs [lit "return"; ws; Chr "["]);
        Grp 2 (LazyStar (Cls (fun _ => true)));
        Grp 3 (lit "];")].

(** [key.split('.')[0]] *)
Definition namespaceOf (key : string) : string :=
  hd EmptyString (split "." key).

(** [key.split('.').slice(1).join('.')] *)
Definition translationKeyOf (key : string) : string :=
  concat "." (tl (split "." key)).

(** the name of the file a key belongs to *)
Definition fileNameOf (key : string) : string := (namespaceOf key ++ ".php")%string.

(** The path chosen among [lang/<locale>] and [resources/lang/<locale>]: the
    first whose directory exists, else the first, whose directory is then
    created.  The two booleans tell which directories exist. *)
Definition filePathOf (workspaceRoot key locale : string)
  (langLocaleDir resourcesLocaleDir : bool) : string :=
  let first :=
    path_join (path_join (path_join workspaceRoot "lang") locale)
      (fileNameOf key) in
  let second :=
    path_join
      (path_join (path_join (path_join workspaceRoot "resources") "lang") locale)
      (fileNameOf key) in
  if langLocaleDir then first
  else if resourcesLocaleDir then second
  else first.

(** the line [    'key' => 'value',] *)
Definition newEntry (translationKey value : string) : string :=
  ("    '" ++ translationKey ++ "' => '" ++ value ++ "'," ++ str1 nl)%string.

Definition newFileContent (translationKey value : string) : string :=
  ("<?php" ++ str1 nl ++ str1 nl ++ "return [" ++ str1 nl
   ++ newEntry translationKey value ++ "];" ++ str1 nl)%string.

Inductive FileWrite : Type :=
| ReadFails                   (* [readFileSync] raised *)
| NotWritten                  (* no [return [ ... ];] in the file *)
| Written (content : string). (* [writeFileSync(filePath, content)] *)

(** [addTranslationToFile]: what is written to the chosen path, [existing]
    being what is found there.  Creating the directory and writing the file
    are taken to succeed. *)
Definition addTranslationToFile (key value : string) (existing : RouteList.File)
  : FileWrite :=
  match existing with
  | RouteList.Absent =>
      Written (newFileContent (translationKeyOf key) value)
  | RouteList.Unreadable => ReadFails
  | RouteList.Content content =>
      match js_match re_return_parts content with
      | Some m =>
          Written (capd m 1 ++ capd m 2
                   ++ newEntry (translationKeyOf key) value ++ capd m 3)
      | None => NotWritten
      end
  end.

End TranslationFiles.

(* ================================================================== *)
(** * Specification vocabulary and sample projects                       *)
(* ================================================================== *)

(** The predicates the properties are stated with, the sample inputs of
    the scenarios, and an induction principle for directory trees. *)

(** the exclusion table lists [b] among the conflicts of [a] *)
Definition listed (a b : string) : Prop :=
  exists l, JsMap.get a Validation.mutuallyExclusive = Some l /\ In b l.

(** in one direction or the other *)
Definition conflict (a b : string) : Prop := listed a b \/ listed b a.

(** the order of file names *)
Definition name_le {A : Type} (x y : string * A) : Prop :=
  String.leb (fst x) (fst y) = true.

(** [tn] is created by a readable migration file of the directory *)
Definition definedByMigrations (dir : option Validation.Dir) (tn : string) : Prop :=
  exists entries file content,
    dir = Some entries /\ In (file, Some content) entries
    /\ JsString.endsWith file ".php" = true
    /\ Validation.createdTable content = Some tn.

(** the project whose migrations create [users] and [posts] only *)
Definition usersPostsMigrations : Validation.Dir :=
  [ ("2024_01_01_000000_create_users_table.php",
     Some (JsString.unlines
       [ "Schema::create('users', function (Blueprint $table) {";
         "    $table->id();";
         "    $table->string('email');";
         "    $table->timestamps();";
         "});" ]));
    ("2024_01_02_000000_create_posts_table.php",
     Some (JsString.unlines
       [ "Schema::create('posts', function (Blueprint $table) {";
         "    $table->id();";
         "    $table->string('title');";
         "});" ])) ].

(** Snake case in the specification's words: an underscore before each
    uppercase letter, then lowercased, with the leading underscore removed. *)
Definition snake_case_spec (s : string) : string :=
  match JsString.toLowerCase (Schema.underscoreUpper s) with
  | String "_" t => t
  | t => t
  end.

(** the table name the specification describes *)
Definition tableName_spec (className : string) : string :=
  (snake_case_spec className ++ "s")%string.

Module RegexSpec.
Import Regex.

(** every capture is at most [B] characters long *)
Definition bounded (B : nat) (c : caps) : Prop :=
  Forall (fun e => length (snd e) <= B) c.

(** the regex consumes a character before anything else *)
Definition starts_with_char (r : re) : bool :=
  match r with
  | Seq (Chr _) _ => true
  | Seq (Cls _) _ => true
  | _ => false
  end.

(** every character of [u] satisfies [p] *)
Fixpoint all_chars (p : ascii -> bool) (u : string) : bool :=
  match u with
  | EmptyString => true
  | String a t => p a && all_chars p t
  end.

(** [s] is empty or starts with a character that fails [p] *)
Definition stops (p : ascii -> bool) (s : string) : bool :=
  match s with
  | EmptyString => true
  | String a _ => negb (p a)
  end.

(** a character of the ASCII range, where the case functions of JavaScript
    change the letters A to Z and a to z only, one for one *)
Definition is_ascii (a : ascii) : bool := nat_of_ascii a <? 128.

(** white space, as far as the ASCII range goes: [\s] has members outside
    the range, which [is_space] does not list *)
Definition space_like (a : ascii) : bool :=
  JsString.is_space a || negb (is_ascii a).

End RegexSpec.

Module TranslationSpec.
Import Translations.

Definition Catalog : Type := JsMap.t (list TranslationEntry).

Definition allEntries (p : Provider) : list TranslationEntry :=
  List.concat (JsMap.values (translations p)).

(** every usage recorded so far with key [k] *)
Definition referenced (us : list TranslationUsage) (k : string) : Prop :=
  exists u, In u us /\ u_key u = k.

(** keys are distinct, a bucket holds the entries of its key, and an entry
    is flagged exactly when its key is referenced *)
Definition consistent (p : Provider) : Prop :=
  NoDup (JsMap.keys (translations p))
  /\ forall k l, JsMap.get k (translations p) = Some l ->
       forall t, In t l ->
         key t = k /\ (isUsed t = true <-> referenced (usages p) k).

(** a loader keeps a usage-free catalog consistent *)
Definition preserves (f : Catalog -> Catalog) : Prop :=
  forall tr, consistent (MkProvider tr []) -> consistent (MkProvider (f tr) []).

(** a catalog in two locales and a template that uses one of its keys *)
Definition messagesPhp : string :=
  JsString.unlines
    [ "<?php";
      "return [";
      "    'welcome' => 'Welcome',";
      "    'goodbye' => 'Goodbye',";
      "];" ].

Definition homeBlade : string :=
  JsString.unlines [ "<h1>{{ __('messages.welcome') }}</h1>" ].

Definition twoLocaleProject : Project :=
  MkProject
    (Some (Some [ LocaleDir "en" (Some [("messages.php", Some messagesPhp)]);
                  LocaleDir "fr" (Some [("messages.php", Some messagesPhp)]) ]))
    None
    [ [("resources/views/home.blade.php", Some homeBlade)];
      [("resources/views/home.blade.php", Some homeBlade)] ].

End TranslationSpec.

Module SchemaSpec.
Import Schema.

Definition implicitField (d : string * string) : ModelField :=
  MkField (fst d) (TStr (snd d)) false None.

Definition builtFrom (mg : JsMap.t (list ModelField)) (q : Provider) : Prop :=
  migrations q = mg
  /\ forall n m, In (n, m) (models q) ->
       exists path content, m = buildModel mg path n content.

Fixpoint Entry_nested_ind (P : Entry -> Prop)
  (Hfile : forall n c, P (FileE n c))
  (Hnone : forall n, P (DirE n None))
  (Hsome : forall n es, Forall P es -> P (DirE n (Some es)))
  (e : Entry) {struct e} : P e :=
  match e with
  | FileE n c => Hfile n c
  | DirE n None => Hnone n
  | DirE n (Some es) =>
      Hsome n es
        ((fix all (l : list Entry) : Forall P l :=
            match l with
            | [] => Forall_nil P
            | x :: r => Forall_cons x (Entry_nested_ind P Hfile Hnone Hsome x) (all r)
            end) es)
  end.

(** the fields a model has before the implicit ones are added *)
Definition definedFields (mg : JsMap.t (list ModelField)) (content modelName : string)
  : list ModelField :=
  mergeMigrations (JsMap.get (extractTableName content modelName) mg)
    (classFields content).

(** the last element called [n] *)
Definition lastNamed (n : string) (fs : list ModelField) : option ModelField :=
  find (has_name n) (rev fs).

Definition fillableOf (content : string) : list string :=
  match Regex.js_match (re_array_prop "fillable") content with
  | Some m => extractArrayValues (Regex.capd m 1)
  | None => []
  end.

Definition hiddenOf (content : string) : list string :=
  match Regex.js_match (re_array_prop "hidden") content with
  | Some m => extractArrayValues (Regex.capd m 1)
  | None => []
  end.

Definition castsOf (content : string) : list (string * string) :=
  match Regex.js_match (re_array_prop "casts") content with
  | Some m => JsObject.entries (extractCasts (Regex.capd m 1))
  | None => []
  end.

Definition usable (raw : string) : bool :=
  JsString.truthy raw && JsString.truthy (JsString.trim raw).

(** the names the [fillable] and [hidden] properties declare *)
Definition declaredNames (content : string) : list string :=
  map JsString.trim (filter usable (fillableOf content ++ hiddenOf content)).

Definition castable (e : string * string) : bool :=
  JsString.truthy (fst e) && JsString.truthy (snd e).

(** the cast the [casts] property gives to [n] *)
Definition castOf (content n : string) : option string :=
  option_map snd
    (find (fun e => String.eqb (fst e) n) (rev (filter castable (castsOf content)))).

(** the column called [n] among the migration columns of table [tbl] *)
Definition migrationColumn (mg : JsMap.t (list ModelField)) (tbl n : string)
  : option ModelField :=
  match JsMap.get tbl mg with
  | Some mfs => lastNamed n mfs
  | None => None
  end.

Definition plain (f : ModelField) : Prop := f = plainField (name f).
Definition unset (f : ModelField) : Prop := nullable f = false /\ default f = None.

(** the scenario: [title] is fillable, cast to integer, and a nullable string
    column of the [posts] migration *)
Definition postsMigration : string :=
  JsString.unlines
    [ "Schema::create('posts', function (Blueprint $table) {";
      "    $table->id();";
      "    $table->string('title')->nullable();";
      "    $table->timestamps();";
      "});" ].

Definition postModel : string :=
  JsString.unlines
    [ "<?php";
      "class Post extends Model";
      "{";
      "    protected $fillable = ['title', 'body'];";
      "    protected $casts = ['title' => 'integer', 'views' => 'int'];";
      "}" ].

Definition postProject : Provider :=
  analyzeProject "/project"
    (Some [("2024_01_01_000000_create_posts_table.php", Some postsMigration)])
    (Some [DirE "Models" (Some [FileE "Post.php" (Some postModel)])])
    (MkProvider JsMap.empty JsMap.empty).

(** the field a match of the column loop writes under its name, if it takes
    the named branch *)
Definition namedField (m : Regex.mres) : option ModelField :=
  match Regex.cap m 2 with
  | Some columnName =>
      if JsString.truthy columnName
      then Some (MkField columnName (migrationTypeToType (Regex.capd m 1))
                   (match Regex.cap m 4 with
                    | Some ms => JsString.includes ms "nullable()"
                    | None => false
                    end)
                   (extractDefault (Regex.cap m 4)))
      else None
  | None => None
  end.

(** the matches of one file, in the order the column loop meets them *)
Definition columnMatches (content : string) : list Regex.mres :=
  Regex.exec_all re_column content ++ Regex.exec_all re_special content.

Definition namedFields (ms : list Regex.mres) : list ModelField :=
  flat_map (fun m => match namedField m with Some f => [f] | None => [] end) ms.

(** the last named declaration of column [n] in a migration file *)
Definition namedColumn (content n : string) : option ModelField :=
  lastNamed n (namedFields (columnMatches content)).

(** what a migration file alone says about column [n] *)
Definition defines (content n : string) : option ModelField :=
  findField n (parseColumns content []).

(** the state of column [n] of table [t] *)
Definition columnIs (t n : string) (f : ModelField)
  (mg : JsMap.t (list ModelField)) : Prop :=
  exists fs, JsMap.get t mg = Some fs /\ findField n fs = Some f.

Definition phpFiles (entries : Dir) : list (string * option string) :=
  filter (fun e => JsString.endsWith (fst e) ".php") entries.

(** the scenario: [status] of [orders] is first a string column, then
    redefined nullable by the migration sorted later *)
Definition ordersCreate : string :=
  JsString.unlines
    [ "Schema::create('orders', function (Blueprint $table) {";
      "    $table->id();";
      "    $table->string('status');";
      "    $table->string('deleted_at');";
      "});" ].

Definition ordersStatusNullable : string :=
  JsString.unlines
    [ "Schema::table('orders', function (Blueprint $table) {";
      "    $table->string('status')->nullable();";
      "});" ].

Definition ordersSoftDeletes : string :=
  JsString.unlines
    [ "Schema::table('orders', function (Blueprint $table) {";
      "    $table->softDeletes();";
      "});" ].

(** a later declaration of [status] with two further arguments *)
Definition ordersStatusDecimal : string :=
  JsString.unlines
    [ "Schema::table('orders', function (Blueprint $table) {";
      "    $table->decimal('status', 8, 2)->nullable();";
      "});" ].

(** listed out of order, as a directory may report them *)
Definition ordersMigrations : Dir :=
  [ ("2024_02_01_000000_make_status_nullable.php", Some ordersStatusNullable);
    ("2024_01_01_000000_create_orders_table.php", Some ordersCreate);
    ("README.md", None) ].

End SchemaSpec.

Module RouteSpec.
Import Regex RegexSpec Routes.

(** the routes one line contributes, before a trailing [->name()] is
    attached: one per pattern that matches, in the order of the patterns *)
Definition candidates (ln : string) (lineNumber : nat) (file : string)
  (mw : list string) (prefix : string) : list RouteInfo :=
  (match Regex.js_match re_action_string ln with
   | Some m =>
       [MkRoute [JsString.toUpperCase (Regex.capd m 1)]
          (fullUri prefix (Regex.capd m 2)) None
          (Some (Regex.capd m 3 ++ "@" ++ Regex.capd m 4)%string)
          (Some (Regex.capd m 3)) (Some (Regex.capd m 4))
          (routeMiddleware mw ln) file lineNumber (columnOf ln)]
   | None => []
   end)
  ++ (match Regex.js_match re_action_array ln with
      | Some m =>
          [MkRoute [JsString.toUpperCase (Regex.capd m 1)]
             (fullUri prefix (Regex.capd m 2)) None
             (Some (Regex.capd m 3 ++ "@" ++ Regex.capd m 4)%string)
             (Some (shortController (Regex.capd m 3))) (Some (Regex.capd m 4))
             (routeMiddleware mw ln) file lineNumber (columnOf ln)]
      | None => []
      end)
  ++ (match Regex.js_match re_resource ln with
      | Some m =>
          [MkRoute resourceMethods
             (fullUri prefix (Regex.capd m 2) ++ "/{id?}")%string None
             (Some (Regex.capd m 3 ++ " (" ++ Regex.capd m 1 ++ ")")%string)
             (Some (shortController (Regex.capd m 3))) (Some "resource")
             (routeMiddleware mw ln) file lineNumber (columnOf ln)]
      | None => []
      end)
  ++ (match Regex.js_match re_closure ln with
      | Some m =>
          [MkRoute [JsString.toUpperCase (Regex.capd m 1)]
             (fullUri prefix (Regex.capd m 2)) None (Some "Closure") None None
             (routeMiddleware mw ln) file lineNumber (columnOf ln)]
      | None => []
      end).

(** the routes of [file] in a table *)
Definition routesOf (file : string) (rt : RouteTable) : list RouteInfo :=
  match JsMap.get file rt with Some l => l | None => [] end.

(** the optional [->name()] of the line *)
Definition attachName (ln : string) (lineNumber : nat) (l : list RouteInfo)
  : list RouteInfo :=
  match Regex.js_match re_name ln with
  | Some m => set_last_name (Regex.capd m 1) lineNumber l
  | None => l
  end.

Definition singleMethod (r : RouteInfo) : Prop := exists v, method r = [v].

Definition groupedRoutes : string :=
  JsString.unlines
    [ "Route::group(['prefix' => 'admin', 'middleware' => ['auth']], function () {";
      "    Route::get('users', 'UserController@index');";
      "});";
      "Route::get('home', 'HomeController@show');" ].

Definition not_R (a : ascii) : bool := negb (Ascii.eqb "R" a).
Definition not_colon (a : ascii) : bool := negb (Regex.mem_char a ":").
Definition no_quote (a : ascii) : bool := negb (Regex.is_quote a).

(** a resource declaration: indentation, [Route::kind('uri', Ctl::class],
    anything after *)
Definition resourceDecl (kind u ctl rest : string) : string :=
  ("Route::" ++ kind ++ "(" ++ "'" ++ u ++ "'" ++ "," ++ " " ++ ctl
   ++ "::class" ++ rest)%string.

Definition resourceLine (indent kind u ctl rest : string) : string :=
  (indent ++ resourceDecl kind u ctl rest)%string.

End RouteSpec.

(** ** Vocabulary of the further properties *)

(** The language of a regular expression, with its captures: [matches r w
    rest c c1] says that [r] can match [w] when [rest] follows, turning the
    captures [c] into [c1].  It lists every way to match, where [Regex.run]
    picks the first one in priority order. *)

Module RegexSem.
Import Regex.

Inductive matches : re -> string -> string -> caps -> caps -> Prop :=
| MEps (rest : string) (c : caps) : matches Eps EmptyString rest c c
| MChr (a : ascii) (rest : string) (c : caps) :
    matches (Chr a) (String a EmptyString) rest c c
| MCls (p : ascii -> bool) (a : ascii) (rest : string) (c : caps) :
    p a = true -> matches (Cls p) (String a EmptyString) rest c c
| MSeq (a b : re) (w1 w2 rest : string) (c c1 c2 : caps) :
    matches a w1 (w2 ++ rest)%string c c1 -> matches b w2 rest c1 c2 ->
    matches (Seq a b) (w1 ++ w2)%string rest c c2
| MAltL (a b : re) (w rest : string) (c c1 : caps) :
    matches a w rest c c1 -> matches (Alt a b) w rest c c1
| MAltR (a b : re) (w rest : string) (c c1 : caps) :
    matches b w rest c c1 -> matches (Alt a b) w rest c c1
| MStar0 (r : re) (rest : string) (c : caps) :
    matches (Star r) EmptyString rest c c
| MStarS (r : re) (w1 w2 rest : string) (c c1 c2 : caps) :
    w1 <> EmptyString ->
    matches r w1 (w2 ++ rest)%string c c1 -> matches (Star r) w2 rest c1 c2 ->
    matches (Star r) (w1 ++ w2)%string rest c c2
| MLazy0 (r : re) (rest : string) (c : caps) :
    matches (LazyStar r) EmptyString rest c c
| MLazyS (r : re) (w1 w2 rest : string) (c c1 c2 : caps) :
    w1 <> EmptyString ->
    matches r w1 (w2 ++ rest)%string c c1 -> matches (LazyStar r) w2 rest c1 c2 ->
    matches (LazyStar r) (w1 ++ w2)%string rest c c2
| MGrp (n : nat) (r : re) (w rest : string) (c c1 : caps) :
    matches r w rest c c1 -> matches (Grp n r) w rest c ((n, w) :: c1)
| MAhead (r : re) (w rest : string) (c c1 : caps) :
    matches r w rest c c1 ->
    matches (Ahead r) EmptyString (w ++ rest)%string c c1
| MEos (c : caps) : matches Eos EmptyString EmptyString c c.

(** the capture groups of a regex, with their bodies *)
Fixpoint groups (r : re) : list (nat * re) :=
  match r with
  | Seq a b => groups a ++ groups b
  | Alt a b => groups a ++ groups b
  | Star r1 => groups r1
  | LazyStar r1 => groups r1
  | Grp n r1 => (n, r1) :: groups r1
  | Ahead r1 => groups r1
  | _ => []
  end.

(** [w] belongs to the language of [r], whatever follows and whatever the
    captures *)
Definition in_lang (r : re) (w : string) : Prop :=
  exists rest c c1, matches r w rest c c1.

(** group [n] takes part in every match of [r] *)
Fixpoint sets (n : nat) (r : re) : bool :=
  match r with
  | Seq a b => sets n a || sets n b
  | Alt a b => sets n a && sets n b
  | Grp m r1 => (n =? m) || sets n r1
  | _ => false
  end.

(** an identifier-like word: a first character of one class, the others of
    another *)
Definition word_of (first others : ascii -> bool) (w : string) : Prop :=
  exists a t, w = String a t /\ first a = true
              /\ RegexSpec.all_chars others t = true.

(** what an iteration body finds is a match of [r] *)
Definition sound_body {R : Type} (r : re)
  (body : string -> caps -> cont R -> option R) : Prop :=
  forall s c k0 x, body s c k0 = Some x ->
    exists w rest c1,
      s = (w ++ rest)%string /\ matches r w rest c c1 /\ k0 rest c1 = Some x.

(** an iteration body calls its continuation on suffixes only *)
Definition local_body {R : Type}
  (body : string -> caps -> cont R -> option R) : Prop :=
  forall s c k k',
    (forall s1 c1, length s1 <= length s -> k s1 c1 = k' s1 c1) ->
    body s c k = body s c k'.

End RegexSem.

Module RequestSpec.
Import JsString Regex Requests.

Definition not_paren (c : ascii) : bool := negb (mem_char c ")").

(** what follows the parameter text in [re_signature] *)
Definition typed_parameter : list re :=
  [Grp 1 (Seq word1 (lit "Request")); ws1; Chr "$"; word1].

(** a controller method that takes a form request, and the request class *)
Definition storeMethod : list string :=
  [ "    public function store(StoreUserRequest $request)";
    "    {";
    "        User::create([" ].

Definition storeUserRequest : string :=
  JsString.unlines
    [ "class StoreUserRequest extends FormRequest";
      "{";
      "    public function rules()";
      "    {";
      "        return [";
      "            'name' => 'required|string|max:255',";
      "            'email' => ['required', 'email'],";
      "        ];";
      "    }";
      "}" ].

Definition storeRequests : JsMap.t RequestInfo :=
  parseRequestFile "/project/app/Http/Requests/StoreUserRequest.php"
    "StoreUserRequest.php" (Some storeUserRequest) JsMap.empty.

End RequestSpec.

Module ViewSpec.
Import JsString Regex Views.

(** every view of the map was built from a file, under its own name *)
Definition built (views : JsMap.t ViewInfo) : Prop :=
  forall k v, In (k, v) views ->
    exists path content, v = buildView path k content.

(** a views directory with one template, and the view it yields *)
Definition usersViews : option (option (list Schema.Entry)) :=
  Some (Some [ Schema.DirE "users"
                 (Some [ Schema.FileE "show.blade.php"
                           (Some "<h1>{{ $user }}: {{ $title }} by {{ $user }}</h1>") ]) ]).

Definition usersShow : ViewInfo :=
  MkView "users.show" "/project/resources/views/users/show.blade.php"
    ["user"; "title"] None [].

End ViewSpec.

Module RouteListSpec.
Import RouteList.

(** a routes file that declares the URI [/users] twice *)
Definition usersWeb : string :=
  JsString.unlines
    [ "<?php";
      "Route::get('/users', 'UserController@index');";
      "Route::post('/users', 'UserController@store');" ].

Definition usersStore : RouteInfo :=
  MkRoute "post" "/users" "/project/routes/web.php" 3.

End RouteListSpec.

Module RouteInv.
Import JsString Regex Routes.

(** the method lists the extractor can produce *)
Definition methodSets : list (list string) :=
  [ ["GET"]; ["POST"]; ["PUT"]; ["PATCH"]; ["DELETE"]; ["OPTIONS"]; ["HEAD"];
    ["ANY"]; resourceMethods ].

Definition present (o : option string) : Prop :=
  forall s, o = Some s -> truthy s = true.

(** a route as the extractor builds it *)
Definition wellFormed (r : RouteInfo) : Prop :=
  In (method r) methodSets
  /\ present (controller r) /\ present (controllerMethod r)
  /\ 1 <= line r.

(** every route of a table satisfies [Q] *)
Definition allRoutes (Q : RouteInfo -> Prop) (rt : RouteTable) : Prop :=
  forall k l, In (k, l) rt -> Forall Q l.

(** a routes directory with one controller route *)
Definition usersRoutes : Routes.Dir :=
  [ ("web.php",
     Some (JsString.unlines
       [ "<?php";
         "Route::get('users', 'UserController@index')->name('users.index');";
         "Route::resource('photos', PhotoController::class);" ])) ].

Definition usersIndex : RouteInfo :=
  MkRoute ["GET"] "users" (Some "users.index") (Some "UserController@index")
    (Some "UserController") (Some "index") [] "/project/routes/web.php" 2 0%Z.

End RouteInv.

Module ValidationSpec.
Import JsString RuleSuggestions ValidationCommands.

(** the order [sortValidationRules] sorts by *)
Definition by_priority (x y : string) : Prop := priority x <= priority y.

(** The edit distance of the first [i] characters of [a] and the first [j]
    of [b], by the recurrence of Wagner and Fischer: drop a character of [a],
    drop one of [b], or pair the last two. *)
Fixpoint lev (a b : string) (i : nat) : nat -> nat :=
  match i with
  | 0 => fun j => j
  | S i' =>
      fix row (j : nat) : nat :=
        match j with
        | 0 => S i'
        | S j' =>
            Nat.min (Nat.min (lev a b i' (S j') + 1) (row j' + 1))
              (lev a b i' j'
               + (if same_char (get i' a) (get j' b) then 0 else 1))
        end
  end.

(** the matrix has [rows] rows of [cols] cells *)
Definition shaped (rows cols : nat) (m : Matrix) : Prop :=
  List.length m = rows
  /\ forall j, j < rows -> List.length (nth j m []) = cols.

(** the rows before [J], row [J] before column [I], and the first row and
    column hold the distances of the prefixes *)
Definition filled (a b : string) (J I : nat) (m : Matrix) : Prop :=
  shaped (S (length b)) (S (length a)) m
  /\ forall j i,
       j <= length b -> i <= length a ->
       j < J \/ (j = J /\ i < I) \/ i = 0 \/ j = 0 ->
       cell m j i = lev a b i j.

(** [n] is within two fifths of the longer length from [w] *)
Definition near (n w : string) : Prop :=
  5 * levenshteinDistance n w < 2 * Nat.max (length n) (length w).

End ValidationSpec.

(* ================================================================== *)
(** * Properties                                                        *)
(* ================================================================== *)

(** ** Strings and maps *)

Lemma mem_In (x : string) (l : list string) :
  Validation.mem x l = true <-> In x l.
Proof.
  unfold Validation.mem. rewrite existsb_exists. split.
  - intros [y [Hy He]]. apply String.eqb_eq in He. now subst.
  - intros H. exists x. split; [assumption | apply String.eqb_refl].
Qed.

Lemma split_nonempty (sep : ascii) (s : string) : JsString.split sep s <> [].
Proof.
  destruct s as [|c t]; simpl; [discriminate|].
  destruct (Ascii.eqb c sep); [discriminate|].
  destruct (JsString.split sep t); discriminate.
Qed.

(** splitting [a ++ sep ++ b] when [a] holds no separator *)
Lemma split_app_sep (sep : ascii) (a b : string) :
  Regex.mem_char sep a = false ->
  JsString.split sep (a ++ String sep b) = a :: JsString.split sep b.
Proof.
  induction a as [|c a IH]; simpl; intros H.
  - now rewrite Ascii.eqb_refl.
  - apply orb_false_iff in H. destruct H as [Hc Ha].
    rewrite Ascii.eqb_sym in Hc. rewrite Hc, (IH Ha). reflexivity.
Qed.

Lemma get_set_same {V : Type} (k : string) (v : V) (m : JsMap.t V) :
  JsMap.get k (JsMap.set k v m) = Some v.
Proof.
  induction m as [|[k1 v1] r IH]; simpl.
  - now rewrite String.eqb_refl.
  - destruct (String.eqb k k1) eqn:E; simpl; rewrite E; [reflexivity | exact IH].
Qed.

Lemma get_set_other {V : Type} (k k' : string) (v : V) (m : JsMap.t V) :
  k' <> k -> JsMap.get k' (JsMap.set k v m) = JsMap.get k' m.
Proof.
  intros Hne. induction m as [|[k1 v1] r IH]; simpl.
  - apply String.eqb_neq in Hne. now rewrite Hne.
  - destruct (String.eqb k k1) eqn:E; simpl.
    + apply String.eqb_eq in E. subst k1.
      apply String.eqb_neq in Hne. now rewrite Hne.
    + now rewrite IH.
Qed.

Lemma get_In {V : Type} (k : string) (v : V) (m : JsMap.t V) :
  JsMap.get k m = Some v -> In (k, v) m.
Proof.
  induction m as [|[k1 v1] r IH]; simpl; [discriminate|].
  destruct (String.eqb k k1) eqn:E.
  - apply String.eqb_eq in E. intros [= ->]. subst. now left.
  - intros H. right. now apply IH.
Qed.

(** what a map holds after [set]: the new binding or an old one *)
Lemma In_set {V : Type} (k : string) (v : V) (m : JsMap.t V) (e : string * V) :
  In e (JsMap.set k v m) -> e = (k, v) \/ In e m.
Proof.
  induction m as [|[k1 v1] r IH]; simpl.
  - intros [H|[]]. now left.
  - destruct (String.eqb k k1) eqn:E; simpl.
    + apply String.eqb_eq in E. subst k1. intros [H|H]; [now left | right; now right].
    + intros [H|H]; [right; now left|].
      destruct (IH H) as [H1|H1]; [now left | right; now right].
Qed.

Lemma keys_set {V : Type} (k : string) (v : V) (m : JsMap.t V) (x : string) :
  In x (JsMap.keys (JsMap.set k v m)) -> x = k \/ In x (JsMap.keys m).
Proof.
  unfold JsMap.keys. rewrite !in_map_iff. intros [[k1 v1] [Hx Hin]].
  simpl in Hx. subst k1. destruct (In_set _ _ _ _ Hin) as [H|H].
  - left. now inversion H.
  - right. exists (x, v1). now split.
Qed.

(** ** The matcher consumes its input *)

Lemma fold_left_ext_in {A B : Type} (f g : A -> B -> A) (l : list B) :
  (forall x, In x l -> forall a, f a x = g a x) ->
  forall a, fold_left f l a = fold_left g l a.
Proof.
  induction l as [|x l IH]; intros H a; [reflexivity|]. simpl.
  rewrite (H x (or_introl eq_refl)). apply IH. intros y Hy. apply H. now right.
Qed.

Module RegexFacts.
Import Regex RegexSpec.

Lemma substring_length_le (n : nat) (s : string) (i : nat) :
  length (substring i n s) <= n.
Proof.
  revert i n. induction s as [|a s IH]; intros i n.
  - destruct i, n; simpl; lia.
  - destruct i as [|i]; simpl.
    + destruct n as [|n]; simpl; [lia|]. specialize (IH 0 n). lia.
    + apply IH.
Qed.

Lemma orelse_some {R : Type} (a b : option R) (x : R) :
  orelse a b = Some x -> a = Some x \/ (a = None /\ b = Some x).
Proof. destruct a; simpl; intros H; [left; assumption | right; auto]. Qed.

(** a successful run calls its continuation on a suffix no longer than the
    input, strictly shorter when the regex is not nullable, and every capture
    it adds is no longer than the input *)
Lemma loop_progress {R : Type} (body : string -> caps -> cont R -> option R)
  (B : nat) (k : cont R) (x : R) :
  (forall s c k0, body s c k0 = Some x -> length s <= B -> bounded B c ->
     exists s1 c1, k0 s1 c1 = Some x /\ length s1 <= length s /\ bounded B c1) ->
  forall fuel s c,
    (star_loop body k fuel s c = Some x \/ lazy_loop body k fuel s c = Some x) ->
    length s <= B -> bounded B c ->
    exists s1 c1, k s1 c1 = Some x /\ length s1 <= length s /\ bounded B c1.
Proof.
  intros Hbody. induction fuel as [|f IHf]; intros s c H Hs Hc.
  - exists s, c. destruct H as [H|H]; repeat split; auto.
  - assert (body s c
              (fun s1 c1 => if length s1 <? length s
                            then star_loop body k f s1 c1 else None) = Some x
            \/ body s c
              (fun s1 c1 => if length s1 <? length s
                            then lazy_loop body k f s1 c1 else None) = Some x
            \/ k s c = Some x) as Hcases.
    { destruct H as [H|H]; simpl in H; apply orelse_some in H; tauto. }
    destruct Hcases as [H1|[H1|H1]].
    + destruct (Hbody _ _ _ H1 Hs Hc) as [s1 [c1 [H2 [L1 B1]]]].
      destruct (length s1 <? length s); [|discriminate].
      destruct (IHf s1 c1 (or_introl H2) ltac:(lia) B1) as [s2 [c2 [H3 [L2 B2]]]].
      exists s2, c2. repeat split; auto. lia.
    + destruct (Hbody _ _ _ H1 Hs Hc) as [s1 [c1 [H2 [L1 B1]]]].
      destruct (length s1 <? length s); [|discriminate].
      destruct (IHf s1 c1 (or_intror H2) ltac:(lia) B1) as [s2 [c2 [H3 [L2 B2]]]].
      exists s2, c2. repeat split; auto. lia.
    + exists s, c. repeat split; auto.
Qed.

(** a successful run calls its continuation on a suffix no longer than the
    input, strictly shorter when the regex is not nullable, and every capture
    it adds is no longer than the input *)
Lemma run_progress (r : re) :
  forall (R : Type) (B : nat) (s : string) (c : caps) (k : cont R) (x : R),
    run r s c k = Some x -> length s <= B -> bounded B c ->
    exists s1 c1,
      k s1 c1 = Some x /\ length s1 <= length s /\ bounded B c1
      /\ (nullable r = false -> length s1 < length s).
Proof.
  induction r as [|a|p|a IHa b IHb|a IHa b IHb|r1 IH|r1 IH|n r1 IH|r1 IH|];
    intros R B s c k x H Hs Hc; cbn [run] in H.
  - exists s, c. repeat split; auto. discriminate.
  - destruct s as [|b t]; [discriminate|]. destruct (Ascii.eqb a b); [|discriminate].
    exists t, c. simpl. repeat split; auto.
  - destruct s as [|b t]; [discriminate|]. destruct (p b); [|discriminate].
    exists t, c. simpl. repeat split; auto.
  - destruct (IHa R B _ _ _ _ H Hs Hc) as [s1 [c1 [H1 [L1 [B1 N1]]]]].
    destruct (IHb R B _ _ _ _ H1 ltac:(lia) B1) as [s2 [c2 [H2 [L2 [B2 N2]]]]].
    exists s2, c2. repeat split; auto; [lia|]. simpl. intros Hn.
    apply andb_false_iff in Hn. destruct Hn as [Hn|Hn];
      [specialize (N1 Hn) | specialize (N2 Hn)]; lia.
  - apply orelse_some in H. simpl.
    destruct H as [H|[_ H]];
      [destruct (IHa R B _ _ _ _ H Hs Hc) as [s1 [c1 [H1 [L1 [B1 N1]]]]]
      |destruct (IHb R B _ _ _ _ H Hs Hc) as [s1 [c1 [H1 [L1 [B1 N1]]]]]];
      exists s1, c1; repeat split; auto; intros Hn;
      apply orb_false_iff in Hn; destruct Hn; auto.
  - destruct (loop_progress (fun s0 c0 k0 => run r1 s0 c0 k0) B k x) with
      (fuel := S (length s)) (s := s) (c := c) as [s1 [c1 [H1 [L1 B1]]]]; auto.
    + intros s0 c0 k0 H0 Hs0 Hc0.
      destruct (IH R B _ _ _ _ H0 Hs0 Hc0) as [s1 [c1 [H1 [L1 [B1 _]]]]].
      now exists s1, c1.
    + exists s1, c1. repeat split; auto. discriminate.
  - destruct (loop_progress (fun s0 c0 k0 => run r1 s0 c0 k0) B k x) with
      (fuel := S (length s)) (s := s) (c := c) as [s1 [c1 [H1 [L1 B1]]]]; auto.
    + intros s0 c0 k0 H0 Hs0 Hc0.
      destruct (IH R B _ _ _ _ H0 Hs0 Hc0) as [s1 [c1 [H1 [L1 [B1 _]]]]].
      now exists s1, c1.
    + exists s1, c1. repeat split; auto. discriminate.
  - destruct (IH R B _ _ _ _ H Hs Hc) as [s1 [c1 [H1 [L1 [B1 N1]]]]].
    eexists _, _. split; [exact H1|]. repeat split; auto.
    constructor; [|assumption]. simpl.
    pose proof (substring_length_le (length s - length s1) s 0). lia.
  - destruct (run r1 s c (fun _ c1 => Some c1)) as [c1|] eqn:E; [|discriminate].
    destruct (IH caps B _ _ _ _ E Hs Hc) as [s1 [c2 [H1 [L1 [B1 _]]]]].
    injection H1 as ->. exists s, c1. repeat split; auto. discriminate.
  - destruct s; [|discriminate]. exists EmptyString, c. repeat split; auto. discriminate.
Qed.

Lemma at_front_progress (r : re) (i B : nat) (s : string) (m : mres) :
  at_front r i s = Some m -> length s <= B ->
  length (m_rest m) <= length s /\ bounded B (m_caps m)
  /\ (nullable r = false -> length (m_rest m) < length s).
Proof.
  unfold at_front. intros H Hs.
  destruct (run_progress r _ B s [] _ m H Hs (Forall_nil _))
    as [s1 [c1 [H1 [L1 [B1 N1]]]]].
  injection H1 as <-. simpl. auto.
Qed.

Lemma at_front_strict (r : re) (i : nat) (s : string) (m : mres) :
  starts_with_char r = true -> at_front r i s = Some m ->
  bounded (length s - 1) (m_caps m).
Proof.
  intros Hr H. unfold at_front in H.
  destruct r as [| | |a b| | | | | |]; try discriminate.
  destruct a; try discriminate; cbn [run] in H;
    (destruct s as [|ch t]; [discriminate|]);
    match type of H with
    | (if ?b then _ else _) = _ => destruct b; [|discriminate]
    end;
    destruct (run_progress b _ (length t) t [] _ m H (le_n _) (Forall_nil _))
      as [s1 [c1 [H1 [L1 [B1 N1]]]]];
    injection H1 as <-; simpl; now rewrite Nat.sub_0_r.
Qed.

Lemma bounded_weaken (B B' : nat) (c : caps) :
  B <= B' -> bounded B c -> bounded B' c.
Proof.
  intros Hle H. eapply Forall_impl; [|exact H]. simpl. intros e He. lia.
Qed.

Lemma search_progress (r : re) (s : string) :
  forall i m, search r i s = Some m ->
    length (m_rest m) <= length s /\ bounded (length s) (m_caps m)
    /\ (nullable r = false -> length (m_rest m) < length s)
    /\ (starts_with_char r = true -> bounded (length s - 1) (m_caps m)).
Proof.
  induction s as [|ch t IH]; intros i m H; cbn [search] in H.
  - destruct (at_front r i EmptyString) as [m0|] eqn:E; [|discriminate].
    injection H as <-.
    destruct (at_front_progress r i 0 _ _ E (le_n _)) as [H1 [H2 H3]].
    repeat split; auto; intros Hr; now apply (at_front_strict r i).
  - destruct (at_front r i (String ch t)) as [m0|] eqn:E.
    + injection H as <-.
      destruct (at_front_progress r i _ _ _ E (le_n _)) as [H1 [H2 H3]].
      repeat split; auto; intros Hr; now apply (at_front_strict r i).
    + destruct (IH _ _ H) as [H1 [H2 [H3 H4]]]. simpl.
      repeat split.
      * lia.
      * apply (bounded_weaken (length t)); [lia | assumption].
      * intros Hn. specialize (H3 Hn). lia.
      * intros Hr. apply (bounded_weaken (length t - 1)); [lia | now apply H4].
Qed.

(** for a regex that is not nullable the loop takes its first branch *)
Lemma exec_loop_step (r : re) (f i : nat) (s : string) :
  nullable r = false ->
  exec_loop (S f) r i s
  = match search r i s with
    | None => []
    | Some m => m :: exec_loop f r (m_index m + length (m_text m)) (m_rest m)
    end.
Proof.
  intros Hn. cbn [exec_loop]. destruct (search r i s) as [m|] eqn:E; [|reflexivity].
  destruct (search_progress r s i m E) as [_ [_ [H _]]].
  specialize (H Hn). apply Nat.ltb_lt in H. now rewrite H.
Qed.

(** and the fuel of [exec_all] is never exhausted: more fuel changes nothing *)
Lemma exec_loop_fuel (r : re) :
  nullable r = false ->
  forall f1 f2 i s, length s < f1 -> length s < f2 ->
    exec_loop f1 r i s = exec_loop f2 r i s.
Proof.
  intros Hn. induction f1 as [|f1 IH]; intros f2 i s H1 H2; [lia|].
  destruct f2 as [|f2]; [lia|]. rewrite !exec_loop_step by assumption.
  destruct (search r i s) as [m|] eqn:E; [|reflexivity].
  destruct (search_progress r s i m E) as [_ [_ [H _]]]. specialize (H Hn).
  f_equal. apply IH; lia.
Qed.

Lemma exec_loop_caps (r : re) (B : nat) :
  starts_with_char r = true ->
  forall fuel i s, length s <= B ->
    Forall (fun m => bounded (B - 1) (m_caps m)) (exec_loop fuel r i s).
Proof.
  intros Hr. induction fuel as [|f IH]; intros i s Hs; cbn [exec_loop]; [constructor|].
  destruct (search r i s) as [m|] eqn:E; [|constructor].
  destruct (search_progress r s i m E) as [H1 [_ [_ H4]]].
  assert (bounded (B - 1) (m_caps m)) as Hb
    by (apply (bounded_weaken (length s - 1)); [lia | now apply H4]).
  destruct (length (m_rest m) <? length s); constructor; auto.
  apply IH. lia.
Qed.

(** the captures of the matches [exec_all] finds with a regex that starts
    with a character are shorter than the text *)
Lemma exec_all_caps (r : re) (s : string) (m : mres) (n : nat) (v : string) :
  starts_with_char r = true -> In m (exec_all r s) -> cap m n = Some v ->
  length v < length s.
Proof.
  intros Hr Hin Hcap.
  pose proof (exec_loop_caps r (length s) Hr (S (length s)) 0 s (le_n _)) as H.
  rewrite Forall_forall in H. specialize (H m Hin).
  assert (length s <> 0) as Hne.
  { intros H0. destruct s; [|discriminate]. unfold exec_all in Hin. simpl in Hin.
    unfold at_front in Hin.
    destruct r as [| | |a b| | | | | |]; try discriminate.
    destruct a; try discriminate; cbn [run] in Hin; destruct Hin. }
  unfold cap in Hcap. unfold bounded in H. induction (m_caps m) as [|[k w] t IHt].
  - discriminate.
  - inversion H; subst. simpl in Hcap. destruct (n =? k).
    + injection Hcap as <-. simpl in *. lia.
    + now apply IHt.
Qed.

(** [parsePhpArray] never runs out of fuel: any fuel above the length of the
    content gives the same catalog *)
Lemma parsePhpArray_fuel (f1 : nat) :
  forall f2 content lines filePath loc namespace prefix tr,
    length content < f1 -> length content < f2 ->
    Translations.parsePhpArray f1 content lines filePath loc namespace prefix tr
    = Translations.parsePhpArray f2 content lines filePath loc namespace prefix tr.
Proof.
  induction f1 as [|f1 IH]; intros f2 content lines filePath loc namespace prefix tr H1 H2;
    [lia|].
  destruct f2 as [|f2]; [lia|]. cbn [Translations.parsePhpArray].
  apply fold_left_ext_in. intros m Hm acc.
  destruct (cap m 2); [reflexivity|].
  destruct (cap m 3) as [av|] eqn:E3; [|reflexivity].
  pose proof (exec_all_caps Translations.re_key_value content m 3 av eq_refl Hm E3).
  apply IH; lia.
Qed.

(** *** Matching text of a known shape *)

Lemma run_seqs_cons {R : Type} (r : re) (l : list re) (s : string) (c : caps)
  (k : cont R) :
  run (seqs (r :: l)) s c k = run r s c (fun s1 c1 => run (seqs l) s1 c1 k).
Proof. destruct l; reflexivity. Qed.

Lemma length_append (a b : string) :
  length (a ++ b)%string = length a + length b.
Proof. induction a as [|ch a IH]; simpl; [reflexivity | now rewrite IH]. Qed.

Lemma substring_prefix (u s : string) :
  substring 0 (length (u ++ s)%string - length s) (u ++ s)%string = u.
Proof.
  rewrite length_append, Nat.add_sub.
  induction u as [|a t IH]; simpl.
  - destruct s; reflexivity.
  - now rewrite IH.
Qed.

Lemma run_lit {R : Type} (w s : string) (c : caps) (k : cont R) :
  run (lit w) (w ++ s)%string c k = k s c.
Proof.
  induction w as [|a t IH]; [reflexivity|].
  destruct t as [|b t].
  - cbn [lit run append]. now rewrite Ascii.eqb_refl.
  - change (lit (String a (String b t))) with (Seq (Chr a) (lit (String b t))).
    change (String a (String b t) ++ s)%string with (String a (String b t ++ s)%string).
    cbn [run]. rewrite Ascii.eqb_refl. exact IH.
Qed.

Lemma star_loop_stop {R : Type} (p : ascii -> bool)
  (body : string -> caps -> cont R -> option R) (k : cont R) (x : R) :
  (forall a t c0 k0, p a = true -> body (String a t) c0 k0 = k0 t c0) ->
  (forall s c0 k0, stops p s = true -> body s c0 k0 = None) ->
  forall u fuel s c,
    length u < fuel -> all_chars p u = true -> stops p s = true ->
    k s c = Some x ->
    star_loop body k fuel (u ++ s)%string c = Some x.
Proof.
  intros Hstep Hstop. induction u as [|a t IH]; intros fuel s c Hf Hu Hs Hk.
  - destruct fuel as [|f]; [lia|]. cbn [star_loop append].
    now rewrite (Hstop s c _ Hs).
  - destruct fuel as [|f]; [simpl in Hf; lia|].
    simpl in Hu. apply andb_true_iff in Hu. destruct Hu as [Ha Ht].
    cbn [star_loop]. change (String a t ++ s)%string with (String a (t ++ s)%string).
    rewrite (Hstep a _ c _ Ha).
    assert ((length (t ++ s)%string <? length (String a (t ++ s)%string)) = true)
      as -> by (apply Nat.ltb_lt; simpl; lia).
    rewrite (IH f s c); [reflexivity | simpl in Hf; lia | assumption..].
Qed.

Lemma cls_step {R : Type} (p : ascii -> bool) (a : ascii) (t : string)
  (c0 : caps) (k0 : cont R) :
  p a = true -> run (Cls p) (String a t) c0 k0 = k0 t c0.
Proof. intros H. cbn [run]. now rewrite H. Qed.

Lemma cls_stop {R : Type} (p : ascii -> bool) (s : string) (c0 : caps)
  (k0 : cont R) :
  stops p s = true -> run (Cls p) s c0 k0 = None.
Proof.
  intros H. destruct s as [|b t]; [reflexivity|]. cbn [run].
  simpl in H. apply negb_true_iff in H. now rewrite H.
Qed.

Lemma star_cls_stop {R : Type} (p : ascii -> bool) (k : cont R) (x : R) (u : string) :
  forall fuel s c,
    length u < fuel -> all_chars p u = true -> stops p s = true ->
    k s c = Some x ->
    star_loop (fun s0 c0 k0 => run (Cls p) s0 c0 k0) k fuel (u ++ s)%string c = Some x.
Proof.
  intros fuel s c. apply (star_loop_stop p).
  - intros a t c0 k0. apply cls_step.
  - intros s0 c0 k0. apply cls_stop.
Qed.

Lemma run_star_cls {R : Type} (p : ascii -> bool) (k : cont R) (x : R)
  (u s : string) (c : caps) :
  all_chars p u = true -> stops p s = true -> k s c = Some x ->
  run (Star (Cls p)) (u ++ s)%string c k = Some x.
Proof.
  intros Hu Hs Hk. cbn [run]. apply star_cls_stop; auto.
  rewrite length_append. lia.
Qed.

(** one or more characters of a class, then something else *)
Lemma run_plus_cls {R : Type} (p : ascii -> bool) (k : cont R) (x : R)
  (a : ascii) (u s : string) (c : caps) :
  all_chars p (String a u) = true -> stops p s = true -> k s c = Some x ->
  run (plus (Cls p)) (String a u ++ s)%string c k = Some x.
Proof.
  intros Hu Hs Hk. simpl in Hu. apply andb_true_iff in Hu. destruct Hu as [Ha Hu].
  unfold plus. change (String a u ++ s)%string with (String a (u ++ s)%string).
  change (run (Seq (Cls p) (Star (Cls p))) (String a (u ++ s)%string) c k)
    with (run (Cls p) (String a (u ++ s)%string) c
            (fun s1 c1 => run (Star (Cls p)) s1 c1 k)).
  rewrite (cls_step p a _ c _ Ha). now apply run_star_cls.
Qed.

(** a captured run of one or more characters of a class *)
Lemma run_grp_plus_cls {R : Type} (n : nat) (p : ascii -> bool) (k : cont R)
  (x : R) (a : ascii) (u s : string) (c : caps) :
  all_chars p (String a u) = true -> stops p s = true ->
  k s ((n, String a u) :: c) = Some x ->
  run (Grp n (plus (Cls p))) (String a u ++ s)%string c k = Some x.
Proof.
  intros Hu Hs Hk. cbn [run]. apply run_plus_cls; auto.
  now rewrite substring_prefix.
Qed.

(** optional whitespace that is not there *)
Lemma run_ws_none {R : Type} (k : cont R) (x : R) (s : string) (c : caps) :
  stops JsString.is_space s = true -> k s c = Some x -> run ws s c k = Some x.
Proof.
  intros Hs Hk. unfold ws.
  now apply (run_star_cls JsString.is_space k x EmptyString s c).
Qed.

Lemma search_at_front (r : re) (i : nat) (s : string) (m : mres) :
  at_front r i s = Some m -> search r i s = Some m.
Proof. intros H. destruct s; simpl; now rewrite H. Qed.


Lemma run_chr {R : Type} (a : ascii) (s : string) (c : caps) (k : cont R) :
  run (Chr a) (String a EmptyString ++ s)%string c k = k s c.
Proof. cbn [run append]. now rewrite Ascii.eqb_refl. Qed.

Lemma run_cls1 {R : Type} (p : ascii -> bool) (a : ascii) (s : string)
  (c : caps) (k : cont R) :
  p a = true -> run (Cls p) (String a EmptyString ++ s)%string c k = k s c.
Proof. intros H. cbn [run append]. now rewrite H. Qed.

(** a captured alternative of two literals *)
Lemma run_grp_alt_first {R : Type} (n : nat) (w : string) (r2 : re) (k : cont R)
  (x : R) (s : string) (c : caps) :
  k s ((n, w) :: c) = Some x ->
  run (Grp n (Alt (lit w) r2)) (w ++ s)%string c k = Some x.
Proof.
  intros Hk. cbn [run]. rewrite run_lit, substring_prefix, Hk. reflexivity.
Qed.

Lemma run_grp_alt_second {R : Type} (n : nat) (w1 w2 : string) (k : cont R)
  (x : R) (s : string) (c : caps) :
  (forall k0 : cont R, run (lit w1) (w2 ++ s)%string c k0 = None) ->
  k s ((n, w2) :: c) = Some x ->
  run (Grp n (Alt (lit w1) (lit w2))) (w2 ++ s)%string c k = Some x.
Proof.
  intros Hno Hk. cbn [run]. rewrite Hno. cbn [orelse].
  now rewrite run_lit, substring_prefix.
Qed.

(** characters the regex cannot start on are skipped *)
Lemma search_skip (r : re) (p : ascii -> bool) :
  (forall a t i, p a = true -> at_front r i (String a t) = None) ->
  forall u s i, all_chars p u = true ->
    search r i (u ++ s)%string = search r (i + length u) s.
Proof.
  intros Hfail. induction u as [|a t IH]; intros s i Hu.
  - simpl. now rewrite Nat.add_0_r.
  - simpl in Hu. apply andb_true_iff in Hu. destruct Hu as [Ha Ht].
    change (String a t ++ s)%string with (String a (t ++ s)%string).
    cbn [search]. rewrite (Hfail a _ i Ha), (IH s (S i) Ht). f_equal. simpl. lia.
Qed.

(** the regexes driven by the global [exec] loop are not nullable *)
Lemma global_regexes_consume :
  Forall (fun r => nullable r = false)
    ([ Schema.re_quoted; Schema.re_cast_entry; Schema.re_column;
       Schema.re_special; Translations.re_key_value; Validation.re_id_column;
       Validation.re_named_column; Validation.re_call0 "timestamps";
       Validation.re_call0 "softDeletes" ]
     ++ map fst Translations.usagePatterns
     ++ map Schema.re_relationship Schema.relationshipMethods).
Proof. repeat constructor. Qed.

End RegexFacts.

(** ** C4: compatibility filtering *)

Lemma conflict_sym (a b : string) : conflict a b -> conflict b a.
Proof. unfold conflict. tauto. Qed.

Lemma conflictsOf_listed (a : string) (l : list string) :
  JsMap.get a Validation.mutuallyExclusive = Some l ->
  Validation.conflictsOf a = Some l.
Proof. unfold Validation.conflictsOf. now intros ->. Qed.

Lemma existingConflict_hit (a b : string) (cur : list string) :
  listed a b -> In a cur -> Validation.existingConflict b cur <> Some true.
Proof.
  intros [l [Hl Hb]]. induction cur as [|e r IH]; simpl; [tauto|].
  intros [He|Hr].
  - subst e. rewrite (conflictsOf_listed _ _ Hl).
    apply mem_In in Hb. rewrite Hb. discriminate.
  - destruct (Validation.conflictsOf e) as [ec|]; [|discriminate].
    destruct (Validation.mem b ec); [discriminate | now apply IH].
Qed.

Lemma applicable_conflict (a : string) (rule : Validation.ValidationRule)
  (cur : list string) (fieldName : string) :
  conflict a (Validation.name rule) -> In a cur ->
  Validation.isRuleApplicable rule cur fieldName <> Some true.
Proof.
  intros Hc Ha. unfold Validation.isRuleApplicable.
  destruct (Validation.conflictsOf (Validation.name rule)) as [cs|] eqn:Ecs;
    [|discriminate].
  destruct (existsb _ cs) eqn:Eex; [discriminate|].
  destruct Hc as [Hab|Hba].
  - now apply existingConflict_hit with (a := a).
  - exfalso. destruct Hba as [l [Hl Hin]].
    rewrite (conflictsOf_listed _ _ Hl) in Ecs. injection Ecs as <-.
    assert (existsb (fun c => Validation.mem c cur) l = true) as Ht.
    { apply existsb_exists. exists a. split; [assumption | now apply mem_In]. }
    congruence.
Qed.

Lemma availableRules_sound (rules : list Validation.ValidationRule)
  (cur : list string) (fieldName : string) :
  forall offered rule,
    Validation.availableRules rules cur fieldName = Some offered ->
    In rule offered ->
    In rule rules
    /\ Validation.mem (Validation.name rule) cur = false
    /\ Validation.isRuleApplicable rule cur fieldName = Some true.
Proof.
  induction rules as [|r rs IH]; simpl; intros offered rule H Hin.
  - injection H as <-. destruct Hin.
  - destruct (negb (Validation.mem (Validation.name r) cur)) eqn:En.
    + destruct (Validation.isRuleApplicable r cur fieldName) as [b|] eqn:Ea;
        [|discriminate].
      destruct (Validation.availableRules rs cur fieldName) as [l|] eqn:El;
        [|discriminate].
      injection H as <-. destruct b.
      * destruct Hin as [<-|Hin].
        -- apply negb_true_iff in En. auto.
        -- destruct (IH l rule eq_refl Hin) as [H1 H2]. split; [now right | exact H2].
      * destruct (IH l rule eq_refl Hin) as [H1 H2]. split; [now right | exact H2].
    + destruct (Validation.availableRules rs cur fieldName) as [l|] eqn:El;
        [|discriminate].
      injection H as <-.
      destruct (IH l rule eq_refl Hin) as [H1 H2]. split; [now right | exact H2].
Qed.

(** a rule in conflict with an applied rule is neither applicable nor offered *)
Lemma conflicting_not_offered (a b : string) (cur : list string) (fieldName : string) :
  conflict a b -> In a cur ->
  (forall rule, Validation.name rule = b ->
     Validation.isRuleApplicable rule cur fieldName <> Some true)
  /\ (forall rules offered,
        Validation.availableRules rules cur fieldName = Some offered ->
        ~ In b (map Validation.name offered)).
Proof.
  intros Hc Ha. split.
  - intros rule <-. now apply applicable_conflict with (a := a).
  - intros rules offered Hav Hin. apply in_map_iff in Hin.
    destruct Hin as [rule [Hn Hr]].
    destruct (availableRules_sound _ _ _ _ _ Hav Hr) as [_ [_ Happ]].
    subst b. now apply (applicable_conflict a rule cur fieldName).
Qed.

(** C4.  Compatibility filtering is symmetric: when the exclusion table lists
    [b] among the conflicts of [a], or [a] among those of [b], then with [a]
    among the rules already applied no rule named [b] is applicable or
    offered, and with [b] already applied no rule named [a] is. *)
Theorem C4_conflicting_rule_not_offered
  (a b : string) (currentRules : list string) (fieldName : string) :
  conflict a b ->
  (In a currentRules ->
     (forall rule, Validation.name rule = b ->
        Validation.isRuleApplicable rule currentRules fieldName <> Some true)
     /\ (forall rules offered,
           Validation.availableRules rules currentRules fieldName = Some offered ->
           ~ In b (map Validation.name offered)))
  /\ (In b currentRules ->
        (forall rule, Validation.name rule = a ->
           Validation.isRuleApplicable rule currentRules fieldName <> Some true)
        /\ (forall rules offered,
              Validation.availableRules rules currentRules fieldName = Some offered ->
              ~ In a (map Validation.name offered))).
Proof.
  intros Hc. split; intros Hin.
  - now apply conflicting_not_offered with (a := a).
  - apply conflicting_not_offered with (a := b); [|assumption].
    now apply conflict_sym.
Qed.

(** [required] applied: [nullable] is not offered; [nullable] applied:
    [required] is not offered.  The table lists the pair in both directions;
    [sometimes] is listed under [required] only. *)
Lemma C4_required_excludes_nullable :
  conflict "required" "nullable"
  /\ (forall rules offered,
        Validation.availableRules rules ["required"] "email" = Some offered ->
        ~ In "nullable" (map Validation.name offered))
  /\ (forall rules offered,
        Validation.availableRules rules ["string"; "nullable"] "email" = Some offered ->
        ~ In "required" (map Validation.name offered))
  /\ conflict "sometimes" "required"
  /\ (forall rules offered,
        Validation.availableRules rules ["sometimes"] "email" = Some offered ->
        ~ In "required" (map Validation.name offered)).
Proof.
  assert (conflict "required" "nullable") as Hc.
  { left. exists ["nullable"; "sometimes"]. split; [reflexivity | simpl; auto]. }
  assert (conflict "sometimes" "required") as Hs.
  { right. exists ["nullable"; "sometimes"]. split; [reflexivity | simpl; auto]. }
  split; [exact Hc|]. split; [|split; [|split; [exact Hs|]]].
  - apply (C4_conflicting_rule_not_offered "required" "nullable" ["required"]
             "email" Hc). simpl. auto.
  - apply (C4_conflicting_rule_not_offered "required" "nullable"
             ["string"; "nullable"] "email" Hc). simpl. auto.
  - apply (C4_conflicting_rule_not_offered "sometimes" "required" ["sometimes"]
             "email" Hs). simpl. auto.
Defined.

(** and the other way round, on the completions of a concrete line *)
Example nullable_excludes_required :
  option_map (map Validation.name)
    (Validation.provideValidationRuleCompletions
       (Validation.construct None) "'email' => 'nullable|")
  = Some ["string"; "integer"; "numeric"; "boolean"; "email"; "min"; "max";
          "confirmed"; "unique"; "exists"; "in"; "regex"; "date"; "file";
          "image"].
Proof. vm_compute. reflexivity. Qed.

Example required_excludes_nullable :
  option_map (map Validation.name)
    (Validation.provideValidationRuleCompletions
       (Validation.construct None) "'email' => ['required', '")
  = Some ["string"; "integer"; "numeric"; "boolean"; "email"; "min"; "max";
          "confirmed"; "unique"; "exists"; "in"; "regex"; "date"; "file";
          "image"].
Proof. vm_compute. reflexivity. Qed.

(** ** Folds and the file-name sort *)

Lemma fold_left_invariant {A B : Type} (f : A -> B -> A) (P : A -> Prop)
  (l : list B) :
  forall a, P a -> (forall x b, In b l -> P x -> P (f x b)) ->
  P (fold_left f l a).
Proof.
  induction l as [|b l IH]; simpl; intros a Ha Hstep; [assumption|].
  apply IH.
  - apply Hstep; [now left | assumption].
  - intros x b' Hin. apply Hstep. now right.
Qed.

Lemma ltb_false_leb (a b : string) : String.ltb a b = false -> String.leb b a = true.
Proof.
  unfold String.ltb, String.leb. rewrite (String.compare_antisym b a).
  destruct (String.compare a b); simpl; congruence.
Qed.

Lemma ltb_leb (a b : string) : String.ltb a b = true -> String.leb a b = true.
Proof.
  unfold String.ltb, String.leb. destruct (String.compare a b); congruence.
Qed.

Lemma insert_sorted_perm {A : Type} (e : string * A) (l : list (string * A)) :
  Permutation (Schema.insert_sorted e l) (e :: l).
Proof.
  induction l as [|h t IH]; simpl; [reflexivity|].
  destruct (String.ltb (fst e) (fst h)); [reflexivity|].
  rewrite IH. apply perm_swap.
Qed.

Lemma insert_sorted_hd {A : Type} (e x : string * A) (l : list (string * A)) :
  name_le x e -> HdRel name_le x l -> HdRel name_le x (Schema.insert_sorted e l).
Proof.
  intros Hxe Hl. destruct l as [|h t]; simpl; [now constructor|].
  destruct (String.ltb (fst e) (fst h)); constructor; [assumption|].
  now inversion Hl.
Qed.

Lemma insert_sorted_sorted {A : Type} (e : string * A) (l : list (string * A)) :
  Sorted name_le l -> Sorted name_le (Schema.insert_sorted e l).
Proof.
  induction l as [|h t IH]; simpl; intros Hs.
  - repeat constructor.
  - inversion Hs as [|? ? Ht Hh]; subst.
    destruct (String.ltb (fst e) (fst h)) eqn:E.
    + constructor; [assumption|]. constructor. now apply ltb_leb.
    + constructor; [now apply IH|].
      apply insert_sorted_hd; [|assumption]. now apply ltb_false_leb.
Qed.

Lemma sort_fold_perm {A : Type} (l acc : list (string * A)) :
  Permutation (fold_left (fun a e => Schema.insert_sorted e a) l acc) (l ++ acc).
Proof.
  revert acc. induction l as [|e l IH]; simpl; intros acc; [reflexivity|].
  rewrite IH. rewrite insert_sorted_perm. symmetry. apply Permutation_middle.
Qed.

(** the sorted listing holds the same files *)
Lemma sort_by_name_perm {A : Type} (l : list (string * A)) :
  Permutation (Schema.sort_by_name l) l.
Proof.
  unfold Schema.sort_by_name. rewrite sort_fold_perm. now rewrite app_nil_r.
Qed.

(** and names never decrease along it *)
Lemma sort_by_name_sorted {A : Type} (l : list (string * A)) :
  Sorted name_le (Schema.sort_by_name l).
Proof.
  unfold Schema.sort_by_name.
  apply fold_left_invariant with (P := Sorted name_le); [constructor|].
  intros x b _ Hx. now apply insert_sorted_sorted.
Qed.

Lemma sort_by_name_In {A : Type} (l : list (string * A)) (e : string * A) :
  In e (Schema.sort_by_name l) <-> In e l.
Proof.
  split; apply Permutation_in;
    [apply sort_by_name_perm | symmetry; apply sort_by_name_perm].
Qed.

(** ** C7: unknown tables in [exists:] and [unique:] rules *)

Lemma construct_rules (dir : option Validation.Dir) :
  Validation.validationRules (Validation.construct dir) = Validation.catalog.
Proof. destruct dir; reflexivity. Qed.

Lemma schema_tables_defined (dir : option Validation.Dir) (tn : string) :
  In tn (JsMap.keys (Validation.databaseTables (Validation.construct dir))) ->
  definedByMigrations dir tn.
Proof.
  destruct dir as [entries|]; [|simpl; tauto].
  unfold Validation.construct, Validation.analyzeDatabaseSchema.
  cbn [Validation.databaseTables].
  assert (forall e,
            In e (Schema.sort_by_name
                    (filter (fun e => JsString.endsWith (fst e) ".php") entries)) ->
            In e entries /\ JsString.endsWith (fst e) ".php" = true) as Hfiles.
  { intros e He. apply (proj1 (sort_by_name_In _ _)) in He.
    apply filter_In in He. exact He. }
  revert Hfiles. generalize (Schema.sort_by_name
    (filter (fun e => JsString.endsWith (fst e) ".php") entries)).
  intros files Hfiles.
  apply (fold_left_invariant
           (fun t e => Validation.parseMigrationForSchema (snd e) t)
           (fun t => In tn (JsMap.keys t) -> definedByMigrations (Some entries) tn)).
  - simpl. tauto.
  - intros t [file content] Hin IH. unfold Validation.parseMigrationForSchema.
    simpl. destruct content as [text|]; [|exact IH].
    destruct (Validation.createdTable text) as [tbl|] eqn:Et; [|exact IH].
    intros Hk. apply keys_set in Hk. destruct Hk as [->|Hk]; [|now apply IH].
    destruct (Hfiles _ Hin) as [H1 H2].
    exists entries, file, text. auto.
Qed.

Lemma firstn_In {A : Type} (n : nat) (l : list A) (x : A) :
  In x (firstn n l) -> In x l.
Proof.
  revert l. induction n as [|n IH]; intros [|a l]; simpl; try tauto.
  intros [H|H]; [now left | right; now apply IH].
Qed.

(** A rule [exists:args] or [unique:args] whose table argument is not among
    the tables of the schema built from the migrations gets the
    [table-not-found] issue from [validateRule], a total function, when the
    rule reaches it, and every quick fix of [createTableNotFoundActions]
    names a table that a migration file of the project creates. *)
Theorem unknown_table_rule_flagged
  (dir : option Validation.Dir) (kind args : string) :
  kind = "exists" \/ kind = "unique" ->
  JsMap.has
    (Validation.tableArgument (hd EmptyString (JsString.split ":" args)))
    (Validation.databaseTables (Validation.construct dir)) = false ->
  In (Validation.tableNotFound
        (Validation.tableArgument (hd EmptyString (JsString.split ":" args))))
     (Validation.validateRule (Validation.construct dir)
        (kind ++ String ":" args))
  /\ (forall text action,
        In action
          (Validation.createTableNotFoundActions (Validation.construct dir) text) ->
        exists tn,
          definedByMigrations dir tn
          /\ In tn (JsMap.keys
                      (Validation.databaseTables (Validation.construct dir)))
          /\ Validation.title action = ("Use table '" ++ tn ++ "'")%string
          /\ Validation.newText action
             = Validation.replace_re Validation.re_exists_arg
                 ("exists:" ++ tn) text).
Proof.
  intros Hkind Hhas. split.
  - unfold Validation.validateRule.
    assert (Regex.mem_char ":" kind = false) as Hnc
      by (destruct Hkind; subst; reflexivity).
    rewrite (split_app_sep ":" kind args Hnc).
    unfold Validation.getValidationRule. rewrite construct_rules.
    destruct (JsString.split ":" args) as [|p0 ps] eqn:Es;
      [now apply split_nonempty in Es|].
    simpl hd in Hhas.
    destruct Hkind; subst kind; simpl; rewrite Hhas; simpl;
      apply in_or_app; right; now left.
  - intros text action Hin. unfold Validation.createTableNotFoundActions in Hin.
    apply in_map_iff in Hin. destruct Hin as [tn [Ha Hin]].
    apply firstn_In in Hin. exists tn. subst action. simpl.
    split; [now apply schema_tables_defined | auto].
Qed.

Lemma unknown_table_rule_scenario :
  JsMap.keys (Validation.databaseTables
                (Validation.construct (Some usersPostsMigrations)))
    = ["users"; "posts"]
  /\ In (Validation.tableNotFound "customers")
        (Validation.validateRule
           (Validation.construct (Some usersPostsMigrations))
           "exists:customers,id")
  /\ map Validation.title
       (Validation.createTableNotFoundActions
          (Validation.construct (Some usersPostsMigrations))
          "exists:customers,id")
     = ["Use table 'users'"; "Use table 'posts'"].
Proof.
  split; [vm_compute; reflexivity|]. split.
  - apply (unknown_table_rule_flagged (Some usersPostsMigrations)
             "exists" "customers,id").
    + left. reflexivity.
    + vm_compute. reflexivity.
  - vm_compute. reflexivity.
Defined.

(** C7.  In a project whose migrations create only [users] and [posts], the
    rule [exists:customers,id] is flagged when [validateRule] receives it,
    with quick fixes for [users] and [posts] only, and [updateDiagnostics]
    reports it on a line that gives the rules as an array or that holds the
    rules string alone.  On the usual line
    ['user_id' => 'required|exists:customers,id',] it reports nothing: the
    pattern meant for the pipe-separated rules takes the first quoted string
    of the line, the field name, and the loop over the quoted strings drops
    the rules string, [required|exists] being no registered rule. *)
Theorem C7_field_line_not_flagged :
  JsMap.keys (Validation.databaseTables
                (Validation.construct (Some usersPostsMigrations)))
    = ["users"; "posts"]
  /\ Validation.validateRule (Validation.construct (Some usersPostsMigrations))
       "exists:customers,id"
     = [Validation.tableNotFound "customers"]
  /\ map Validation.title
       (Validation.createTableNotFoundActions
          (Validation.construct (Some usersPostsMigrations))
          "exists:customers,id")
     = ["Use table 'users'"; "Use table 'posts'"]
  /\ ValidationDiagnostics.extractValidationRulesFromLine
       (Validation.construct (Some usersPostsMigrations))
       "            'user_id' => 'required|exists:customers,id',"
     = []
  /\ ValidationDiagnostics.updateDiagnostics
       (Validation.construct (Some usersPostsMigrations))
       "            'user_id' => 'required|exists:customers,id',"
     = []
  /\ ValidationDiagnostics.updateDiagnostics
       (Validation.construct (Some usersPostsMigrations))
       "            'user_id' => ['required', 'exists:customers,id'],"
     = [ValidationDiagnostics.MkDiagnostic 0 38 59
          "Table 'customers' not found in database schema" Validation.Warning
          "Laravel Validation" "table-not-found"]
  /\ ValidationDiagnostics.updateDiagnostics
       (Validation.construct (Some usersPostsMigrations))
       "            'required|exists:customers,id',"
     = [ValidationDiagnostics.MkDiagnostic 0 22 41
          "Table 'customers' not found in database schema" Validation.Warning
          "Laravel Validation" "table-not-found"].
Proof. repeat split; vm_compute; reflexivity. Qed.

(** ** Maps built by [set] have distinct keys *)

Lemma keys_set_eq {V : Type} (k : string) (v : V) (m : JsMap.t V) :
  JsMap.keys (JsMap.set k v m)
  = if JsMap.has k m then JsMap.keys m else JsMap.keys m ++ [k].
Proof.
  unfold JsMap.has. induction m as [|[k1 v1] r IH]; simpl; [reflexivity|].
  destruct (String.eqb k k1) eqn:E; simpl.
  - reflexivity.
  - rewrite IH. unfold JsMap.keys.
    destruct (JsMap.get k r); reflexivity.
Qed.

Lemma has_In_keys {V : Type} (k : string) (m : JsMap.t V) :
  JsMap.has k m = true <-> In k (JsMap.keys m).
Proof.
  unfold JsMap.has. induction m as [|[k1 v1] r IH]; simpl.
  - split; [discriminate | tauto].
  - destruct (String.eqb k k1) eqn:E.
    + apply String.eqb_eq in E. subst. split; auto.
    + apply String.eqb_neq in E. rewrite IH. split; [auto|].
      intros [H|H]; [congruence | assumption].
Qed.

Lemma NoDup_keys_set {V : Type} (k : string) (v : V) (m : JsMap.t V) :
  NoDup (JsMap.keys m) -> NoDup (JsMap.keys (JsMap.set k v m)).
Proof.
  intros Hnd. rewrite keys_set_eq. destruct (JsMap.has k m) eqn:E; [assumption|].
  apply NoDup_app; [assumption | repeat constructor; simpl; tauto |].
  intros x Hx [<-|[]]. apply has_In_keys in Hx. congruence.
Qed.

Lemma In_get {V : Type} (k : string) (v : V) (m : JsMap.t V) :
  NoDup (JsMap.keys m) -> In (k, v) m -> JsMap.get k m = Some v.
Proof.
  induction m as [|[k1 v1] r IH]; simpl; [tauto|].
  intros Hnd [H|H].
  - inversion H; subst. now rewrite String.eqb_refl.
  - inversion Hnd as [|? ? Hnotin Hnd']; subst.
    destruct (String.eqb k k1) eqn:E.
    + apply String.eqb_eq in E. subst k1. exfalso. apply Hnotin.
      unfold JsMap.keys. apply in_map_iff. now exists (k, v).
    + now apply IH.
Qed.

Lemma NoDup_keys_push {V : Type} (k : string) (x : V) (m : JsMap.t (list V)) :
  NoDup (JsMap.keys m) -> NoDup (JsMap.keys (JsMap.push_at k x m)).
Proof.
  intros H. unfold JsMap.push_at.
  destruct (JsMap.get k m); now apply NoDup_keys_set.
Qed.

(** ** C6: usage marking and the unused-translations query *)

Module TranslationFacts.
Import Translations TranslationSpec.

Lemma consistent_add (k f loc v : string) (ln : option nat) (tr : Catalog) :
  consistent (MkProvider tr []) ->
  consistent (MkProvider (addTranslation k f loc v ln tr) []).
Proof.
  intros [Hnd Hb]. split; simpl in *.
  - now apply NoDup_keys_push.
  - intros k' l Hget t Hin. unfold addTranslation, JsMap.push_at in Hget.
    assert (forall old, (JsMap.get k tr = Some old \/ (JsMap.get k tr = None /\ old = [])) ->
              JsMap.get k' (JsMap.set k (old ++ [MkEntry k f loc v ln false]) tr) = Some l ->
              key t = k' /\ (isUsed t = true <-> referenced [] k')) as Hcase.
    { intros old Hold Hg. destruct (String.eqb k' k) eqn:E.
      - apply String.eqb_eq in E. subst k'. rewrite get_set_same in Hg.
        injection Hg as <-. apply in_app_or in Hin. destruct Hin as [Hin|[<-|[]]].
        + destruct Hold as [Hold|[_ ->]]; [now apply (Hb k old)|destruct Hin].
        + simpl. split; [reflexivity|]. split; [discriminate|].
          intros [u [[] _]].
      - apply String.eqb_neq in E. rewrite get_set_other in Hg by assumption.
        now apply (Hb k' l). }
    destruct (JsMap.get k tr) as [old|] eqn:Eo.
    + apply (Hcase old); auto.
    + apply (Hcase []); auto.
Qed.

Lemma consistent_empty : consistent (MkProvider JsMap.empty []).
Proof. split; simpl; [constructor | discriminate]. Qed.

Lemma preserves_fold {B : Type} (g : Catalog -> B -> Catalog) (l : list B) :
  (forall b, In b l -> preserves (fun tr => g tr b)) ->
  preserves (fun tr => fold_left g l tr).
Proof.
  intros H tr Htr.
  apply (fold_left_invariant g (fun t => consistent (MkProvider t []))); auto.
  intros x b Hin Hx. now apply (H b Hin).
Qed.

Lemma preserves_parsePhpArray (fuel : nat) :
  forall content lines filePath loc namespace prefix,
    preserves (parsePhpArray fuel content lines filePath loc namespace prefix).
Proof.
  induction fuel as [|f IH]; intros; simpl; [intros tr H; exact H|].
  apply preserves_fold. intros m _ tr Htr.
  destruct (Regex.cap m 2); [now apply consistent_add|].
  destruct (Regex.cap m 3); [now apply IH | assumption].
Qed.

Lemma preserves_php (filePath loc fileName : string) (content : option string) :
  preserves (parsePhpTranslationFile filePath loc fileName content).
Proof.
  intros tr H. unfold parsePhpTranslationFile.
  destruct content as [text|]; [|assumption].
  destruct (Regex.js_match re_return_array text); [|assumption].
  now apply preserves_parsePhpArray.
Qed.

Section WithJson.
Variable JSON_parse : string -> option json.

Lemma preserves_json (filePath loc : string) (content : option string) :
  preserves (parseJsonTranslationFile JSON_parse filePath loc content).
Proof.
  intros tr H. unfold parseJsonTranslationFile.
  destruct content as [text|]; [|assumption].
  destruct (JSON_parse text) as [obj|]; [|assumption].
  assert (preserves (fun t =>
            fold_left (fun acc e => addTranslation (fst e) filePath loc (snd e) None acc)
              (jsonLeaves obj EmptyString) t)) as Hp.
  { apply preserves_fold. intros b _ t Ht. now apply consistent_add. }
  destruct obj; try exact (Hp tr H); assumption.
Qed.

Lemma preserves_locale (localePath loc : string)
  (listing : list (string * option string)) :
  preserves (scanLocaleDirectory JSON_parse localePath loc listing).
Proof.
  unfold scanLocaleDirectory. apply preserves_fold. intros e _ tr Htr.
  destruct (JsString.endsWith (fst e) ".php"); [now apply preserves_php|].
  destruct (JsString.endsWith (fst e) ".json"); [now apply preserves_json|].
  assumption.
Qed.

Lemma consistent_scanLocales (basePath : string) (l : list Dirent) :
  forall tr, consistent (MkProvider tr []) ->
    consistent (MkProvider (fst (scanLocales JSON_parse basePath l tr)) []).
Proof.
  induction l as [|d r IH]; intros tr H; simpl; [assumption|].
  destruct d as [n|n [listing|]]; simpl; [now apply IH | | assumption].
  apply IH. now apply preserves_locale.
Qed.

Lemma consistent_load (w : string) (pr : Project) :
  consistent (MkProvider (fst (loadTranslations JSON_parse w pr JsMap.empty)) []).
Proof.
  unfold loadTranslations.
  apply (fold_left_invariant _
           (fun st => consistent (MkProvider (fst st) []))).
  - exact consistent_empty.
  - intros [tr ok] [path root] _ H. simpl in *.
    destruct ok; [|assumption].
    destruct root as [[l|]|]; simpl; try assumption.
    now apply consistent_scanLocales.
Qed.

End WithJson.

Lemma referenced_app (us : list TranslationUsage) (u : TranslationUsage) (k : string) :
  referenced (us ++ [u]) k <-> referenced us k \/ u_key u = k.
Proof.
  unfold referenced. split.
  - intros [x [Hin Hk]]. apply in_app_or in Hin. destruct Hin as [Hin|[<-|[]]].
    + left. now exists x.
    + now right.
  - intros [[x [Hin Hk]]|Hk].
    + exists x. split; [apply in_or_app; now left | assumption].
    + exists u. split; [apply in_or_app; right; now left | assumption].
Qed.

Lemma consistent_usageStep (filePath content : string) (lines : list string)
  (method : string) (p : Provider) (m : Regex.mres) :
  consistent p -> consistent (usageStep filePath content lines method p m).
Proof.
  intros [Hnd Hb]. unfold usageStep, markTranslationAsUsed.
  set (k := Regex.capd m 1). set (u := MkUsage k filePath _ _ method).
  split; cbn [translations usages].
  - destruct (JsMap.get k (translations p)); [now apply NoDup_keys_set | assumption].
  - intros k' l Hget t Hin. rewrite referenced_app. cbn [u_key u].
    destruct (JsMap.get k (translations p)) as [old|] eqn:Eo.
    + destruct (String.eqb k' k) eqn:E.
      * apply String.eqb_eq in E. subst k'. rewrite get_set_same in Hget.
        injection Hget as <-. apply in_map_iff in Hin.
        destruct Hin as [t0 [<- Hin0]]. destruct (Hb k old Eo t0 Hin0) as [Hk _].
        simpl. split; [assumption|]. split; auto.
      * apply String.eqb_neq in E. rewrite get_set_other in Hget by assumption.
        destruct (Hb k' l Hget t Hin) as [Hk Hu]. split; [assumption|].
        rewrite Hu. split; [auto|]. intros [H|H]; [assumption | congruence].
    + destruct (Hb k' l Hget t Hin) as [Hk Hu]. split; [assumption|].
      rewrite Hu. split; [auto|]. intros [H|H]; [assumption|].
      subst k'. congruence.
Qed.

Lemma consistent_scanFile (filePath : string) (content : option string)
  (p : Provider) :
  consistent p -> consistent (scanFileForUsages filePath content p).
Proof.
  intros H. unfold scanFileForUsages. destruct content as [text|]; [|assumption].
  apply (fold_left_invariant _ consistent); [assumption|].
  intros q pat _ Hq.
  apply (fold_left_invariant _ consistent); [assumption|].
  intros q1 m _ Hq1. now apply consistent_usageStep.
Qed.

Lemma consistent_scan (found : list (list (string * option string)))
  (p : Provider) :
  consistent p -> consistent (scanForUsages found p).
Proof.
  intros H. unfold scanForUsages.
  apply (fold_left_invariant _ consistent); [assumption|].
  intros q files _ Hq.
  apply (fold_left_invariant _ consistent); [assumption|].
  intros q1 f _ Hq1. now apply consistent_scanFile.
Qed.

Lemma consistent_reload (JSON_parse : string -> option json) (w : string)
  (pr : Project) (p0 : Provider) :
  consistent (reloadTranslations JSON_parse w pr p0).
Proof.
  unfold reloadTranslations. cbn [translations usages].
  pose proof (consistent_load JSON_parse w pr) as Hl.
  destruct (loadTranslations JSON_parse w pr JsMap.empty) as [tr ok].
  simpl in Hl. destruct ok; [now apply consistent_scan | assumption].
Qed.

(** an entry of the catalog sits in the bucket of its key *)
Lemma entry_bucket (p : Provider) (t : TranslationEntry) :
  consistent p -> In t (allEntries p) ->
  exists l, JsMap.get (key t) (translations p) = Some l /\ In t l.
Proof.
  intros [Hnd Hb] Hin. unfold allEntries in Hin. apply in_concat in Hin.
  destruct Hin as [l [Hl Ht]]. unfold JsMap.values in Hl.
  apply in_map_iff in Hl. destruct Hl as [[k l'] [Heq Hkl]]. simpl in Heq.
  subst l'. pose proof (In_get _ _ _ Hnd Hkl) as Hget.
  destruct (Hb k l Hget t Ht) as [Hk _]. subst k. now exists l.
Qed.

(** C6.  After a full reload and scan, a catalog entry is flagged used
    exactly when some recorded usage has its key, whatever its locale, and
    [getUnusedTranslations] returns exactly the catalog entries whose flag is
    still false. *)
Theorem C6_usage_marks_every_locale (JSON_parse : string -> option json)
  (w : string) (pr : Project) (p0 : Provider) :
  let p := reloadTranslations JSON_parse w pr p0 in
  (forall u t, In u (usages p) -> In t (allEntries p) -> key t = u_key u ->
     isUsed t = true)
  /\ (forall t, In t (allEntries p) -> isUsed t = true ->
        exists u, In u (usages p) /\ u_key u = key t)
  /\ (forall t, In t (getUnusedTranslations p)
        <-> In t (allEntries p) /\ isUsed t = false).
Proof.
  intros p. pose proof (consistent_reload JSON_parse w pr p0) as Hc.
  fold p in Hc. split; [|split].
  - intros u t Hu Ht Hk. destruct (entry_bucket p t Hc Ht) as [l [Hget Hin]].
    destruct Hc as [_ Hb]. destruct (Hb _ l Hget t Hin) as [_ Hused].
    apply Hused. exists u. auto.
  - intros t Ht Hused. destruct (entry_bucket p t Hc Ht) as [l [Hget Hin]].
    destruct Hc as [_ Hb]. destruct (Hb _ l Hget t Hin) as [_ Hiff].
    now apply Hiff.
  - intros t. unfold getUnusedTranslations, allEntries.
    rewrite in_flat_map, in_concat. split.
    + intros [l [Hl Hf]]. apply filter_In in Hf. destruct Hf as [Hin Hn].
      apply negb_true_iff in Hn. split; [now exists l | assumption].
    + intros [[l [Hl Hin]] Hn]. exists l. split; [assumption|].
      apply filter_In. split; [assumption | now apply negb_true_iff].
Qed.

(** the marking step alone: every entry stored under the key is flagged *)
Lemma markTranslationAsUsed_all (k : string) (tr : Catalog) (l : list TranslationEntry) :
  JsMap.get k (markTranslationAsUsed k tr) = Some l ->
  forall t, In t l -> isUsed t = true.
Proof.
  unfold markTranslationAsUsed. destruct (JsMap.get k tr) as [old|] eqn:E.
  - rewrite get_set_same. intros [= <-] t Hin. apply in_map_iff in Hin.
    destruct Hin as [t0 [<- _]]. reflexivity.
  - congruence.
Qed.

(** one usage of [messages.welcome] flags the entries of both locales *)
Example usage_flags_both_locales :
  map (fun t => (key t, locale t, isUsed t))
    (allEntries (reloadTranslations (fun _ => None) "/project" twoLocaleProject
                   (MkProvider JsMap.empty [])))
  = [ ("messages.welcome", "en", true); ("messages.welcome", "fr", true);
      ("messages.goodbye", "en", false); ("messages.goodbye", "fr", false) ]
  /\ map (fun t => (key t, locale t))
       (getUnusedTranslations
          (reloadTranslations (fun _ => None) "/project" twoLocaleProject
             (MkProvider JsMap.empty [])))
     = [ ("messages.goodbye", "en"); ("messages.goodbye", "fr") ].
Proof. split; vm_compute; reflexivity. Qed.

End TranslationFacts.

(** ** Field lists *)

Module SchemaFacts.
Import Schema SchemaSpec.

Lemma findField_app (n : string) (a b : list ModelField) :
  findField n (a ++ b)
  = match findField n a with Some f => Some f | None => findField n b end.
Proof.
  unfold findField. induction a as [|x a IH]; simpl; [reflexivity|].
  destruct (has_name n x); [reflexivity | exact IH].
Qed.

Lemma findField_name (n : string) (fs : list ModelField) (f : ModelField) :
  findField n fs = Some f -> name f = n.
Proof.
  unfold findField. intros H. apply find_some in H. destruct H as [_ H].
  now apply String.eqb_eq in H.
Qed.

Lemma findField_single (n : string) (f : ModelField) :
  findField n [f] = if String.eqb (name f) n then Some f else None.
Proof. reflexivity. Qed.

(** *** The implicit fields *)

Lemma addDefault_spec (fs : list ModelField) (d : string * string) :
  addDefault fs d
  = match findField (fst d) fs with
    | Some _ => fs
    | None => fs ++ [implicitField d]
    end.
Proof. reflexivity. Qed.

Lemma addDefault_extends (ds : list (string * string)) :
  forall fs, exists extra, fold_left addDefault ds fs = fs ++ extra.
Proof.
  induction ds as [|d ds IH]; intros fs; simpl.
  - exists []. now rewrite app_nil_r.
  - destruct (IH (addDefault fs d)) as [ex Hex]. rewrite Hex.
    rewrite addDefault_spec. destruct (findField (fst d) fs).
    + now exists ex.
    + exists ([implicitField d] ++ ex). now rewrite app_assoc.
Qed.

Lemma addDefault_keeps (ds : list (string * string)) (n : string) (f : ModelField) :
  forall fs, findField n fs = Some f ->
    findField n (fold_left addDefault ds fs) = Some f.
Proof.
  intros fs H. destruct (addDefault_extends ds fs) as [ex ->].
  rewrite findField_app. now rewrite H.
Qed.

Lemma addDefault_adds (ds : list (string * string)) :
  NoDup (map fst ds) ->
  forall fs d, In d ds -> findField (fst d) fs = None ->
    findField (fst d) (fold_left addDefault ds fs) = Some (implicitField d).
Proof.
  induction ds as [|d0 ds IH]; intros Hnd fs d Hin Hnone; [destruct Hin|].
  inversion Hnd as [|? ? Hnotin Hnd']; subst. simpl.
  destruct Hin as [->|Hin].
  - apply addDefault_keeps. rewrite addDefault_spec, Hnone.
    rewrite findField_app, Hnone. simpl. unfold has_name. simpl.
    now rewrite String.eqb_refl.
  - apply IH; try assumption. rewrite addDefault_spec.
    destruct (findField (fst d0) fs); [assumption|].
    rewrite findField_app, Hnone. simpl. unfold has_name. simpl.
    destruct (String.eqb (fst d0) (fst d)) eqn:E; [|reflexivity].
    apply String.eqb_eq in E. exfalso. apply Hnotin. rewrite E.
    now apply in_map.
Qed.

(** *** Every model of the registry is built by [buildModel] *)

Lemma builtFrom_parse (mg : JsMap.t (list ModelField)) (path fname : string)
  (content : option string) (q : Provider) :
  builtFrom mg q -> builtFrom mg (parseModelFile path fname content q).
Proof.
  intros [Hm Hq]. unfold parseModelFile. destruct content as [text|]; [|now split].
  destruct (isModel text (basename_php fname)); [|now split].
  split; [assumption|]. simpl. intros n m Hin.
  apply In_set in Hin. destruct Hin as [Heq|Hin]; [|now apply Hq].
  inversion Heq; subst. now exists path, text.
Qed.

Lemma scanEntry_dir (dir dname : string) (es : list Entry) (q : Provider) :
  scanEntry dir (DirE dname (Some es)) q
  = fold_left (fun acc e => scanEntry (path_join dir dname) e acc) es q.
Proof.
  simpl. revert q. induction es as [|e r IH]; intros q; simpl; [reflexivity|].
  apply IH.
Qed.

Lemma builtFrom_scanEntry (mg : JsMap.t (list ModelField)) (e : Entry) :
  forall dir q, builtFrom mg q -> builtFrom mg (scanEntry dir e q).
Proof.
  induction e as [n c|n|n es IH] using Entry_nested_ind; intros dir q Hq.
  - simpl. destruct (_ && _); [now apply builtFrom_parse | assumption].
  - exact Hq.
  - rewrite scanEntry_dir. revert q Hq.
    induction IH as [|e r He _ IHr]; intros q Hq; simpl; [assumption|].
    apply IHr. now apply He.
Qed.

Lemma builtFrom_scanDir (mg : JsMap.t (list ModelField)) (dir : string)
  (listing : option (list Entry)) (q : Provider) :
  builtFrom mg q -> builtFrom mg (scanModelDirectory dir listing q).
Proof.
  intros Hq. destruct listing as [es|]; simpl; [|assumption].
  apply (fold_left_invariant _ (builtFrom mg)); [assumption|].
  intros x e _ Hx. now apply builtFrom_scanEntry.
Qed.

Lemma builtFrom_analyzeModels (w : string) (appDir : option (list Entry))
  (p : Provider) :
  builtFrom (migrations p) (analyzeModels w appDir p).
Proof.
  assert (builtFrom (migrations p) (MkProvider JsMap.empty (migrations p))) as H0.
  { split; [reflexivity|]. intros n m []. }
  unfold analyzeModels. destruct appDir as [es|]; [|assumption].
  apply builtFrom_scanDir.
  destruct (findChild "Models" es) as [[f c|d children]|]; try assumption.
  now apply builtFrom_scanDir.
Qed.

(** C9.  Every model of the registry has a field named [id], one named
    [created_at] and one named [updated_at]: the field the class properties
    or the migration columns already defined under that name, unchanged, or
    else a new non-nullable field without default, of type [integer] for
    [id] and of type [datetime] for [created_at] and [updated_at]; the fields
    defined before come first in the field list, unchanged. *)
Theorem C9_implicit_fields (w : string) (appDir : option (list Entry))
  (p : Provider) (n : string) (m : ModelInfo) :
  In (n, m) (models (analyzeModels w appDir p)) ->
  exists content extra,
    fields m = definedFields (migrations p) content n ++ extra
    /\ forall fieldName fieldType,
         In (fieldName, fieldType)
            [("id", "integer"); ("created_at", "datetime");
             ("updated_at", "datetime")] ->
         match findField fieldName (definedFields (migrations p) content n) with
         | Some f => findField fieldName (fields m) = Some f
         | None =>
             findField fieldName (fields m)
             = Some (MkField fieldName (TStr fieldType) false None)
         end.
Proof.
  intros Hin.
  destruct (builtFrom_analyzeModels w appDir p) as [_ Hb].
  destruct (Hb n m Hin) as [path [content ->]].
  exists content. unfold buildModel. cbn [fields].
  fold (definedFields (migrations p) content n). unfold addDefaults.
  destruct (addDefault_extends defaultFields (definedFields (migrations p) content n))
    as [extra Hex].
  exists extra. split; [exact Hex|].
  intros fieldName fieldType Hd.
  destruct (findField fieldName (definedFields (migrations p) content n)) eqn:E.
  - now apply addDefault_keeps.
  - apply (addDefault_adds defaultFields) with (d := (fieldName, fieldType));
      try assumption.
    repeat constructor; simpl; intuition discriminate.
Qed.

(** *** Field provenance *)

Lemma classFields_folds (content : string) :
  classFields content
  = fold_left addCast (castsOf content)
      (fold_left addHidden (hiddenOf content)
         (fold_left addFillable (fillableOf content) [])).
Proof.
  unfold classFields, castsOf, hiddenOf, fillableOf.
  destruct (Regex.js_match (re_array_prop "fillable") content);
    destruct (Regex.js_match (re_array_prop "hidden") content);
    destruct (Regex.js_match (re_array_prop "casts") content); reflexivity.
Qed.

Lemma find_rev_cons {A : Type} (q : A -> bool) (x : A) (l : list A) :
  find q (rev (x :: l))
  = match find q (rev l) with
    | Some y => Some y
    | None => if q x then Some x else None
    end.
Proof.
  simpl. induction (rev l) as [|y r IH]; simpl; [reflexivity|].
  destruct (q y); [reflexivity | exact IH].
Qed.

Lemma pushIfAbsent_spec (f : ModelField) (fs : list ModelField) :
  pushIfAbsent f fs = fs \/ pushIfAbsent f fs = fs ++ [f].
Proof. unfold pushIfAbsent. destruct (findField (name f) fs); auto. Qed.

Lemma base_plain (fill hid : list string) :
  Forall plain (fold_left addHidden hid (fold_left addFillable fill [])).
Proof.
  apply (fold_left_invariant addHidden (Forall plain)).
  - apply (fold_left_invariant addFillable (Forall plain)); [constructor|].
    intros fs raw _ H. unfold addFillable. destruct (_ && _); [|assumption].
    apply Forall_app. split; [assumption | repeat constructor].
  - intros fs raw _ H. unfold addHidden. destruct (_ && _); [|assumption].
    destruct (pushIfAbsent_spec (plainField (JsString.trim raw)) fs) as [->| ->];
      [assumption|].
    apply Forall_app. split; [assumption | repeat constructor].
Qed.

Lemma findField_In (n : string) (fs : list ModelField) (f : ModelField) :
  In f fs -> name f = n -> exists g, findField n fs = Some g.
Proof.
  intros Hin Hn. destruct (findField n fs) as [g|] eqn:E; [now exists g|].
  unfold findField in E. pose proof (find_none _ _ E f Hin) as H.
  unfold has_name in H. rewrite Hn, String.eqb_refl in H. discriminate.
Qed.

Lemma addFillable_keeps (fill : list string) (f : ModelField) :
  forall fs, In f fs -> In f (fold_left addFillable fill fs).
Proof.
  induction fill as [|raw r IH]; intros fs H; simpl; [assumption|].
  apply IH. unfold addFillable. destruct (_ && _); [|assumption].
  apply in_or_app. now left.
Qed.

Lemma addHidden_found (hid : list string) (n : string) :
  forall fs, (exists g, findField n fs = Some g) ->
    exists g, findField n (fold_left addHidden hid fs) = Some g.
Proof.
  induction hid as [|raw r IH]; intros fs H; simpl; [assumption|].
  apply IH. unfold addHidden. destruct (_ && _); [|assumption].
  destruct (pushIfAbsent_spec (plainField (JsString.trim raw)) fs) as [->| ->];
    [assumption|].
  destruct H as [g Hg]. exists g. now rewrite findField_app, Hg.
Qed.

Lemma fillable_found (fill : list string) (n : string) :
  forall fs, In n (map JsString.trim (filter usable fill)) ->
    exists g, findField n (fold_left addFillable fill fs) = Some g.
Proof.
  induction fill as [|raw r IH]; intros fs H; simpl in *; [destruct H|].
  unfold addFillable at 2. fold (usable raw). destruct (usable raw) eqn:E.
  - destruct H as [<-|H]; [|now apply IH].
    apply findField_In with (f := plainField (JsString.trim raw)); [|reflexivity].
    apply addFillable_keeps. apply in_or_app. right. now left.
  - now apply IH.
Qed.

Lemma hidden_found (hid : list string) (n : string) :
  forall fs, In n (map JsString.trim (filter usable hid)) ->
    exists g, findField n (fold_left addHidden hid fs) = Some g.
Proof.
  induction hid as [|raw r IH]; intros fs H; simpl in *; [destruct H|].
  unfold addHidden at 2. fold (usable raw). destruct (usable raw) eqn:E.
  - destruct H as [<-|H]; [|now apply IH].
    apply addHidden_found. unfold pushIfAbsent. cbn [name plainField].
    destruct (findField (JsString.trim raw) fs) as [g|] eqn:Eg; [now exists g|].
    exists (plainField (JsString.trim raw)).
    rewrite findField_app, Eg. simpl. unfold has_name. simpl.
    now rewrite String.eqb_refl.
  - now apply IH.
Qed.

(** a declared name resolves to a plain string field *)
Lemma base_declared (content n : string) :
  In n (declaredNames content) ->
  findField n (fold_left addHidden (hiddenOf content)
                 (fold_left addFillable (fillableOf content) []))
  = Some (plainField n).
Proof.
  intros H. unfold declaredNames in H. rewrite filter_app, map_app in H.
  assert (exists g, findField n (fold_left addHidden (hiddenOf content)
                 (fold_left addFillable (fillableOf content) [])) = Some g) as [g Hg].
  { apply in_app_or in H. destruct H as [H|H].
    - apply addHidden_found. now apply fillable_found.
    - now apply hidden_found. }
  rewrite Hg. f_equal.
  pose proof (base_plain (fillableOf content) (hiddenOf content)) as Hp.
  rewrite Forall_forall in Hp. unfold findField in Hg.
  pose proof (find_some _ _ Hg) as [Hin Hn]. apply String.eqb_eq in Hn.
  rewrite (Hp g Hin). now rewrite Hn.
Qed.

Lemma setType_other (k n : string) (t : FieldType) (fs : list ModelField) :
  k <> n -> findField n (setType k t fs) = findField n fs.
Proof.
  intros Hne. unfold findField. induction fs as [|f r IH]; simpl; [reflexivity|].
  destruct (has_name k f) eqn:E; simpl.
  - unfold has_name in *. simpl. apply String.eqb_eq in E. rewrite E.
    apply String.eqb_neq in Hne. now rewrite Hne.
  - now rewrite IH.
Qed.

Lemma setType_same (n : string) (t : FieldType) (fs : list ModelField) (f0 : ModelField) :
  findField n fs = Some f0 ->
  findField n (setType n t fs) = Some (MkField n t (nullable f0) (default f0)).
Proof.
  unfold findField. induction fs as [|f r IH]; simpl; [discriminate|].
  destruct (has_name n f) eqn:E; simpl.
  - intros [= <-]. unfold has_name in *. simpl. rewrite E.
    apply String.eqb_eq in E. now rewrite E.
  - intros H. rewrite E. now apply IH.
Qed.

Lemma setType_unset (k : string) (t : FieldType) (fs : list ModelField) :
  Forall unset fs -> Forall unset (setType k t fs).
Proof.
  induction 1 as [|f r Hf Hr IH]; simpl; [constructor|].
  destruct (has_name k f); constructor; assumption.
Qed.

Lemma addCast_unset (fs : list ModelField) (e : string * string) :
  Forall unset fs -> Forall unset (addCast fs e).
Proof.
  intros H. unfold addCast. destruct e as [field cast].
  destruct (_ && _); [|assumption].
  destruct (findField field fs); [now apply setType_unset|].
  apply Forall_app. split; [assumption | repeat constructor].
Qed.

Lemma addCast_find (n : string) (fs : list ModelField) (e : string * string) :
  Forall unset fs ->
  findField n (addCast fs e)
  = if castable e && String.eqb (fst e) n
    then Some (MkField n (castToType (snd e)) false None)
    else findField n fs.
Proof.
  intros Hu. unfold addCast, castable. destruct e as [field cast]. simpl.
  destruct (JsString.truthy field && JsString.truthy cast); simpl; [|reflexivity].
  destruct (String.eqb field n) eqn:E.
  - apply String.eqb_eq in E. subst field.
    destruct (findField n fs) as [f0|] eqn:Ef.
    + rewrite (setType_same _ _ _ _ Ef).
      pose proof (find_some _ _ Ef) as [Hin _]. rewrite Forall_forall in Hu.
      destruct (Hu f0 Hin) as [-> ->]. reflexivity.
    + rewrite findField_app, Ef. simpl. unfold has_name. simpl.
      now rewrite String.eqb_refl.
  - apply String.eqb_neq in E. destruct (findField field fs).
    + now apply setType_other.
    + rewrite findField_app. destruct (findField n fs); [reflexivity|].
      simpl. unfold has_name. simpl. apply String.eqb_neq in E. now rewrite E.
Qed.

Lemma casts_find (n : string) (es : list (string * string)) :
  forall fs, Forall unset fs ->
    findField n (fold_left addCast es fs)
    = match find (fun e => String.eqb (fst e) n) (rev (filter castable es)) with
      | Some e => Some (MkField n (castToType (snd e)) false None)
      | None => findField n fs
      end.
Proof.
  induction es as [|e r IH]; intros fs Hu; [reflexivity|].
  cbn [fold_left]. rewrite (IH _ (addCast_unset fs e Hu)).
  rewrite (addCast_find n fs e Hu). cbn [filter].
  destruct (castable e) eqn:Ec; [|reflexivity].
  rewrite find_rev_cons.
  destruct (find (fun e0 => String.eqb (fst e0) n) (rev (filter castable r)));
    [reflexivity|].
  simpl. destruct (String.eqb (fst e) n); reflexivity.
Qed.

Lemma casts_unset (es : list (string * string)) (fs : list ModelField) :
  Forall unset fs -> Forall unset (fold_left addCast es fs).
Proof.
  intros H. apply (fold_left_invariant addCast (Forall unset)); [assumption|].
  intros x e _ Hx. now apply addCast_unset.
Qed.

Lemma overrideWith_other (mf : ModelField) (n : string) (fs : list ModelField) :
  name mf <> n -> findField n (overrideWith mf fs) = findField n fs.
Proof.
  intros Hne. unfold findField. induction fs as [|f r IH]; simpl; [reflexivity|].
  destruct (has_name (name mf) f) eqn:E; simpl.
  - unfold has_name in *. simpl. apply String.eqb_eq in E. rewrite E.
    apply String.eqb_neq in Hne. now rewrite Hne.
  - now rewrite IH.
Qed.

Lemma overrideWith_same (mf f0 : ModelField) (fs : list ModelField) :
  findField (name mf) fs = Some f0 ->
  findField (name mf) (overrideWith mf fs) = Some mf.
Proof.
  unfold findField. induction fs as [|f r IH]; simpl; [discriminate|].
  destruct (has_name (name mf) f) eqn:E; simpl.
  - intros _. unfold has_name in *. simpl. rewrite E.
    apply String.eqb_eq in E. rewrite E. now destruct mf.
  - intros H. rewrite E. now apply IH.
Qed.

Lemma merge_find (n : string) (fs : list ModelField) (mf : ModelField) :
  findField n (mergeMigrationField fs mf)
  = if has_name n mf then Some mf else findField n fs.
Proof.
  unfold mergeMigrationField, has_name.
  destruct (String.eqb (name mf) n) eqn:E.
  - apply String.eqb_eq in E. subst n.
    destruct (findField (name mf) fs) as [f0|] eqn:Ef.
    + now apply (overrideWith_same mf f0).
    + rewrite findField_app, Ef. simpl. unfold has_name.
      now rewrite String.eqb_refl.
  - apply String.eqb_neq in E. destruct (findField (name mf) fs).
    + now apply overrideWith_other.
    + rewrite findField_app. destruct (findField n fs); [reflexivity|].
      simpl. unfold has_name. apply String.eqb_neq in E. now rewrite E.
Qed.

Lemma migrations_find (n : string) (mfs : list ModelField) :
  forall fs,
    findField n (fold_left mergeMigrationField mfs fs)
    = match lastNamed n mfs with
      | Some mf => Some mf
      | None => findField n fs
      end.
Proof.
  unfold lastNamed. induction mfs as [|mf r IH]; intros fs; [reflexivity|].
  cbn [fold_left]. rewrite IH, merge_find, find_rev_cons.
  destruct (find (has_name n) (rev r)); [reflexivity|].
  destruct (has_name n mf); reflexivity.
Qed.

(** the resolved field of a model for [n], before the implicit fields *)
Lemma resolved_defined (mg : JsMap.t (list ModelField)) (content modelName n : string) :
  match migrationColumn mg (extractTableName content modelName) n with
  | Some mf => findField n (definedFields mg content modelName) = Some mf
  | None =>
      match castOf content n with
      | Some c =>
          findField n (definedFields mg content modelName)
          = Some (MkField n (castToType c) false None)
      | None =>
          In n (declaredNames content) ->
          findField n (definedFields mg content modelName) = Some (plainField n)
      end
  end.
Proof.
  unfold definedFields, migrationColumn, mergeMigrations.
  assert (Forall unset (fold_left addHidden (hiddenOf content)
            (fold_left addFillable (fillableOf content) []))) as Hbase.
  { eapply Forall_impl; [|apply base_plain]. intros f ->. now split. }
  assert (match castOf content n with
          | Some c => findField n (classFields content)
                      = Some (MkField n (castToType c) false None)
          | None => In n (declaredNames content) ->
                    findField n (classFields content) = Some (plainField n)
          end) as Hclass.
  { rewrite classFields_folds, (casts_find n _ _ Hbase). unfold castOf.
    destruct (find _ (rev (filter castable (castsOf content)))); simpl;
      [reflexivity|]. apply base_declared. }
  destruct (JsMap.get (extractTableName content modelName) mg) as [mfs|].
  - rewrite migrations_find. destruct (lastNamed n mfs); [reflexivity | exact Hclass].
  - exact Hclass.
Qed.

(** C1.  The resolved field of a model for a name [n] follows the precedence
    migration over casts over fillable/hidden: when the migration columns of
    the model's table hold a column called [n], the field is that column
    (type, nullability, default); otherwise, when [casts] has an entry for
    [n], the field has the cast's type and is non-nullable; otherwise a name
    declared by [fillable] or [hidden] is a non-nullable string field. *)
Theorem C1_field_precedence (mg : JsMap.t (list ModelField))
  (path modelName content n : string) :
  let m := buildModel mg path modelName content in
  match migrationColumn mg (table m) n with
  | Some mf => findField n (fields m) = Some mf
  | None =>
      match castOf content n with
      | Some c =>
          findField n (fields m) = Some (MkField n (castToType c) false None)
      | None =>
          In n (declaredNames content) ->
          findField n (fields m) = Some (plainField n)
      end
  end.
Proof.
  cbv zeta. unfold buildModel. cbn [fields table]. unfold addDefaults.
  fold (definedFields mg content modelName).
  pose proof (resolved_defined mg content modelName n) as H.
  destruct (migrationColumn mg (extractTableName content modelName) n).
  - now apply addDefault_keeps.
  - destruct (castOf content n).
    + now apply addDefault_keeps.
    + intros Hd. apply addDefault_keeps. now apply H.
Qed.

Lemma C1_title_scenario :
  JsMap.get "Post" (models postProject)
    = Some (buildModel (migrations postProject) "/project/app/Models/Post.php"
              "Post" postModel)
  /\ findField "title"
       (fields (buildModel (migrations postProject) "/project/app/Models/Post.php"
                  "Post" postModel))
     = Some (MkField "title" (TStr "string") true None)
  /\ findField "views"
       (fields (buildModel (migrations postProject) "/project/app/Models/Post.php"
                  "Post" postModel))
     = Some (MkField "views" (TStr "integer") false None)
  /\ findField "body"
       (fields (buildModel (migrations postProject) "/project/app/Models/Post.php"
                  "Post" postModel))
     = Some (MkField "body" (TStr "string") false None).
Proof.
  split; [vm_compute; reflexivity|].
  pose proof (C1_field_precedence (migrations postProject)
                "/project/app/Models/Post.php" "Post" postModel "title") as Ht.
  pose proof (C1_field_precedence (migrations postProject)
                "/project/app/Models/Post.php" "Post" postModel "views") as Hv.
  pose proof (C1_field_precedence (migrations postProject)
                "/project/app/Models/Post.php" "Post" postModel "body") as Hb.
  split; [|split].
  - vm_compute in Ht. vm_compute. exact Ht.
  - vm_compute in Hv. vm_compute. exact Hv.
  - assert (In "body" (declaredNames postModel)) as Hd
      by (vm_compute; right; left; reflexivity).
    assert (migrationColumn (migrations postProject)
              (table (buildModel (migrations postProject)
                        "/project/app/Models/Post.php" "Post" postModel)) "body" = None)
      as E1 by (vm_compute; reflexivity).
    assert (castOf postModel "body" = None) as E2 by (vm_compute; reflexivity).
    cbv zeta in Hb. rewrite E1, E2 in Hb. exact (Hb Hd).
Defined.

(** without a migration column the cast decides *)
Example cast_refines_fillable :
  findField "title"
    (fields (buildModel JsMap.empty "/project/app/Models/Post.php" "Post" postModel))
  = Some (MkField "title" (TStr "integer") false None).
Proof. vm_compute. reflexivity. Qed.

(** the implicit fields of the same model: [id] is added, the timestamps are
    the migration's *)
Lemma C9_post_model_scenario :
  In ("Post", buildModel (migrations postProject) "/project/app/Models/Post.php"
                "Post" postModel)
     (models postProject)
  /\ (exists content extra,
       fields (buildModel (migrations postProject) "/project/app/Models/Post.php"
                 "Post" postModel)
       = definedFields
           (migrations
              (analyzeMigrations
                 (Some [("2024_01_01_000000_create_posts_table.php",
                         Some postsMigration)])
                 (MkProvider JsMap.empty JsMap.empty)))
           content "Post" ++ extra
       /\ forall fieldName fieldType,
            In (fieldName, fieldType)
               [("id", "integer"); ("created_at", "datetime");
                ("updated_at", "datetime")] ->
            match findField fieldName
                    (definedFields
                       (migrations
                          (analyzeMigrations
                             (Some [("2024_01_01_000000_create_posts_table.php",
                                     Some postsMigration)])
                             (MkProvider JsMap.empty JsMap.empty)))
                       content "Post") with
            | Some f =>
                findField fieldName
                  (fields (buildModel (migrations postProject)
                             "/project/app/Models/Post.php" "Post" postModel))
                = Some f
            | None =>
                findField fieldName
                  (fields (buildModel (migrations postProject)
                             "/project/app/Models/Post.php" "Post" postModel))
                = Some (MkField fieldName (TStr fieldType) false None)
            end)
  /\ findField "id"
       (fields (buildModel (migrations postProject)
                  "/project/app/Models/Post.php" "Post" postModel))
     = Some (MkField "id" (TStr "integer") false None)
  /\ findField "created_at"
       (definedFields (migrations postProject) postModel "Post")
     = Some (MkField "created_at" (TStr "timestamp") true None)
  /\ findField "created_at"
       (fields (buildModel (migrations postProject)
                  "/project/app/Models/Post.php" "Post" postModel))
     = Some (MkField "created_at" (TStr "timestamp") true None).
Proof.
  split; [vm_compute; left; reflexivity|].
  split; [|vm_compute; repeat split; reflexivity].
  apply (C9_implicit_fields "/project"
           (Some [DirE "Models" (Some [FileE "Post.php" (Some postModel)])])
           (analyzeMigrations
              (Some [("2024_01_01_000000_create_posts_table.php",
                      Some postsMigration)])
              (MkProvider JsMap.empty JsMap.empty))
           "Post").
  vm_compute. left. reflexivity.
Defined.

Example post_model_fields :
  map (fun f => (name f, type f, nullable f))
    (fields (buildModel (migrations postProject) "/project/app/Models/Post.php"
               "Post" postModel))
  = [ ("title", TStr "string", true); ("body", TStr "string", false);
      ("views", TStr "integer", false); ("created_at", TStr "timestamp", true);
      ("updated_at", TStr "timestamp", true); ("id", TStr "integer", false) ].
Proof. vm_compute. reflexivity. Qed.

(** *** Migration columns across files *)

Lemma columnStep_spec (fs : list ModelField) (m : Regex.mres) :
  columnStep fs m
  = match namedField m with
    | Some f => upsert f fs
    | None => handleSpecialMigrationMethods (Regex.capd m 1) fs
    end.
Proof.
  unfold columnStep, namedField. destruct (Regex.cap m 2) as [c|]; [|reflexivity].
  destruct (JsString.truthy c); reflexivity.
Qed.

Lemma parseColumns_spec (content : string) (fs : list ModelField) :
  parseColumns content fs = fold_left columnStep (columnMatches content) fs.
Proof. unfold parseColumns, columnMatches. simpl. now rewrite fold_left_app. Qed.

Lemma upsert_find (n : string) (f : ModelField) (fs : list ModelField) :
  findField n (upsert f fs) = if has_name n f then Some f else findField n fs.
Proof.
  unfold findField. induction fs as [|g r IH]; simpl.
  - destruct (has_name n f); reflexivity.
  - destruct (has_name (name f) g) eqn:E; simpl.
    + unfold has_name in *. apply String.eqb_eq in E. rewrite E.
      destruct (String.eqb (name f) n); reflexivity.
    + rewrite IH. destruct (has_name n g) eqn:Eg; [|reflexivity].
      destruct (has_name n f) eqn:Ef; [|reflexivity].
      unfold has_name in *. apply String.eqb_eq in Eg, Ef.
      rewrite Ef, <- Eg, String.eqb_refl in E. discriminate.
Qed.

Lemma pushIfAbsent_keeps (n : string) (f g : ModelField) (fs : list ModelField) :
  findField n fs = Some g -> findField n (pushIfAbsent f fs) = Some g.
Proof.
  intros H. destruct (pushIfAbsent_spec f fs) as [->| ->]; [assumption|].
  now rewrite findField_app, H.
Qed.

Lemma special_keeps (n method : string) (g : ModelField) (fs : list ModelField) :
  findField n fs = Some g ->
  findField n (handleSpecialMigrationMethods method fs) = Some g.
Proof.
  intros H. unfold handleSpecialMigrationMethods.
  repeat match goal with
         | |- context [if ?b then _ else _] => destruct b
         end; repeat apply pushIfAbsent_keeps; assumption.
Qed.

Lemma namedFields_cons (m : Regex.mres) (r : list Regex.mres) (n : string) :
  lastNamed n (namedFields (m :: r))
  = match lastNamed n (namedFields r) with
    | Some y => Some y
    | None =>
        match namedField m with
        | Some f => if has_name n f then Some f else None
        | None => None
        end
    end.
Proof.
  unfold lastNamed, namedFields. cbn [flat_map].
  destruct (namedField m) as [f|]; [|simpl].
  - change ([f] ++ ?l) with (f :: l). apply find_rev_cons.
  - destruct (find _ _); reflexivity.
Qed.

(** columns no later match names stay as they are *)
Lemma columns_keep (n : string) (g : ModelField) (ms : list Regex.mres) :
  lastNamed n (namedFields ms) = None ->
  forall fs, findField n fs = Some g ->
    findField n (fold_left columnStep ms fs) = Some g.
Proof.
  induction ms as [|m r IH]; intros Hnone fs Hg; [assumption|].
  cbn [fold_left]. rewrite namedFields_cons in Hnone.
  destruct (lastNamed n (namedFields r)) eqn:Er; [discriminate|].
  apply IH; [reflexivity|]. rewrite columnStep_spec.
  destruct (namedField m) as [f|].
  - rewrite upsert_find. destruct (has_name n f); [discriminate | assumption].
  - now apply special_keeps.
Qed.

(** the last named declaration decides the column *)
Lemma columns_last (n : string) (f : ModelField) (ms : list Regex.mres) :
  lastNamed n (namedFields ms) = Some f ->
  forall fs, findField n (fold_left columnStep ms fs) = Some f.
Proof.
  induction ms as [|m r IH]; intros Hlast fs; [discriminate|].
  cbn [fold_left]. rewrite namedFields_cons in Hlast.
  destruct (lastNamed n (namedFields r)) as [y|] eqn:Er.
  - injection Hlast as ->. now apply IH.
  - apply columns_keep; [assumption|]. rewrite columnStep_spec.
    destruct (namedField m) as [f0|]; [|discriminate].
    rewrite upsert_find. destruct (has_name n f0); [assumption | discriminate].
Qed.

Lemma file_sets_column (content t n : string) (f : ModelField)
  (mg : JsMap.t (list ModelField)) :
  migrationTable content = Some t -> namedColumn content n = Some f ->
  columnIs t n f (parseMigrationFile (Some content) mg).
Proof.
  intros Ht Hn. unfold parseMigrationFile. rewrite Ht.
  exists (parseColumns content
            match JsMap.get t mg with Some l => l | None => [] end).
  split; [apply get_set_same|]. rewrite parseColumns_spec. now apply columns_last.
Qed.

Lemma file_keeps_column (content : option string) (t n : string)
  (f : ModelField) (mg : JsMap.t (list ModelField)) :
  (forall c, content = Some c -> migrationTable c = Some t ->
     namedColumn c n = None) ->
  columnIs t n f mg -> columnIs t n f (parseMigrationFile content mg).
Proof.
  intros Hlater [fs [Hget Hfind]]. unfold parseMigrationFile.
  destruct content as [c|]; [|now exists fs].
  destruct (migrationTable c) as [t'|] eqn:Et; [|now exists fs].
  destruct (String.eqb t t') eqn:E.
  - apply String.eqb_eq in E. subst t'. rewrite Hget.
    exists (parseColumns c fs). split; [apply get_set_same|].
    rewrite parseColumns_spec. apply columns_keep; [|assumption].
    now apply (Hlater c).
  - apply String.eqb_neq in E. exists fs.
    split; [now rewrite get_set_other | assumption].
Qed.

Lemma leb_lt_or_eq (a b : string) :
  String.leb a b = true <-> a = b \/ OrderedTypeEx.String_as_OT.lt a b.
Proof.
  unfold String.leb.
  pose proof (OrderedTypeEx.String_as_OT.cmp_lt a b) as Hlt.
  pose proof (OrderedTypeEx.String_as_OT.cmp_eq a b) as Heq.
  unfold OrderedTypeEx.String_as_OT.cmp in *.
  destruct (String.compare a b) eqn:E; split; intros H; try reflexivity.
  - left. now apply Heq.
  - right. now apply Hlt.
  - discriminate.
  - destruct H as [H|H]; [apply Heq in H | apply Hlt in H]; discriminate.
Qed.

Lemma leb_trans (a b c : string) :
  String.leb a b = true -> String.leb b c = true -> String.leb a c = true.
Proof.
  rewrite !leb_lt_or_eq. intros [->|Hab] [->|Hbc]; auto.
  right. now apply OrderedTypeEx.String_as_OT.lt_trans with b.
Qed.

Lemma name_le_trans {A : Type} : Transitive (@name_le A).
Proof. intros x y z. unfold name_le. apply leb_trans. Qed.

Lemma strongly_sorted_split {A : Type} (R : A -> A -> Prop) (pre post : list A) (x : A) :
  StronglySorted R (pre ++ x :: post) ->
  Forall (fun y => R y x) pre /\ Forall (R x) post.
Proof.
  induction pre as [|y pre IH]; simpl; intros H.
  - inversion H; subst. split; [constructor | assumption].
  - inversion H as [|? ? Hs Hall]; subst. destruct (IH Hs) as [H1 H2].
    split; [|assumption]. constructor; [|assumption].
    rewrite Forall_forall in Hall. apply Hall. apply in_or_app. right. now left.
Qed.

(** C5, as the code has it.  Migration files are processed in the order of
    their names.  A named declaration of a column is a match of the column
    patterns whose second group is not empty: a call
    [$table->type('name')] or [$table->type('name', digits)] with the
    modifiers up to the next semicolon (and a call without argument that
    modifiers follow, filed under the text of the modifiers).  When a file
    holds a named declaration of column [n] of table [t], [f] being the last
    one it holds, and no file sorted after it holds one for the same table,
    the synthesized column list of [t] holds [f] for [n], whatever the files
    sorted before it declared. *)
Theorem C5_later_migration_wins (entries : Dir) (p : Provider)
  (pre post : list (string * option string)) (fileB contentB t n : string)
  (f : ModelField) :
  sort_by_name (phpFiles entries) = pre ++ (fileB, Some contentB) :: post ->
  migrationTable contentB = Some t ->
  namedColumn contentB n = Some f ->
  (forall file c, In (file, Some c) post -> migrationTable c = Some t ->
     namedColumn c n = None) ->
  Permutation (pre ++ (fileB, Some contentB) :: post) (phpFiles entries)
  /\ Forall (fun e => String.leb (fst e) fileB = true) pre
  /\ Forall (fun e => String.leb fileB (fst e) = true) post
  /\ columnIs t n f (migrations (analyzeMigrations (Some entries) p)).
Proof.
  intros Hsort Ht Hn Hpost.
  split; [rewrite <- Hsort; apply sort_by_name_perm|].
  assert (StronglySorted name_le (pre ++ (fileB, Some contentB) :: post)) as Hss.
  { rewrite <- Hsort. apply Sorted_StronglySorted; [apply name_le_trans|].
    apply sort_by_name_sorted. }
  destruct (strongly_sorted_split _ _ _ _ Hss) as [Hpre Hafter].
  split; [exact Hpre | split; [exact Hafter|]].
  unfold analyzeMigrations. cbn [migrations]. fold (phpFiles entries).
  rewrite Hsort, fold_left_app. cbn [fold_left snd].
  apply (fold_left_invariant _ (columnIs t n f)).
  - now apply file_sets_column.
  - intros mg [file content] Hin Hmg. cbn [snd]. apply file_keeps_column; [|assumption].
    intros c -> Hc. now apply (Hpost file c).
Qed.

Lemma C5_status_scenario :
  defines ordersCreate "status" = Some (MkField "status" (TStr "string") false None)
  /\ Forall (fun e => String.leb (fst e)
                        "2024_02_01_000000_make_status_nullable.php" = true)
       [("2024_01_01_000000_create_orders_table.php", Some ordersCreate)]
  /\ columnIs "orders" "status" (MkField "status" (TStr "string") true None)
       (migrations (analyzeMigrations (Some ordersMigrations)
                      (MkProvider JsMap.empty JsMap.empty))).
Proof.
  split; [vm_compute; reflexivity|].
  refine ((fun H => conj (proj1 (proj2 H)) (proj2 (proj2 (proj2 H))))
            (C5_later_migration_wins ordersMigrations
               (MkProvider JsMap.empty JsMap.empty)
               [("2024_01_01_000000_create_orders_table.php", Some ordersCreate)]
               [] "2024_02_01_000000_make_status_nullable.php"
               ordersStatusNullable "orders" "status"
               (MkField "status" (TStr "string") true None) _ _ _ _)).
  - vm_compute. reflexivity.
  - vm_compute. reflexivity.
  - vm_compute. reflexivity.
  - intros file c [].
Defined.

(** Replacement does not extend to the columns of the zero-argument calls:
    the later file's [softDeletes()] defines [deleted_at] as a nullable
    timestamp, and the column of the earlier file stays.  Nor does it extend
    to a call with more arguments than a name and a length, which the column
    pattern does not read: after the later file's
    [decimal('status', 8, 2)->nullable()], [status] is still the string
    column of the earlier file. *)
Lemma C5_pseudo_column_does_not_replace :
  sort_by_name
    (phpFiles [ ("2024_03_01_000000_add_soft_deletes.php", Some ordersSoftDeletes);
                ("2024_01_01_000000_create_orders_table.php", Some ordersCreate) ])
    = [ ("2024_01_01_000000_create_orders_table.php", Some ordersCreate);
        ("2024_03_01_000000_add_soft_deletes.php", Some ordersSoftDeletes) ]
  /\ migrationTable ordersCreate = Some "orders"
  /\ migrationTable ordersSoftDeletes = Some "orders"
  /\ defines ordersCreate "deleted_at"
     = Some (MkField "deleted_at" (TStr "string") false None)
  /\ defines ordersSoftDeletes "deleted_at"
     = Some (MkField "deleted_at" (TStr "timestamp") true None)
  /\ columnIs "orders" "deleted_at" (MkField "deleted_at" (TStr "string") false None)
       (migrations
          (analyzeMigrations
             (Some [ ("2024_03_01_000000_add_soft_deletes.php", Some ordersSoftDeletes);
                     ("2024_01_01_000000_create_orders_table.php", Some ordersCreate) ])
             (MkProvider JsMap.empty JsMap.empty)))
  /\ ~ columnIs "orders" "deleted_at"
         (MkField "deleted_at" (TStr "timestamp") true None)
         (migrations
            (analyzeMigrations
               (Some [ ("2024_03_01_000000_add_soft_deletes.php", Some ordersSoftDeletes);
                       ("2024_01_01_000000_create_orders_table.php", Some ordersCreate) ])
               (MkProvider JsMap.empty JsMap.empty)))
  /\ sort_by_name
       (phpFiles [ ("2024_03_01_000000_status_decimal.php", Some ordersStatusDecimal);
                   ("2024_01_01_000000_create_orders_table.php", Some ordersCreate) ])
     = [ ("2024_01_01_000000_create_orders_table.php", Some ordersCreate);
         ("2024_03_01_000000_status_decimal.php", Some ordersStatusDecimal) ]
  /\ migrationTable ordersStatusDecimal = Some "orders"
  /\ columnMatches ordersStatusDecimal = []
  /\ JsMap.get "orders"
       (migrations
          (analyzeMigrations
             (Some [ ("2024_03_01_000000_status_decimal.php", Some ordersStatusDecimal);
                     ("2024_01_01_000000_create_orders_table.php", Some ordersCreate) ])
             (MkProvider JsMap.empty JsMap.empty)))
     = Some [ MkField "status" (TStr "string") false None;
              MkField "deleted_at" (TStr "string") false None ].
Proof.
  repeat split; try (vm_compute; reflexivity).
  - eexists. split; vm_compute; reflexivity.
  - intros [fs [Hget Hfind]]. vm_compute in Hget. injection Hget as <-.
    vm_compute in Hfind. discriminate.
Qed.

(** *** Column names of a table are distinct *)

Lemma findField_none_names (n : string) (fs : list ModelField) :
  findField n fs = None <-> ~ In n (map name fs).
Proof.
  unfold findField. induction fs as [|f r IH]; simpl; [tauto|].
  unfold has_name at 1. destruct (String.eqb (name f) n) eqn:E.
  - apply String.eqb_eq in E. split; [discriminate | intros H; exfalso; auto].
  - apply String.eqb_neq in E. rewrite IH. tauto.
Qed.

Lemma upsert_names (f : ModelField) (fs : list ModelField) :
  map name (upsert f fs)
  = match findField (name f) fs with
    | Some _ => map name fs
    | None => map name fs ++ [name f]
    end.
Proof.
  unfold findField. induction fs as [|g r IH]; simpl; [reflexivity|].
  destruct (has_name (name f) g) eqn:E; simpl.
  - unfold has_name in E. apply String.eqb_eq in E. now rewrite E.
  - rewrite IH. destruct (find (has_name (name f)) r); reflexivity.
Qed.

Lemma NoDup_snoc (n : string) (l : list string) :
  NoDup l -> ~ In n l -> NoDup (l ++ [n]).
Proof.
  intros Hl Hn. apply NoDup_app; [assumption | repeat constructor; simpl; tauto|].
  intros x Hx [<-|[]]. contradiction.
Qed.

Lemma upsert_distinct (f : ModelField) (fs : list ModelField) :
  NoDup (map name fs) -> NoDup (map name (upsert f fs)).
Proof.
  intros H. rewrite upsert_names.
  destruct (findField (name f) fs) eqn:E; [assumption|].
  apply NoDup_snoc; [assumption | now apply findField_none_names].
Qed.

Lemma pushIfAbsent_distinct (f : ModelField) (fs : list ModelField) :
  NoDup (map name fs) -> NoDup (map name (pushIfAbsent f fs)).
Proof.
  intros H. unfold pushIfAbsent.
  destruct (findField (name f) fs) eqn:E; [assumption|].
  rewrite map_app. apply NoDup_snoc; [assumption | now apply findField_none_names].
Qed.

Lemma columnStep_distinct (fs : list ModelField) (m : Regex.mres) :
  NoDup (map name fs) -> NoDup (map name (columnStep fs m)).
Proof.
  intros H. rewrite columnStep_spec. destruct (namedField m).
  - now apply upsert_distinct.
  - unfold handleSpecialMigrationMethods.
    repeat match goal with
           | |- context [if ?b then _ else _] => destruct b
           end; repeat apply pushIfAbsent_distinct; assumption.
Qed.

(** the columns of every table have distinct names, so the merge loop of
    [parseModelFile] never meets a migration column twice *)
Lemma migration_columns_distinct (dir : option Dir) (p : Provider)
  (t : string) (fs : list ModelField) :
  JsMap.get t (migrations (analyzeMigrations dir p)) = Some fs ->
  NoDup (map name fs).
Proof.
  unfold analyzeMigrations. destruct dir as [entries|]; cbn [migrations];
    [|discriminate].
  revert t fs.
  apply (fold_left_invariant _
           (fun mg => forall t fs, JsMap.get t mg = Some fs -> NoDup (map name fs))).
  - discriminate.
  - intros mg [file content] _ IH t fs. unfold parseMigrationFile. cbn [snd].
    destruct content as [text|]; [|apply IH].
    destruct (migrationTable text) as [tbl|]; [|apply IH].
    destruct (String.eqb t tbl) eqn:E.
    + apply String.eqb_eq in E. subst tbl. rewrite get_set_same. intros [= <-].
      rewrite parseColumns_spec.
      apply (fold_left_invariant _ (fun l => NoDup (map name l))).
      * destruct (JsMap.get t mg) as [l|] eqn:El; [now apply (IH t) | constructor].
      * intros x m _ Hx. now apply columnStep_distinct.
    + apply String.eqb_neq in E. rewrite get_set_other by assumption. apply IH.
Qed.

Lemma lastNamed_distinct (f : ModelField) (fs : list ModelField) :
  NoDup (map name fs) -> In f fs -> lastNamed (name f) fs = Some f.
Proof.
  unfold lastNamed. induction fs as [|g r IH]; intros Hnd Hin; [destruct Hin|].
  inversion Hnd as [|? ? Hnotin Hnd']; subst. rewrite find_rev_cons.
  destruct Hin as [->|Hin].
  - destruct (find (has_name (name f)) (rev r)) as [y|] eqn:E.
    + exfalso. apply find_some in E. destruct E as [Hy Hn].
      apply Hnotin. unfold has_name in Hn. apply String.eqb_eq in Hn.
      rewrite <- Hn. apply in_map. now apply in_rev.
    + unfold has_name. now rewrite String.eqb_refl.
  - now rewrite (IH Hnd' Hin).
Qed.

(** every migration column of the model's table is a field of the model *)
Lemma migration_column_is_field (dir : option Dir) (p : Provider)
  (path modelName content : string) (mfs : list ModelField) (mf : ModelField) :
  JsMap.get (extractTableName content modelName)
    (migrations (analyzeMigrations dir p)) = Some mfs ->
  In mf mfs ->
  findField (name mf)
    (fields (buildModel (migrations (analyzeMigrations dir p)) path modelName content))
  = Some mf.
Proof.
  intros Hget Hin. unfold buildModel. cbn [fields]. unfold addDefaults.
  fold (definedFields (migrations (analyzeMigrations dir p)) content modelName).
  apply addDefault_keeps.
  pose proof (resolved_defined (migrations (analyzeMigrations dir p))
                content modelName (name mf)) as H.
  unfold migrationColumn in H. rewrite Hget in H.
  rewrite (lastNamed_distinct mf mfs) in H; [exact H| |assumption].
  now apply (migration_columns_distinct dir p _ _ Hget).
Qed.

End SchemaFacts.

(** ** Routes *)

Module RouteFacts.
Import Regex RegexSpec RegexFacts Routes RouteSpec.

Lemma routesOf_push (file : string) (r : RouteInfo) (rt : RouteTable) :
  filePath r = file ->
  routesOf file (addRoute r rt) = routesOf file rt ++ [r]
  /\ JsMap.get file (addRoute r rt) = Some (routesOf file rt ++ [r]).
Proof.
  intros <-. unfold routesOf, addRoute, JsMap.push_at.
  destruct (JsMap.get (filePath r) rt); rewrite get_set_same; auto.
Qed.

Lemma routesOf_pushes (file : string) (cs : list RouteInfo) :
  Forall (fun r => filePath r = file) cs ->
  forall rt,
    routesOf file (fold_left (fun acc r => addRoute r acc) cs rt)
    = routesOf file rt ++ cs.
Proof.
  induction 1 as [|r cs Hr Hcs IH]; intros rt; simpl.
  - now rewrite app_nil_r.
  - rewrite IH. destruct (routesOf_push file r rt Hr) as [-> _].
    now rewrite <- app_assoc.
Qed.

Lemma pushes_present (file : string) (cs : list RouteInfo) :
  Forall (fun r => filePath r = file) cs -> cs <> [] ->
  forall rt,
    JsMap.get file (fold_left (fun acc r => addRoute r acc) cs rt)
    = Some (routesOf file rt ++ cs).
Proof.
  intros Hall Hne rt.
  pose proof (routesOf_pushes file cs Hall rt) as H. unfold routesOf at 1 in H.
  destruct (JsMap.get file (fold_left _ cs rt)) as [l|] eqn:E; [now rewrite H|].
  exfalso. destruct cs as [|r cs]; [now apply Hne|].
  destruct (routesOf file rt); discriminate.
Qed.

Lemma candidates_file (ln : string) (lineNumber : nat) (file : string)
  (mw : list string) (prefix : string) :
  Forall (fun r => filePath r = file) (candidates ln lineNumber file mw prefix).
Proof.
  unfold candidates.
  destruct (Regex.js_match re_action_string ln);
    destruct (Regex.js_match re_action_array ln);
    destruct (Regex.js_match re_resource ln);
    destruct (Regex.js_match re_closure ln);
    repeat constructor.
Qed.

(** [parseRouteLine] pushes the candidates, then attaches the name *)
Lemma parseRouteLine_spec (ln : string) (lineNumber : nat) (file : string)
  (mw : list string) (prefix : string) (rt : RouteTable) :
  parseRouteLine ln lineNumber file mw prefix rt
  = let rt4 := fold_left (fun acc r => addRoute r acc)
                 (candidates ln lineNumber file mw prefix) rt in
    match Regex.js_match re_name ln with
    | Some m =>
        match JsMap.get file rt4 with
        | Some l =>
            JsMap.set file (set_last_name (Regex.capd m 1) lineNumber l) rt4
        | None => rt4
        end
    | None => rt4
    end.
Proof.
  unfold parseRouteLine, candidates.
  destruct (Regex.js_match re_action_string ln);
    destruct (Regex.js_match re_action_array ln);
    destruct (Regex.js_match re_resource ln) as [m3|];
    destruct (Regex.js_match re_closure ln);
    cbn [app fold_left];
    try destruct (String.eqb (Regex.capd m3 1) "apiResource");
    reflexivity.
Qed.

Lemma set_last_name_app (nm : string) (k : nat) (a b : list RouteInfo) :
  b <> [] -> set_last_name nm k (a ++ b) = a ++ set_last_name nm k b.
Proof.
  intros Hb. induction a as [|x a IH]; [reflexivity|].
  simpl app. rewrite <- IH. simpl.
  destruct (a ++ b) eqn:E; [|reflexivity].
  apply app_eq_nil in E. destruct E as [_ E]. now apply Hb in E.
Qed.

Lemma set_last_name_shape (nm : string) (k : nat) (l : list RouteInfo) :
  map (fun r => (method r, uri r)) (set_last_name nm k l)
  = map (fun r => (method r, uri r)) l.
Proof.
  induction l as [|x l IH]; [reflexivity|].
  destruct l as [|y l].
  - simpl. destruct (abs_diff (line x) k <=? 2); reflexivity.
  - change (set_last_name nm k (x :: y :: l))
      with (x :: set_last_name nm k (y :: l)).
    rewrite (map_cons _ x (set_last_name nm k (y :: l))), IH. reflexivity.
Qed.

Lemma attachName_shape (ln : string) (k : nat) (l : list RouteInfo) :
  map (fun r => (method r, uri r)) (attachName ln k l)
  = map (fun r => (method r, uri r)) l.
Proof.
  unfold attachName. destruct (Regex.js_match re_name ln); [|reflexivity].
  apply set_last_name_shape.
Qed.

(** the routes of the file after the line: the earlier ones, then the
    line's candidates with the name attached *)
Lemma parseRouteLine_routes (ln : string) (lineNumber : nat) (file : string)
  (mw : list string) (prefix : string) (rt : RouteTable) :
  candidates ln lineNumber file mw prefix <> [] ->
  JsMap.get file (parseRouteLine ln lineNumber file mw prefix rt)
  = Some (routesOf file rt
          ++ attachName ln lineNumber (candidates ln lineNumber file mw prefix)).
Proof.
  intros Hne. rewrite parseRouteLine_spec. cbv zeta.
  rewrite (pushes_present file _ (candidates_file ln lineNumber file mw prefix) Hne).
  unfold attachName. destruct (Regex.js_match re_name ln) as [m|].
  - rewrite get_set_same. now rewrite set_last_name_app.
  - apply pushes_present; [apply candidates_file | assumption].
Qed.

Lemma shape_single (l0 l1 : list RouteInfo) :
  map (fun r => (method r, uri r)) l1 = map (fun r => (method r, uri r)) l0 ->
  Forall singleMethod l0 -> Forall singleMethod l1.
Proof.
  intros Hmap H0. rewrite Forall_forall in *. intros x Hx.
  apply (in_map (fun r => (method r, uri r))) in Hx. rewrite Hmap in Hx.
  apply in_map_iff in Hx. destruct Hx as [y [Hy Hin]].
  destruct (H0 y Hin) as [v Hv]. exists v. injection Hy as Hm _. congruence.
Qed.

(** C2.  When the resource pattern matches a line, the routes the extractor
    adds for that line hold exactly one route with the five methods GET,
    POST, PUT, PATCH, DELETE; its URI is the prefix-merged resource URI
    followed by [/{id?}]: the declared URI itself under the empty prefix,
    and otherwise the prefix, a slash and the declared URI, the first
    doubled slash of the three made one; any other route of the line has a
    single method. *)
Theorem C2_resource_route (ln file : string) (lineNumber : nat)
  (mw : list string) (prefix : string) (rt : RouteTable) (m : Regex.mres) :
  Regex.js_match re_resource ln = Some m ->
  exists before r after,
    JsMap.get file (parseRouteLine ln lineNumber file mw prefix rt)
      = Some (routesOf file rt ++ before ++ r :: after)
    /\ method r = ["GET"; "POST"; "PUT"; "PATCH"; "DELETE"]
    /\ uri r
       = ((match prefix with
           | EmptyString => Regex.capd m 2
           | String _ _ =>
               JsString.replace_first "//" "/"
                 (prefix ++ "/" ++ Regex.capd m 2)
           end) ++ "/{id?}")%string
    /\ Forall singleMethod (before ++ after).
Proof.
  intros Hm.
  replace (match prefix with
           | EmptyString => Regex.capd m 2
           | String _ _ =>
               JsString.replace_first "//" "/"
                 (prefix ++ "/" ++ Regex.capd m 2)%string
           end)
    with (fullUri prefix (Regex.capd m 2)) by now destruct prefix.
  pose proof (attachName_shape ln lineNumber
                (candidates ln lineNumber file mw prefix)) as Hshape.
  assert (exists b0 a0,
            candidates ln lineNumber file mw prefix
            = b0 ++ MkRoute resourceMethods
                      (fullUri prefix (Regex.capd m 2) ++ "/{id?}")%string None
                      (Some (Regex.capd m 3 ++ " (" ++ Regex.capd m 1 ++ ")")%string)
                      (Some (shortController (Regex.capd m 3))) (Some "resource")
                      (routeMiddleware mw ln) file lineNumber (columnOf ln) :: a0
            /\ Forall singleMethod b0 /\ Forall singleMethod a0) as [b0 [a0 [Hc [Hb0 Ha0]]]].
  { unfold candidates. rewrite Hm.
    eexists (_ ++ _), _. rewrite <- app_assoc. split; [reflexivity|].
    split; [apply Forall_app; split|];
      match goal with
      | |- Forall _ (match ?x with _ => _ end) =>
          destruct x; repeat constructor; eexists; reflexivity
      end. }
  rewrite Hc in Hshape. rewrite map_app in Hshape.
  apply map_eq_app in Hshape. destruct Hshape as [before [rest [Hsplit [Hbef Hrest]]]].
  cbn [map] in Hrest. apply map_eq_cons in Hrest.
  destruct Hrest as [r [after [-> [Hr Haft]]]].
  exists before, r, after. split; [|split; [|split]].
  - rewrite parseRouteLine_routes.
    + rewrite Hc. now rewrite Hsplit.
    + rewrite Hc. now destruct b0.
  - now injection Hr.
  - now injection Hr.
  - apply Forall_app. split.
    + now apply (shape_single b0).
    + now apply (shape_single a0).
Qed.

Lemma C2_photos_scenario :
  Regex.js_match re_resource "Route::resource('photos', PhotoController::class);"
    = Some (Regex.MRes 0 "Route::resource('photos', PhotoController::class"
              [(3, "PhotoController"); (2, "photos"); (1, "resource")] ");")
  /\ (exists before r after,
       JsMap.get "routes/web.php"
         (parseRouteLine "Route::resource('photos', PhotoController::class);" 7
            "routes/web.php" ["web"] "admin" JsMap.empty)
         = Some (routesOf "routes/web.php" JsMap.empty ++ before ++ r :: after)
       /\ method r = ["GET"; "POST"; "PUT"; "PATCH"; "DELETE"]
       /\ uri r = "admin/photos/{id?}"
       /\ Forall singleMethod (before ++ after))
  /\ (exists before r after,
       JsMap.get "routes/web.php"
         (parseRouteLine "Route::resource('photos', PhotoController::class);" 7
            "routes/web.php" ["web"] "admin/" JsMap.empty)
         = Some (routesOf "routes/web.php" JsMap.empty ++ before ++ r :: after)
       /\ method r = ["GET"; "POST"; "PUT"; "PATCH"; "DELETE"]
       /\ uri r = "admin/photos/{id?}"
       /\ Forall singleMethod (before ++ after))
  /\ (exists before r after,
       JsMap.get "routes/web.php"
         (parseRouteLine "Route::resource('photos', PhotoController::class);" 7
            "routes/web.php" ["web"] EmptyString JsMap.empty)
         = Some (routesOf "routes/web.php" JsMap.empty ++ before ++ r :: after)
       /\ method r = ["GET"; "POST"; "PUT"; "PATCH"; "DELETE"]
       /\ uri r = "photos/{id?}"
       /\ Forall singleMethod (before ++ after)).
Proof.
  assert (Regex.js_match re_resource
            "Route::resource('photos', PhotoController::class);"
          = Some (Regex.MRes 0 "Route::resource('photos', PhotoController::class"
                    [(3, "PhotoController"); (2, "photos"); (1, "resource")] ");"))
    as Hm by (vm_compute; reflexivity).
  split; [exact Hm|]. split; [|split].
  - exact (C2_resource_route "Route::resource('photos', PhotoController::class);"
             "routes/web.php" 7 ["web"] "admin" JsMap.empty _ Hm).
  - exact (C2_resource_route "Route::resource('photos', PhotoController::class);"
             "routes/web.php" 7 ["web"] "admin/" JsMap.empty _ Hm).
  - exact (C2_resource_route "Route::resource('photos', PhotoController::class);"
             "routes/web.php" 7 ["web"] EmptyString JsMap.empty _ Hm).
Defined.

(** the merged URI of that route *)
Example photos_uri :
  (fullUri "admin" "photos" ++ "/{id?}")%string = "admin/photos/{id?}".
Proof. reflexivity. Qed.

Example resource_line :
  JsMap.get "routes/web.php"
    (parseRouteLine "  Route::apiResource('photos', PhotoController::class)->name('photos');"
       7 "routes/web.php" ["web"] EmptyString JsMap.empty)
  = Some [MkRoute ["GET"; "POST"; "PUT"; "PATCH"; "DELETE"] "photos/{id?}"
            (Some "photos") (Some "PhotoController (apiResource)")
            (Some "PhotoController") (Some "resource") ["web"] "routes/web.php"
            7 2%Z].
Proof. vm_compute. reflexivity. Qed.

(** *** Resource declarations *)

Lemma resource_at_front (kind : string) (a : ascii) (u : string) (b : ascii)
  (ctl rest : string) (i : nat) :
  kind = "resource" \/ kind = "apiResource" ->
  all_chars no_quote (String a u) = true ->
  all_chars not_colon (String b ctl) = true ->
  JsString.is_space b = false ->
  exists text,
    at_front Routes.re_resource i
      (resourceDecl kind (String a u) (String b ctl) rest)
    = Some (MRes i text
              [(3, String b ctl); (2, String a u); (1, kind)] rest).
Proof.
  intros Hkind Hu Hctl Hb. eexists. unfold at_front, resourceDecl.
  unfold Routes.re_resource, Routes.route_head. cbn [app].
  change (alts [lit "resource"; lit "apiResource"])
    with (Alt (lit "resource") (lit "apiResource")).
  rewrite run_seqs_cons, run_lit, run_seqs_cons.
  assert (forall (k : cont mres) x s c,
            k s ((1, kind) :: c) = Some x ->
            run (Grp 1 (Alt (lit "resource") (lit "apiResource"))) (kind ++ s)%string c k
            = Some x) as Hkindrun.
  { intros k x s c Hk. destruct Hkind; subst kind.
    - now apply run_grp_alt_first.
    - apply run_grp_alt_second; [reflexivity | assumption]. }
  apply Hkindrun.
  rewrite run_seqs_cons. apply run_ws_none; [reflexivity|].
  rewrite run_seqs_cons, run_chr, run_seqs_cons.
  apply run_ws_none; [reflexivity|].
  rewrite run_seqs_cons. unfold quote at 1. rewrite run_cls1 by reflexivity.
  rewrite run_seqs_cons. unfold not_quote.
  apply (run_grp_plus_cls 2 (fun c => negb (is_quote c))); [exact Hu | reflexivity|].
  rewrite run_seqs_cons. unfold quote at 1. rewrite run_cls1 by reflexivity.
  rewrite run_seqs_cons. apply run_ws_none; [reflexivity|].
  rewrite run_seqs_cons, run_chr, run_seqs_cons.
  unfold ws at 1.
  apply (run_star_cls JsString.is_space _ _ " " (String b ctl ++ "::class" ++ rest)%string);
    [reflexivity | simpl; now rewrite Hb |].
  rewrite run_seqs_cons. unfold none_of.
  apply (run_grp_plus_cls 3 (fun c => negb (mem_char c ":"))); [exact Hctl | reflexivity|].
  cbn [seqs]. rewrite run_lit. reflexivity.
Qed.

Lemma resource_no_start (a : ascii) (t : string) (i : nat) :
  not_R a = true -> at_front Routes.re_resource i (String a t) = None.
Proof.
  intros Ha. unfold at_front, Routes.re_resource, Routes.route_head. cbn [app].
  rewrite run_seqs_cons. cbn [lit run].
  unfold not_R in Ha. apply negb_true_iff in Ha. now rewrite Ha.
Qed.

(** the resource pattern on a resource declaration: the groups are the kind,
    the declared URI and the controller reference *)
Lemma resource_line_match (indent kind : string) (a : ascii) (u : string)
  (b : ascii) (ctl rest : string) :
  all_chars not_R indent = true ->
  kind = "resource" \/ kind = "apiResource" ->
  all_chars no_quote (String a u) = true ->
  all_chars not_colon (String b ctl) = true ->
  JsString.is_space b = false ->
  exists text,
    js_match Routes.re_resource
      (resourceLine indent kind (String a u) (String b ctl) rest)
    = Some (MRes (length indent) text
              [(3, String b ctl); (2, String a u); (1, kind)] rest).
Proof.
  intros Hi Hkind Hu Hctl Hb.
  destruct (resource_at_front kind a u b ctl rest (length indent) Hkind Hu Hctl Hb)
    as [text Ht].
  exists text. unfold js_match, resourceLine.
  rewrite (search_skip Routes.re_resource not_R resource_no_start indent _ 0 Hi).
  now apply search_at_front.
Qed.

(** *** Group prefixes *)

Lemma fullUri_no_prefix (declared : string) : fullUri EmptyString declared = declared.
Proof. reflexivity. Qed.

Lemma fullUri_prefix (c : ascii) (prefix declared : string) :
  fullUri (String c prefix) declared
  = JsString.replace_first "//" "/" (String c prefix ++ "/" ++ declared).
Proof. reflexivity. Qed.

(** the prefix of the group context never leaves the empty string: the value
    [parseRouteGroup] computes is dropped by [stepLine] *)
Lemma stepLine_prefix (file : string) (index : nat) (ln : string)
  (ctx : GroupCtx) (rt : RouteTable) :
  currentPrefix ctx = EmptyString ->
  currentPrefix (fst (stepLine file index ln (ctx, rt))) = EmptyString
  /\ snd (stepLine file index ln (ctx, rt))
     = parseRouteLine ln (index + 1) file
         (currentMiddleware (fst (stepLine file index ln (ctx, rt))))
         EmptyString rt.
Proof.
  intros H. unfold stepLine. cbn [fst snd].
  destruct (JsString.includes (JsString.trim ln) "Route::group(");
    cbn [groupLevel currentPrefix currentMiddleware];
    repeat match goal with
           | |- context [if ?b then _ else _] => destruct b
           end;
    cbn [groupLevel currentPrefix currentMiddleware]; rewrite ?H; auto.
Qed.

Lemma forEachLine_prefix (file : string) (lines : list string) :
  forall index ctx rt,
    currentPrefix ctx = EmptyString ->
    currentPrefix (fst (forEachLine file index lines (ctx, rt))) = EmptyString.
Proof.
  induction lines as [|ln r IH]; intros index ctx rt H; cbn [forEachLine];
    [assumption|].
  destruct (stepLine file index ln (ctx, rt)) as [ctx' rt'] eqn:E.
  apply IH. pose proof (stepLine_prefix file index ln ctx rt H) as [Hp _].
  now rewrite E in Hp.
Qed.

(** C3, the code on a group with a prefix.  The group line yields the prefix
    [admin] inside [parseRouteGroup], and [parseRouteLine] given that prefix
    would extract [admin/users]; [parseRouteFile] extracts [users], because
    the prefix never reaches the caller's variable.  The group's middleware
    does reach the route, and the route outside the group is unchanged. *)
Theorem C3_group_prefix_not_applied :
  snd (parseRouteGroup
         "Route::group(['prefix' => 'admin', 'middleware' => ['auth']], function () {"
         [] EmptyString) = "admin"
  /\ map uri (routesOf "routes/web.php"
                (parseRouteLine "    Route::get('users', 'UserController@index');"
                   2 "routes/web.php" ["auth"] "admin" JsMap.empty))
     = ["admin/users"]
  /\ map (fun r => (uri r, middleware r))
       (routesOf "routes/web.php"
          (parseRouteFile "routes/web.php" (Some groupedRoutes) JsMap.empty))
     = [("users", ["auth"]); ("home", [])].
Proof. repeat split; vm_compute; reflexivity. Qed.

(** merging replaces the first doubled separator only *)
Example prefix_merge_examples :
  fullUri "admin/" "users" = "admin/users"
  /\ fullUri "admin" "users" = "admin/users"
  /\ fullUri "admin/" "/users" = "admin//users"
  /\ fullUri EmptyString "/users//all" = "/users//all".
Proof. repeat split; reflexivity. Qed.

End RouteFacts.

(** ** C8: re-extraction *)

(** C8.  Each extractor clears its store and rebuilds it from the files, so
    running it again on the same files, from the state the first run left,
    gives the same store: routes, models and migration columns, the
    translation catalog with its usages (scan callbacks run to completion),
    and the validation schema. *)
Theorem C8_reextraction_idempotent :
  (forall w dir p,
     Routes.parseAllRoutes w dir (Routes.parseAllRoutes w dir p)
     = Routes.parseAllRoutes w dir p)
  /\ (forall JSON_parse w pr p,
        Translations.reloadTranslations JSON_parse w pr
          (Translations.reloadTranslations JSON_parse w pr p)
        = Translations.reloadTranslations JSON_parse w pr p)
  /\ (forall w migrationsDir appDir p,
        Schema.analyzeProject w migrationsDir appDir
          (Schema.analyzeProject w migrationsDir appDir p)
        = Schema.analyzeProject w migrationsDir appDir p)
  /\ (forall dir p,
        Validation.analyzeDatabaseSchema dir (Validation.analyzeDatabaseSchema dir p)
        = Validation.analyzeDatabaseSchema dir p).
Proof.
  split; [|split; [|split]].
  - intros w dir p. destruct dir; reflexivity.
  - intros J w pr p. reflexivity.
  - intros w md ad p. unfold Schema.analyzeProject, Schema.analyzeModels.
    destruct md, ad; reflexivity.
  - intros dir p. destruct dir; reflexivity.
Qed.

(** the store after a run does not depend on the store before it *)
Lemma parseAllRoutes_fresh (w : string) (dir : option Routes.Dir)
  (p q : Routes.Provider) :
  Routes.parseAllRoutes w dir p = Routes.parseAllRoutes w dir q.
Proof. destruct dir; reflexivity. Qed.

Lemma reloadTranslations_fresh (JSON_parse : string -> option Translations.json)
  (w : string) (pr : Translations.Project) (p q : Translations.Provider) :
  Translations.reloadTranslations JSON_parse w pr p
  = Translations.reloadTranslations JSON_parse w pr q.
Proof. reflexivity. Qed.

(** ** C10: derived table names *)

(** for a class name that starts with an uppercase letter the code agrees
    with the specification *)
Lemma derived_uppercase_initial (c : ascii) (rest : string) :
  JsString.is_upper c = true ->
  Schema.derivedTableName (String c rest) = tableName_spec (String c rest).
Proof.
  intros H. unfold Schema.derivedTableName, tableName_spec, snake_case_spec.
  simpl. rewrite H. reflexivity.
Qed.

(** C10, the code on two class names.  [BlogPost] derives [blog_posts], as
    specified; for the class [user], whose name starts with a lowercase letter,
    [substring(1)] drops the [u] and the code derives [sers], where the
    specification's snake case gives [users]. *)
Theorem C10_lowercase_initial_loses_first_letter :
  Schema.extractTableName "class BlogPost extends Model {}" "BlogPost" = "blog_posts"
  /\ tableName_spec "BlogPost" = "blog_posts"
  /\ Schema.extractTableName "class user extends Model {}" "user" = "sers"
  /\ tableName_spec "user" = "users".
Proof. repeat split; vm_compute; reflexivity. Qed.

(* ================================================================== *)
(** * Further properties of the surrounding code                         *)
(* ================================================================== *)

(** ** Sets in insertion order *)

Module JsSetFacts.

Lemma add_In (acc : list string) (x y : string) :
  In y (JsSet.add acc x) <-> In y acc \/ y = x.
Proof.
  unfold JsSet.add, JsSet.has. destruct (existsb (String.eqb x) acc) eqn:E.
  - split; [auto|]. intros [H| ->]; [assumption|].
    apply existsb_exists in E. destruct E as (z & Hz & Ez).
    apply String.eqb_eq in Ez. now subst.
  - rewrite in_app_iff. simpl. intuition.
Qed.

Lemma add_NoDup (acc : list string) (x : string) :
  NoDup acc -> NoDup (JsSet.add acc x).
Proof.
  intros H. unfold JsSet.add, JsSet.has.
  destruct (existsb (String.eqb x) acc) eqn:E; [assumption|].
  apply NoDup_app; [assumption | repeat constructor; simpl; tauto |].
  intros y Hy [Heq|[]]. subst y.
  assert (existsb (String.eqb x) acc = true) as Ht; [| congruence].
  apply existsb_exists. exists x. split; [assumption | apply String.eqb_refl].
Qed.

(** the members collected from a list *)
Lemma collected {A : Type} (f : A -> string) (ms : list A) :
  forall acc,
    NoDup acc ->
    NoDup (fold_left (fun a m => JsSet.add a (f m)) ms acc)
    /\ forall x, In x (fold_left (fun a m => JsSet.add a (f m)) ms acc) <->
                 In x acc \/ exists m, In m ms /\ f m = x.
Proof.
  induction ms as [|m r IH]; intros acc Hacc; simpl.
  - split; [assumption|]. intros x. split; [auto|]. intros [H|(m & [] & _)]. exact H.
  - destruct (IH (JsSet.add acc (f m)) (add_NoDup _ _ Hacc)) as [Hn Hi].
    split; [assumption|]. intros x. rewrite Hi, add_In. split.
    + intros [[H| ->]|(m0 & Hm0 & E)]; eauto.
    + intros [H|(m0 & [<-|Hm0] & E)]; eauto.
Qed.

Lemma fold_concat {A B : Type} (g : A -> B -> A) (ls : list (list B)) :
  forall acc,
    fold_left (fun a l => fold_left g l a) ls acc = fold_left g (List.concat ls) acc.
Proof.
  induction ls as [|l r IH]; intros acc; simpl; [reflexivity|].
  now rewrite fold_left_app, IH.
Qed.

End JsSetFacts.

(** ** Route queries *)

Module RouteQueryFacts.
Import JsString Regex Routes RouteQueries.

(** a bucket only grows *)
Lemma push_at_grows (k k' : string) (x : RouteInfo) (cr : RouteTable)
  (l : list RouteInfo) :
  JsMap.get k cr = Some l ->
  exists l', JsMap.get k (JsMap.push_at k' x cr) = Some l' /\ incl l l'.
Proof.
  intros Hg. unfold JsMap.push_at.
  destruct (String.eqb k k') eqn:E.
  - apply String.eqb_eq in E. subst k'. rewrite Hg.
    exists (l ++ [x]). split; [apply get_set_same | apply incl_appl, incl_refl].
  - apply String.eqb_neq in E.
    exists l. split; [| apply incl_refl].
    destruct (JsMap.get k' cr); rewrite get_set_other; auto.
Qed.

Lemma push_at_holds (k : string) (x : RouteInfo) (cr : RouteTable) :
  exists l', JsMap.get k (JsMap.push_at k x cr) = Some l' /\ In x l'.
Proof.
  unfold JsMap.push_at. destruct (JsMap.get k cr) as [l|].
  - exists (l ++ [x]). split; [apply get_set_same | apply in_or_app; right; now left].
  - exists [x]. split; [apply get_set_same | now left].
Qed.

Lemma pushes_grow (k : string) (x : RouteInfo) (keys : list string) :
  forall (cr : RouteTable) (l : list RouteInfo),
    JsMap.get k cr = Some l ->
    exists l',
      JsMap.get k (fold_left (fun acc key => JsMap.push_at key x acc) keys cr)
      = Some l' /\ incl l l'.
Proof.
  induction keys as [|k' r IH]; intros cr l Hg; simpl.
  - exists l. split; [assumption | apply incl_refl].
  - destruct (push_at_grows k k' x cr l Hg) as (l1 & H1 & I1).
    destruct (IH _ _ H1) as (l2 & H2 & I2).
    exists l2. split; [assumption | eapply incl_tran; eassumption].
Qed.

Lemma indexRoute_grows (k : string) (x : RouteInfo) (cr : RouteTable)
  (l : list RouteInfo) :
  JsMap.get k cr = Some l ->
  exists l', JsMap.get k (indexRoute cr x) = Some l' /\ incl l l'.
Proof.
  intros Hg. unfold indexRoute.
  destruct (controller x) as [ctl|]; [| exists l; split; [assumption | apply incl_refl]].
  destruct (controllerMethod x) as [meth|];
    [| exists l; split; [assumption | apply incl_refl]].
  destruct (truthy ctl && truthy meth);
    [| exists l; split; [assumption | apply incl_refl]].
  now apply pushes_grow.
Qed.

Lemma indexRoute_holds (x : RouteInfo) (cr : RouteTable) (c m : string) :
  controller x = Some c -> controllerMethod x = Some m ->
  truthy c = true -> truthy m = true ->
  exists l', JsMap.get (c ++ "@" ++ m)%string (indexRoute cr x) = Some l'
             /\ In x l'.
Proof.
  intros Hc Hm Tc Tm. unfold indexRoute. rewrite Hc, Hm, Tc, Tm.
  cbn [andb]. unfold controllerKeys. cbn [app fold_left].
  destruct (push_at_holds (c ++ "@" ++ m)%string x cr) as (l1 & H1 & I1).
  destruct (pushes_grow (c ++ "@" ++ m)%string x
              ((if negb (endsWith c "Controller")
                then [(c ++ "Controller@" ++ m)%string] else [])
               ++ (if endsWith c "Controller"
                   then let shortName := replace_first "Controller" EmptyString c in
                        [(shortName ++ "@" ++ m)%string;
                         (shortName ++ "Controller@" ++ m)%string]
                   else []))
              _ _ H1) as (l2 & H2 & I2).
  exists l2. split; [exact H2 | now apply I2].
Qed.

Lemma index_all_grows (k : string) (rs : list RouteInfo) :
  forall (cr : RouteTable) (l : list RouteInfo),
    JsMap.get k cr = Some l ->
    exists l', JsMap.get k (fold_left indexRoute rs cr) = Some l' /\ incl l l'.
Proof.
  induction rs as [|x r IH]; intros cr l Hg; simpl.
  - exists l. split; [assumption | apply incl_refl].
  - destruct (indexRoute_grows k x cr l Hg) as (l1 & H1 & I1).
    destruct (IH _ _ H1) as (l2 & H2 & I2).
    exists l2. split; [assumption | eapply incl_tran; eassumption].
Qed.

Lemma index_all_holds (rs : list RouteInfo) (x : RouteInfo) (c m : string) :
  forall cr : RouteTable,
    In x rs ->
    controller x = Some c -> controllerMethod x = Some m ->
    truthy c = true -> truthy m = true ->
    exists l', JsMap.get (c ++ "@" ++ m)%string (fold_left indexRoute rs cr) = Some l'
               /\ In x l'.
Proof.
  induction rs as [|y r IH]; intros cr Hin Hc Hm Tc Tm; [contradiction|].
  simpl. destruct Hin as [->|Hin].
  - destruct (indexRoute_holds x cr c m Hc Hm Tc Tm) as (l1 & H1 & I1).
    destruct (index_all_grows _ r _ _ H1) as (l2 & H2 & I2).
    exists l2. split; [assumption | now apply I2].
  - now apply IH.
Qed.

Lemma firstRoutes_head (k : string) (rest : list string) (cr : RouteTable)
  (l : list RouteInfo) (x : RouteInfo) :
  JsMap.get k cr = Some l -> In x l -> firstRoutes (k :: rest) cr = l.
Proof.
  intros Hg Hin. simpl. rewrite Hg. destruct l; [contradiction | reflexivity].
Qed.

Lemma indexed_route_found (w : string) (dir : option Routes.Dir)
  (p0 : Provider) (r : RouteInfo) (c m : string) :
  In r (getAllRoutes (parseAllRoutes w dir p0)) ->
  controller r = Some c -> controllerMethod r = Some m ->
  truthy c = true -> truthy m = true ->
  In r (getRoutesForController (parseAllRoutes w dir p0) c m).
Proof.
  intros Hin Hc Hm Tc Tm.
  unfold parseAllRoutes in *. destruct dir as [entries|]; [| contradiction].
  unfold getRoutesForController, getAllRoutes, buildControllerRouteMap in *.
  cbn [routes controllerRoutes middlewareMap clear] in *.
  destruct (index_all_holds _ r c m JsMap.empty Hin Hc Hm Tc Tm)
    as (l & Hg & Hl).
  unfold possibleKeys. cbn [app].
  erewrite firstRoutes_head; eauto.
Qed.

Lemma includes_empty (s : string) : includes s EmptyString = true.
Proof. unfold includes. destruct s; reflexivity. Qed.

Lemma filter_all {A : Type} (f : A -> bool) (l : list A) :
  (forall x, In x l -> f x = true) -> filter f l = l.
Proof.
  induction l as [|a r IH]; intros H; simpl; [reflexivity|].
  rewrite (H a (or_introl eq_refl)). f_equal. apply IH.
  intros x Hx. apply H. now right.
Qed.

Lemma lower_upper_char (c : ascii) : lower_char (upper_char c) = lower_char c.
Proof.
  destruct c as [[] [] [] [] [] [] [] []]; reflexivity.
Qed.

Lemma lower_upper (s : string) : toLowerCase (toUpperCase s) = toLowerCase s.
Proof.
  unfold toLowerCase, toUpperCase.
  induction s as [|c t IH]; simpl; [reflexivity|].
  now rewrite lower_upper_char, IH.
Qed.

(** X2: [searchRoutes] returns every route for the empty query, and for a
    query of ASCII characters the case of the query's letters does not
    matter: the query in upper case finds the same routes. *)
Theorem X2_search_empty_and_case (p : Provider) (query : string) :
  searchRoutes p EmptyString = getAllRoutes p
  /\ (RegexSpec.all_chars RegexSpec.is_ascii query = true ->
      searchRoutes p (toUpperCase query) = searchRoutes p query).
Proof.
  split.
  - unfold searchRoutes. apply filter_all. intros x _.
    cbn [toLowerCase map_chars]. now rewrite includes_empty.
  - intros _. unfold searchRoutes. now rewrite lower_upper.
Qed.

(** the query [users], in either case, on the sample routes *)
Lemma X2_users_query_scenario :
  RegexSpec.all_chars RegexSpec.is_ascii "users" = true
  /\ searchRoutes
       (parseAllRoutes "/project" (Some RouteInv.usersRoutes)
          (MkProvider JsMap.empty JsMap.empty JsMap.empty))
       "USERS"
     = searchRoutes
         (parseAllRoutes "/project" (Some RouteInv.usersRoutes)
            (MkProvider JsMap.empty JsMap.empty JsMap.empty))
         "users"
  /\ map uri
       (searchRoutes
          (parseAllRoutes "/project" (Some RouteInv.usersRoutes)
             (MkProvider JsMap.empty JsMap.empty JsMap.empty))
          "USERS")
     = ["users"].
Proof.
  split; [reflexivity|]. split; [|vm_compute; reflexivity].
  apply (proj2 (X2_search_empty_and_case
                  (parseAllRoutes "/project" (Some RouteInv.usersRoutes)
                     (MkProvider JsMap.empty JsMap.empty JsMap.empty))
                  "users")).
  reflexivity.
Defined.

End RouteQueryFacts.

(** ** The matcher and the language of a regex *)

Module RegexSemFacts.
Import Regex RegexSpec RegexFacts RegexSem.

Lemma append_assoc (a b c : string) : ((a ++ b) ++ c = a ++ (b ++ c))%string.
Proof. induction a as [|x a IH]; simpl; [reflexivity | now rewrite IH]. Qed.

Lemma append_nil_r (a : string) : (a ++ EmptyString)%string = a.
Proof. induction a as [|x a IH]; simpl; [reflexivity | now rewrite IH]. Qed.

Lemma append_shorter (w rest : string) :
  length rest < length (w ++ rest)%string -> w <> EmptyString.
Proof. intros H ->. simpl in H. lia. Qed.

Lemma nonempty_longer (w rest : string) :
  w <> EmptyString -> length rest < length (w ++ rest)%string.
Proof. intros H. rewrite length_append. destruct w; [congruence | simpl; lia]. Qed.

(** *** Soundness: what [run] finds is a match *)

Lemma star_loop_sound {R : Type} (r : re)
  (body : string -> caps -> cont R -> option R) (k : cont R) (x : R) :
  sound_body r body ->
  forall fuel s c, star_loop body k fuel s c = Some x ->
    exists w rest c1,
      s = (w ++ rest)%string /\ matches (Star r) w rest c c1
      /\ k rest c1 = Some x.
Proof.
  intros Hbody. induction fuel as [|f IH]; intros s c H; cbn [star_loop] in H.
  - exists EmptyString, s, c. repeat split; [constructor | assumption].
  - apply orelse_some in H. destruct H as [H|[_ H]].
    + destruct (Hbody _ _ _ _ H) as (w & rest & c1 & -> & Hm & Hk).
      destruct (length rest <? length (w ++ rest)%string) eqn:E; [|discriminate].
      apply Nat.ltb_lt in E.
      destruct (IH _ _ Hk) as (w2 & rest2 & c2 & -> & Hm2 & Hk2).
      exists (w ++ w2)%string, rest2, c2. rewrite append_assoc.
      repeat split; [| assumption].
      apply MStarS with (c1 := c1); [eapply append_shorter; eassumption | assumption..].
    + exists EmptyString, s, c. repeat split; [constructor | assumption].
Qed.

Lemma lazy_loop_sound {R : Type} (r : re)
  (body : string -> caps -> cont R -> option R) (k : cont R) (x : R) :
  sound_body r body ->
  forall fuel s c, lazy_loop body k fuel s c = Some x ->
    exists w rest c1,
      s = (w ++ rest)%string /\ matches (LazyStar r) w rest c c1
      /\ k rest c1 = Some x.
Proof.
  intros Hbody. induction fuel as [|f IH]; intros s c H; cbn [lazy_loop] in H.
  - exists EmptyString, s, c. repeat split; [constructor | assumption].
  - apply orelse_some in H. destruct H as [H|[_ H]].
    + exists EmptyString, s, c. repeat split; [constructor | assumption].
    + destruct (Hbody _ _ _ _ H) as (w & rest & c1 & -> & Hm & Hk).
      destruct (length rest <? length (w ++ rest)%string) eqn:E; [|discriminate].
      apply Nat.ltb_lt in E.
      destruct (IH _ _ Hk) as (w2 & rest2 & c2 & -> & Hm2 & Hk2).
      exists (w ++ w2)%string, rest2, c2. rewrite append_assoc.
      repeat split; [| assumption].
      apply MLazyS with (c1 := c1); [eapply append_shorter; eassumption | assumption..].
Qed.

Lemma run_sound (r : re) :
  forall (R : Type) (s : string) (c : caps) (k : cont R) (x : R),
    run r s c k = Some x ->
    exists w rest c1,
      s = (w ++ rest)%string /\ matches r w rest c c1 /\ k rest c1 = Some x.
Proof.
  induction r as [|a|p|a IHa b IHb|a IHa b IHb|r1 IH|r1 IH|n r1 IH|r1 IH|];
    intros R s c k x H; cbn [run] in H.
  - exists EmptyString, s, c. repeat split; [constructor | assumption].
  - destruct s as [|b t]; [discriminate|].
    destruct (Ascii.eqb a b) eqn:E; [|discriminate]. apply Ascii.eqb_eq in E. subst b.
    exists (String a EmptyString), t, c. repeat split; [constructor | assumption].
  - destruct s as [|b t]; [discriminate|]. destruct (p b) eqn:E; [|discriminate].
    exists (String b EmptyString), t, c. repeat split; [now constructor | assumption].
  - destruct (IHa _ _ _ _ _ H) as (w1 & rest1 & c1 & -> & Hm1 & Hk1).
    destruct (IHb _ _ _ _ _ Hk1) as (w2 & rest2 & c2 & -> & Hm2 & Hk2).
    exists (w1 ++ w2)%string, rest2, c2. rewrite append_assoc.
    repeat split; [| assumption]. now apply MSeq with (c1 := c1).
  - apply orelse_some in H. destruct H as [H|[_ H]].
    + destruct (IHa _ _ _ _ _ H) as (w & rest & c1 & -> & Hm & Hk).
      exists w, rest, c1. repeat split; [now apply MAltL | assumption].
    + destruct (IHb _ _ _ _ _ H) as (w & rest & c1 & -> & Hm & Hk).
      exists w, rest, c1. repeat split; [now apply MAltR | assumption].
  - apply (star_loop_sound r1) in H; [assumption|].
    intros s0 c0 k0 x0 H0. now apply IH.
  - apply (lazy_loop_sound r1) in H; [assumption|].
    intros s0 c0 k0 x0 H0. now apply IH.
  - destruct (IH _ _ _ _ _ H) as (w & rest & c1 & -> & Hm & Hk).
    rewrite substring_prefix in Hk.
    exists w, rest, ((n, w) :: c1). repeat split; [now constructor | assumption].
  - destruct (run r1 s c (fun _ c1 => Some c1)) as [c1|] eqn:E; [|discriminate].
    destruct (IH _ _ _ _ _ E) as (w & rest & c2 & -> & Hm & Hk).
    injection Hk as ->.
    exists EmptyString, (w ++ rest)%string, c1.
    repeat split; [now constructor | assumption].
  - destruct s; [|discriminate].
    exists EmptyString, EmptyString, c. repeat split; [constructor | assumption].
Qed.

(** *** The continuation is only called on suffixes *)

Lemma star_loop_ext {R : Type} (body : string -> caps -> cont R -> option R) :
  local_body body ->
  forall fuel s c k k',
    (forall s1 c1, length s1 <= length s -> k s1 c1 = k' s1 c1) ->
    star_loop body k fuel s c = star_loop body k' fuel s c.
Proof.
  intros Hbody. induction fuel as [|f IH]; intros s c k k' Hk; cbn [star_loop].
  - apply Hk. lia.
  - rewrite (Hk s c (le_n _)). f_equal. apply Hbody. intros s1 c1 L1.
    destruct (length s1 <? length s) eqn:E; [|reflexivity].
    apply IH. intros s2 c2 L2. apply Hk. lia.
Qed.

Lemma lazy_loop_ext {R : Type} (body : string -> caps -> cont R -> option R) :
  local_body body ->
  forall fuel s c k k',
    (forall s1 c1, length s1 <= length s -> k s1 c1 = k' s1 c1) ->
    lazy_loop body k fuel s c = lazy_loop body k' fuel s c.
Proof.
  intros Hbody. induction fuel as [|f IH]; intros s c k k' Hk; cbn [lazy_loop].
  - apply Hk. lia.
  - rewrite (Hk s c (le_n _)). f_equal. apply Hbody. intros s1 c1 L1.
    destruct (length s1 <? length s) eqn:E; [|reflexivity].
    apply IH. intros s2 c2 L2. apply Hk. lia.
Qed.

Lemma run_ext (r : re) :
  forall (R : Type) (s : string) (c : caps) (k k' : cont R),
    (forall s1 c1, length s1 <= length s -> k s1 c1 = k' s1 c1) ->
    run r s c k = run r s c k'.
Proof.
  induction r as [|a|p|a IHa b IHb|a IHa b IHb|r1 IH|r1 IH|n r1 IH|r1 IH|];
    intros R s c k k' Hk; cbn [run].
  - apply Hk. lia.
  - destruct s as [|b t]; [reflexivity|]. destruct (Ascii.eqb a b); [|reflexivity].
    apply Hk. simpl. lia.
  - destruct s as [|b t]; [reflexivity|]. destruct (p b); [|reflexivity].
    apply Hk. simpl. lia.
  - apply IHa. intros s1 c1 L1. apply IHb. intros s2 c2 L2. apply Hk. lia.
  - now rewrite (IHa _ _ _ k k'), (IHb _ _ _ k k').
  - apply star_loop_ext; [|assumption]. intros s0 c0 k0 k0' H0. now apply IH.
  - apply lazy_loop_ext; [|assumption]. intros s0 c0 k0 k0' H0. now apply IH.
  - apply IH. intros s1 c1 L1. now apply Hk.
  - destruct (run r1 s c (fun _ c1 => Some c1)); [|reflexivity]. apply Hk. lia.
  - destruct s; [|reflexivity]. apply Hk. lia.
Qed.

(** the fuel of a repetition is never exhausted *)
Lemma star_loop_fuel {R : Type} (body : string -> caps -> cont R -> option R)
  (k : cont R) :
  local_body body ->
  forall f1 f2 s c, length s < f1 -> length s < f2 ->
    star_loop body k f1 s c = star_loop body k f2 s c.
Proof.
  intros Hbody. induction f1 as [|f1 IH]; intros f2 s c H1 H2; [lia|].
  destruct f2 as [|f2]; [lia|]. cbn [star_loop]. f_equal.
  apply Hbody. intros s1 c1 L1.
  destruct (length s1 <? length s) eqn:E; [|reflexivity].
  apply Nat.ltb_lt in E. apply IH; lia.
Qed.

Lemma lazy_loop_fuel {R : Type} (body : string -> caps -> cont R -> option R)
  (k : cont R) :
  local_body body ->
  forall f1 f2 s c, length s < f1 -> length s < f2 ->
    lazy_loop body k f1 s c = lazy_loop body k f2 s c.
Proof.
  intros Hbody. induction f1 as [|f1 IH]; intros f2 s c H1 H2; [lia|].
  destruct f2 as [|f2]; [lia|]. cbn [lazy_loop]. f_equal.
  apply Hbody. intros s1 c1 L1.
  destruct (length s1 <? length s) eqn:E; [|reflexivity].
  apply Nat.ltb_lt in E. apply IH; lia.
Qed.

Lemma run_local (r : re) (R : Type) :
  local_body (fun s0 c0 (k0 : cont R) => run r s0 c0 k0).
Proof. intros s c k k' H. now apply run_ext. Qed.

(** *** Completeness: a match that the continuation accepts is not missed *)

Lemma orelse_not_none_l {R : Type} (a b : option R) : a <> None -> orelse a b <> None.
Proof. destruct a; simpl; congruence. Qed.

Lemma orelse_not_none_r {R : Type} (a b : option R) : b <> None -> orelse a b <> None.
Proof. destruct a; simpl; congruence. Qed.

Lemma run_complete (r : re) (w rest : string) (c c1 : caps) :
  matches r w rest c c1 ->
  forall (R : Type) (k : cont R) (c0 : caps),
    (forall c', k rest c' <> None) ->
    run r (w ++ rest)%string c0 k <> None.
Proof.
  intros H.
  induction H as
    [rest c|a rest c|p a rest c Hp|a b w1 w2 rest c c1 c2 H1 IH1 H2 IH2
    |a b w rest c c1 H1 IH1|a b w rest c c1 H1 IH1
    |r rest c|r w1 w2 rest c c1 c2 Hne H1 IH1 H2 IH2
    |r rest c|r w1 w2 rest c c1 c2 Hne H1 IH1 H2 IH2
    |n r w rest c c1 H1 IH1|r w rest c c1 H1 IH1|c];
    intros R k c0 Hk.
  - simpl. apply Hk.
  - cbn [run append]. rewrite Ascii.eqb_refl. apply Hk.
  - cbn [run append]. rewrite Hp. apply Hk.
  - rewrite append_assoc. cbn [run]. apply IH1. intros c'. now apply IH2.
  - cbn [run]. apply orelse_not_none_l. now apply IH1.
  - cbn [run]. apply orelse_not_none_r. now apply IH1.
  - cbn [run append star_loop]. apply orelse_not_none_r. apply Hk.
  - rewrite append_assoc. cbn [run star_loop]. apply orelse_not_none_l.
    apply IH1. intros c'.
    pose proof (nonempty_longer w1 (w2 ++ rest)%string Hne) as L.
    apply Nat.ltb_lt in L. rewrite L.
    rewrite (star_loop_fuel _ k (run_local r R) _ (S (length (w2 ++ rest)%string)));
      [| apply Nat.ltb_lt in L; lia | lia].
    specialize (IH2 R k c' Hk). cbn [run] in IH2. exact IH2.
  - cbn [run append lazy_loop]. apply orelse_not_none_l. apply Hk.
  - rewrite append_assoc. cbn [run lazy_loop]. apply orelse_not_none_r.
    apply IH1. intros c'.
    pose proof (nonempty_longer w1 (w2 ++ rest)%string Hne) as L.
    apply Nat.ltb_lt in L. rewrite L.
    rewrite (lazy_loop_fuel _ k (run_local r R) _ (S (length (w2 ++ rest)%string)));
      [| apply Nat.ltb_lt in L; lia | lia].
    specialize (IH2 R k c' Hk). cbn [run] in IH2. exact IH2.
  - cbn [run]. apply IH1. intros c'. apply Hk.
  - cbn [run append].
    destruct (run r (w ++ rest)%string c0 (fun _ c2 => Some c2)) as [c2|] eqn:E.
    + apply Hk.
    + exfalso. apply (IH1 caps (fun _ c2 => Some c2) c0); [discriminate | exact E].
  - simpl. apply Hk.
Qed.

(** *** Captures come from groups *)

Lemma matches_caps (r : re) (w rest : string) (c c1 : caps) :
  matches r w rest c c1 ->
  exists new,
    c1 = new ++ c
    /\ forall n v, In (n, v) new ->
         exists r1, In (n, r1) (groups r) /\ in_lang r1 v.
Proof.
  intros H.
  induction H as
    [rest c|a rest c|p a rest c Hp|a b w1 w2 rest c c1 c2 H1 IH1 H2 IH2
    |a b w rest c c1 H1 IH1|a b w rest c c1 H1 IH1
    |r rest c|r w1 w2 rest c c1 c2 Hne H1 IH1 H2 IH2
    |r rest c|r w1 w2 rest c c1 c2 Hne H1 IH1 H2 IH2
    |n r w rest c c1 H1 IH1|r w rest c c1 H1 IH1|c];
    try (exists []; split; [reflexivity | intros n v []]).
  - destruct IH1 as (n1 & -> & F1). destruct IH2 as (n2 & -> & F2).
    exists (n2 ++ n1). split; [now rewrite app_assoc|].
    intros n v Hin. apply in_app_or in Hin. simpl.
    destruct Hin as [Hin|Hin];
      [destruct (F2 _ _ Hin) as (r1 & G & L) | destruct (F1 _ _ Hin) as (r1 & G & L)];
      exists r1; split; auto; apply in_or_app; auto.
  - destruct IH1 as (n1 & -> & F1). exists n1. split; [reflexivity|].
    intros n v Hin. destruct (F1 _ _ Hin) as (r1 & G & L).
    exists r1. split; auto. simpl. apply in_or_app; auto.
  - destruct IH1 as (n1 & -> & F1). exists n1. split; [reflexivity|].
    intros n v Hin. destruct (F1 _ _ Hin) as (r1 & G & L).
    exists r1. split; auto. simpl. apply in_or_app; auto.
  - destruct IH1 as (n1 & -> & F1). destruct IH2 as (n2 & -> & F2).
    exists (n2 ++ n1). split; [now rewrite app_assoc|].
    intros n v Hin. apply in_app_or in Hin. simpl.
    destruct Hin as [Hin|Hin]; [now apply F2 | now apply F1].
  - destruct IH1 as (n1 & -> & F1). destruct IH2 as (n2 & -> & F2).
    exists (n2 ++ n1). split; [now rewrite app_assoc|].
    intros n v Hin. apply in_app_or in Hin. simpl.
    destruct Hin as [Hin|Hin]; [now apply F2 | now apply F1].
  - destruct IH1 as (n1 & -> & F1). exists ((n, w) :: n1). split; [reflexivity|].
    intros n0 v [Hin|Hin].
    + injection Hin as <- <-. exists r. split; [now left|].
      now exists rest, c, (n1 ++ c).
    + destruct (F1 _ _ Hin) as (r1 & G & L). exists r1. split; auto. now right.
  - destruct IH1 as (n1 & -> & F1). exists n1. split; [reflexivity|]. exact F1.
Qed.

Lemma lookup_In (n : nat) (c : caps) (v : string) :
  lookup n c = Some v -> In (n, v) c.
Proof.
  induction c as [|[m u] t IH]; simpl; [discriminate|].
  destruct (n =? m) eqn:E.
  - apply Nat.eqb_eq in E. subst. intros H. injection H as ->. now left.
  - intros H. right. now apply IH.
Qed.

(** *** The drivers *)

Lemma at_front_sound (r : re) (i : nat) (s : string) (m : mres) :
  at_front r i s = Some m ->
  s = (m_text m ++ m_rest m)%string /\ m_index m = i
  /\ matches r (m_text m) (m_rest m) [] (m_caps m).
Proof.
  unfold at_front. intros H.
  destruct (run_sound r _ _ _ _ _ H) as (w & rest & c1 & -> & Hm & Hk).
  rewrite substring_prefix in Hk. injection Hk as <-. simpl. auto.
Qed.

Lemma search_sound (r : re) (s : string) :
  forall i m, search r i s = Some m ->
    exists pre,
      s = (pre ++ m_text m ++ m_rest m)%string /\ m_index m = i + length pre
      /\ matches r (m_text m) (m_rest m) [] (m_caps m)
      /\ at_front r (m_index m) (m_text m ++ m_rest m)%string = Some m.
Proof.
  induction s as [|a t IH]; intros i m H; cbn [search] in H.
  - destruct (at_front r i EmptyString) as [m0|] eqn:E; [|discriminate].
    injection H as <-. destruct (at_front_sound _ _ _ _ E) as (Hs & Hi & Hm).
    exists EmptyString. simpl. rewrite Nat.add_0_r, <- Hs, Hi. auto.
  - destruct (at_front r i (String a t)) as [m0|] eqn:E.
    + injection H as <-. destruct (at_front_sound _ _ _ _ E) as (Hs & Hi & Hm).
      exists EmptyString. simpl. rewrite Nat.add_0_r, <- Hs, Hi. auto.
    + destruct (IH _ _ H) as (pre & Hs & Hi & Hm & Ha).
      exists (String a pre). simpl. rewrite <- Hs. repeat split; auto. lia.
Qed.

(** the captures of a match found by [search] *)
Lemma search_cap (r : re) (s : string) (i : nat) (m : mres) (n : nat) (v : string) :
  search r i s = Some m -> cap m n = Some v ->
  exists r1, In (n, r1) (groups r) /\ in_lang r1 v.
Proof.
  intros H Hc. destruct (search_sound r s i m H) as (pre & _ & _ & Hm & _).
  destruct (matches_caps _ _ _ _ _ Hm) as (new & Hnew & F).
  rewrite app_nil_r in Hnew. subst new.
  apply F. now apply lookup_In.
Qed.

Lemma exec_loop_In (r : re) :
  forall fuel i s m, In m (exec_loop fuel r i s) ->
    exists j s', search r j s' = Some m.
Proof.
  induction fuel as [|f IH]; intros i s m H; cbn [exec_loop] in H; [contradiction|].
  destruct (search r i s) as [m0|] eqn:E; [|contradiction].
  destruct (length (m_rest m0) <? length s).
  - destruct H as [<-|H]; [now exists i, s | now apply IH in H].
  - destruct H as [<-|[]]. now exists i, s.
Qed.

(** the captures of the matches a global [exec] loop finds *)
Lemma exec_all_cap (r : re) (s : string) (m : mres) (n : nat) (v : string) :
  In m (exec_all r s) -> cap m n = Some v ->
  exists r1, In (n, r1) (groups r) /\ in_lang r1 v.
Proof.
  intros H Hc. apply exec_loop_In in H. destruct H as (j & s' & H).
  now apply (search_cap r s' j m).
Qed.

(** *** Small languages *)

Lemma lit_lang (u w : string) : in_lang (lit u) w -> w = u.
Proof.
  revert w. induction u as [|a t IH]; intros w (rest & c & c1 & H).
  - inversion H; reflexivity.
  - destruct t as [|b t].
    + inversion H; reflexivity.
    + change (lit (String a (String b t))) with (Seq (Chr a) (lit (String b t))) in H.
      inversion H as [| | |? ? w1 w2 ? ? c2 ? H1 H2| | | | | | | | |]; subst.
      inversion H1; subst. simpl. f_equal. apply IH. now exists rest, c2, c1.
Qed.

Lemma star_cls_lang (p : ascii -> bool) (w : string) :
  in_lang (Star (Cls p)) w -> all_chars p w = true.
Proof.
  intros (rest & c & c1 & H).
  remember (Star (Cls p)) as r eqn:Er.
  induction H as
    [| | | | | | |r0 w1 w2 rest c c1 c2 Hne H1 IH1 H2 IH2| | | | |];
    try discriminate; [reflexivity|].
  injection Er as ->.
  inversion H1 as [| |? a ? ? Hp| | | | | | | | | |]; subst. simpl.
  rewrite Hp. now apply IH2.
Qed.

Lemma plus_cls_lang (p : ascii -> bool) (w : string) :
  in_lang (plus (Cls p)) w ->
  exists a t, w = String a t /\ p a = true /\ all_chars p t = true.
Proof.
  intros (rest & c & c1 & H). unfold plus in H.
  inversion H as [| | |? ? w1 w2 ? ? c2 ? H1 H2| | | | | | | | |]; subst.
  inversion H1; subst. exists a, w2. repeat split; auto.
  apply star_cls_lang. now exists rest, c2, c1.
Qed.

Lemma plus_cls_nonempty (p : ascii -> bool) (w : string) :
  in_lang (plus (Cls p)) w -> JsString.truthy w = true /\ all_chars p w = true.
Proof.
  intros H. destruct (plus_cls_lang p w H) as (a & t & -> & Ha & Ht).
  split; [reflexivity|]. simpl. now rewrite Ha, Ht.
Qed.

Lemma alt_lang (a b : re) (w : string) :
  in_lang (Alt a b) w -> in_lang a w \/ in_lang b w.
Proof.
  intros (rest & c & c1 & H). inversion H; subst;
    [left | right]; now exists rest, c, c1.
Qed.

Lemma seq_lang (a b : re) (w : string) :
  in_lang (Seq a b) w ->
  exists w1 w2, w = (w1 ++ w2)%string /\ in_lang a w1 /\ in_lang b w2.
Proof.
  intros (rest & c & c1 & H).
  inversion H as [| | |? ? w1 w2 ? ? c2 ? H1 H2| | | | | | | | |]; subst.
  exists w1, w2. repeat split; [now exists (w2 ++ rest)%string, c, c2 | now exists rest, c2, c1].
Qed.

(** a match does not depend on the captures it starts from *)
Lemma matches_rebase (r : re) (w rest : string) (c c1 : caps) :
  matches r w rest c c1 -> forall c', exists c1', matches r w rest c' c1'.
Proof.
  intros H.
  induction H as
    [rest c|a rest c|p a rest c Hp|a b w1 w2 rest c c1 c2 H1 IH1 H2 IH2
    |a b w rest c c1 H1 IH1|a b w rest c c1 H1 IH1
    |r rest c|r w1 w2 rest c c1 c2 Hne H1 IH1 H2 IH2
    |r rest c|r w1 w2 rest c c1 c2 Hne H1 IH1 H2 IH2
    |n r w rest c c1 H1 IH1|r w rest c c1 H1 IH1|c];
    intros c'.
  - exists c'. constructor.
  - exists c'. constructor.
  - exists c'. now constructor.
  - destruct (IH1 c') as [d1 D1]. destruct (IH2 d1) as [d2 D2].
    exists d2. now apply MSeq with (c1 := d1).
  - destruct (IH1 c') as [d1 D1]. exists d1. now apply MAltL.
  - destruct (IH1 c') as [d1 D1]. exists d1. now apply MAltR.
  - exists c'. constructor.
  - destruct (IH1 c') as [d1 D1]. destruct (IH2 d1) as [d2 D2].
    exists d2. now apply MStarS with (c1 := d1).
  - exists c'. constructor.
  - destruct (IH1 c') as [d1 D1]. destruct (IH2 d1) as [d2 D2].
    exists d2. now apply MLazyS with (c1 := d1).
  - destruct (IH1 c') as [d1 D1]. exists ((n, w) :: d1). now constructor.
  - destruct (IH1 c') as [d1 D1]. exists d1. now constructor.
  - exists c'. constructor.
Qed.

Lemma lookup_app_some (n : nat) (new c : caps) (v : string) :
  lookup n c = Some v -> exists v', lookup n (new ++ c) = Some v'.
Proof.
  intros H. induction new as [|[m u] t IH]; simpl; [now exists v|].
  destruct (n =? m); [now exists u | assumption].
Qed.

(** a group that takes part in every match is set by the match *)
Lemma matches_sets (n : nat) (r : re) (w rest : string) (c c1 : caps) :
  matches r w rest c c1 -> sets n r = true -> exists v, lookup n c1 = Some v.
Proof.
  intros H.
  induction H as
    [rest c|a rest c|p a rest c Hp|a b w1 w2 rest c c1 c2 H1 IH1 H2 IH2
    |a b w rest c c1 H1 IH1|a b w rest c c1 H1 IH1
    |r rest c|r w1 w2 rest c c1 c2 Hne H1 IH1 H2 IH2
    |r rest c|r w1 w2 rest c c1 c2 Hne H1 IH1 H2 IH2
    |n0 r w rest c c1 H1 IH1|r w rest c c1 H1 IH1|c];
    cbn [sets]; intros Hs; try discriminate.
  - apply orb_true_iff in Hs. destruct Hs as [Hs|Hs].
    + destruct (IH1 Hs) as [v Hv].
      destruct (matches_caps _ _ _ _ _ H2) as (new & -> & _).
      now apply lookup_app_some with (v := v).
    + now apply IH2.
  - apply andb_true_iff in Hs. now apply IH1.
  - apply andb_true_iff in Hs. now apply IH1.
  - simpl. destruct (n =? n0) eqn:E; [now exists w|].
    simpl in Hs. now apply IH1.
Qed.

(** the text of a group that takes part in every match *)
Lemma search_capd (r : re) (s : string) (i : nat) (m : mres) (n : nat) :
  search r i s = Some m -> sets n r = true ->
  exists r1, In (n, r1) (groups r) /\ in_lang r1 (capd m n).
Proof.
  intros H Hs. destruct (search_sound r s i m H) as (pre & _ & _ & Hm & _).
  destruct (matches_sets n _ _ _ _ _ Hm Hs) as [v Hv].
  unfold capd, cap. rewrite Hv. apply (search_cap r s i m n v H). exact Hv.
Qed.

Lemma exec_all_capd (r : re) (s : string) (m : mres) (n : nat) :
  In m (exec_all r s) -> sets n r = true ->
  exists r1, In (n, r1) (groups r) /\ in_lang r1 (capd m n).
Proof.
  intros H Hs. apply exec_loop_In in H. destruct H as (j & s' & H).
  now apply (search_capd r s' j m).
Qed.

(** *** Building matches *)

Lemma matches_lit (u rest : string) (c : caps) : matches (lit u) u rest c c.
Proof.
  revert rest. induction u as [|a t IH]; intros rest; [constructor|].
  destruct t as [|b t]; [constructor|].
  change (lit (String a (String b t))) with (Seq (Chr a) (lit (String b t))).
  change (String a (String b t)) with (String a EmptyString ++ String b t)%string.
  apply MSeq with (c1 := c); [constructor | apply IH].
Qed.

Lemma matches_star_cls (p : ascii -> bool) (u rest : string) (c : caps) :
  all_chars p u = true -> matches (Star (Cls p)) u rest c c.
Proof.
  revert rest. induction u as [|a t IH]; intros rest Hu; [constructor|].
  simpl in Hu. apply andb_true_iff in Hu. destruct Hu as [Ha Ht].
  change (String a t) with (String a EmptyString ++ t)%string.
  apply MStarS with (c1 := c); [discriminate | now constructor | now apply IH].
Qed.

Lemma matches_plus_cls (p : ascii -> bool) (a : ascii) (u rest : string)
  (c : caps) :
  p a = true -> all_chars p u = true ->
  matches (plus (Cls p)) (String a u) rest c c.
Proof.
  intros Ha Hu. unfold plus.
  change (String a u) with (String a EmptyString ++ u)%string.
  apply MSeq with (c1 := c); [now constructor | now apply matches_star_cls].
Qed.

Lemma matches_nogroups (r : re) (w rest : string) (c c1 : caps) :
  matches r w rest c c1 -> groups r = [] -> c1 = c.
Proof.
  intros H Hg. destruct (matches_caps _ _ _ _ _ H) as (new & -> & F).
  destruct new as [|[n v] t]; [reflexivity|].
  destruct (F n v (or_introl eq_refl)) as (r1 & Hin & _).
  rewrite Hg in Hin. destruct Hin.
Qed.

(** the greedy star of a character class: one more character first *)
Lemma star_cls_cons {R : Type} (p : ascii -> bool) (a : ascii) (t : string)
  (c : caps) (k : cont R) :
  run (Star (Cls p)) (String a t) c k
  = if p a then orelse (run (Star (Cls p)) t c k) (k (String a t) c)
    else k (String a t) c.
Proof.
  cbn [run star_loop]. destruct (p a); [|reflexivity].
  assert ((length t <? length (String a t)) = true) as ->
    by (apply Nat.ltb_lt; simpl; lia).
  reflexivity.
Qed.

Lemma star_cls_nil {R : Type} (p : ascii -> bool) (c : caps) (k : cont R) :
  run (Star (Cls p)) EmptyString c k = k EmptyString c.
Proof. reflexivity. Qed.

Lemma star_cls_accepts {R : Type} (p : ascii -> bool) (s : string) (c : caps)
  (k : cont R) :
  k s c <> None -> run (Star (Cls p)) s c k <> None.
Proof.
  intros H. destruct s as [|a t]; [exact H|].
  rewrite star_cls_cons. destruct (p a); [now apply orelse_not_none_r | exact H].
Qed.

Lemma in_lang_intro (r : re) (w rest : string) (c c1 : caps) :
  matches r w rest c c1 -> in_lang r w.
Proof. intros H. now exists rest, c, c1. Qed.

Lemma word_lang (first others : ascii -> bool) (w : string) :
  in_lang (Seq (Cls first) (Star (Cls others))) w -> word_of first others w.
Proof.
  intros H. apply seq_lang in H. destruct H as (w1 & w2 & -> & H1 & H2).
  destruct H1 as (rest & c & c1 & H1). inversion H1; subst.
  exists a, w2. repeat split; auto. now apply star_cls_lang.
Qed.

End RegexSemFacts.

(** ** More on strings *)

Module StringFacts.
Import JsString Regex RegexSpec RegexFacts.

Lemma split_hd (sep : ascii) (s : string) :
  exists params, split sep s = hd EmptyString (split sep s) :: params.
Proof.
  destruct (split sep s) as [|h r] eqn:E; [now apply split_nonempty in E|].
  now exists r.
Qed.

Lemma split_single (sep : ascii) (s x : string) :
  split sep s = [x] -> s = x.
Proof.
  revert x. induction s as [|c t IH]; simpl; intros x H.
  - now injection H.
  - destruct (Ascii.eqb c sep) eqn:E;
      [injection H as _ H; now apply split_nonempty in H|].
    destruct (split sep t) as [|h r] eqn:E1; [now apply split_nonempty in E1|].
    injection H as <- ->. now rewrite (IH h eq_refl).
Qed.

(** joining what [split] returns gives the string back *)
Lemma concat_split (sep : ascii) (s : string) :
  concat (str1 sep) (split sep s) = s.
Proof.
  induction s as [|c t IH]; [reflexivity|]. cbn [split].
  destruct (split sep t) as [|h r] eqn:E; [now apply split_nonempty in E|].
  destruct (Ascii.eqb c sep) eqn:Ec.
  - apply Ascii.eqb_eq in Ec. subst c.
    change (concat (str1 sep) (EmptyString :: h :: r))
      with (String sep (concat (str1 sep) (h :: r))).
    now rewrite IH.
  - destruct r as [|h2 r].
    + cbn [concat] in *. now rewrite IH.
    + change (concat (str1 sep) (String c h :: h2 :: r))
        with (String c (concat (str1 sep) (h :: h2 :: r))).
      now rewrite IH.
Qed.

Lemma prefix_append (s t : string) : prefix s (s ++ t) = true.
Proof.
  induction s as [|c s IH]; simpl; [destruct t; reflexivity|].
  destruct (ascii_dec c c); [exact IH | congruence].
Qed.

Lemma substring_all (s t : string) :
  substring 0 (length s) (s ++ t) = s.
Proof.
  induction s as [|c s IH]; simpl; [destruct t; reflexivity | now rewrite IH].
Qed.

Lemma substring_skip (s t : string) (n : nat) :
  substring (length s) n (s ++ t) = substring 0 n t.
Proof. induction s as [|c s IH]; simpl; [reflexivity | exact IH]. Qed.

Lemma all_chars_impl (p q : ascii -> bool) (u : string) :
  (forall a, p a = true -> q a = true) ->
  all_chars p u = true -> all_chars q u = true.
Proof.
  intros Hpq. induction u as [|a t IH]; simpl; [reflexivity|].
  intros H. apply andb_true_iff in H. destruct H as [Ha Ht].
  now rewrite (Hpq a Ha), (IH Ht).
Qed.

(** the first occurrence of a text behind characters that cannot start it *)
Lemma index_skip (c : ascii) (pat pre rest : string) :
  all_chars (fun a => negb (Ascii.eqb a c)) pre = true ->
  index 0 (String c pat) (pre ++ String c (pat ++ rest)) = Some (length pre).
Proof.
  intros Hpre. induction pre as [|b pre IH].
  - cbn [append length index].
    change (String c (pat ++ rest)) with (String c pat ++ rest)%string.
    now rewrite prefix_append.
  - simpl in Hpre. apply andb_true_iff in Hpre. destruct Hpre as [Hb Hpre].
    cbn [append index prefix length].
    destruct (ascii_dec c b) as [->|_].
    + rewrite Ascii.eqb_refl in Hb. discriminate.
    + now rewrite (IH Hpre).
Qed.

End StringFacts.

(** ** Form requests *)

Module RequestFacts.
Import JsString Regex RegexSpec RegexFacts RegexSem RegexSemFacts Requests RequestSpec.

Lemma word_not_paren (a : ascii) : is_word a = true -> not_paren a = true.
Proof.
  destruct a as [[] [] [] [] [] [] [] []]; try reflexivity; discriminate.
Qed.

(** a match of the typed parameter: a word, [Request], and the rest *)
Lemma typed_parameter_inv (s : string) (c : caps) (k : cont mres) (m : mres) :
  (forall s1 c1 x, k s1 c1 = Some x -> m_caps x = c1) ->
  run (seqs typed_parameter) s c k = Some m ->
  exists a u w2 rest,
    s = (String a (u ++ "Request") ++ w2 ++ rest)%string
    /\ is_word a = true /\ all_chars is_word u = true
    /\ capd m 1 = (String a (u ++ "Request"))%string
    /\ in_lang (seqs [ws1; Chr "$"; word1]) w2
    /\ (exists c' c'', matches (seqs [ws1; Chr "$"; word1]) w2 rest c' c'').
Proof.
  intros Hk H.
  destruct (run_sound _ _ _ _ _ _ H) as (w & rest & c1 & -> & Hm & Hx).
  apply Hk in Hx. unfold typed_parameter in Hm. cbn [seqs] in Hm.
  inversion Hm as [| | |? ? w1 w2 ? ? c2 ? H1 H2| | | | | | | | |]; subst.
  inversion H1 as [| | | | | | | | | |? ? ? ? ? c3 H3| |]; subst.
  pose proof (matches_nogroups _ _ _ _ _ H3 eq_refl) as ->.
  pose proof (matches_nogroups _ _ _ _ _ H2 eq_refl) as Hc.
  pose proof (in_lang_intro _ _ _ _ _ H3) as L3.
  apply seq_lang in L3. destruct L3 as (u1 & u2 & -> & L1 & L2).
  apply (lit_lang "Request") in L2. subst u2.
  apply plus_cls_lang in L1. destruct L1 as (a & u & -> & Ha & Hu).
  exists a, u, w2, rest. rewrite append_assoc. repeat split; auto.
  - unfold capd, cap. rewrite Hc. simpl. reflexivity.
  - now apply in_lang_intro in H2.
  - eauto.
Qed.

(** a longer word in front of [Request] leaves a match one character later *)
Lemma typed_parameter_later (b : ascii) (u w2 rest : string) (c0 c' c'' : caps)
  (k : cont mres) :
  is_word b = true -> all_chars is_word u = true ->
  matches (seqs [ws1; Chr "$"; word1]) w2 rest c' c'' ->
  (forall s1 c1, k s1 c1 <> None) ->
  run (seqs typed_parameter) (String b (u ++ "Request") ++ w2 ++ rest)%string c0 k
  <> None.
Proof.
  intros Hb Hu Ht Hk.
  destruct (matches_rebase _ _ _ _ _ Ht ((1, String b (u ++ "Request")%string) :: c0))
    as [d Hd].
  rewrite <- append_assoc.
  apply (run_complete (seqs typed_parameter)
           (String b (u ++ "Request") ++ w2)%string rest c0 d); [| intros; apply Hk].
  unfold typed_parameter. cbn [seqs].
  apply MSeq with (c1 := (1, String b (u ++ "Request")%string) :: c0); [| exact Hd].
  constructor.
  change (String b (u ++ "Request"))%string
    with (String b u ++ "Request")%string.
  apply MSeq with (c1 := c0).
  - now apply matches_plus_cls.
  - apply (matches_lit "Request").
Qed.

(** the greedy parameter text leaves one character to the request type *)
Lemma greedy_leaves_one (k : cont mres) :
  (forall s1 c1 x, k s1 c1 = Some x -> m_caps x = c1) ->
  (forall s1 c1, k s1 c1 <> None) ->
  forall s c m,
    run (Star (Cls not_paren)) s c
      (fun s1 c1 => run (seqs typed_parameter) s1 c1 k) = Some m ->
    exists a, capd m 1 = String a "Request" /\ is_word a = true.
Proof.
  intros Hcaps Hk. induction s as [|a t IH]; intros c m H.
  - rewrite star_cls_nil in H.
    destruct (typed_parameter_inv _ _ _ _ Hcaps H) as (b & u & w2 & rest & Hs & _).
    discriminate.
  - rewrite star_cls_cons in H.
    assert (run (seqs typed_parameter) (String a t) c k = Some m ->
            run (Star (Cls not_paren)) t c
              (fun s1 c1 => run (seqs typed_parameter) s1 c1 k) = None ->
            exists a0, capd m 1 = String a0 "Request" /\ is_word a0 = true) as Hhere.
    { intros H1 Hnone.
      destruct (typed_parameter_inv _ _ _ _ Hcaps H1)
        as (b & u & w2 & rest & Hs & Hb & Hu & Hcap & _ & (c' & c'' & Ht)).
      injection Hs as <- ->.
      destruct u as [|b2 u2].
      - exists a. split; assumption.
      - exfalso. simpl in Hu. apply andb_true_iff in Hu. destruct Hu as [Hb2 Hu2].
        apply (star_cls_accepts not_paren
                 (String b2 (u2 ++ "Request") ++ w2 ++ rest)%string c
                 (fun s1 c1 => run (seqs typed_parameter) s1 c1 k));
          [| exact Hnone].
        now apply (typed_parameter_later b2 u2 w2 rest c c' c''). }
    destruct (not_paren a) eqn:Ea.
    + apply orelse_some in H. destruct H as [H|[Hnone H]].
      * now apply (IH c m).
      * now apply Hhere.
    + destruct (typed_parameter_inv _ _ _ _ Hcaps H)
        as (b & u & w2 & rest & Hs & Hb & _).
      injection Hs as <- _. apply word_not_paren in Hb. congruence.
Qed.

Lemma run_seqs_peel {R : Type} (r : re) (l : list re) (s : string) (c : caps)
  (k : cont R) (x : R) :
  run (seqs (r :: l)) s c k = Some x ->
  exists s1 c1, run (seqs l) s1 c1 k = Some x.
Proof.
  rewrite run_seqs_cons. intros H.
  destruct (run_sound _ _ _ _ _ _ H) as (w & rest & c1 & _ & _ & Hk).
  now exists rest, c1.
Qed.

Lemma signature_capture (line : string) (m : mres) :
  js_match re_signature line = Some m ->
  exists a, capd m 1 = String a "Request" /\ is_word a = true.
Proof.
  unfold js_match. intros H.
  destruct (search_sound _ _ _ _ H) as (pre & _ & _ & _ & Ha).
  unfold at_front, re_signature in Ha.
  apply run_seqs_peel in Ha. destruct Ha as (s1 & c1 & Ha).
  apply run_seqs_peel in Ha. destruct Ha as (s2 & c2 & Ha).
  apply run_seqs_peel in Ha. destruct Ha as (s3 & c3 & Ha).
  apply run_seqs_peel in Ha. destruct Ha as (s4 & c4 & Ha).
  apply run_seqs_peel in Ha. destruct Ha as (s5 & c5 & Ha).
  rewrite run_seqs_cons in Ha.
  eapply greedy_leaves_one; [| | exact Ha].
  - intros t1 d1 x Hx. injection Hx as <-. reflexivity.
  - intros t1 d1. discriminate.
Qed.

Lemma inferred_request_shape (lines : list string) (i : nat) (t : string) :
  inferRequestTypeFromMethod lines i = Returns (Some t) ->
  exists a, t = String a "Request" /\ is_word a = true.
Proof.
  induction i as [|j IH]; cbn [inferRequestTypeFromMethod];
    destruct (nth_error lines _) as [line|]; try discriminate;
    destruct (js_match re_signature line) as [m|] eqn:E.
  - intros H. injection H as <-. now apply (signature_capture line).
  - destruct (declaresFunction line); discriminate.
  - intros H. injection H as <-. now apply (signature_capture line).
  - destruct (declaresFunction line); [discriminate | exact IH].
Qed.

(** X3: whatever the document, the request type [inferRequestTypeFromMethod]
    reports is one word character followed by [Request]: the parameter text
    before it is matched greedily and leaves the type pattern a single
    character of the class name. *)
Theorem X3_inferred_request_type (lines : list string) (i : nat) (t : string) :
  inferRequestTypeFromMethod lines i = Returns (Some t) ->
  exists a, t = String a "Request" /\ is_word a = true.
Proof.
  intros H. destruct (inferred_request_shape lines i t H) as (a & Ht & Ha).
  exists a. split; assumption.
Qed.

Lemma X3_store_method_scenario :
  inferRequestTypeFromMethod storeMethod 2 = Returns (Some "rRequest")
  /\ exists a, "rRequest" = String a "Request" /\ is_word a = true.
Proof.
  split; [vm_compute; reflexivity|].
  apply (X3_inferred_request_type storeMethod 2). vm_compute. reflexivity.
Defined.

Lemma completions_of_unknown (wrench : string) (requests : JsMap.t RequestInfo)
  (t : string) :
  JsMap.get t requests = None -> getRequestFieldCompletions wrench requests t = [].
Proof. unfold getRequestFieldCompletions. now intros ->. Qed.

Lemma get_keys {V : Type} (k : string) (v : V) (m : JsMap.t V) :
  JsMap.get k m = Some v -> In k (JsMap.keys m).
Proof.
  intros H. apply get_In in H. unfold JsMap.keys.
  apply in_map_iff. now exists (k, v).
Qed.

(** X4: when no registered form request has a name of exactly eight
    characters, [provideRequestFieldCompletion] offers nothing, whatever the
    document and the cursor: it returns the empty list or ends with the
    TypeError of a line beyond the document. *)
Theorem X4_request_fields_not_offered (wrench : string)
  (requests : JsMap.t RequestInfo) (beforeCursor : string)
  (lines : list string) (line : nat) :
  (forall k, In k (JsMap.keys requests) -> length k <> 8) ->
  provideRequestFieldCompletion wrench requests beforeCursor lines line = Returns []
  \/ provideRequestFieldCompletion wrench requests beforeCursor lines line = Throws.
Proof.
  intros Hkeys. unfold provideRequestFieldCompletion.
  induction contextPatterns as [|pattern rest IH]; cbn [completionLoop]; [now left|].
  destruct (test pattern beforeCursor); [| exact IH].
  destruct (inferRequestTypeFromMethod lines line) as [[t|]|] eqn:E;
    [| exact IH | now right].
  destruct (inferred_request_shape lines line t E) as (a & -> & _).
  cbn [truthy]. left. f_equal. apply completions_of_unknown.
  destruct (JsMap.get (String a "Request") requests) as [v|] eqn:G; [|reflexivity].
  exfalso. apply (Hkeys _ (get_keys _ _ _ G)). reflexivity.
Qed.

Lemma X4_store_user_scenario :
  (forall k, In k (JsMap.keys storeRequests) -> length k <> 8)
  /\ provideRequestFieldCompletion "*" storeRequests "        User::create(["
       storeMethod 2 = Returns [].
Proof.
  assert (forall k, In k (JsMap.keys storeRequests) -> length k <> 8) as Hk.
  { intros k [<-|[]]. vm_compute. discriminate. }
  split; [exact Hk|].
  destruct (X4_request_fields_not_offered "*" storeRequests
              "        User::create([" storeMethod 2 Hk) as [H|H];
    [exact H | vm_compute in H; discriminate].
Defined.

End RequestFacts.

(** ** Views *)

Module ViewFacts.
Import JsString Regex RegexSpec RegexSem RegexSemFacts Views ViewSpec JsSetFacts.

Lemma built_parse (path viewName : string) (content : option string)
  (views : JsMap.t ViewInfo) :
  built views -> built (parseViewFile path viewName content views).
Proof.
  intros Hv. unfold parseViewFile. destruct content as [text|]; [|assumption].
  intros k v Hin. apply In_set in Hin. destruct Hin as [Heq|Hin]; [|now apply Hv].
  inversion Heq; subst. now exists path, text.
Qed.

Lemma scanViewEntry_dir (dir prefix dname : string) (es : list Schema.Entry)
  (views : JsMap.t ViewInfo) :
  scanViewEntry dir prefix (Schema.DirE dname (Some es)) views
  = scanViewEntries (Schema.path_join dir dname) (dotted prefix dname) es views.
Proof.
  simpl. revert views. induction es as [|e r IH]; intros views; simpl; [reflexivity|].
  destruct (scanViewEntry _ _ e views) as [q ok]. destruct ok; [apply IH | reflexivity].
Qed.

Lemma built_entry (e : Schema.Entry) :
  forall dir prefix views,
    built views -> built (fst (scanViewEntry dir prefix e views)).
Proof.
  induction e as [n c|n|n es IH] using SchemaSpec.Entry_nested_ind;
    intros dir prefix views Hv.
  - simpl. destruct (endsWith n ".blade.php"); simpl;
      [now apply built_parse | assumption].
  - exact Hv.
  - rewrite scanViewEntry_dir.
    generalize (Schema.path_join dir n) (dotted prefix n). intros d pre.
    revert views Hv. induction IH as [|e r He _ IHr]; intros views Hv; simpl;
      [assumption|].
    specialize (He d pre views Hv).
    destruct (scanViewEntry d pre e views) as [q ok]. simpl in He.
    destruct ok; [now apply IHr | assumption].
Qed.

Lemma built_entries (dir prefix : string) (es : list Schema.Entry) :
  forall views, built views -> built (fst (scanViewEntries dir prefix es views)).
Proof.
  induction es as [|e r IH]; intros views Hv; simpl; [assumption|].
  pose proof (built_entry e dir prefix views Hv) as He.
  destruct (scanViewEntry dir prefix e views) as [q ok]. simpl in He.
  destruct ok; [now apply IH | assumption].
Qed.

Lemma built_analyzeViews (w : string)
  (viewsDir : option (option (list Schema.Entry))) :
  built (fst (analyzeViews w viewsDir)).
Proof.
  assert (built JsMap.empty) as H0 by (intros k v []).
  unfold analyzeViews. destruct viewsDir as [[es|]|]; try assumption.
  now apply built_entries.
Qed.

(** X5: every view [analyzeViews] registers is stored under its own name,
    lists each variable once, and every variable it lists is an identifier:
    a letter or underscore followed by letters, digits and underscores.  This
    holds as well for the views a failed scan leaves in the map. *)
Theorem X5_view_variables (w : string)
  (viewsDir : option (option (list Schema.Entry))) (k : string) (v : ViewInfo) :
  In (k, v) (fst (analyzeViews w viewsDir)) ->
  v_name v = k
  /\ NoDup (v_variables v)
  /\ forall x, In x (v_variables v) -> word_of is_alpha_ is_alnum_ x.
Proof.
  intros Hin. destruct (built_analyzeViews w viewsDir k v Hin) as (path & content & ->).
  unfold buildView. cbn [v_name v_variables].
  destruct (collected (fun m => capd m 1) (exec_all re_variable content) []
              (NoDup_nil _)) as [Hn Hi].
  repeat split; [assumption|].
  intros x Hx. apply Hi in Hx. destruct Hx as [[]|(m & Hm & <-)].
  destruct (exec_all_capd re_variable content m 1 Hm eq_refl) as (r1 & Hg & Hl).
  simpl in Hg. destruct Hg as [Hg|[]]. injection Hg as <-.
  now apply word_lang.
Qed.

Lemma X5_users_show_scenario :
  v_name usersShow = "users.show"
  /\ NoDup (v_variables usersShow)
  /\ forall x, In x (v_variables usersShow) -> word_of is_alpha_ is_alnum_ x.
Proof.
  apply (X5_view_variables "/project" usersViews "users.show" usersShow).
  vm_compute. now left.
Defined.

End ViewFacts.

(** ** Attribute completions *)

Module ModelCompletionFacts.
Import JsString Schema SchemaSpec SchemaFacts ModelCompletions.

Lemma offered_empty (s : string) : offered EmptyString s = true.
Proof. reflexivity. Qed.

Lemma filter_offered_empty (fs : list ModelField) :
  filter (fun f => offered EmptyString (name f)) fs = fs.
Proof. induction fs as [|f r IH]; simpl; [reflexivity | now rewrite IH]. Qed.

Lemma findField_In_name (n : string) (fs : list ModelField) (f : ModelField) :
  findField n fs = Some f -> In f fs /\ name f = n.
Proof.
  unfold findField. intros H. apply find_some in H. destruct H as [Hin Hn].
  unfold has_name in Hn. apply String.eqb_eq in Hn. now split.
Qed.

(** X6: for every model of the registry, the attribute completions offered
    when nothing has been typed yet include [id], [created_at] and
    [updated_at], each inserted as a quoted name; a model that is not in the
    registry gets no completion. *)
Theorem X6_implicit_fields_offered (render_inherited : string -> string)
  (arrow w : string) (appDir : option (list Entry)) (p : Provider)
  (modelName : string) :
  let q := analyzeModels w appDir p in
  (JsMap.has modelName (models q) = true ->
   forall fieldName, In fieldName ["id"; "created_at"; "updated_at"] ->
     exists item,
       In item (getModelAttributeCompletions render_inherited arrow q modelName
                  EmptyString)
       /\ label item = fieldName
       /\ insertText item = ("'" ++ fieldName ++ "'")%string)
  /\ (JsMap.has modelName (models q) = false ->
      forall pre,
        getModelAttributeCompletions render_inherited arrow q modelName pre = []).
Proof.
  intros q. unfold JsMap.has, getModelAttributeCompletions.
  destruct (JsMap.get modelName (models q)) as [m|] eqn:G; split;
    try discriminate; [| reflexivity].
  intros _ fieldName Hn.
  assert (exists d, In d defaultFields /\ fst d = fieldName) as [d [Hd <-]].
  { destruct Hn as [<-|[<-|[<-|[]]]];
      [exists ("id", "integer") | exists ("created_at", "datetime")
       | exists ("updated_at", "datetime")];
      (split; [simpl; tauto | reflexivity]). }
  pose proof (get_In _ _ _ G) as Hin.
  destruct (builtFrom_analyzeModels w appDir p) as [_ Hb].
  destruct (Hb modelName m Hin) as [path [content ->]].
  unfold buildModel. cbn [fields relationships]. rewrite filter_offered_empty.
  assert (exists f, findField (fst d)
            (addDefaults (mergeMigrations
               (JsMap.get (extractTableName content modelName) (migrations p))
               (classFields content))) = Some f) as [f Hf].
  { unfold addDefaults.
    destruct (findField (fst d)
                (mergeMigrations
                   (JsMap.get (extractTableName content modelName) (migrations p))
                   (classFields content))) as [f0|] eqn:E.
    - exists f0. now apply addDefault_keeps.
    - exists (implicitField d). apply addDefault_adds; try assumption.
      repeat constructor; simpl; intuition discriminate. }
  apply findField_In_name in Hf. destruct Hf as [Hfin Hfn].
  exists (fieldItem render_inherited f). split.
  - apply in_or_app. left. now apply in_map.
  - unfold fieldItem. cbn [label insertText]. now rewrite Hfn.
Qed.

(** the Post model of the sample project: [id], [created_at] and
    [updated_at] are offered *)
Lemma X6_post_model_scenario :
  JsMap.has "Post" (models postProject) = true
  /\ forall fieldName, In fieldName ["id"; "created_at"; "updated_at"] ->
       exists item,
         In item (getModelAttributeCompletions (fun k => k) "->" postProject
                    "Post" EmptyString)
         /\ label item = fieldName
         /\ insertText item = ("'" ++ fieldName ++ "'")%string.
Proof.
  split; [vm_compute; reflexivity|].
  apply (proj1 (X6_implicit_fields_offered (fun k => k) "->" "/project"
           (Some [DirE "Models" (Some [FileE "Post.php" (Some postModel)])])
           (analyzeMigrations
              (Some [("2024_01_01_000000_create_posts_table.php",
                      Some postsMigration)])
              (MkProvider JsMap.empty JsMap.empty))
           "Post")).
  vm_compute. reflexivity.
Defined.

End ModelCompletionFacts.

(** ** Every extracted route is well formed *)

Module RouteInvFacts.
Import JsString Regex RegexSpec RegexFacts RegexSem RegexSemFacts.
Import Routes RouteSpec RouteFacts RouteQueries RouteInv RouteQueryFacts.

Lemma allRoutes_set (Q : RouteInfo -> Prop) (k : string) (l : list RouteInfo)
  (rt : RouteTable) :
  allRoutes Q rt -> Forall Q l -> allRoutes Q (JsMap.set k l rt).
Proof.
  intros Hrt Hl k' l' Hin. apply In_set in Hin.
  destruct Hin as [Heq|Hin]; [inversion Heq; now subst | now apply (Hrt k')].
Qed.

Lemma allRoutes_get (Q : RouteInfo -> Prop) (k : string) (l : list RouteInfo)
  (rt : RouteTable) :
  allRoutes Q rt -> JsMap.get k rt = Some l -> Forall Q l.
Proof. intros Hrt Hg. apply (Hrt k). now apply get_In. Qed.

Lemma allRoutes_push (Q : RouteInfo -> Prop) (r : RouteInfo) (rt : RouteTable) :
  allRoutes Q rt -> Q r -> allRoutes Q (addRoute r rt).
Proof.
  intros Hrt Hr. unfold addRoute, JsMap.push_at.
  destruct (JsMap.get (filePath r) rt) as [l|] eqn:G; apply allRoutes_set; auto.
  apply Forall_app. split; [now apply (allRoutes_get Q (filePath r) l rt) | auto].
Qed.

Lemma allRoutes_pushes (Q : RouteInfo -> Prop) (cs : list RouteInfo) :
  Forall Q cs -> forall rt, allRoutes Q rt ->
  allRoutes Q (fold_left (fun acc r => addRoute r acc) cs rt).
Proof.
  induction 1 as [|r cs Hr Hcs IH]; intros rt Hrt; simpl; [assumption|].
  apply IH. now apply allRoutes_push.
Qed.

Lemma wellFormed_rename (nm : string) (k : nat) (l : list RouteInfo) :
  Forall wellFormed l -> Forall wellFormed (set_last_name nm k l).
Proof.
  induction l as [|x l IH]; intros H; [constructor|].
  inversion H as [|? ? Hx Hl]; subst.
  destruct l as [|y l].
  - simpl. destruct (abs_diff (line x) k <=? 2); constructor; auto.
  - change (set_last_name nm k (x :: y :: l))
      with (x :: set_last_name nm k (y :: l)).
    constructor; auto.
Qed.

(** the verb a route pattern captures *)
Lemma verb_lang (v : string) :
  in_lang verbs v ->
  In [toUpperCase v]
    [ ["GET"]; ["POST"]; ["PUT"]; ["PATCH"]; ["DELETE"]; ["OPTIONS"]; ["HEAD"];
      ["ANY"] ].
Proof.
  unfold verbs. cbn [alts]. intros H.
  repeat (apply alt_lang in H; destruct H as [H|H];
          [apply lit_lang in H; subst v; simpl; tauto|]).
  apply lit_lang in H. subst v. simpl. tauto.
Qed.

Lemma methodSets_verb (v : string) : in_lang verbs v -> In [toUpperCase v] methodSets.
Proof.
  intros H. apply verb_lang in H. unfold methodSets.
  simpl in *. intuition.
Qed.

Lemma shortController_truthy (ctl : string) :
  truthy ctl = true -> truthy (shortController ctl) = true.
Proof.
  intros H. unfold shortController.
  destruct (truthy (last_segment bslash ctl)) eqn:E; assumption.
Qed.

Ltac group_of H :=
  simpl in H;
  repeat (destruct H as [H|H]; [try discriminate H | ]);
  try contradiction.

Lemma candidates_wellFormed (ln : string) (lineNumber : nat) (file : string)
  (mw : list string) (prefix : string) :
  1 <= lineNumber ->
  Forall wellFormed (candidates ln lineNumber file mw prefix).
Proof.
  intros Hline. unfold candidates.
  apply Forall_app; split; [|apply Forall_app; split; [|apply Forall_app; split]].
  - destruct (js_match re_action_string ln) as [m|] eqn:E; constructor; [|constructor].
    destruct (search_capd _ _ _ _ 1 E eq_refl) as (r1 & G1 & L1).
    destruct (search_capd _ _ _ _ 3 E eq_refl) as (r3 & G3 & L3).
    destruct (search_capd _ _ _ _ 4 E eq_refl) as (r4 & G4 & L4).
    group_of G1. injection G1 as <-.
    group_of G3. injection G3 as <-.
    group_of G4. injection G4 as <-.
    apply plus_cls_nonempty in L3, L4.
    repeat split; cbn [method controller controllerMethod line]; auto.
    + now apply methodSets_verb.
    + intros s [= <-]. tauto.
    + intros s [= <-]. tauto.
  - destruct (js_match re_action_array ln) as [m|] eqn:E; constructor; [|constructor].
    destruct (search_capd _ _ _ _ 1 E eq_refl) as (r1 & G1 & L1).
    destruct (search_capd _ _ _ _ 3 E eq_refl) as (r3 & G3 & L3).
    destruct (search_capd _ _ _ _ 4 E eq_refl) as (r4 & G4 & L4).
    group_of G1. injection G1 as <-.
    group_of G3. injection G3 as <-.
    group_of G4. injection G4 as <-.
    apply plus_cls_nonempty in L3, L4.
    repeat split; cbn [method controller controllerMethod line]; auto.
    + now apply methodSets_verb.
    + intros s [= <-]. apply shortController_truthy. tauto.
    + intros s [= <-]. tauto.
  - destruct (js_match re_resource ln) as [m|] eqn:E; constructor; [|constructor].
    destruct (search_capd _ _ _ _ 3 E eq_refl) as (r3 & G3 & L3).
    group_of G3. injection G3 as <-.
    apply plus_cls_nonempty in L3.
    repeat split; cbn [method controller controllerMethod line]; auto.
    + unfold methodSets. simpl. tauto.
    + intros s [= <-]. apply shortController_truthy. tauto.
    + intros s [= <-]. reflexivity.
  - destruct (js_match re_closure ln) as [m|] eqn:E; constructor; [|constructor].
    destruct (search_capd _ _ _ _ 1 E eq_refl) as (r1 & G1 & L1).
    group_of G1. injection G1 as <-.
    repeat split; cbn [method controller controllerMethod line]; auto.
    + now apply methodSets_verb.
    + intros s [=].
    + intros s [=].
Qed.

Lemma wellFormed_line (ln : string) (lineNumber : nat) (file : string)
  (mw : list string) (prefix : string) (rt : RouteTable) :
  1 <= lineNumber -> allRoutes wellFormed rt ->
  allRoutes wellFormed (parseRouteLine ln lineNumber file mw prefix rt).
Proof.
  intros Hline Hrt. rewrite parseRouteLine_spec. cbv zeta.
  pose proof (allRoutes_pushes wellFormed _
                (candidates_wellFormed ln lineNumber file mw prefix Hline) rt Hrt)
    as H4.
  destruct (js_match re_name ln) as [m|]; [|assumption].
  destruct (JsMap.get file _) as [l|] eqn:G; [|assumption].
  apply allRoutes_set; [assumption|].
  apply wellFormed_rename. now apply (allRoutes_get wellFormed file l _ H4).
Qed.

Lemma wellFormed_lines (file : string) (lines : list string) :
  forall index st,
    allRoutes wellFormed (snd st) ->
    allRoutes wellFormed (snd (forEachLine file index lines st)).
Proof.
  induction lines as [|ln rest IH]; intros index st Hst; [assumption|].
  cbn [forEachLine]. apply IH. destruct st as [ctx rt]. unfold stepLine.
  cbn [snd] in *. apply wellFormed_line; [lia | assumption].
Qed.

Lemma wellFormed_file (file : string) (content : option string) (rt : RouteTable) :
  allRoutes wellFormed rt -> allRoutes wellFormed (parseRouteFile file content rt).
Proof.
  intros Hrt. unfold parseRouteFile. destruct content as [text|]; [|assumption].
  now apply wellFormed_lines.
Qed.

Lemma wellFormed_all (w : string) (dir : option Routes.Dir) (p0 : Provider) :
  allRoutes wellFormed (routes (parseAllRoutes w dir p0)).
Proof.
  assert (allRoutes wellFormed (@JsMap.empty (list RouteInfo))) as H0
    by (intros k l []).
  unfold parseAllRoutes. destruct dir as [entries|]; [|exact H0].
  unfold buildControllerRouteMap. cbn [routes clear].
  apply (fold_left_invariant _ (allRoutes wellFormed)); [exact H0|].
  intros x e _ Hx. now apply wellFormed_file.
Qed.

Lemma getAllRoutes_In (p : Provider) (r : RouteInfo) :
  In r (getAllRoutes p) -> exists k l, In (k, l) (routes p) /\ In r l.
Proof.
  unfold getAllRoutes, JsMap.values. intros H. apply in_concat in H.
  destruct H as (l & Hl & Hr). apply in_map_iff in Hl.
  destruct Hl as ([k l'] & <- & Hin). now exists k, l'.
Qed.

Lemma extracted_wellFormed (w : string) (dir : option Routes.Dir)
  (p0 : Provider) (r : RouteInfo) :
  In r (getAllRoutes (parseAllRoutes w dir p0)) -> wellFormed r.
Proof.
  intros H. apply getAllRoutes_In in H. destruct H as (k & l & Hin & Hr).
  pose proof (wellFormed_all w dir p0 k l Hin) as Hall.
  rewrite Forall_forall in Hall. now apply Hall.
Qed.

(** X7: every route [parseAllRoutes] extracts lists either one upper-case
    verb among GET, POST, PUT, PATCH, DELETE, OPTIONS, HEAD and ANY, or the
    five resource methods; its line number is at least 1; and its controller
    and action, where it has them, are not empty. *)
Theorem X7_extracted_routes_well_formed (w : string) (dir : option Routes.Dir)
  (p0 : Provider) (r : RouteInfo) :
  In r (getAllRoutes (parseAllRoutes w dir p0)) ->
  In (method r) methodSets
  /\ 1 <= line r
  /\ (forall c, controller r = Some c -> c <> EmptyString)
  /\ (forall m, controllerMethod r = Some m -> m <> EmptyString).
Proof.
  intros H. destruct (extracted_wellFormed w dir p0 r H) as (Hm & Hc & Ha & Hl).
  repeat split; auto.
  - intros c Ec ->. specialize (Hc _ Ec). discriminate.
  - intros m Em ->. specialize (Ha _ Em). discriminate.
Qed.

(** X1: a route extracted with a controller and an action is among the
    routes [getRoutesForController] returns for that controller and action. *)
Theorem X1_indexed_route_is_found (w : string) (dir : option Routes.Dir)
  (p0 : Provider) (r : RouteInfo) (c m : string) :
  In r (getAllRoutes (parseAllRoutes w dir p0)) ->
  controller r = Some c -> controllerMethod r = Some m ->
  In r (getRoutesForController (parseAllRoutes w dir p0) c m).
Proof.
  intros Hin Hc Hm.
  destruct (extracted_wellFormed w dir p0 r Hin) as (_ & Tc & Tm & _).
  apply indexed_route_found; auto.
Qed.

Lemma usersRoutes_extracted :
  In usersIndex (getAllRoutes (parseAllRoutes "/project" (Some usersRoutes)
                                 (MkProvider JsMap.empty JsMap.empty JsMap.empty))).
Proof. vm_compute. tauto. Qed.

Lemma X1_users_index_scenario :
  In usersIndex
    (getRoutesForController
       (parseAllRoutes "/project" (Some usersRoutes)
          (MkProvider JsMap.empty JsMap.empty JsMap.empty))
       "UserController" "index").
Proof.
  apply (X1_indexed_route_is_found "/project" (Some usersRoutes) _ usersIndex);
    [exact usersRoutes_extracted | reflexivity | reflexivity].
Defined.

Lemma X7_users_index_scenario :
  In (method usersIndex) methodSets
  /\ 1 <= line usersIndex
  /\ (forall c, controller usersIndex = Some c -> c <> EmptyString)
  /\ (forall m, controllerMethod usersIndex = Some m -> m <> EmptyString).
Proof.
  apply (X7_extracted_routes_well_formed "/project" (Some usersRoutes)
           (MkProvider JsMap.empty JsMap.empty JsMap.empty) usersIndex).
  exact usersRoutes_extracted.
Defined.

End RouteInvFacts.

(** ** Lines of a text *)

Module LineFacts.
Import JsString.

Lemma split_cons (sep c : ascii) (t : string) :
  List.length (split sep (String c t))
  = (if Ascii.eqb c sep then 1 else 0) + List.length (split sep t).
Proof.
  cbn [split]. destruct (Ascii.eqb c sep); [reflexivity|].
  pose proof (split_nonempty sep t) as Hne.
  destruct (split sep t); [congruence | reflexivity].
Qed.

Lemma split_length_pos (sep : ascii) (s : string) : 1 <= List.length (split sep s).
Proof.
  pose proof (split_nonempty sep s). destruct (split sep s); [congruence | simpl; lia].
Qed.

(** a prefix of a text has no more lines than the text *)
Lemma prefix_lines (sep : ascii) (s : string) :
  forall i, List.length (split sep (substring 0 i s)) <= List.length (split sep s).
Proof.
  induction s as [|c t IH]; intros i.
  - destruct i; simpl; lia.
  - destruct i as [|i].
    + cbn [substring]. pose proof (split_length_pos sep (String c t)). simpl in *. lia.
    + cbn [substring]. rewrite !split_cons. specialize (IH i). lia.
Qed.

End LineFacts.

(** ** The route list *)

Module RouteListFacts.
Import JsString Regex RouteList LineFacts.

Lemma find_append {A : Type} (f : A -> bool) (a b : list A) :
  find f (a ++ b) = match find f a with Some x => Some x | None => find f b end.
Proof.
  induction a as [|x a IH]; simpl; [reflexivity|]. destruct (f x); auto.
Qed.

Lemma fold_set_get {A V : Type} (key : A -> string) (val : A -> V) (u : string)
  (ms : list A) :
  forall init : JsMap.t V,
    JsMap.get u (fold_left (fun acc m => JsMap.set (key m) (val m) acc) ms init)
    = match find (fun m => String.eqb (key m) u) (rev ms) with
      | Some m => Some (val m)
      | None => JsMap.get u init
      end.
Proof.
  induction ms as [|m r IH]; intros init; [reflexivity|].
  cbn [fold_left rev]. rewrite IH, find_append.
  destruct (find (fun m0 => String.eqb (key m0) u) (rev r)); [reflexivity|].
  cbn [find]. destruct (String.eqb (key m) u) eqn:E.
  - apply String.eqb_eq in E. subst u. apply get_set_same.
  - apply String.eqb_neq in E. apply get_set_other. congruence.
Qed.

(** keys are distinct and every route sits under its own URI *)
Lemma keyed_parse (filePath content : string) (routes : JsMap.t RouteInfo) :
  NoDup (JsMap.keys routes) /\ (forall k v, In (k, v) routes -> uri v = k) ->
  NoDup (JsMap.keys (parseRouteFile filePath content routes))
  /\ (forall k v, In (k, v) (parseRouteFile filePath content routes) -> uri v = k).
Proof.
  unfold parseRouteFile. intros H0.
  apply (fold_left_invariant _
           (fun rt => NoDup (JsMap.keys rt) /\ (forall k v, In (k, v) rt -> uri v = k)));
    [exact H0|].
  intros rt m _ [Hnd Hk]. split; [now apply NoDup_keys_set|].
  intros k v Hin. apply In_set in Hin. destruct Hin as [Heq|Hin]; [|now apply Hk].
  inversion Heq. reflexivity.
Qed.

Lemma keyed_routes (w : string) (routesDir : bool) (web api : File)
  (rt : JsMap.t RouteInfo) :
  parseRoutes w routesDir web api = Some rt ->
  NoDup (JsMap.keys rt) /\ (forall k v, In (k, v) rt -> uri v = k).
Proof.
  assert (NoDup (JsMap.keys (@JsMap.empty RouteInfo))
          /\ (forall k v, In (k, v) (@JsMap.empty RouteInfo) -> uri v = k)) as H0
    by (split; [constructor | intros k v []]).
  unfold parseRoutes. destruct routesDir; [| intros [= <-]; exact H0].
  cbn [fold_left fst snd].
  destruct web as [| |wt]; destruct api as [| |at_]; intros [= <-];
    auto using keyed_parse.
Qed.

Lemma values_keys (rt : JsMap.t RouteInfo) :
  (forall k v, In (k, v) rt -> uri v = k) ->
  map uri (JsMap.values rt) = JsMap.keys rt.
Proof.
  unfold JsMap.values, JsMap.keys. intros H. rewrite map_map.
  apply map_ext_in. intros [k v] Hin. simpl. now apply H.
Qed.

(** X8: the route list holds at most one route per URI, and the route a file
    leaves under a URI is the one of the last declaration of that URI in the
    file, whatever the verbs of the earlier ones. *)
Theorem X8_one_route_per_uri (w : string) (routesDir : bool) (web api : File)
  (filePath content u : string) :
  (forall rt, parseRoutes w routesDir web api = Some rt ->
     NoDup (map uri (getRoutes rt)))
  /\ JsMap.get u (parseRouteFile filePath content JsMap.empty)
     = option_map (routeOf filePath content)
         (find (fun m => String.eqb (capd m 2) u)
            (rev (exec_all re_route content))).
Proof.
  split.
  - intros rt H. destruct (keyed_routes _ _ _ _ _ H) as [Hnd Hk].
    unfold getRoutes. now rewrite values_keys.
  - unfold parseRouteFile.
    rewrite (fold_set_get (fun m => capd m 2) (routeOf filePath content)).
    destruct (find _ _); reflexivity.
Qed.

(** X9: the line number of every route in the list of a file lies between 1
    and the number of lines of the file, and the route names the file. *)
Theorem X9_route_lines_within_file (filePath content : string) (r : RouteInfo) :
  In r (getRoutes (parseRouteFile filePath content JsMap.empty)) ->
  1 <= line r <= List.length (split nl content)
  /\ RouteList.filePath r = filePath.
Proof.
  unfold getRoutes, JsMap.values. intros H. apply in_map_iff in H.
  destruct H as ([k v] & <- & Hin). simpl. revert Hin. unfold parseRouteFile.
  apply (fold_left_invariant _
           (fun rt => In (k, v) rt ->
              1 <= line v <= List.length (split nl content)
              /\ RouteList.filePath v = filePath)); [intros []|].
  intros rt m _ IH Hin. apply In_set in Hin. destruct Hin as [Heq|Hin]; [|now apply IH].
  inversion Heq. cbn [routeOf line RouteList.filePath]. unfold lineOf.
  repeat split; [apply split_length_pos | apply prefix_lines].
Qed.

Lemma X9_users_store_scenario :
  1 <= line RouteListSpec.usersStore
       <= List.length (split nl RouteListSpec.usersWeb)
  /\ RouteList.filePath RouteListSpec.usersStore = "/project/routes/web.php".
Proof.
  apply (X9_route_lines_within_file "/project/routes/web.php"
           RouteListSpec.usersWeb RouteListSpec.usersStore).
  vm_compute. now left.
Defined.

End RouteListFacts.

(** ** Translation queries *)

Module TranslationQueryFacts.
Import JsString Regex Translations TranslationSpec TranslationFacts.
Import TranslationQueries JsSetFacts LineFacts.

Lemma getLocales_spec (p : Provider) :
  NoDup (getLocales p)
  /\ forall loc, In loc (getLocales p) <->
                 exists t, In t (allEntries p) /\ locale t = loc.
Proof.
  unfold getLocales, allEntries.
  rewrite (fold_concat (fun acc t => JsSet.add acc (locale t))).
  destruct (collected locale (List.concat (JsMap.values (translations p))) []
              (NoDup_nil _)) as [Hn Hi].
  split; [assumption|]. intros loc. rewrite Hi. split.
  - intros [[]|H]. exact H.
  - intros H. now right.
Qed.

(** X10: [getLocales] lists each locale once, and a locale is listed exactly
    when some entry of the catalog has it. *)
Theorem X10_locales_of_catalog (p : Provider) :
  NoDup (getLocales p)
  /\ forall loc, In loc (getLocales p) <->
                 exists t, In t (allEntries p) /\ locale t = loc.
Proof.
  destruct (getLocales_spec p) as [Hn Hi]. split; [exact Hn | exact Hi].
Qed.

Lemma has_false_get {V : Type} (k : string) (m : JsMap.t V) :
  JsMap.has k m = false <-> JsMap.get k m = None.
Proof. unfold JsMap.has. destruct (JsMap.get k m); split; congruence. Qed.

(** X11: [getMissingTranslations] lists each key once, and a key is listed
    exactly when some recorded usage has it and the catalog has no entry
    under it. *)
Theorem X11_missing_translations (p : Provider) :
  NoDup (getMissingTranslations p)
  /\ forall k, In k (getMissingTranslations p) <->
               referenced (usages p) k /\ JsMap.get k (translations p) = None.
Proof.
  unfold getMissingTranslations.
  destruct (collected u_key (usages p) [] (NoDup_nil _)) as [Hn Hi].
  unfold JsSet.add, JsSet.has in Hn, Hi.
  split; [now apply NoDup_filter|].
  intros k. rewrite filter_In, Hi, negb_true_iff, has_false_get.
  unfold referenced. split.
  - intros [[[]|H] Hg]. split; assumption.
  - intros [H Hg]. split; [now right | assumption].
Qed.

Lemma existsb_locale (loc : string) (l : list TranslationEntry) :
  existsb (String.eqb loc) (map locale l) = true <->
  exists t, In t l /\ locale t = loc.
Proof.
  rewrite existsb_exists. split.
  - intros (x & Hx & E). apply String.eqb_eq in E. subst x.
    apply in_map_iff in Hx. destruct Hx as (t & Ht & Hin). now exists t.
  - intros (t & Hin & <-). exists (locale t). split; [now apply in_map | apply String.eqb_refl].
Qed.

Lemma filter_nil_iff {A : Type} (f : A -> bool) (l : list A) :
  filter f l = [] <-> forall x, In x l -> f x = false.
Proof.
  induction l as [|a r IH]; simpl; [tauto|].
  destruct (f a) eqn:E.
  - split; [discriminate|]. intros H. specialize (H a (or_introl eq_refl)). congruence.
  - rewrite IH. split.
    + intros H x [<-|Hx]; auto.
    + intros H x Hx. apply H. now right.
Qed.

(** X12: a translation call gets no diagnostic exactly when its key has
    entries and, for every locale found anywhere in the catalog, one of them
    is in that locale; a key without entries gets the one warning
    [missing-translation]. *)
Theorem X12_translation_diagnostics (p : Provider) (call : Call) :
  (diagnoseCall p call = [] <->
     exists l, JsMap.get (c_key call) (translations p) = Some l /\ l <> []
               /\ forall t0, In t0 (allEntries p) ->
                    exists t, In t l /\ locale t = locale t0)
  /\ (JsMap.get (c_key call) (translations p) = None ->
      map (fun d => (d_code d, d_severity d)) (diagnoseCall p call)
      = [("missing-translation", Warning)]).
Proof.
  destruct (getLocales_spec p) as [_ Hloc].
  unfold diagnoseCall, getTranslation, missingLocales, translationLocales.
  destruct (JsMap.get (c_key call) (translations p)) as [l|] eqn:G.
  - split; [| discriminate].
    destruct l as [|t1 l1]; cbn [hd_error].
    + split; [discriminate|]. intros (l & [= <-] & Hne & _). congruence.
    + set (l := t1 :: l1) in *.
      set (missing := filter _ (getLocales p)).
      assert (missing = [] <->
              forall t0, In t0 (allEntries p) ->
                exists t, In t l /\ locale t = locale t0) as Hm.
      { unfold missing. rewrite filter_nil_iff. split.
        - intros H t0 Ht0. apply existsb_locale.
          apply negb_false_iff, H, Hloc. now exists t0.
        - intros H loc Hin. apply negb_false_iff, existsb_locale.
          apply Hloc in Hin. destruct Hin as (t0 & Ht0 & <-). now apply H. }
      destruct missing as [|x r] eqn:Em; cbn [List.length Nat.ltb Nat.leb].
      * split; [| reflexivity]. intros _. exists l. repeat split; [discriminate|].
        now apply Hm.
      * split; [discriminate|]. intros (l' & [= <-] & _ & H).
        apply Hm in H. discriminate.
  - split; [| reflexivity]. split; [discriminate|].
    intros (l & Hl & _). discriminate.
Qed.

(** *** Positions *)

Lemma findLine_shift (c : ascii) (h : string) (r : list string)
  (index cur i total : nat) :
  findLineNumberForMatch (String c h :: r) index cur i total
  = findLineNumberForMatch (h :: r) index (cur + 1) i total.
Proof.
  cbn [findLineNumberForMatch length].
  replace (cur + S (length h) + 1) with (cur + 1 + length h + 1) by lia.
  reflexivity.
Qed.

Lemma findLine_spec (s : string) :
  forall index cur i total,
    cur <= index -> total = i + List.length (split nl s) ->
    findLineNumberForMatch (split nl s) index cur i total
    = i + List.length (split nl (substring 0 (index - cur) s)).
Proof.
  induction s as [|c t IH]; intros index cur i total Hle Htot.
  - subst total. cbn [split findLineNumberForMatch List.length length].
    assert (substring 0 (index - cur) EmptyString = EmptyString) as ->
      by (destruct (index - cur); reflexivity).
    cbn [split List.length]. destruct (index <? cur + 0 + 1); lia.
  - rewrite split_cons in Htot.
    destruct (Nat.eq_dec index cur) as [->|Hne].
    + rewrite Nat.sub_diag. cbn [substring split List.length].
      cbn [split]. destruct (Ascii.eqb c nl).
      * cbn [findLineNumberForMatch length].
        assert ((cur <? cur + 0 + 1) = true) as -> by (apply Nat.ltb_lt; lia).
        reflexivity.
      * pose proof (split_nonempty nl t) as Hn.
        destruct (split nl t) as [|h r]; [congruence|].
        cbn [findLineNumberForMatch length].
        assert ((cur <? cur + S (length h) + 1) = true) as ->
          by (apply Nat.ltb_lt; lia).
        reflexivity.
    + assert (index - cur = S (index - (cur + 1))) as -> by lia.
      cbn [substring]. rewrite split_cons.
      cbn [split]. destruct (Ascii.eqb c nl) eqn:E.
      * cbn [findLineNumberForMatch length].
        assert ((index <? cur + 0 + 1) = false) as -> by (apply Nat.ltb_ge; lia).
        replace (cur + 0 + 1) with (cur + 1) by lia.
        rewrite (IH index (cur + 1) (S i) total); lia.
      * pose proof (split_nonempty nl t) as Hn.
        destruct (split nl t) as [|h r] eqn:Es; [congruence|].
        rewrite findLine_shift.
        rewrite (IH index (cur + 1) i total); simpl in *; lia.
Qed.

Lemma single_line (t : string) :
  List.length (split nl t) = 1 -> last (split nl t) EmptyString = t.
Proof.
  induction t as [|a t IHt]; intros H; [reflexivity|].
  rewrite split_cons in H. cbn [split].
  destruct (Ascii.eqb a nl); [pose proof (split_length_pos nl t); lia|].
  simpl in H. specialize (IHt H).
  destruct (split nl t) as [|h [|h2 r]]; try (simpl in H; lia).
  simpl in *. now subst.
Qed.

Lemma last_line_feed (t : string) :
  last (split nl (String nl t)) EmptyString = last (split nl t) EmptyString.
Proof.
  cbn [split]. rewrite Ascii.eqb_refl.
  pose proof (split_nonempty nl t). destruct (split nl t); [congruence | reflexivity].
Qed.

Lemma last_line_other (c : ascii) (t : string) :
  Ascii.eqb c nl = false -> 1 < List.length (split nl t) ->
  last (split nl (String c t)) EmptyString = last (split nl t) EmptyString.
Proof.
  intros E H. cbn [split]. rewrite E.
  destruct (split nl t) as [|h [|h2 r]]; try (simpl in H; lia). reflexivity.
Qed.

(** the last line of a text and the offset of its last line feed *)
Lemma lastIndexOfNl_spec (t : string) :
  forall i acc,
    match lastIndexOfNl t i acc with
    | Some j =>
        (List.length (split nl t) = 1 /\ acc = Some j)
        \/ (1 < List.length (split nl t)
            /\ j + 1 + length (last (split nl t) EmptyString) = i + length t)
    | None => List.length (split nl t) = 1 /\ acc = None
    end.
Proof.
  induction t as [|c t IH]; intros i acc.
  - cbn [lastIndexOfNl split List.length]. destruct acc; auto.
  - cbn [lastIndexOfNl]. specialize (IH (S i) (if Ascii.eqb c nl then Some i else acc)).
    rewrite split_cons.
    pose proof (split_length_pos nl t) as Hp.
    destruct (Ascii.eqb c nl) eqn:E.
    + apply Ascii.eqb_eq in E. subst c. rewrite last_line_feed.
      destruct (lastIndexOfNl t (S i) (Some i)) as [j|].
      * right. split; [lia|]. destruct IH as [[H1 H2]|[H1 H2]].
        -- injection H2 as <-. rewrite (single_line t H1). simpl. lia.
        -- simpl length. lia.
      * destruct IH as [_ H]. discriminate.
    + destruct (lastIndexOfNl t (S i) acc) as [j|].
      * destruct IH as [[H1 H2]|[H1 H2]].
        -- left. split; [lia | assumption].
        -- right. split; [lia|]. rewrite (last_line_other c t E H1).
           simpl length. lia.
      * destruct IH as [H1 H2]. split; [lia | assumption].
Qed.

Lemma substring_length (i : nat) (s : string) :
  i <= length s -> length (substring 0 i s) = i.
Proof.
  revert i. induction s as [|c t IH]; intros i H.
  - simpl in H. assert (i = 0) as -> by lia. reflexivity.
  - destruct i as [|i]; [reflexivity|]. cbn [substring length]. f_equal.
    apply IH. simpl in H. lia.
Qed.

(** X13: the usage scanner and the diagnostics compute the same position for
    an offset of a text: the scanner's line and column are the one-based
    forms of the zero-based line and character of [getPositionFromIndex]. *)
Theorem X13_positions_agree (content : string) (index : nat) :
  index <= length content ->
  findLineNumberForMatch (split nl content) index 0 0
    (List.length (split nl content))
  = p_line (getPositionFromIndex content index) + 1
  /\ findColumnForMatch content index
     = p_character (getPositionFromIndex content index) + 1.
Proof.
  intros Hle. unfold getPositionFromIndex. cbn [p_line p_character]. split.
  - rewrite (findLine_spec content index 0 0 (List.length (split nl content))
               (Nat.le_0_l _) eq_refl).
    rewrite Nat.sub_0_r.
    pose proof (split_length_pos nl (substring 0 index content)). lia.
  - unfold findColumnForMatch.
    pose proof (lastIndexOfNl_spec (substring 0 index content) 0 None) as H.
    pose proof (substring_length index content Hle) as Hlen.
    destruct (lastIndexOfNl (substring 0 index content) 0 None) as [j|].
    + destruct H as [[_ H]|[_ H]]; [discriminate | lia].
    + destruct H as [H _]. rewrite (single_line _ H). lia.
Qed.

Lemma X13_second_line_scenario :
  findLineNumberForMatch (split nl homeBlade) 7 0 0
    (List.length (split nl homeBlade))
  = p_line (getPositionFromIndex homeBlade 7) + 1
  /\ findColumnForMatch homeBlade 7
     = p_character (getPositionFromIndex homeBlade 7) + 1.
Proof.
  apply (X13_positions_agree homeBlade 7). vm_compute. lia.
Defined.

End TranslationQueryFacts.

(** ** The first quoted string of a line *)

Module QuotedFacts.
Import JsString Regex RegexSpec RegexFacts Validation ValidationDiagnostics.
Import RegexSemFacts.

(** the first quoted string of a line is found where it stands *)
Lemma first_quoted (pre body rest : string) (q1 q2 : ascii) :
  all_chars (fun c => negb (is_quote c)) pre = true ->
  all_chars (fun c => negb (is_quote c)) body = true ->
  body <> EmptyString -> is_quote q1 = true -> is_quote q2 = true ->
  js_match re_quoted (pre ++ String q1 (body ++ String q2 rest))
  = Some (MRes (length pre) (String q1 (body ++ str1 q2)) [(1, body)] rest).
Proof.
  intros Hpre Hbody Hne H1 H2. unfold js_match.
  rewrite (search_skip re_quoted (fun c => negb (is_quote c)));
    [| | exact Hpre].
  2:{ intros a t i Ha. apply negb_true_iff in Ha.
      unfold at_front, re_quoted, quoted. cbn [seqs run quote]. now rewrite Ha. }
  apply search_at_front. unfold at_front, re_quoted, quoted.
  rewrite run_seqs_cons. unfold quote at 1. rewrite (cls_step is_quote q1 _ _ _ H1).
  rewrite run_seqs_cons.
  destruct body as [|a u]; [congruence|].
  apply run_grp_plus_cls; [exact Hbody | simpl; now rewrite H2 |].
  cbn [seqs]. unfold quote. rewrite (cls_step is_quote q2 _ _ _ H2).
  f_equal. f_equal.
  change (String q1 (String a u ++ String q2 rest))
    with (String q1 (String a u ++ (str1 q2 ++ rest)))%string.
  rewrite <- (append_assoc (String a u) (str1 q2) rest).
  change (String q1 ((String a u ++ str1 q2) ++ rest))%string
    with (String q1 (String a u ++ str1 q2) ++ rest)%string.
  apply substring_prefix.
Qed.

End QuotedFacts.

(** ** Diagnostics of a line *)

Module ValidationDiagnosticFacts.
Import JsString Regex RegexSpec RegexFacts Validation ValidationDiagnostics.
Import StringFacts QuotedFacts.

Lemma validateRule_unknown (p : Provider) (rule : string) :
  getValidationRule p (ruleNameOf rule) = None ->
  validateRule p rule = [unknownRule (ruleNameOf rule)].
Proof.
  unfold validateRule, ruleNameOf. destruct (split_hd ":" rule) as [ps ->].
  cbn [hd]. now intros ->.
Qed.

Lemma validateRule_known (p : Provider) (rule : string) (issue : Issue) :
  getValidationRule p (ruleNameOf rule) <> None ->
  In issue (validateRule p rule) -> code issue <> "unknown-rule".
Proof.
  unfold validateRule, ruleNameOf. destruct (split_hd ":" rule) as [ps ->].
  cbn [hd]. generalize (hd EmptyString (split ":" rule)). intros n Hk.
  destruct (getValidationRule p n) as [rd|]; [|congruence].
  intros Hin. apply in_app_or in Hin. destruct Hin as [Hin|Hin].
  - destruct (parameters rd) as [pp|]; [|destruct Hin].
    destruct (providedCount ps <? requiredCount pp); [|destruct Hin].
    destruct Hin as [<-|[]]. discriminate.
  - destruct (String.eqb n "exists" || String.eqb n "unique"); [|destruct Hin].
    destruct ps as [|p0 ps]; [destruct Hin|].
    destruct (negb (JsMap.has (tableArgument p0) (databaseTables p)));
      [|destruct Hin].
    destruct Hin as [<-|[]]. discriminate.
Qed.

Lemma isValidationRule_known (p : Provider) (rule : string) :
  isValidationRule p rule = true ->
  getValidationRule p (ruleNameOf rule) <> None.
Proof.
  unfold isValidationRule, getValidationRule. intros H.
  apply mem_In in H. apply in_map_iff in H. destruct H as (rd & Hn & Hin).
  intros Hnone. apply (find_none _ _ Hnone) in Hin.
  rewrite Hn, String.eqb_refl in Hin. discriminate.
Qed.

Lemma arrayRules_known (p : Provider) (line : string) (ra : RuleAt) :
  In ra (arrayRules p line) -> isValidationRule p (rule ra) = true.
Proof.
  unfold arrayRules. intros H. apply in_flat_map in H.
  destruct H as (m & _ & Hin).
  destruct (isValidationRule p (capd m 1)) eqn:E; [|destruct Hin].
  destruct Hin as [<-|[]]. exact E.
Qed.

Lemma pipeSpans_rules (l : list string) :
  forall pos, map rule (pipeSpans l pos) = map trim l.
Proof.
  induction l as [|x r IH]; intros pos; simpl; [reflexivity | now rewrite IH].
Qed.

Lemma diagnostic_unknown (p : Provider) (i : nat) (line : string) :
  (exists d, In d (lineDiagnostics p i line) /\ d_code d = "unknown-rule")
  <-> exists ra, In ra (pipeRules line)
                 /\ getValidationRule p (ruleNameOf (rule ra)) = None.
Proof.
  unfold lineDiagnostics, extractValidationRulesFromLine. split.
  - intros (d & Hd & Hc). apply in_flat_map in Hd.
    destruct Hd as (ra & Hra & Hd). apply in_map_iff in Hd.
    destruct Hd as (issue & <- & Hi). cbn [d_code] in Hc.
    destruct (getValidationRule p (ruleNameOf (rule ra))) as [rd|] eqn:G.
    + exfalso. refine (validateRule_known p (rule ra) issue _ Hi Hc).
      now rewrite G.
    + exists ra. split; [|exact G]. apply in_app_or in Hra.
      destruct Hra as [Hra|Hra]; [exact Hra|].
      apply arrayRules_known, isValidationRule_known in Hra. congruence.
  - intros (ra & Hra & G).
    exists (MkDiagnostic i (r_start ra) (r_end ra)
              (message (unknownRule (ruleNameOf (rule ra)))) Error
              "Laravel Validation" "unknown-rule").
    split; [|reflexivity]. apply in_flat_map. exists ra.
    split; [apply in_or_app; now left|].
    rewrite (validateRule_unknown p (rule ra) G). now left.
Qed.

(** X14: on a line whose first quoted string is [body], an unknown rule is
    reported exactly when [body] contains a pipe and one of its pieces,
    trimmed, does not start with the name of a registered rule.  The rules of
    a line [field => rules] are therefore never checked for their names. *)
Theorem X14_unknown_rules_reported (p : Provider) (i : nat)
  (pre body rest : string) (q1 q2 : ascii) :
  all_chars (fun c => negb (is_quote c)) pre = true ->
  all_chars (fun c => negb (is_quote c)) body = true ->
  body <> EmptyString -> is_quote q1 = true -> is_quote q2 = true ->
  ((exists d,
      In d (lineDiagnostics p i (pre ++ String q1 (body ++ String q2 rest)))
      /\ d_code d = "unknown-rule")
   <-> (includes body "|" = true
        /\ exists piece,
             In piece (split "|" body)
             /\ getValidationRule p (ruleNameOf (trim piece)) = None)).
Proof.
  intros Hpre Hbody Hne H1 H2. rewrite diagnostic_unknown.
  unfold pipeRules. rewrite (first_quoted pre body rest q1 q2 Hpre Hbody Hne H1 H2).
  unfold capd, cap. cbn [m_caps lookup Nat.eqb].
  destruct (includes body "|").
  - split.
    + intros (ra & Hra & G). split; [reflexivity|].
      apply (in_map rule) in Hra. rewrite pipeSpans_rules in Hra.
      apply in_map_iff in Hra. destruct Hra as (piece & Hp & Hin).
      exists piece. split; [exact Hin | now rewrite Hp].
    + intros (_ & piece & Hin & G).
      apply (in_map trim) in Hin.
      rewrite <- (pipeSpans_rules _
                    (indexOfZ (pre ++ String q1 (body ++ String q2 rest)) body))
        in Hin.
      apply in_map_iff in Hin. destruct Hin as (ra & Hr & Hin).
      exists ra. split; [exact Hin | now rewrite Hr].
  - split; [intros (ra & [] & _) | intros [H _]; discriminate].
Qed.

(** a field line with misspelled rules, and a line that only holds rules *)
Lemma X14_field_line_scenario :
  (forall d,
     In d (lineDiagnostics (construct None) 0
             "            'name' => 'requierd|strng',") ->
     d_code d <> "unknown-rule")
  /\ exists d,
       In d (lineDiagnostics (construct None) 0 "    'requierd|string',")
       /\ d_code d = "unknown-rule".
Proof.
  split.
  - intros d Hd Hc.
    pose proof (X14_unknown_rules_reported (construct None) 0 "            "
                  "name" " => 'requierd|strng'," "'"%char "'"%char
                  eq_refl eq_refl ltac:(discriminate) eq_refl eq_refl) as H.
    destruct (proj1 H (ex_intro _ d (conj Hd Hc))) as [Hi _].
    discriminate Hi.
  - pose proof (X14_unknown_rules_reported (construct None) 0 "    "
                  "requierd|string" "," "'"%char "'"%char
                  eq_refl eq_refl ltac:(discriminate) eq_refl eq_refl) as H.
    apply (proj2 H).
    split; [reflexivity|]. exists "requierd". split; [now left | reflexivity].
Defined.

Lemma find_name (rules : list ValidationRule) (n : string) (rd : ValidationRule) :
  find (fun r => String.eqb (name r) n) rules = Some rd ->
  In rd rules /\ name rd = n.
Proof.
  intros H. apply find_some in H. destruct H as [Hin He].
  apply String.eqb_eq in He. now split.
Qed.

(** X15: with the built-in catalogue, a missing-parameters issue is raised
    exactly for one of [min], [max], [unique], [exists], [in] and [regex]
    written without a colon; any text after a colon, even none, silences it. *)
Theorem X15_missing_parameters (dir : option Dir) (rule : string) :
  (exists issue,
     In issue (validateRule (construct dir) rule)
     /\ code issue = "missing-parameters")
  <-> In rule ["min"; "max"; "unique"; "exists"; "in"; "regex"].
Proof.
  split.
  - intros (issue & Hin & Hc). unfold validateRule in Hin.
    destruct (split ":" rule) as [|n ps] eqn:Es; [destruct Hin|].
    unfold getValidationRule in Hin. rewrite construct_rules in Hin.
    destruct (find (fun r => String.eqb (name r) n) catalog) as [rd|] eqn:F.
    2:{ destruct Hin as [<-|[]]. discriminate. }
    apply find_name in F. destruct F as [Hrd Hn].
    apply in_app_or in Hin. destruct Hin as [Hin|Hin].
    + destruct (parameters rd) as [pp|] eqn:Ep; [|destruct Hin].
      destruct (providedCount ps <? requiredCount pp) eqn:El; [|destruct Hin].
      apply Nat.ltb_lt in El.
      assert (requiredCount pp = 1) as Hone.
      { simpl in Hrd.
        repeat (destruct Hrd as [<-|Hrd];
                [simpl in Ep; try discriminate; injection Ep as <-; reflexivity|]).
        destruct Hrd. }
      assert (ps = []) as ->.
      { destruct ps as [|p0 ps]; [reflexivity|]. simpl in El.
        destruct (split "," p0) eqn:E0; [now apply split_nonempty in E0|].
        simpl in El. lia. }
      apply split_single in Es. subst n rule.
      simpl in Hrd.
      repeat (destruct Hrd as [<-|Hrd];
              [simpl in Ep; try discriminate; simpl; tauto|]).
      destruct Hrd.
    + exfalso.
      destruct (String.eqb n "exists" || String.eqb n "unique"); [|destruct Hin].
      destruct ps as [|p0 ps]; [destruct Hin|].
      destruct (negb (JsMap.has (tableArgument p0) _)); [|destruct Hin].
      destruct Hin as [<-|[]]. discriminate.
  - intros Hin. simpl in Hin.
    repeat (destruct Hin as [<-|Hin];
            [unfold validateRule, getValidationRule; rewrite construct_rules;
             eexists; split; [now left | reflexivity]|]).
    destruct Hin.
Qed.

End ValidationDiagnosticFacts.

(** ** Completions: which rules are offered *)

Module CompletionFacts.
Import JsString Regex Validation.

Lemma conflictsOf_own (k : string) :
  JsObject.in_proto k = false ->
  exists l, conflictsOf k = Some l /\ forall b, In b l <-> listed k b.
Proof.
  intros Hp. unfold conflictsOf, listed.
  destruct (JsMap.get k mutuallyExclusive) as [l|].
  - exists l. split; [reflexivity|]. intros b. split.
    + intros Hb. now exists l.
    + intros (l' & Hl & Hb). now injection Hl as ->.
  - rewrite Hp. exists []. split; [reflexivity|]. intros b. split; [intros []|].
    intros (l' & Hl & _). discriminate.
Qed.

Lemma existingConflict_own (b : string) (cur : list string) :
  (forall r, In r cur -> JsObject.in_proto r = false) ->
  exists v, existingConflict b cur = Some v
            /\ (v = true <-> forall a, In a cur -> ~ listed a b).
Proof.
  induction cur as [|e r IH]; intros Hp; simpl.
  - exists true. split; [reflexivity|]. split; [intros _ a [] | reflexivity].
  - destruct (conflictsOf_own e (Hp e (or_introl eq_refl))) as (l & -> & Hl).
    destruct (mem b l) eqn:Em.
    + exists false. split; [reflexivity|]. split; [discriminate|].
      intros H. exfalso. apply (H e (or_introl eq_refl)).
      apply Hl. now apply mem_In.
    + destruct IH as (v & -> & Hv); [intros x Hx; apply Hp; now right|].
      exists v. split; [reflexivity|]. rewrite Hv. split.
      * intros H a [<-|Ha]; [|now apply H].
        intros Hab. apply Hl, mem_In in Hab. congruence.
      * intros H a Ha. apply H. now right.
Qed.

Lemma isRuleApplicable_own (rule : ValidationRule) (cur : list string)
  (fieldName : string) :
  JsObject.in_proto (name rule) = false ->
  (forall r, In r cur -> JsObject.in_proto r = false) ->
  exists v, isRuleApplicable rule cur fieldName = Some v
            /\ (v = true <-> forall a, In a cur -> ~ conflict a (name rule)).
Proof.
  intros Hn Hp. unfold isRuleApplicable.
  destruct (conflictsOf_own (name rule) Hn) as (l & -> & Hl).
  destruct (existsb (fun c => mem c cur) l) eqn:Ex.
  - exists false. split; [reflexivity|]. split; [discriminate|].
    intros H. exfalso. apply existsb_exists in Ex. destruct Ex as (c & Hc & Hm).
    apply mem_In in Hm. apply (H c Hm). right. now apply Hl.
  - destruct (existingConflict_own (name rule) cur Hp) as (v & -> & Hv).
    exists v. split; [reflexivity|]. rewrite Hv. split.
    + intros H a Ha [Hab|Hba]; [now apply (H a Ha)|].
      apply Hl in Hba.
      assert (existsb (fun c => mem c cur) l = true) as Ht.
      { apply existsb_exists. exists a. split; [assumption | now apply mem_In]. }
      congruence.
    + intros H a Ha Hab. apply (H a Ha). now left.
Qed.

Lemma availableRules_own (rules : list ValidationRule) (cur : list string)
  (fieldName : string) :
  (forall rule, In rule rules -> JsObject.in_proto (name rule) = false) ->
  (forall r, In r cur -> JsObject.in_proto r = false) ->
  exists offered,
    availableRules rules cur fieldName = Some offered
    /\ forall rule,
         In rule offered
         <-> (In rule rules /\ ~ In (name rule) cur
              /\ forall a, In a cur -> ~ conflict a (name rule)).
Proof.
  intros Hn Hp. induction rules as [|r rs IH]; simpl.
  - exists []. split; [reflexivity|]. intros rule. simpl. tauto.
  - destruct IH as (l & -> & Hl); [intros x Hx; apply Hn; now right|].
    destruct (isRuleApplicable_own r cur fieldName
                (Hn r (or_introl eq_refl)) Hp) as (v & Hv & Hiff).
    destruct (mem (name r) cur) eqn:Em; cbn [negb].
    + exists l. split; [reflexivity|]. intros rule. rewrite Hl. split.
      * intros (H1 & H2 & H3). auto.
      * intros ([<-|H1] & H2 & H3); [|auto].
        exfalso. apply H2. now apply mem_In.
    + rewrite Hv.
      assert (~ In (name r) cur) as Hnot
        by (intros Hin; apply mem_In in Hin; congruence).
      destruct v.
      * exists (r :: l). split; [reflexivity|]. intros rule. simpl. rewrite Hl.
        split.
        -- intros [<-|(H1 & H2 & H3)]; [|auto].
           repeat split; auto. now apply Hiff.
        -- intros ([<-|H1] & H2 & H3); auto.
      * exists l. split; [reflexivity|]. intros rule. rewrite Hl. split.
        -- intros (H1 & H2 & H3). auto.
        -- intros ([<-|H1] & H2 & H3); [|auto].
           apply Hiff in H3. discriminate.
Qed.

Lemma catalog_own (rule : ValidationRule) :
  In rule catalog -> JsObject.in_proto (name rule) = false.
Proof.
  intros H. simpl in H.
  repeat (destruct H as [<-|H]; [reflexivity|]). destruct H.
Qed.

(** X16: unless a rule already typed is named like a member of
    [Object.prototype], the completion provider returns, and it offers exactly
    the catalogue rules that are not typed yet and conflict, in either
    direction of the exclusion table, with no typed rule. *)
Theorem X16_offered_rules (dir : option Dir) (beforeCursor : string) :
  let cur :=
    extractCurrentRules beforeCursor
      (includes beforeCursor "[" && negb (includes beforeCursor "]")) in
  (forall r, In r cur -> JsObject.in_proto r = false) ->
  exists offered,
    provideValidationRuleCompletions (construct dir) beforeCursor = Some offered
    /\ forall rule,
         In rule offered
         <-> (In rule catalog /\ ~ In (name rule) cur
              /\ forall a, In a cur -> ~ conflict a (name rule)).
Proof.
  intros cur Hp. unfold provideValidationRuleCompletions.
  rewrite construct_rules. apply availableRules_own; [apply catalog_own | exact Hp].
Qed.

Lemma X16_required_integer_scenario :
  exists offered,
    provideValidationRuleCompletions (construct None)
      "            'age' => 'required|integer|" = Some offered
    /\ forall rule,
         In rule offered
         <-> (In rule catalog /\ ~ In (name rule) ["required"; "integer"]
              /\ forall a, In a ["required"; "integer"] ->
                   ~ conflict a (name rule)).
Proof.
  apply (X16_offered_rules None "            'age' => 'required|integer|").
  intros r Hr. vm_compute in Hr.
  destruct Hr as [<-|[<-|[]]]; reflexivity.
Defined.

Lemma email_unlisted (e : string) (l : list string) :
  conflictsOf e = Some l -> mem "email" l = false.
Proof.
  unfold conflictsOf. destruct (JsMap.get e mutuallyExclusive) as [l'|] eqn:G.
  - intros H. injection H as <-. apply get_In in G. simpl in G.
    repeat (destruct G as [G|G]; [injection G as <- <-; reflexivity|]).
    destruct G.
  - destruct (JsObject.in_proto e); [discriminate|]. now intros [= <-].
Qed.

Lemma existingConflict_raises (r : string) (cur : list string) :
  In r cur -> JsObject.in_proto r = true ->
  existingConflict "email" cur = None.
Proof.
  intros Hin Hp. induction cur as [|e rest IH]; [destruct Hin|].
  simpl. destruct (conflictsOf e) as [l|] eqn:E; [|reflexivity].
  rewrite (email_unlisted e l E).
  destruct Hin as [->|Hin]; [|now apply IH].
  exfalso. unfold conflictsOf in E.
  destruct (JsMap.get r mutuallyExclusive) eqn:G.
  - apply get_In in G. simpl in G.
    repeat (destruct G as [G|G]; [injection G as <- <-; discriminate|]).
    destruct G.
  - rewrite Hp in E. discriminate.
Qed.

Lemma availableRules_raises (rules : list ValidationRule) (cur : list string)
  (fieldName : string) (rule : ValidationRule) :
  In rule rules -> mem (name rule) cur = false ->
  isRuleApplicable rule cur fieldName = None ->
  availableRules rules cur fieldName = None.
Proof.
  intros Hin Hm Ha. induction rules as [|r rs IH]; [destruct Hin|].
  simpl. destruct Hin as [->|Hin].
  - now rewrite Hm, Ha.
  - rewrite (IH Hin).
    destruct (if negb (mem (name r) cur) then _ else _); reflexivity.
Qed.

(** X17: when a rule already typed is named like a member of
    [Object.prototype] ([constructor], [toString], ...) and [email] has not
    been typed, the completion provider raises a TypeError instead of
    returning completions. *)
Theorem X17_inherited_name_raises (dir : option Dir) (beforeCursor r : string) :
  let cur :=
    extractCurrentRules beforeCursor
      (includes beforeCursor "[" && negb (includes beforeCursor "]")) in
  In r cur -> JsObject.in_proto r = true -> ~ In "email" cur ->
  provideValidationRuleCompletions (construct dir) beforeCursor = None.
Proof.
  intros cur Hin Hp He. unfold provideValidationRuleCompletions.
  rewrite construct_rules.
  apply availableRules_raises with
    (rule := MkRule "email"
       "The field under validation must be formatted as an email address"
       None ["email"; "email:rfc,dns"] "Format" None).
  - simpl. tauto.
  - cbn [name]. destruct (mem "email" _) eqn:E; [|reflexivity].
    apply mem_In in E. contradiction.
  - unfold isRuleApplicable. cbn [name].
    change (conflictsOf "email") with (Some (@nil string)). cbn [existsb].
    now apply existingConflict_raises with (r := r).
Qed.

Lemma X17_toString_scenario :
  provideValidationRuleCompletions (construct None)
    "            'title' => 'required|toString|" = None.
Proof.
  apply (X17_inherited_name_raises None
           "            'title' => 'required|toString|" "toString").
  - vm_compute. tauto.
  - reflexivity.
  - vm_compute. intros [H|[H|[]]]; discriminate.
Defined.

End CompletionFacts.

(** ** Generated rules, class names and sorted rules *)

Module ValidationCommandFacts.
Import JsString Regex RegexSpec RegexFacts Validation ValidationDiagnostics.
Import ValidationCommands ValidationSpec RegexSemFacts StringFacts QuotedFacts.

Lemma validateRule_construct (dir : option Dir) (r : string) :
  validateRule (construct dir) r
  = validateRule (MkProvider catalog (databaseTables (construct dir))) r.
Proof. unfold validateRule, getValidationRule. now rewrite construct_rules. Qed.

Lemma validateRule_exists (tables : JsMap.t DatabaseTable) (args : string)
  (issue : Issue) :
  In issue (validateRule (MkProvider catalog tables) ("exists:" ++ args)) ->
  code issue = "table-not-found".
Proof.
  unfold validateRule.
  change ("exists:" ++ args)%string with ("exists" ++ String ":" args)%string.
  rewrite (split_app_sep ":" "exists" args eq_refl).
  destruct (split ":" args) as [|p0 ps] eqn:E; [now apply split_nonempty in E|].
  change (getValidationRule (MkProvider catalog tables) "exists")
    with (Some (MkRule "exists"
      "The field under validation must exist in a given database table"
      (Some tableParams) ["exists:users"; "exists:users,id"] "Database" None)).
  cbn [parameters providedCount databaseTables].
  change (requiredCount tableParams) with 1.
  destruct (split "," p0) as [|h r] eqn:E0; [now apply split_nonempty in E0|].
  cbn [List.length Nat.ltb Nat.leb app].
  change (String.eqb "exists" "exists" || String.eqb "exists" "unique") with true.
  cbv iota. destruct (negb _); intros Hin; [|destruct Hin].
  destruct Hin as [<-|[]]. reflexivity.
Qed.

(** X18: of the rules generated for a column, the validator objects only to
    [url], which the catalogue does not hold, and to the table guessed for a
    column ending in [_id]. *)
Theorem X18_generated_rules_checked (dir : option Dir) (column r : string)
  (issue : Issue) :
  In r (ruleSetFor column) -> In issue (validateRule (construct dir) r) ->
  (r = "url" /\ issue = unknownRule "url")
  \/ (endsWith column "_id" = true /\ code issue = "table-not-found").
Proof.
  intros Hr Hi. rewrite validateRule_construct in Hi.
  generalize dependent (databaseTables (construct dir)). intros T Hi.
  unfold ruleSetFor in Hr.
  destruct (String.eqb column "email").
  { simpl in Hr.
    repeat (destruct Hr as [<-|Hr]; [vm_compute in Hi; tauto|]). destruct Hr. }
  destruct (includes column "password").
  { simpl in Hr.
    repeat (destruct Hr as [<-|Hr]; [vm_compute in Hi; tauto|]). destruct Hr. }
  destruct (endsWith column "_id").
  { right. split; [reflexivity|]. simpl in Hr.
    destruct Hr as [<-|Hr]; [vm_compute in Hi; tauto|].
    destruct Hr as [<-|Hr]; [vm_compute in Hi; tauto|].
    destruct Hr as [<-|[]]. now apply validateRule_exists in Hi. }
  destruct (includes column "phone").
  { simpl in Hr.
    repeat (destruct Hr as [<-|Hr]; [vm_compute in Hi; tauto|]). destruct Hr. }
  destruct (includes column "url" || includes column "website").
  { simpl in Hr.
    destruct Hr as [<-|Hr]; [vm_compute in Hi; tauto|].
    destruct Hr as [<-|Hr]; [vm_compute in Hi; tauto|].
    destruct Hr as [<-|[]]. left. split; [reflexivity|].
    vm_compute in Hi. destruct Hi as [<-|[]]. reflexivity. }
  destruct (includes column "date" || endsWith column "_at").
  { simpl in Hr.
    repeat (destruct Hr as [<-|Hr]; [vm_compute in Hi; tauto|]). destruct Hr. }
  destruct (includes column "name" || includes column "title");
    simpl in Hr;
    repeat (destruct Hr as [<-|Hr]; [vm_compute in Hi; tauto|]); destruct Hr.
Qed.

Lemma X18_website_scenario :
  (("url" = "url" /\ unknownRule "url" = unknownRule "url")
   \/ (endsWith "website" "_id" = true
       /\ code (unknownRule "url") = "table-not-found"))
  /\ (endsWith "author_id" "_id" = true
      /\ code (tableNotFound "authors") = "table-not-found").
Proof.
  split.
  - apply (X18_generated_rules_checked None "website" "url" (unknownRule "url")).
    + vm_compute. tauto.
    + vm_compute. tauto.
  - destruct (X18_generated_rules_checked None "author_id" "exists:authors,id"
                (tableNotFound "authors")) as [[H _]|H].
    + vm_compute. tauto.
    + vm_compute. tauto.
    + discriminate H.
    + exact H.
Defined.

(** *** Class names *)

Lemma upper_lower_char (c : ascii) :
  is_upper c = true ->
  upper_char (lower_char c) = c
  /\ is_dot (lower_char c) = true
  /\ Ascii.eqb (lower_char c) "_"%char = false.
Proof.
  destruct c as [[] [] [] [] [] [] [] []]; intros H; try discriminate H;
    repeat split.
Qed.

Lemma lower_plain_char (c : ascii) :
  is_lower c || is_digit c = true ->
  is_upper c = false /\ lower_char c = c /\ Ascii.eqb c "_"%char = false.
Proof.
  destruct c as [[] [] [] [] [] [] [] []]; intros H; try discriminate H;
    repeat split.
Qed.

Lemma camel_snake (t suffix : string) :
  all_chars (fun x => is_upper x || is_lower x || is_digit x) t = true ->
  (forall c u, suffix = String c u -> Ascii.eqb c "_"%char = false) ->
  upperAfterUnderscore suffix = suffix ->
  upperAfterUnderscore (toLowerCase (Schema.underscoreUpper t) ++ suffix) =
  (t ++ suffix)%string.
Proof.
  intros Ht Hs1 Hs2. induction t as [|x t IH]; [exact Hs2|].
  simpl in Ht. apply andb_true_iff in Ht. destruct Ht as [Hx Ht].
  specialize (IH Ht). cbn [Schema.underscoreUpper].
  destruct (is_upper x) eqn:Eu.
  - destruct (upper_lower_char x Eu) as (H1 & H2 & H3).
    cbn [toLowerCase map_chars append]. fold toLowerCase.
    change (lower_char "_") with "_"%char.
    cbn [upperAfterUnderscore Ascii.eqb Bool.eqb]. cbv iota.
    rewrite H2, H1. f_equal. exact IH.
  - simpl in Hx. destruct (lower_plain_char x Hx) as (_ & H2 & H3).
    cbn [toLowerCase map_chars append]. fold toLowerCase. rewrite H2.
    cbn [upperAfterUnderscore]. rewrite H3. f_equal. exact IH.
Qed.

Lemma dropFinalS_plural (s : string) : dropFinalS (s ++ "s") = s.
Proof.
  unfold dropFinalS, endsWith, drop. rewrite length_append. cbn [length].
  replace (length s + 1 - 1) with (length s) by lia.
  replace (length s + 1 - length s) with 1 by lia.
  rewrite substring_skip. cbn [substring]. rewrite String.eqb_refl.
  assert ((1 <=? length s + 1) = true) as -> by (apply Nat.leb_le; lia).
  cbn [andb]. apply substring_all.
Qed.

(** X19: the class name generated for a table undoes the table name derived
    from a model: for a model name that starts with an uppercase letter and
    consists of letters and digits, [toPascalCase] of its table name is the
    model name again. *)
Theorem X19_class_name_of_table_name (c : ascii) (t : string) :
  is_upper c = true ->
  all_chars (fun x => is_upper x || is_lower x || is_digit x) t = true ->
  toPascalCase (modelNameToTableName (String c t)) = String c t.
Proof.
  intros Hc Ht. unfold toPascalCase, modelNameToTableName.
  cbn [Schema.underscoreUpper]. rewrite Hc.
  cbn [toLowerCase map_chars substring1 append]. fold toLowerCase.
  destruct (upper_lower_char c Hc) as (H1 & H2 & H3).
  cbn [upperAfterUnderscore]. rewrite H3.
  rewrite (camel_snake t "s" Ht);
    [| intros c0 u [= <- <-]; reflexivity | reflexivity].
  cbn [upperFirst]. rewrite H2, H1.
  change (String c (t ++ "s")) with (String c t ++ "s")%string.
  apply dropFinalS_plural.
Qed.

Lemma X19_user_profile_scenario :
  modelNameToTableName "UserProfile" = "user_profiles"
  /\ toPascalCase (modelNameToTableName "UserProfile") = "UserProfile".
Proof.
  split; [reflexivity|].
  apply (X19_class_name_of_table_name "U"%char "serProfile"); reflexivity.
Defined.

(** *** Sorting *)

(** the text of the first quoted string occurs first where it was matched *)
Lemma indexOf_first_quoted (pre body rest : string) (q1 q2 : ascii) :
  all_chars (fun c => negb (is_quote c)) pre = true -> is_quote q1 = true ->
  indexOf (pre ++ String q1 (body ++ String q2 rest))
    (String q1 (body ++ str1 q2)) = Some (length pre).
Proof.
  intros Hpre H1. unfold indexOf. induction pre as [|b pre IH].
  - cbn [append length].
    change (String q1 (body ++ String q2 rest))
      with (String q1 (body ++ (str1 q2 ++ rest)))%string.
    rewrite <- append_assoc.
    change (String q1 ((body ++ str1 q2) ++ rest))%string
      with (String q1 (body ++ str1 q2) ++ rest)%string.
    generalize (String q1 (body ++ str1 q2)). intros s.
    destruct (s ++ rest)%string eqn:E.
    + destruct s; [reflexivity | discriminate].
    + cbn [index]. rewrite <- E, prefix_append. reflexivity.
  - simpl in Hpre. apply andb_true_iff in Hpre. destruct Hpre as [Hb Hpre].
    cbn [append index prefix length].
    destruct (ascii_dec q1 b) as [->|_].
    + rewrite H1 in Hb. discriminate.
    + now rewrite (IH Hpre).
Qed.

Lemma insertRule_perm (x : string) (l : list string) :
  Permutation (x :: l) (insertRule x l).
Proof.
  induction l as [|y r IH]; simpl; [constructor; constructor|].
  destruct (priority y <=? priority x); [|apply Permutation_refl].
  eapply perm_trans; [apply perm_swap|]. now constructor.
Qed.

Lemma insertRule_sorted (x : string) (l : list string) :
  StronglySorted by_priority l -> StronglySorted by_priority (insertRule x l).
Proof.
  induction l as [|y r IH]; intros Hs; simpl.
  - repeat constructor.
  - inversion Hs as [|? ? Hr Hall]; subst.
    destruct (priority y <=? priority x) eqn:E.
    + apply Nat.leb_le in E. constructor; [now apply IH|].
      apply (Permutation_Forall (insertRule_perm x r)). now constructor.
    + apply Nat.leb_gt in E. constructor; [assumption|].
      constructor; [unfold by_priority; lia|].
      eapply Forall_impl; [|exact Hall]. unfold by_priority. intros; lia.
Qed.

Lemma filter_above (k : nat) (l : list string) :
  Forall (fun y => k < priority y) l ->
  filter (fun r => priority r =? k) l = [].
Proof.
  induction 1 as [|y r Hy _ IH]; simpl; [reflexivity|].
  assert ((priority y =? k) = false) as -> by (apply Nat.eqb_neq; lia).
  exact IH.
Qed.

Lemma insertRule_stable (k : nat) (x : string) (l : list string) :
  StronglySorted by_priority l ->
  filter (fun r => priority r =? k) (insertRule x l)
  = filter (fun r => priority r =? k) l
    ++ filter (fun r => priority r =? k) [x].
Proof.
  induction l as [|y r IH]; intros Hs; [reflexivity|].
  inversion Hs as [|? ? Hr Hall]; subst. cbn [insertRule].
  destruct (priority y <=? priority x) eqn:E.
  - cbn [filter]. rewrite (IH Hr).
    destruct (priority y =? k); reflexivity.
  - apply Nat.leb_gt in E. cbn [filter].
    destruct (priority x =? k) eqn:Ek.
    + apply Nat.eqb_eq in Ek. subst k.
      assert ((priority y =? priority x) = false) as ->
        by (apply Nat.eqb_neq; lia).
      rewrite filter_above; [reflexivity|].
      eapply Forall_impl; [|exact Hall]. unfold by_priority. intros; lia.
    + now rewrite app_nil_r.
Qed.

Lemma sort_fold (l : list string) :
  forall acc,
    StronglySorted by_priority acc ->
    let sorted := fold_left (fun acc x => insertRule x acc) l acc in
    Permutation (acc ++ l) sorted
    /\ StronglySorted by_priority sorted
    /\ forall k, filter (fun r => priority r =? k) sorted
                 = filter (fun r => priority r =? k) (acc ++ l).
Proof.
  induction l as [|x r IH]; intros acc Hs; cbn [fold_left].
  - rewrite app_nil_r. repeat split; [apply Permutation_refl | assumption].
  - destruct (IH (insertRule x acc) (insertRule_sorted x acc Hs))
      as (Hp & Hso & Hst).
    repeat split.
    + eapply perm_trans; [|exact Hp].
      eapply perm_trans; [apply Permutation_sym, Permutation_middle|].
      apply (Permutation_app_tail r (insertRule_perm x acc)).
    + exact Hso.
    + intros k. rewrite Hst, !filter_app, (insertRule_stable k x acc Hs).
      rewrite <- app_assoc. f_equal. cbn [filter].
      destruct (priority x =? k); reflexivity.
Qed.

(** what [sortRules] returns is the stable sort of its argument *)
Lemma sortRules_spec (rules : list string) :
  Permutation rules (sortRules rules)
  /\ StronglySorted by_priority (sortRules rules)
  /\ forall k, filter (fun r => priority r =? k) (sortRules rules)
               = filter (fun r => priority r =? k) rules.
Proof. apply (sort_fold rules []). constructor. Qed.

Lemma first_quoted_span (pre body rest : string) (q1 q2 : ascii) :
  all_chars (fun c => negb (is_quote c)) pre = true -> is_quote q1 = true ->
  let line := (pre ++ String q1 (body ++ String q2 rest))%string in
  ValidationCommands.indexOfZ line (String q1 (body ++ str1 q2))
  = Z.of_nat (length pre)
  /\ (ValidationCommands.indexOfZ line (String q1 (body ++ str1 q2))
      + Z.of_nat (length (String q1 (body ++ str1 q2))))%Z
     = Z.of_nat (length pre + length body + 2).
Proof.
  intros Hpre H1 line. unfold ValidationCommands.indexOfZ, line.
  rewrite (indexOf_first_quoted pre body rest q1 q2 Hpre H1).
  split; [reflexivity|]. cbn [length]. rewrite length_append. cbn [length str1].
  lia.
Qed.

(** X20: on a line without bracket whose first quoted string has no piece
    named like a member of [Object.prototype] ([constructor], [toString],
    ...), [sortValidationRules] replaces that string, quotes included, by its
    pieces between pipes in the order of a stable sort by priority: the same
    pieces, priorities ascending, pieces of equal priority in their former
    order.  The first quoted string is the one rewritten also when it is the
    field name.  (For a piece named like a member of [Object.prototype] the
    priority read from the table is no number, the comparator yields NaN and
    the order is left to the engine.) *)
Theorem X20_sorted_rules (pre body rest : string) (q1 q2 : ascii) :
  let line := (pre ++ String q1 (body ++ String q2 rest))%string in
  includes line "[" = false ->
  all_chars (fun c => negb (is_quote c)) pre = true ->
  all_chars (fun c => negb (is_quote c)) body = true ->
  body <> EmptyString -> is_quote q1 = true -> is_quote q2 = true ->
  (forall piece, In piece (split "|" body) ->
     JsObject.in_proto (Validation.ruleNameOf piece) = false) ->
  exists sorted,
    sortValidationRules line
    = Replace (Z.of_nat (length pre)) (Z.of_nat (length pre + length body + 2))
        ("'" ++ concat "|" sorted ++ "'")
    /\ Permutation (split "|" body) sorted
    /\ StronglySorted (fun x y => priority x <= priority y) sorted
    /\ forall k, filter (fun r => priority r =? k) sorted
                 = filter (fun r => priority r =? k) (split "|" body).
Proof.
  intros line Hb Hpre Hbody Hne H1 H2 Hproto.
  assert (determined (split "|" body) = true) as Hd.
  { unfold determined. apply forallb_forall. intros piece Hin.
    unfold priorityOf. rewrite (Hproto piece Hin).
    now destruct (JsMap.get (Validation.ruleNameOf piece) rulePriority). }
  exists (sortRules (split "|" body)). split; [|apply sortRules_spec].
  unfold sortValidationRules. rewrite Hb. unfold line.
  rewrite (first_quoted pre body rest q1 q2 Hpre Hbody Hne H1 H2).
  unfold capd, cap. cbn [m_caps lookup Nat.eqb m_text]. rewrite Hd.
  destruct (first_quoted_span pre body rest q1 q2 Hpre H1) as [-> ->].
  reflexivity.
Qed.

Lemma X20_rules_line_scenario :
  (forall piece, In piece ["max:255"; "string"; "required"; "min:3"] ->
     JsObject.in_proto (Validation.ruleNameOf piece) = false)
  /\ exists sorted,
       sortValidationRules "        'max:255|string|required|min:3',"
       = Replace 8 39 ("'" ++ concat "|" sorted ++ "'")
       /\ Permutation ["max:255"; "string"; "required"; "min:3"] sorted
       /\ StronglySorted (fun x y => priority x <= priority y) sorted
       /\ forall k, filter (fun r => priority r =? k) sorted
                    = filter (fun r => priority r =? k)
                        ["max:255"; "string"; "required"; "min:3"].
Proof.
  assert (forall piece, In piece ["max:255"; "string"; "required"; "min:3"] ->
            JsObject.in_proto (Validation.ruleNameOf piece) = false) as Hp.
  { intros piece [<-|[<-|[<-|[<-|[]]]]]; reflexivity. }
  split; [exact Hp|].
  apply (X20_sorted_rules "        " "max:255|string|required|min:3" ","
           "'"%char "'"%char); try reflexivity; [discriminate | exact Hp].
Defined.

(** the text written on that line *)
Example rules_line_sorted :
  sortValidationRules "        'max:255|string|required|min:3',"
  = Replace 8 39 "'required|string|max:255|min:3'".
Proof. vm_compute. reflexivity. Qed.

(** X21: [convertValidationFormat] replaces the first quoted string of the
    line, quotes included, by the bracketed list of its trimmed pieces, each
    in single quotes; this is the field name on a line [field => rules]. *)
Theorem X21_converted_format (pre body rest : string) (q1 q2 : ascii) :
  all_chars (fun c => negb (is_quote c)) pre = true ->
  all_chars (fun c => negb (is_quote c)) body = true ->
  body <> EmptyString -> is_quote q1 = true -> is_quote q2 = true ->
  convertValidationFormat (pre ++ String q1 (body ++ String q2 rest))
  = Some (Z.of_nat (length pre), Z.of_nat (length pre + length body + 2),
          ("[" ++ concat ", "
                    (map (fun rule => "'" ++ trim rule ++ "'")
                       (split "|" body)) ++ "]")%string).
Proof.
  intros Hpre Hbody Hne H1 H2. unfold convertValidationFormat.
  rewrite (first_quoted pre body rest q1 q2 Hpre Hbody Hne H1 H2).
  unfold capd, cap. cbn [m_caps lookup Nat.eqb m_text].
  destruct (first_quoted_span pre body rest q1 q2 Hpre H1) as [-> ->].
  reflexivity.
Qed.

Lemma X21_field_line_scenario :
  convertValidationFormat "    'name' => 'required|string',"
  = Some (4%Z, 10%Z, "['name']")
  /\ convertValidationFormat "    'required | string',"
     = Some (4%Z, 23%Z, "['required', 'string']").
Proof.
  split.
  - apply (X21_converted_format "    " "name" " => 'required|string',"
             "'"%char "'"%char); try reflexivity. discriminate.
  - apply (X21_converted_format "    " "required | string" ","
             "'"%char "'"%char); try reflexivity. discriminate.
Defined.

End ValidationCommandFacts.

(** ** Edit distance and suggestions *)

Module SimilarityFacts.
Import JsString Regex RegexSpec RegexFacts Validation RuleSuggestions ValidationSpec.

Lemma length_set_nth {A : Type} (n : nat) (v : A) (l : list A) :
  List.length (set_nth n v l) = List.length l.
Proof.
  revert n. induction l as [|h t IH]; intros [|n]; simpl; auto.
Qed.

Lemma nth_set_nth_same {A : Type} (n : nat) (v d : A) (l : list A) :
  n < List.length l -> nth n (set_nth n v l) d = v.
Proof.
  revert n. induction l as [|h t IH]; intros [|n] H; simpl in *; try lia; auto.
  apply IH. lia.
Qed.

Lemma nth_set_nth_other {A : Type} (n k : nat) (v d : A) (l : list A) :
  n <> k -> nth k (set_nth n v l) d = nth k l d.
Proof.
  revert n k. induction l as [|h t IH]; intros [|n] [|k] H; simpl; auto; try lia.
Qed.

Lemma cell_assign_same (m : Matrix) (j i v : nat) :
  j < List.length m -> i < List.length (nth j m []) ->
  cell (assign m j i v) j i = v.
Proof.
  intros Hj Hi. unfold cell, assign.
  rewrite nth_set_nth_same by assumption. now apply nth_set_nth_same.
Qed.

Lemma cell_assign_other (m : Matrix) (j i v j' i' : nat) :
  j < List.length m -> j' <> j \/ i' <> i ->
  cell (assign m j i v) j' i' = cell m j' i'.
Proof.
  intros Hj H. unfold cell, assign.
  destruct (Nat.eq_dec j' j) as [->|Hne].
  - rewrite nth_set_nth_same by assumption.
    apply nth_set_nth_other. destruct H; congruence.
  - rewrite nth_set_nth_other by congruence. reflexivity.
Qed.

Lemma shaped_assign (rows cols : nat) (m : Matrix) (j i v : nat) :
  shaped rows cols m -> shaped rows cols (assign m j i v).
Proof.
  intros [Hl Hr]. unfold assign. split.
  - now rewrite length_set_nth.
  - intros j' Hj'. destruct (Nat.eq_dec j' j) as [->|Hne].
    + rewrite nth_set_nth_same by lia. rewrite length_set_nth. now apply Hr.
    + rewrite nth_set_nth_other by congruence. now apply Hr.
Qed.

Lemma nth_repeat_lt {A : Type} (x d : A) (n k : nat) :
  k < n -> nth k (repeat x n) d = x.
Proof.
  revert k. induction n as [|n IH]; intros [|k] H; simpl; try lia; auto.
  apply IH. lia.
Qed.

Lemma shaped_repeat (rows cols : nat) :
  shaped rows cols (repeat (repeat 0 cols) rows).
Proof.
  split; [apply repeat_length|].
  intros j Hj. rewrite nth_repeat_lt by assumption. apply repeat_length.
Qed.

(** a loop over [s], [s + 1], ..., [s + n - 1] *)
Lemma fold_seq_invariant {A : Type} (f : A -> nat -> A) (P : nat -> A -> Prop)
  (n : nat) :
  forall (s : nat) (x : A),
    P s x ->
    (forall k y, s <= k < s + n -> P k y -> P (S k) (f y k)) ->
    P (s + n) (fold_left f (seq s n) x).
Proof.
  induction n as [|n IH]; intros s x H0 Hstep; simpl.
  - now rewrite Nat.add_0_r.
  - rewrite <- Nat.add_succ_comm. apply IH.
    + apply Hstep; [lia | exact H0].
    + intros k y Hk. apply Hstep. lia.
Qed.

Lemma lev_0_r (a b : string) (i : nat) : lev a b i 0 = i.
Proof. destruct i; reflexivity. Qed.

Lemma lev_SS (a b : string) (i j : nat) :
  lev a b (S i) (S j)
  = Nat.min (Nat.min (lev a b i (S j) + 1) (lev a b (S i) j + 1))
      (lev a b i j + (if same_char (get i a) (get j b) then 0 else 1)).
Proof. reflexivity. Qed.

Lemma filled_initial (a b : string) : filled a b 1 1 (initial a b).
Proof.
  unfold initial.
  set (P1 := fun (k : nat) (m : Matrix) =>
               shaped (S (length b)) (S (length a)) m
               /\ forall i, i < k -> cell m 0 i = i).
  assert (P1 (0 + S (length a))
            (fold_left (fun m i => assign m 0 i i) (seq 0 (S (length a)))
               (repeat (repeat 0 (S (length a))) (S (length b))))) as H1.
  { apply (fold_seq_invariant _ P1).
    - split; [apply shaped_repeat | intros i Hi; lia].
    - intros k y Hk [Hs Hc]. split; [now apply shaped_assign|].
      destruct Hs as [Hl Hr]. intros i Hi.
      destruct (Nat.eq_dec i k) as [->|Hne].
      + apply cell_assign_same; [lia|]. rewrite Hr; lia.
      + rewrite cell_assign_other; [apply Hc; lia | lia | now right]. }
  set (P2 := fun (k : nat) (m : Matrix) =>
               shaped (S (length b)) (S (length a)) m
               /\ (forall i, i <= length a -> cell m 0 i = i)
               /\ forall j, j < k -> cell m j 0 = j).
  assert (P2 (0 + S (length b))
            (fold_left (fun m j => assign m j 0 j) (seq 0 (S (length b)))
               (fold_left (fun m i => assign m 0 i i) (seq 0 (S (length a)))
                  (repeat (repeat 0 (S (length a))) (S (length b)))))) as H2.
  { apply (fold_seq_invariant _ P2).
    - destruct H1 as [Hs Hc]. repeat split; try apply Hs.
      + intros i Hi. apply Hc. lia.
      + intros j Hj. lia.
    - intros k y Hk (Hs & Hrow & Hcol). split; [now apply shaped_assign|].
      destruct Hs as [Hl Hr]. split.
      + intros i Hi. destruct (Nat.eq_dec k 0) as [->|Hk0].
        * destruct (Nat.eq_dec i 0) as [->|Hi0].
          -- apply cell_assign_same; [lia|]. rewrite Hr; lia.
          -- rewrite cell_assign_other; [now apply Hrow | lia | now right].
        * rewrite cell_assign_other; [now apply Hrow | lia | left; lia].
      + intros j Hj. destruct (Nat.eq_dec j k) as [->|Hne].
        * apply cell_assign_same; [lia|]. rewrite Hr; lia.
        * rewrite cell_assign_other; [apply Hcol; lia | lia | now left]. }
  destruct H2 as (Hs & Hrow & Hcol). split; [exact Hs|].
  intros j i Hj Hi H.
  assert (i = 0 \/ j = 0) as [->| ->] by lia.
  - change (lev a b 0 j) with j. apply Hcol. lia.
  - rewrite lev_0_r. now apply Hrow.
Qed.

Lemma filled_cellStep (a b : string) (j i : nat) (m : Matrix) :
  1 <= j <= length b -> 1 <= i <= length a ->
  filled a b j i m -> filled a b j (S i) (cellStep a b j m i).
Proof.
  intros Hj Hi [Hs Hc]. unfold cellStep. split; [now apply shaped_assign|].
  destruct Hs as [Hl Hr]. intros j' i' Hj' Hi' H.
  destruct (Nat.eq_dec j' j) as [->|Hnj].
  - destruct (Nat.eq_dec i' i) as [->|Hni].
    + rewrite cell_assign_same by (try rewrite Hr; lia).
      destruct j as [|j0]; [lia|]. destruct i as [|i0]; [lia|].
      cbn [Nat.sub]. rewrite !Nat.sub_0_r, lev_SS.
      rewrite (Hc (S j0) i0), (Hc j0 (S i0)), (Hc j0 i0) by lia.
      reflexivity.
    + rewrite cell_assign_other; [apply Hc; lia | lia | now right].
  - rewrite cell_assign_other; [apply Hc; lia | lia | now left].
Qed.

Lemma filled_rowStep (a b : string) (j : nat) (m : Matrix) :
  1 <= j <= length b ->
  filled a b j 1 m -> filled a b (S j) 1 (rowStep a b m j).
Proof.
  intros Hj Hf. unfold rowStep.
  assert (filled a b j (1 + length a)
            (fold_left (cellStep a b j) (seq 1 (length a)) m)) as [Hs Hc].
  { apply (fold_seq_invariant (cellStep a b j) (fun i y => filled a b j i y));
      [exact Hf|].
    intros k y Hk Hy. apply filled_cellStep; [exact Hj | lia | exact Hy]. }
  split; [exact Hs|]. intros j' i' Hj' Hi' H. apply Hc; lia.
Qed.

(** the matrix loop computes the recurrence *)
Lemma distance_recurrence (a b : string) :
  levenshteinDistance a b = lev a b (length a) (length b).
Proof.
  unfold levenshteinDistance.
  assert (filled a b (1 + length b) 1
            (fold_left (rowStep a b) (seq 1 (length b)) (initial a b)))
    as [_ Hc].
  { apply (fold_seq_invariant (rowStep a b) (fun j y => filled a b j 1 y));
      [apply filled_initial|].
    intros k y Hk Hy. apply filled_rowStep; [lia | exact Hy]. }
  apply Hc; lia.
Qed.

Lemma same_char_sym (x y : option ascii) : same_char x y = same_char y x.
Proof. destruct x, y; simpl; auto. apply Ascii.eqb_sym. Qed.

Lemma same_char_eq (x y : option ascii) : same_char x y = true <-> x = y.
Proof.
  destruct x as [c|], y as [d|]; simpl; split; try congruence; try discriminate.
  - intros H. apply Ascii.eqb_eq in H. now subst.
  - intros [= ->]. apply Ascii.eqb_refl.
Qed.

Lemma lev_sym (a b : string) : forall i j, lev a b i j = lev b a j i.
Proof.
  induction i as [|i IHi]; intros j.
  - now rewrite lev_0_r.
  - induction j as [|j IHj]; [reflexivity|].
    rewrite !lev_SS, IHj, (IHi (S j)), (IHi j), same_char_sym. lia.
Qed.

Lemma lev_bounds (a b : string) :
  forall i j, (i - j) + (j - i) <= lev a b i j <= Nat.max i j.
Proof.
  induction i as [|i IHi]; intros j.
  - simpl. lia.
  - induction j as [|j IHj]; [rewrite lev_0_r; lia|].
    rewrite lev_SS. pose proof (IHi (S j)). pose proof (IHi j).
    destruct (same_char (get i a) (get j b)); lia.
Qed.

Lemma lev_zero (a b : string) :
  forall i, lev a b i i = 0 <->
            forall k, k < i -> same_char (get k a) (get k b) = true.
Proof.
  induction i as [|i IH].
  - split; [intros _ k Hk; lia | reflexivity].
  - rewrite lev_SS.
    pose proof (lev_bounds a b i (S i)). pose proof (lev_bounds a b (S i) i).
    split.
    + intros H1 k Hk.
      destruct (same_char (get i a) (get i b)) eqn:E; [|lia].
      destruct (Nat.eq_dec k i) as [->|Hne]; [exact E|].
      apply IH; lia.
    + intros Hall. rewrite (Hall i) by lia.
      assert (lev a b i i = 0) as -> by (apply IH; intros k Hk; apply Hall; lia).
      lia.
Qed.

Lemma get_beyond (s : string) : forall k, length s <= k -> get k s = None.
Proof.
  induction s as [|c s IH]; intros k Hk; [destruct k; reflexivity|].
  destruct k as [|k]; simpl in *; [lia|]. apply IH. lia.
Qed.

Lemma distance_sym (a b : string) :
  levenshteinDistance a b = levenshteinDistance b a.
Proof. rewrite !distance_recurrence. apply lev_sym. Qed.

Lemma distance_bounds (a b : string) :
  (length a - length b) + (length b - length a) <= levenshteinDistance a b
  /\ levenshteinDistance a b <= Nat.max (length a) (length b).
Proof. rewrite distance_recurrence. apply lev_bounds. Qed.

Lemma distance_zero (a b : string) : levenshteinDistance a b = 0 <-> a = b.
Proof.
  rewrite distance_recurrence. split.
  - intros H. pose proof (lev_bounds a b (length a) (length b)) as Hb.
    assert (length a = length b) as Hl by lia.
    rewrite <- Hl in H. apply get_correct. intros k.
    destruct (Nat.lt_ge_cases k (length a)) as [Hk|Hk].
    + apply same_char_eq. now apply (lev_zero a b (length a)).
    + rewrite !get_beyond by lia. reflexivity.
  - intros <-. apply lev_zero. intros k _. now apply same_char_eq.
Qed.

(** X22: [levenshteinDistance] computes the edit distance given by the
    recurrence on prefixes; it is symmetric, zero for equal strings only,
    at least the difference of the lengths and at most the longer length. *)
Theorem X22_edit_distance (a b : string) :
  levenshteinDistance a b = lev a b (length a) (length b)
  /\ levenshteinDistance a b = levenshteinDistance b a
  /\ (levenshteinDistance a b = 0 <-> a = b)
  /\ (length a - length b) + (length b - length a) <= levenshteinDistance a b
  /\ levenshteinDistance a b <= Nat.max (length a) (length b).
Proof.
  split; [apply distance_recurrence|]. split; [apply distance_sym|].
  split; [apply distance_zero | apply distance_bounds].
Qed.

(** *** Suggestions *)

Lemma above_near (n w : string) :
  w <> EmptyString ->
  above_0_6 (calculateSimilarity n w) = true <-> near n w.
Proof.
  intros Hw. unfold above_0_6, calculateSimilarity, near.
  assert (0 < length w) as Hlw by (destruct w; [congruence | simpl; lia]).
  destruct (length w <? length n) eqn:E.
  - apply Nat.ltb_lt in E.
    assert ((length n =? 0) = false) as -> by (apply Nat.eqb_neq; lia).
    cbn [fst snd]. pose proof (distance_bounds n w). rewrite Nat.ltb_lt. lia.
  - apply Nat.ltb_ge in E.
    assert ((length w =? 0) = false) as -> by (apply Nat.eqb_neq; lia).
    cbn [fst snd]. rewrite (distance_sym w n).
    pose proof (distance_bounds n w). rewrite Nat.ltb_lt. lia.
Qed.

Lemma unknown_word (w rest : string) :
  all_chars is_word w = true -> w <> EmptyString -> stops is_word rest = true ->
  js_match re_unknown ("Unknown validation rule: " ++ w ++ rest)
  = Some (MRes 0 ("Unknown validation rule: " ++ w) [(1, w)] rest).
Proof.
  intros Hw Hne Hs. unfold js_match. apply search_at_front.
  unfold at_front, re_unknown. rewrite run_seqs_cons, run_lit. cbn [seqs].
  destruct w as [|c u]; [congruence|]. unfold word1.
  apply run_grp_plus_cls; [exact Hw | exact Hs|].
  f_equal. f_equal.
  rewrite <- (RegexSemFacts.append_assoc "Unknown validation rule: " (String c u) rest).
  apply substring_prefix.
Qed.

Lemma firstn_In_or_full {A : Type} (n : nat) (l : list A) (x : A) :
  In x l -> In x (firstn n l) \/ List.length (firstn n l) = n.
Proof.
  revert n. induction l as [|y r IH]; intros n Hin; [destruct Hin|].
  destruct n as [|n]; [now right|]. simpl.
  destruct Hin as [->|Hin]; [left; now left|].
  destruct (IH n Hin) as [H|H]; [left; now right | right; now rewrite H].
Qed.

Lemma firstn_subset {A : Type} (n : nat) (l : list A) (x : A) :
  In x (firstn n l) -> In x l.
Proof.
  revert n. induction l as [|y r IH]; intros [|n] H; simpl in *; try tauto.
  destruct H as [H|H]; [now left | right; eauto].
Qed.

(** X23: for the message of an unknown rule whose word is [w], at most three
    replacements are offered; each names a registered rule whose edit
    distance to [w] is below two fifths of the longer of the two lengths, and
    every registered rule that close is offered unless three replacements
    are offered already. *)
Theorem X23_suggested_rules (p : Provider) (w rest : string) :
  all_chars is_word w = true -> w <> EmptyString -> stops is_word rest = true ->
  let actions :=
    createUnknownRuleActions p ("Unknown validation rule: " ++ w ++ rest) in
  List.length actions <= 3
  /\ (forall action, In action actions ->
        exists rule,
          In rule (validationRules p)
          /\ action = MkAction ("Replace with '" ++ name rule ++ "'") (name rule)
          /\ near (name rule) w)
  /\ (forall rule, In rule (validationRules p) -> near (name rule) w ->
        In (MkAction ("Replace with '" ++ name rule ++ "'") (name rule)) actions
        \/ List.length actions = 3).
Proof.
  intros Hw Hne Hs actions. unfold actions, createUnknownRuleActions.
  rewrite (unknown_word w rest Hw Hne Hs).
  unfold capd, cap. cbn [m_caps lookup Nat.eqb].
  rewrite length_map. repeat split.
  - rewrite length_firstn. lia.
  - intros action Hin. apply in_map_iff in Hin. destruct Hin as (rule & <- & Hin).
    apply firstn_subset, filter_In in Hin. destruct Hin as [Hin Hab].
    exists rule. repeat split; [exact Hin | now apply above_near].
  - intros rule Hin Hnear.
    destruct (firstn_In_or_full 3
                (filter (fun rule => above_0_6 (calculateSimilarity (name rule) w))
                   (validationRules p)) rule) as [H|H].
    + apply filter_In. split; [exact Hin | now apply above_near].
    + left. apply in_map_iff. now exists rule.
    + now right.
Qed.

Lemma X23_misspelled_string_scenario :
  let actions :=
    createUnknownRuleActions (construct None) "Unknown validation rule: strng" in
  List.length actions <= 3
  /\ (forall action, In action actions ->
        exists rule,
          In rule (validationRules (construct None))
          /\ action = MkAction ("Replace with '" ++ name rule ++ "'") (name rule)
          /\ near (name rule) "strng")
  /\ (forall rule, In rule (validationRules (construct None)) ->
        near (name rule) "strng" ->
        In (MkAction ("Replace with '" ++ name rule ++ "'") (name rule)) actions
        \/ List.length actions = 3).
Proof.
  apply (X23_suggested_rules (construct None) "strng" EmptyString);
    try reflexivity. discriminate.
Defined.

End SimilarityFacts.

(** ** Repetitions that stop at a known place *)

Module RepetitionFacts.
Import JsString Regex RegexSpec RegexFacts RegexSem RegexSemFacts StringFacts.

(** a lazy run of a class stops at the first place where what follows
    matches *)
Lemma lazy_cls_stop {R : Type} (p q : ascii -> bool) (k : cont R) (x : R) :
  (forall a t c0, q a = true -> k (String a t) c0 = None) ->
  forall u fuel s c,
    length u < fuel -> all_chars p u = true -> all_chars q u = true ->
    k s c = Some x ->
    lazy_loop (fun s0 c0 k0 => run (Cls p) s0 c0 k0) k fuel (u ++ s)%string c
    = Some x.
Proof.
  intros Hq. induction u as [|a t IH]; intros fuel s c Hf Hp Hqu Hk.
  - destruct fuel as [|f]; [lia|]. cbn [lazy_loop append]. now rewrite Hk.
  - destruct fuel as [|f]; [simpl in Hf; lia|].
    simpl in Hp, Hqu. apply andb_true_iff in Hp, Hqu.
    destruct Hp as [Ha Hp], Hqu as [Hb Hqu].
    cbn [lazy_loop]. change (String a t ++ s)%string with (String a (t ++ s)%string).
    rewrite (Hq a _ c Hb). cbn [orelse]. rewrite (cls_step p a _ _ _ Ha).
    assert ((length (t ++ s)%string <? length (String a (t ++ s)%string)) = true)
      as -> by (apply Nat.ltb_lt; simpl; lia).
    apply IH; [simpl in Hf; lia | assumption..].
Qed.

Lemma run_grp_lazy_cls {R : Type} (n : nat) (p q : ascii -> bool) (k : cont R)
  (x : R) (u s : string) (c : caps) :
  (forall a t c0, q a = true -> k (String a t) c0 = None) ->
  all_chars p u = true -> all_chars q u = true ->
  k s ((n, u) :: c) = Some x ->
  run (Grp n (LazyStar (Cls p))) (u ++ s)%string c k = Some x.
Proof.
  intros Hq Hp Hqu Hk. cbn [run].
  apply (lazy_cls_stop p q); auto.
  - rewrite length_append. lia.
  - now rewrite substring_prefix.
Qed.

Lemma star_any_fails {R : Type} (k : cont R) (c : caps) :
  forall w fuel,
    (forall v w', w = (v ++ w')%string -> k w' c = None) ->
    star_loop (fun s0 c0 k0 => run (Cls (fun _ => true)) s0 c0 k0) k fuel w c
    = None.
Proof.
  induction w as [|a t IH]; intros fuel H.
  - assert (k EmptyString c = None) as Hk by (apply (H EmptyString); reflexivity).
    destruct fuel; cbn [star_loop]; [exact Hk|].
    rewrite cls_stop by reflexivity. exact Hk.
  - assert (k (String a t) c = None) as Hk by (apply (H EmptyString); reflexivity).
    destruct fuel as [|f]; cbn [star_loop]; [exact Hk|].
    rewrite cls_step by reflexivity.
    assert ((length t <? length (String a t)) = true) as ->
      by (apply Nat.ltb_lt; simpl; lia).
    rewrite IH, Hk; [reflexivity|].
    intros v w' ->. apply (H (String a v)). reflexivity.
Qed.

(** a greedy run of any characters gives back up to the last place where
    what follows matches *)
Lemma star_any_last {R : Type} (k : cont R) (x : R) (T : string) (c : caps) :
  k T c = Some x ->
  (forall v w', T = (v ++ w')%string -> v <> EmptyString -> k w' c = None) ->
  forall u fuel,
    length (u ++ T)%string < fuel ->
    star_loop (fun s0 c0 k0 => run (Cls (fun _ => true)) s0 c0 k0) k fuel
      (u ++ T)%string c = Some x.
Proof.
  intros Hk Hfail. induction u as [|a u IH]; intros fuel Hf.
  - cbn [append] in *. destruct fuel as [|f]; [lia|]. cbn [star_loop].
    destruct T as [|b t].
    + rewrite cls_stop by reflexivity. exact Hk.
    + rewrite cls_step by reflexivity.
      assert ((length t <? length (String b t)) = true) as ->
        by (apply Nat.ltb_lt; simpl; lia).
      rewrite star_any_fails, Hk; [reflexivity|].
      intros v w' ->. apply (Hfail (String b v)); [reflexivity | discriminate].
  - destruct fuel as [|f]; [lia|].
    change (String a u ++ T)%string with (String a (u ++ T)%string) in *.
    cbn [star_loop]. rewrite cls_step by reflexivity.
    assert ((length (u ++ T)%string <? length (String a (u ++ T)%string)) = true)
      as -> by (apply Nat.ltb_lt; simpl; lia).
    rewrite IH; [reflexivity | simpl in Hf; lia].
Qed.

Lemma run_alt_first {R : Type} (a b : re) (s : string) (c : caps) (k : cont R)
  (x : R) :
  run a s c k = Some x -> run (Alt a b) s c k = Some x.
Proof. intros H. cbn [run]. now rewrite H. Qed.

Lemma run_seqs_one {R : Type} (r : re) (s : string) (c : caps) (k : cont R) :
  run (seqs [r]) s c k = run r s c k.
Proof. reflexivity. Qed.

Lemma run_grp {R : Type} (n : nat) (r : re) (s : string) (c : caps) (k : cont R) :
  run (Grp n r) s c k
  = run r s c
      (fun s1 c1 => k s1 ((n, substring 0 (length s - length s1) s) :: c1)).
Proof. reflexivity. Qed.

Lemma run_grp_star_any_last {R : Type} (n : nat) (k : cont R) (x : R)
  (u T : string) (c : caps) :
  k T ((n, u) :: c) = Some x ->
  (forall v w' c0, T = (v ++ w')%string -> v <> EmptyString -> k w' c0 = None) ->
  run (Grp n (Star (Cls (fun _ => true)))) (u ++ T)%string c k = Some x.
Proof.
  intros Hk Hfail. cbn [run]. apply star_any_last.
  - now rewrite substring_prefix.
  - intros v w' E Hv. now apply (Hfail v).
  - lia.
Qed.

Lemma substring_none (n : nat) (s : string) : substring n 0 s = EmptyString.
Proof.
  revert n. induction s as [|c s IH]; intros [|n]; simpl; auto.
Qed.

End RepetitionFacts.

(** ** Writing a translation and reading it back *)

Module TranslationFileFacts.
Import JsString Regex RegexSpec RegexFacts RegexSem RegexSemFacts StringFacts.
Import RepetitionFacts Translations TranslationFiles.

Lemma key_value_entry (K V rest : string) (i : nat) :
  K <> EmptyString ->
  all_chars (fun c => negb (is_quote2 c)) K = true ->
  all_chars (fun c => negb (is_quote2 c)) V = true ->
  at_front re_key_value i
    (String squote (K ++ String squote (" => " ++ String squote (V ++ String squote rest))))%string
  = Some (MRes i (String squote (K ++ String squote (" => " ++ String squote (V ++ str1 squote))))%string
            [(2, V); (1, K)] rest).
Proof.
  intros Hne HK HV. unfold at_front, re_key_value.
  rewrite run_seqs_cons. rewrite (cls_step is_quote2 squote _ _ _ eq_refl).
  rewrite run_seqs_cons. destruct K as [|a u]; [congruence|].
  unfold not_quote2 at 1.
  apply run_grp_plus_cls; [exact HK | reflexivity |].
  rewrite run_seqs_cons. rewrite (cls_step is_quote2 squote _ _ _ eq_refl).
  rewrite run_seqs_cons.
  apply (run_star_cls is_space _ _ " " ("=> " ++ String squote (V ++ String squote rest))%string);
    [reflexivity | reflexivity |].
  rewrite run_seqs_cons.
  change ("=> " ++ String squote (V ++ String squote rest))%string
    with ("=>" ++ (" " ++ String squote (V ++ String squote rest)))%string.
  rewrite run_lit. cbv beta.
  rewrite run_seqs_cons.
  apply (run_star_cls is_space _ _ " " (String squote (V ++ String squote rest))%string);
    [reflexivity | reflexivity |].
  rewrite run_seqs_one. apply run_alt_first.
  rewrite run_seqs_cons. rewrite (cls_step is_quote2 squote _ _ _ eq_refl).
  rewrite run_seqs_cons. unfold not_quote2.
  apply (run_grp_lazy_cls 2 _ (fun c => negb (is_quote2 c))); [| exact HV | exact HV |].
  - intros b t c0 Hb. rewrite run_seqs_one. apply negb_true_iff in Hb.
    cbn [run]. now rewrite Hb.
  - rewrite run_seqs_one. rewrite (cls_step is_quote2 squote _ _ _ eq_refl).
    f_equal. f_equal.
    assert (String squote
             (String a u ++
              String squote (" => " ++ String squote (V ++ String squote rest)))
            = String squote
                (String a u ++
                 String squote (" => " ++ String squote (V ++ str1 squote)))
              ++ rest)%string as ->.
    { cbn [append]. do 2 f_equal. rewrite append_assoc. cbn [append].
      do 6 f_equal. now rewrite append_assoc. }
    apply substring_prefix.
Qed.

Lemma key_value_search (K V : string) :
  K <> EmptyString ->
  all_chars (fun c => negb (is_quote2 c)) K = true ->
  all_chars (fun c => negb (is_quote2 c)) V = true ->
  exec_all re_key_value (str1 nl ++ newEntry K V)%string
  = [MRes 5 (String squote (K ++ String squote (" => " ++ String squote (V ++ str1 squote))))%string
       [(2, V); (1, K)] ("," ++ str1 nl)%string].
Proof.
  intros Hne HK HV. unfold exec_all.
  change (str1 nl ++ newEntry K V)%string
    with ((str1 nl ++ "    ") ++ String squote (K ++ String squote (" => "
            ++ String squote (V ++ String squote ("," ++ str1 nl)))))%string.
  cbn [exec_loop].
  rewrite (search_skip re_key_value (fun c => negb (is_quote2 c)));
    [| | reflexivity].
  2:{ intros a t i Ha. apply negb_true_iff in Ha.
      unfold at_front, re_key_value. rewrite run_seqs_cons. cbn [run].
      now rewrite Ha. }
  rewrite (search_at_front _ _ _ _ (key_value_entry K V _ _ Hne HK HV)).
  cbn [m_rest m_index m_text].
  cbn [length append str1 Nat.add Nat.ltb Nat.leb exec_loop].
  match goal with
  | |- context [search re_key_value ?i ?s] =>
      change (search re_key_value i s) with (@None mres)
  end.
  reflexivity.
Qed.


Lemma closing_fails {R : Type} (k : cont R) (c : caps) (v w' : string) :
  ("];" ++ str1 nl)%string = (v ++ w')%string -> v <> EmptyString ->
  run (lit "];") w' c k = None.
Proof.
  intros E Hv. destruct v as [|a v]; [congruence|].
  cbn [append] in E. injection E as <- E.
  destruct v as [|b v]; [cbn [append] in E; subst w'; reflexivity|].
  cbn [append] in E. injection E as <- E.
  destruct v as [|d v]; [cbn [append] in E; subst w'; reflexivity|].
  cbn [append] in E. injection E as <- E.
  destruct v; [cbn [append] in E; subst w'; reflexivity | discriminate].
Qed.

Lemma return_array_new (K V : string) :
  js_match re_return_array (newFileContent K V)
  = Some (MRes 7 ("return [" ++ (str1 nl ++ newEntry K V) ++ "];")%string
            [(1, (str1 nl ++ newEntry K V)%string)] (str1 nl)).
Proof.
  unfold js_match.
  change (newFileContent K V)
    with (("<?php" ++ str1 nl ++ str1 nl)
          ++ ("return" ++ (" " ++ (str1 "[" ++ ((str1 nl ++ newEntry K V)
                ++ ("];" ++ str1 nl))))))%string.
  rewrite (search_skip re_return_array (fun c => negb (Ascii.eqb c "r")));
    [| | reflexivity].
  2:{ intros a t i Ha. apply negb_true_iff in Ha. rewrite Ascii.eqb_sym in Ha.
      unfold at_front, re_return_array. rewrite run_seqs_cons.
      change (lit "return") with (Seq (Chr "r") (lit "eturn")).
      cbn [run]. now rewrite Ha. }
  apply search_at_front. unfold at_front, re_return_array.
  rewrite run_seqs_cons, run_lit. cbv beta. rewrite run_seqs_cons.
  apply (run_star_cls is_space _ _ " "
           (str1 "[" ++ ((str1 nl ++ newEntry K V) ++ ("];" ++ str1 nl)))%string);
    [reflexivity | reflexivity |].
  rewrite run_seqs_cons, run_chr. cbv beta. rewrite run_seqs_cons.
  apply run_grp_star_any_last.
  - rewrite run_seqs_one, run_lit. f_equal. f_equal.
    assert (("return" ++ " " ++ str1 "["
             ++ (str1 nl ++ newEntry K V) ++ "];" ++ str1 nl)
            = ("return [" ++ (str1 nl ++ newEntry K V) ++ "];") ++ str1 nl)%string
      as ->.
    { generalize (str1 nl ++ newEntry K V)%string. intros B.
      cbn [append]. do 8 f_equal. now rewrite append_assoc. }
    apply substring_prefix.
  - intros v w' c0 E Hv. rewrite run_seqs_one. now apply (closing_fails _ _ v).
Qed.

Lemma namespace_file (ns : string) :
  mem_char "." ns = false ->
  replace_first ".php" EmptyString (ns ++ ".php") = ns.
Proof.
  intros H. unfold replace_first.
  assert (all_chars (fun a => negb (Ascii.eqb a ".")) ns = true) as Ha.
  { induction ns as [|c t IH]; [reflexivity|]. cbn [mem_char all_chars] in *.
    apply orb_false_iff in H. destruct H as [Hc Ht].
    rewrite Ascii.eqb_sym in Hc. now rewrite Hc, (IH Ht). }
  change (ns ++ ".php")%string
    with (ns ++ String "." ("php" ++ EmptyString))%string.
  rewrite (index_skip "." "php" ns EmptyString Ha).
  rewrite substring_all. unfold drop. rewrite length_append.
  replace (length ns + length (String "." ("php" ++ EmptyString))
           - (length ns + length ".php")) with 0 by (simpl; lia).
  rewrite substring_none. cbn [append]. apply append_nil_r.
Qed.

Lemma translation_key (ns K : string) :
  mem_char "." ns = false ->
  namespaceOf (ns ++ "." ++ K) = ns /\ translationKeyOf (ns ++ "." ++ K) = K.
Proof.
  intros H. unfold namespaceOf, translationKeyOf.
  change (ns ++ "." ++ K)%string with (ns ++ String "." K)%string.
  rewrite (split_app_sep "." ns K H). cbn [hd tl]. split; [reflexivity|].
  apply (concat_split "." K).
Qed.

(** X24: a translation written to a new file is read back by the loader:
    for a key [ns.K] whose namespace holds no dot, with [K] not empty and
    [K] and the value free of single and double quotes, parsing the written
    file under the name [ns.php] registers exactly this key with this
    value. *)
Theorem X24_added_translation_is_loaded (ns K V : string) :
  mem_char "." ns = false -> K <> EmptyString ->
  all_chars (fun c => negb (is_quote2 c)) K = true ->
  all_chars (fun c => negb (is_quote2 c)) V = true ->
  let key := (ns ++ "." ++ K)%string in
  exists content ln,
    addTranslationToFile key V RouteList.Absent = Written content
    /\ forall filePath loc tr,
         parsePhpTranslationFile filePath loc (fileNameOf key) (Some content) tr
         = addTranslation key filePath loc V ln tr.
Proof.
  intros Hns Hne HK HV key.
  destruct (translation_key ns K Hns) as [En Ek].
  exists (newFileContent K V).
  exists (Some (findLineNumber (split nl (newFileContent K V))
                  (String squote (K ++ String squote
                     (" => " ++ String squote (V ++ str1 squote))))%string 0)).
  split.
  - unfold addTranslationToFile, key. now rewrite Ek.
  - intros filePath loc tr. unfold parsePhpTranslationFile, fileNameOf, key.
    rewrite En, return_array_new, (namespace_file ns Hns).
    unfold capd, cap. cbn [m_caps lookup Nat.eqb].
    cbn [parsePhpArray]. rewrite (key_value_search K V Hne HK HV).
    cbn [fold_left]. unfold capd, cap. cbn [m_caps lookup Nat.eqb m_text].
    unfold joinKey. cbn [truthy]. reflexivity.
Qed.


(** *** The statement [return [ ... ];] of a file *)

Lemma includes_cons (b : ascii) (t pat : string) :
  includes (String b t) pat = false ->
  prefix pat (String b t) = false /\ includes t pat = false.
Proof.
  unfold includes. cbn [index].
  destruct (prefix pat (String b t)); [discriminate|].
  destruct (index 0 pat t); [discriminate|]. auto.
Qed.

Lemma includes_suffix (u v pat : string) :
  includes (u ++ v)%string pat = false -> includes v pat = false.
Proof.
  induction u as [|b u IH]; [auto|]. intros H.
  change (String b u ++ v)%string with (String b (u ++ v)%string) in H.
  apply includes_cons in H. apply IH, H.
Qed.

(** a pattern in front of [v ++ rest] lies in front of [v] or runs over its
    end *)
Lemma prefix_app_cases (pat v rest : string) :
  prefix pat (v ++ rest)%string = true ->
  prefix pat v = true
  \/ exists p2, pat = (v ++ p2)%string /\ prefix p2 rest = true.
Proof.
  revert v. induction pat as [|a p IH]; intros v H; [left; destruct v; reflexivity|].
  destruct v as [|b v].
  - right. exists (String a p). split; [reflexivity | exact H].
  - change (String b v ++ rest)%string with (String b (v ++ rest)%string) in H.
    cbn [prefix] in *. destruct (ascii_dec a b) as [->|]; [|discriminate].
    destruct (IH v H) as [Hl|(p2 & -> & Hp)]; [now left|].
    right. now exists p2.
Qed.

Lemma no_return_front (v rest : string) :
  v <> EmptyString -> includes v "return" = false ->
  prefix "return" (v ++ "return" ++ rest)%string = false.
Proof.
  intros Hne Hv. destruct v as [|a1 v]; [congruence|].
  apply includes_cons in Hv. destruct Hv as [Hp _].
  destruct (prefix "return" (String a1 v ++ "return" ++ rest)%string) eqn:E;
    [|reflexivity].
  apply prefix_app_cases in E. destruct E as [E|(p2 & E & Hp2)]; [congruence|].
  destruct v as [|a2 [|a3 [|a4 [|a5 [|a6 [|a7 v]]]]]];
    cbn [append] in E; injection E as; subst; try discriminate.
Qed.

Lemma no_close_front (v rest : string) :
  v <> EmptyString -> includes v "];" = false ->
  prefix "];" (v ++ "];" ++ rest)%string = false.
Proof.
  intros Hne Hv. destruct v as [|a1 v]; [congruence|].
  apply includes_cons in Hv. destruct Hv as [Hp _].
  destruct (prefix "];" (String a1 v ++ "];" ++ rest)%string) eqn:E;
    [|reflexivity].
  apply prefix_app_cases in E. destruct E as [E|(p2 & E & Hp2)]; [congruence|].
  destruct v as [|a2 [|a3 v]];
    cbn [append] in E; injection E as; subst; try discriminate.
Qed.

Lemma run_lit_fails {R : Type} (w s : string) (c : caps) (k : cont R) :
  prefix w s = false -> run (lit w) s c k = None.
Proof.
  revert s. induction w as [|a t IH]; intros s H; [destruct s; discriminate|].
  destruct s as [|b s']; [destruct t; reflexivity|].
  cbn [prefix] in H. destruct (ascii_dec a b) as [<-|Hn].
  - destruct t as [|a2 t]; [destruct s'; discriminate|].
    change (lit (String a (String a2 t))) with (Seq (Chr a) (lit (String a2 t))).
    cbn [run]. rewrite Ascii.eqb_refl. now apply IH.
  - apply Ascii.eqb_neq in Hn.
    destruct t as [|a2 t]; [cbn [lit run]; now rewrite Hn|].
    change (lit (String a (String a2 t))) with (Seq (Chr a) (lit (String a2 t))).
    cbn [run]. now rewrite Hn.
Qed.

(** the search passes a front none of whose positions starts a match *)
Lemma search_skip_at (r : re) (s : string) :
  forall pre i,
    (forall u1 a u2 j, pre = (u1 ++ String a u2)%string ->
       at_front r j (String a (u2 ++ s)%string) = None) ->
    search r i (pre ++ s)%string = search r (i + length pre) s.
Proof.
  induction pre as [|a t IH]; intros i H.
  - simpl. now rewrite Nat.add_0_r.
  - change (String a t ++ s)%string with (String a (t ++ s)%string).
    cbn [search]. rewrite (H EmptyString a t i eq_refl).
    rewrite (IH (S i)).
    + f_equal. simpl. lia.
    + intros u1 b u2 j E. apply (H (String a u1)). now rewrite E.
Qed.

(** the lazy repetition of any character stops at the first position where
    what follows succeeds *)
Lemma lazy_any_until {R : Type} (k : cont R) (x : R) (s : string) :
  forall u fuel c,
    length u < fuel ->
    (forall u1 a u2 c0, u = (u1 ++ String a u2)%string ->
       k (String a (u2 ++ s)%string) c0 = None) ->
    k s c = Some x ->
    lazy_loop (fun s0 c0 k0 => run (Cls (fun _ => true)) s0 c0 k0) k fuel
      (u ++ s)%string c
    = Some x.
Proof.
  induction u as [|a t IH]; intros fuel c Hf Hfail Hk.
  - destruct fuel as [|f]; [lia|]. cbn [lazy_loop append]. now rewrite Hk.
  - destruct fuel as [|f]; [simpl in Hf; lia|].
    cbn [lazy_loop]. change (String a t ++ s)%string with (String a (t ++ s)%string).
    rewrite (Hfail EmptyString a t c eq_refl). cbn [orelse].
    rewrite (cls_step (fun _ => true) a _ _ _ eq_refl).
    assert ((length (t ++ s)%string <? length (String a (t ++ s)%string)) = true)
      as -> by (apply Nat.ltb_lt; simpl; lia).
    apply IH; [simpl in Hf; lia | | assumption].
    intros u1 b u2 c0 E. apply (Hfail (String a u1)). now rewrite E.
Qed.

Lemma matches_lazy_any (u rest : string) (c : caps) :
  matches (LazyStar (Cls (fun _ => true))) u rest c c.
Proof.
  revert rest. induction u as [|a t IH]; intros rest; [constructor|].
  change (String a t) with (String a EmptyString ++ t)%string.
  apply MLazyS with (c1 := c); [discriminate | now constructor | apply IH].
Qed.

Lemma search_complete (r : re) (w rest : string) (c c1 : caps) :
  matches r w rest c c1 ->
  forall pre i, search r i (pre ++ w ++ rest)%string <> None.
Proof.
  intros Hm.
  assert (forall i, at_front r i (w ++ rest)%string <> None) as Hfront.
  { intros i. unfold at_front. apply (run_complete r w rest c c1 Hm).
    intros c'. discriminate. }
  induction pre as [|a t IH]; intros i.
  - cbn [append]. specialize (Hfront i).
    destruct (w ++ rest)%string; cbn [search];
      destruct (at_front r i _); congruence.
  - change (String a t ++ w ++ rest)%string with (String a (t ++ w ++ rest)%string).
    cbn [search]. destruct (at_front r i _); [discriminate | apply IH].
Qed.

(** the pattern of [addTranslationToFile] on a file with a [return]
    statement: the first [return] of the file being that of the statement,
    and the body of the array holding no [];] *)
Lemma return_parts (pre sp body post : string) :
  all_chars is_space sp = true ->
  includes pre "return" = false -> includes body "];" = false ->
  js_match re_return_parts
    (pre ++ "return" ++ sp ++ "[" ++ body ++ "];" ++ post)%string
  = Some (MRes (length pre) ("return" ++ sp ++ "[" ++ body ++ "];")
            [(3, "];"); (2, body); (1, ("return" ++ sp ++ "[")%string)] post).
Proof.
  intros Hsp Hpre Hbody. unfold js_match.
  rewrite search_skip_at.
  2:{ intros u1 a u2 j E. unfold at_front, re_return_parts.
      rewrite run_seqs_cons, run_grp, run_seqs_cons.
      apply run_lit_fails.
      apply (no_return_front (String a u2) (sp ++ "[" ++ body ++ "];" ++ post));
        [discriminate|].
      apply (includes_suffix u1). now rewrite <- E. }
  apply search_at_front. unfold at_front, re_return_parts.
  rewrite run_seqs_cons, run_grp, run_seqs_cons.
  rewrite run_lit. cbv beta. rewrite run_seqs_cons.
  change ("[" ++ body ++ "];" ++ post)%string
    with (str1 "[" ++ (body ++ "];" ++ post))%string.
  apply (run_star_cls is_space _ _ sp (str1 "[" ++ (body ++ ("];" ++ post)))%string);
    [exact Hsp | reflexivity |].
  rewrite run_seqs_one, run_chr. cbv beta. rewrite run_seqs_cons, run_grp.
  cbn [run]. apply lazy_any_until.
  - rewrite length_append. lia.
  - intros u1 a u2 c0 E. rewrite run_seqs_one, run_grp.
    apply run_lit_fails.
    apply (no_close_front (String a u2) post); [discriminate|].
    apply (includes_suffix u1). now rewrite <- E.
  - rewrite run_seqs_one, run_grp, run_lit.
    rewrite (substring_prefix "];" post), (substring_prefix body ("];" ++ post)).
    assert (("return" ++ sp ++ str1 "[" ++ body ++ "];" ++ post)
            = ("return" ++ sp ++ "[") ++ (body ++ "];" ++ post))%string as E1.
    { rewrite !append_assoc. reflexivity. }
    assert (("return" ++ sp ++ str1 "[" ++ body ++ "];" ++ post)
            = ("return" ++ sp ++ "[" ++ body ++ "];") ++ post)%string as E2.
    { rewrite !append_assoc. reflexivity. }
    set (W := ("return" ++ sp ++ str1 "[" ++ body ++ "];" ++ post)%string).
    assert (substring 0 (length W - length post) W
            = ("return" ++ sp ++ "[" ++ body ++ "];")%string) as ->
      by (unfold W; rewrite E2; apply substring_prefix).
    assert (substring 0 (length W - length (body ++ "];" ++ post)%string) W
            = ("return" ++ sp ++ "[")%string) as ->
      by (unfold W; rewrite E1; apply substring_prefix).
    reflexivity.
Qed.

Lemma return_parts_matches (w rest : string) (c c' : caps) :
  matches re_return_parts w rest c c' ->
  exists sp body,
    w = ("return" ++ sp ++ "[" ++ body ++ "];")%string
    /\ all_chars is_space sp = true
    /\ c' = (3, "];") :: (2, body) :: (1, ("return" ++ sp ++ "[")%string) :: c.
Proof.
  unfold re_return_parts. cbn [seqs]. intros H.
  repeat match goal with
         | H : matches (Seq _ _) _ _ _ _ |- _ => inversion H; subst; clear H
         | H : matches (Grp _ _) _ _ _ _ |- _ => inversion H; subst; clear H
         | H : matches (Chr _) _ _ _ _ |- _ => inversion H; subst; clear H
         end.
  repeat match goal with
         | H : matches (lit ?u) ?w ?r ?c0 ?c1 |- _ =>
             pose proof (lit_lang u w (ex_intro _ r (ex_intro _ c0 (ex_intro _ c1 H))));
             pose proof (matches_nogroups _ _ _ _ _ H eq_refl);
             clear H
         | H : matches ws ?w ?r ?c0 ?c1 |- _ =>
             pose proof (star_cls_lang is_space w
                           (ex_intro _ r (ex_intro _ c0 (ex_intro _ c1 H))));
             pose proof (matches_nogroups _ _ _ _ _ H eq_refl);
             clear H
         | H : matches (LazyStar _) ?w ?r ?c0 ?c1 |- _ =>
             pose proof (matches_nogroups _ _ _ _ _ H eq_refl);
             clear H
         end.
  subst.
  match goal with
  | |- exists sp body, ((_ ++ ?s ++ _) ++ ?b ++ _)%string = _ /\ _ =>
      exists s, b
  end.
  split; [now rewrite !append_assoc | split; [assumption | reflexivity]].
Qed.

Lemma return_parts_sound (content : string) (m : mres) :
  js_match re_return_parts content = Some m ->
  exists pre sp body,
    content = (pre ++ "return" ++ sp ++ "[" ++ body ++ "];" ++ m_rest m)%string
    /\ all_chars is_space sp = true
    /\ capd m 1 = ("return" ++ sp ++ "[")%string
    /\ capd m 2 = body /\ capd m 3 = "];".
Proof.
  intros H. destruct (search_sound _ _ _ _ H) as (pre & Hs & _ & Hm & _).
  destruct (return_parts_matches _ _ _ _ Hm) as (sp & body & Ht & Hsp & Hc).
  exists pre, sp, body. unfold capd, cap. rewrite Hc. cbn [lookup Nat.eqb].
  repeat split; try assumption.
  rewrite Hs, Ht. now rewrite !append_assoc.
Qed.

Lemma return_parts_found (pre sp body post : string) :
  all_chars is_space sp = true ->
  js_match re_return_parts
    (pre ++ "return" ++ sp ++ "[" ++ body ++ "];" ++ post)%string <> None.
Proof.
  intros Hsp. unfold js_match.
  assert (matches re_return_parts ("return" ++ sp ++ "[" ++ body ++ "];") post []
            [(3, "];"); (2, body); (1, ("return" ++ sp ++ "[")%string)]) as Hm.
  { unfold re_return_parts. cbn [seqs].
    assert (("return" ++ sp ++ "[" ++ body ++ "];")
            = ("return" ++ sp ++ "[") ++ (body ++ "];"))%string as ->
      by (now rewrite !append_assoc).
    apply MSeq with (c1 := [(1, ("return" ++ sp ++ "[")%string)]).
    - apply MGrp. apply MSeq with (c1 := []); [apply matches_lit|].
      apply MSeq with (c1 := []); [now apply matches_star_cls | constructor].
    - apply MSeq with (c1 := [(2, body); (1, ("return" ++ sp ++ "[")%string)]).
      + apply MGrp. apply matches_lazy_any.
      + apply MGrp. apply matches_lit. }
  assert ((pre ++ "return" ++ sp ++ "[" ++ body ++ "];" ++ post)
          = pre ++ ("return" ++ sp ++ "[" ++ body ++ "];") ++ post)%string as ->
    by (now rewrite !append_assoc).
  now apply (search_complete _ _ _ _ _ Hm).
Qed.

(** X25: when [addTranslationToFile] updates an existing file, it writes
    back only a [return [ ... ];] statement of the file, with the new entry
    before the closing bracket: the text in front of [return], the opening
    tag included, and the text behind [];] are not written again.  A file
    that holds such a statement, with spaces at most between [return] and
    the bracket, is always updated; the statement written is that one when
    no [return] stands in front of it and no [];] in the body of its
    array. *)
Theorem X25_update_keeps_return_only (key value content : string) :
  (forall written,
     addTranslationToFile key value (RouteList.Content content) = Written written ->
     exists pre sp body post,
       content = (pre ++ "return" ++ sp ++ "[" ++ body ++ "];" ++ post)%string
       /\ all_chars space_like sp = true
       /\ written
          = ("return" ++ sp ++ "[" ++ body
             ++ newEntry (translationKeyOf key) value ++ "];")%string)
  /\ (forall pre sp body post,
        content = (pre ++ "return" ++ sp ++ "[" ++ body ++ "];" ++ post)%string ->
        all_chars is_space sp = true ->
        (exists written,
           addTranslationToFile key value (RouteList.Content content)
           = Written written)
        /\ (includes pre "return" = false -> includes body "];" = false ->
            addTranslationToFile key value (RouteList.Content content)
            = Written ("return" ++ sp ++ "[" ++ body
                       ++ newEntry (translationKeyOf key) value ++ "];"))).
Proof.
  split.
  - intros written H. unfold addTranslationToFile in H.
    destruct (js_match re_return_parts content) as [m|] eqn:E; [|discriminate].
    destruct (return_parts_sound content m E)
      as (pre & sp & body & Hc & Hsp & H1 & H2 & H3).
    assert (written
            = (capd m 1 ++ capd m 2 ++ newEntry (translationKeyOf key) value
               ++ capd m 3)%string) as -> by congruence.
    rewrite H1, H2, H3. exists pre, sp, body, (m_rest m).
    split; [exact Hc | split].
    { apply (all_chars_impl is_space); [|exact Hsp].
      intros a Ha. unfold space_like. now rewrite Ha. }
    rewrite (append_assoc "return" (sp ++ "[")), (append_assoc sp "[").
    reflexivity.
  - intros pre sp body post -> Hsp. split.
    + unfold addTranslationToFile.
      destruct (js_match re_return_parts _) as [m|] eqn:E; [now eexists|].
      now apply return_parts_found in E.
    + intros Hpre Hbody. unfold addTranslationToFile.
      rewrite (return_parts pre sp body post Hsp Hpre Hbody).
      unfold capd, cap. cbn [m_caps lookup Nat.eqb].
      now rewrite !append_assoc.
Qed.

(** a file with a comment in front of the statement and a nested array *)
Lemma X25_messages_scenario :
  includes ("<?php" ++ str1 nl ++ "// greetings of the start page" ++ str1 nl)
    "return" = false
  /\ includes (str1 nl ++ "    'bye' => ['short' => 'Bye']," ++ str1 nl) "];"
     = false
  /\ addTranslationToFile "messages.hi" "Hi"
       (RouteList.Content
          ("<?php" ++ str1 nl ++ "// greetings of the start page" ++ str1 nl
           ++ "return [" ++ str1 nl ++ "    'bye' => ['short' => 'Bye'],"
           ++ str1 nl ++ "];" ++ str1 nl))
     = Written ("return [" ++ str1 nl ++ "    'bye' => ['short' => 'Bye'],"
                ++ str1 nl ++ newEntry "hi" "Hi" ++ "];").
Proof.
  split; [reflexivity|]. split; [reflexivity|].
  apply (proj2 (X25_update_keeps_return_only "messages.hi" "Hi"
                  ("<?php" ++ str1 nl ++ "// greetings of the start page"
                   ++ str1 nl ++ "return [" ++ str1 nl
                   ++ "    'bye' => ['short' => 'Bye']," ++ str1 nl
                   ++ "];" ++ str1 nl)%string)
           ("<?php" ++ str1 nl ++ "// greetings of the start page" ++ str1 nl)%string
           " " (str1 nl ++ "    'bye' => ['short' => 'Bye']," ++ str1 nl)%string
           (str1 nl));
    reflexivity.
Defined.

Lemma X24_welcome_scenario :
  exists content ln,
    addTranslationToFile "messages.welcome.title" "Hello" RouteList.Absent
    = Written content
    /\ forall filePath loc tr,
         parsePhpTranslationFile filePath loc "messages.php" (Some content) tr
         = addTranslation "messages.welcome.title" filePath loc "Hello" ln tr.
Proof.
  apply (X24_added_translation_is_loaded "messages" "welcome.title" "Hello");
    try reflexivity. discriminate.
Defined.

End TranslationFileFacts.

(** ** Quick fixes for translations *)

Module TranslationActionFacts.
Import JsString Regex RegexSpec RegexFacts RegexSem RegexSemFacts StringFacts.
Import RepetitionFacts Translations TranslationQueries TranslationActions.

Lemma first_single_quoted (pre K rest : string) :
  all_chars (fun c => negb (mem_char c "'")) pre = true ->
  all_chars (fun c => negb (mem_char c "'")) K = true ->
  K <> EmptyString ->
  extractKeyFromDiagnostic (pre ++ String squote (K ++ String squote rest)) = K.
Proof.
  intros Hpre HK Hne. unfold extractKeyFromDiagnostic, js_match.
  rewrite (search_skip re_single_quoted (fun c => negb (mem_char c "'")));
    [| | exact Hpre].
  2:{ intros a t i Ha. apply negb_true_iff in Ha. cbn [mem_char] in Ha.
      rewrite orb_false_r, Ascii.eqb_sym in Ha.
      unfold at_front, re_single_quoted. rewrite run_seqs_cons.
      cbn [run]. now rewrite Ha. }
  assert (at_front re_single_quoted (0 + length pre)
            (String squote (K ++ String squote rest))
          = Some (MRes (0 + length pre) (String squote (K ++ str1 squote))
                    [(1, K)] rest)) as Hm.
  { unfold at_front, re_single_quoted.
    rewrite run_seqs_cons.
    change (String squote (K ++ String squote rest))
      with (str1 "'" ++ (K ++ String squote rest))%string at 1.
    rewrite run_chr. cbv beta. rewrite run_seqs_cons.
    destruct K as [|a u]; [congruence|]. unfold none_of.
    apply run_grp_plus_cls; [exact HK | reflexivity |].
    rewrite run_seqs_one.
    change (String squote rest) with (str1 "'" ++ rest)%string at 1.
    rewrite run_chr. f_equal. f_equal.
    assert (String squote (String a u ++ String squote rest)
            = String squote (String a u ++ str1 squote) ++ rest)%string as ->.
    { cbn [append]. do 2 f_equal. now rewrite append_assoc. }
    apply substring_prefix. }
  now rewrite (search_at_front _ _ _ _ Hm).
Qed.

Lemma usage_key (pat : re * string) (text : string) (m : mres) :
  In pat usagePatterns -> In m (exec_all (fst pat) text) ->
  capd m 1 <> EmptyString
  /\ all_chars (fun c => negb (mem_char c "'")) (capd m 1) = true.
Proof.
  intros Hp Hm.
  assert (in_lang (plus not_quote) (capd m 1)) as Hl.
  { simpl in Hp.
    repeat (destruct Hp as [<-|Hp];
            [destruct (exec_all_capd _ text m 1 Hm eq_refl) as (r1 & Hg & Hl);
             simpl in Hg; destruct Hg as [Hg|[]]; now injection Hg as <- |]).
    destruct Hp. }
  apply plus_cls_nonempty in Hl. destruct Hl as [Ht Ha]. split.
  - intros E. rewrite E in Ht. discriminate.
  - apply (all_chars_impl (fun c => negb (is_quote c))); [|exact Ha].
    intros a H. apply negb_true_iff in H. unfold is_quote in H.
    apply orb_false_iff in H. destruct H as [H _].
    apply orb_false_iff in H. destruct H as [H _].
    unfold squote in H. cbn [mem_char]. now rewrite H.
Qed.

(** X26: every quick fix offered for the diagnostics of a document passes
    to its command, as first argument, the key of a translation call of that
    document; the fix adds the key when the catalog does not know it and
    completes it otherwise. *)
Theorem X26_quick_fix_names_the_key (p : Provider) (text : string)
  (action : CodeAction) :
  In action (provideCodeActions (updateDiagnostics p text)) ->
  exists call,
    In call (findTranslationCalls text)
    /\ hd_error (arguments (a_command action)) = Some (c_key call)
    /\ (getTranslation p (c_key call) None = None ->
        In (command (a_command action))
          ["laravel.addTranslationKey"; "laravel.addTranslationKeyAllLocales"])
    /\ (getTranslation p (c_key call) None <> None ->
        command (a_command action) = "laravel.completeTranslation").
Proof.
  unfold provideCodeActions, updateDiagnostics. intros Hin.
  apply in_flat_map in Hin. destruct Hin as (d & Hd & Ha).
  apply in_flat_map in Hd. destruct Hd as (call & Hc & Hd).
  exists call. split; [exact Hc|].
  assert (c_key call <> EmptyString
          /\ all_chars (fun c => negb (mem_char c "'")) (c_key call) = true)
    as [Hne Hk].
  { unfold findTranslationCalls in Hc. apply in_flat_map in Hc.
    destruct Hc as (pat & Hp & Hc). apply in_map_iff in Hc.
    destruct Hc as (m & <- & Hm). cbn [c_key callOf].
    now apply (usage_key pat text m). }
  unfold diagnoseCall in Hd.
  destruct (getTranslation p (c_key call) None) as [t|].
  - destruct (0 <? List.length (missingLocales p (c_key call))); [|destruct Hd].
    destruct Hd as [<-|[]]. cbn [d_source d_code d_message] in Ha.
    cbn [String.eqb Ascii.eqb Bool.eqb app] in Ha.
    destruct Ha as [<-|[]].
    cbn [createCompleteTranslationAction a_command arguments command hd_error
         d_message].
    split; [|split; [discriminate | reflexivity]].
    f_equal.
    apply (first_single_quoted "Translation " (c_key call)
             (" missing in locales: "
              ++ concat ", " (missingLocales p (c_key call)))%string);
      [reflexivity | exact Hk | exact Hne].
  - destruct Hd as [<-|[]]. cbn [d_source d_code d_message] in Ha.
    cbn [String.eqb Ascii.eqb Bool.eqb app] in Ha.
    assert (extractKeyFromDiagnostic
              ("Translation key '" ++ c_key call ++ "' not found")
            = c_key call) as E.
    { apply (first_single_quoted "Translation key " (c_key call) " not found");
        [reflexivity | exact Hk | exact Hne]. }
    destruct Ha as [<-|[<-|[]]];
      cbn [createAddTranslationAction createAddAllLocalesAction a_command
           arguments command hd_error d_message];
      rewrite E; (split; [reflexivity|]); (split; [|congruence]); intros _;
      simpl; tauto.
Qed.

Lemma X26_welcome_scenario :
  exists call,
    In call (findTranslationCalls "<h1>{{ __('messages.welcome') }}</h1>")
    /\ hd_error ["messages.welcome"; "en"; EmptyString] = Some (c_key call)
    /\ (getTranslation (MkProvider JsMap.empty []) (c_key call) None = None ->
        In "laravel.addTranslationKey"
          ["laravel.addTranslationKey"; "laravel.addTranslationKeyAllLocales"])
    /\ (getTranslation (MkProvider JsMap.empty []) (c_key call) None <> None ->
        "laravel.addTranslationKey" = "laravel.completeTranslation").
Proof.
  apply (X26_quick_fix_names_the_key (MkProvider JsMap.empty [])
           "<h1>{{ __('messages.welcome') }}</h1>"
           (MkAction "Add translation key to default locale"
              (MkCommand "laravel.addTranslationKey" "Add Translation Key"
                 ["messages.welcome"; "en"; EmptyString]))).
  vm_compute. tauto.
Defined.

End TranslationActionFacts.
